(** * The rationalizer: lowering of tree-shaped HIR into linear LIR

    A shallow embedding of [src/jit/rationalize.cpp].  The IR lives in an
    arena of nodes addressed by handle; every node carries its operator,
    type, flag word, operand slots and the two linear-order links
    [gtPrev]/[gtNext].  Stateful code is written in a state-and-abort monad
    over the compiler instance.  Release-build semantics is modelled:
    [assert] is a no-op, [noway_assert] and [unreached] abort the
    compilation of the method. *)

From Stdlib Require Import ZArith Lia Bool.
From stdpp Require Import base option list.

Set Default Proof Using "Type".

(** ** Operator catalogue

    The kinds named by the rationalizer, and a few ordinary leaf, unary and
    binary operators standing for the rest of the catalogue (which this
    phase passes through its [default] cases). *)

Inductive genTreeOps : Set :=
  | GT_LCL_VAR | GT_LCL_FLD | GT_REG_VAR | GT_PHI_ARG
  | GT_STORE_LCL_VAR | GT_STORE_LCL_FLD
  | GT_LCL_VAR_ADDR | GT_LCL_FLD_ADDR
  | GT_CLS_VAR | GT_CLS_VAR_ADDR
  | GT_IND | GT_STOREIND | GT_NULLCHECK
  | GT_BLK | GT_OBJ | GT_DYN_BLK
  | GT_STORE_BLK | GT_STORE_OBJ | GT_STORE_DYN_BLK
  | GT_ASG | GT_ADDR | GT_BOX | GT_NOP | GT_COMMA
  | GT_LIST | GT_ARGPLACE | GT_CALL | GT_INTRINSIC
  | GT_SIMD | GT_LEA | GT_QMARK
  | GT_STMT | GT_IL_OFFSET
  | GT_CNS_INT | GT_NEG | GT_ADD | GT_RETURN.

#[global] Instance genTreeOps_eq_dec : EqDecision genTreeOps.
Proof. solve_decision. Defined.

Inductive var_types : Set :=
  | TYP_UNKNOWN | TYP_VOID | TYP_INT | TYP_LONG | TYP_FLOAT | TYP_DOUBLE
  | TYP_REF | TYP_BYREF | TYP_STRUCT
  | TYP_SIMD8 | TYP_SIMD12 | TYP_SIMD16 | TYP_SIMD32.

#[global] Instance var_types_eq_dec : EqDecision var_types.
Proof. solve_decision. Defined.

Inductive SIMDIntrinsicID : Set :=
  | SIMDIntrinsicInit | SIMDIntrinsicInitArray | SIMDIntrinsicOther (id : nat).

#[global] Instance SIMDIntrinsicID_eq_dec : EqDecision SIMDIntrinsicID.
Proof. solve_decision. Defined.

(** Modelled from the spec: the operator classes of the node header
    (gentree.h is not among the sources).  The local-variable kinds are the
    "local variable / local field / aliasing forms", reads and stores alike;
    the indirections are the dereference, the store through a pointer, the
    null check and the block kinds. *)

Definition OperIsLocal (oper : genTreeOps) : bool :=
  match oper with
  | GT_LCL_VAR | GT_PHI_ARG | GT_REG_VAR | GT_LCL_FLD
  | GT_STORE_LCL_VAR | GT_STORE_LCL_FLD => true
  | _ => false
  end.

Definition OperIsLocalStore (oper : genTreeOps) : bool :=
  match oper with
  | GT_STORE_LCL_VAR | GT_STORE_LCL_FLD => true
  | _ => false
  end.

Definition OperIsLocalRead (oper : genTreeOps) : bool :=
  OperIsLocal oper && negb (OperIsLocalStore oper).

Definition OperIsLocalAddr (oper : genTreeOps) : bool :=
  match oper with
  | GT_LCL_VAR_ADDR | GT_LCL_FLD_ADDR => true
  | _ => false
  end.

Definition OperIsBlk (oper : genTreeOps) : bool :=
  match oper with
  | GT_BLK | GT_OBJ | GT_DYN_BLK
  | GT_STORE_BLK | GT_STORE_OBJ | GT_STORE_DYN_BLK => true
  | _ => false
  end.

Definition OperIsIndir (oper : genTreeOps) : bool :=
  match oper with
  | GT_IND | GT_STOREIND | GT_NULLCHECK => true
  | _ => OperIsBlk oper
  end.

Definition varTypeIsSIMD (t : var_types) : bool :=
  match t with
  | TYP_SIMD8 | TYP_SIMD12 | TYP_SIMD16 | TYP_SIMD32 => true
  | _ => false
  end.

(** ** Abnormal exits *)

Inductive Abort : Set :=
  | NoWayAssert   (* noway_assert(...) failed *)
  | Unreached     (* unreached() *)
  | NullDeref     (* a null or dangling node pointer was dereferenced *)
  | OutOfFuel.    (* a loop of the model ran out of its step budget *)

Inductive Res (A : Type) : Type :=
  | Ok (a : A)
  | Err (e : Abort).
Arguments Ok {A} a.
Arguments Err {A} e.

Definition isFatal (e : Abort) : bool :=
  match e with
  | NoWayAssert | Unreached => true
  | NullDeref | OutOfFuel => false
  end.

(** ** Store, address and load forms (rationalize.cpp, lines 58-103) *)

Definition storeForm (loadForm : genTreeOps) : Res genTreeOps :=
  match loadForm with
  | GT_LCL_VAR => Ok GT_STORE_LCL_VAR
  | GT_LCL_FLD => Ok GT_STORE_LCL_FLD
  | GT_REG_VAR => Err NoWayAssert
  | _ => Err NoWayAssert
  end.

Definition addrForm (loadForm : genTreeOps) : Res genTreeOps :=
  match loadForm with
  | GT_LCL_VAR => Ok GT_LCL_VAR_ADDR
  | GT_LCL_FLD => Ok GT_LCL_FLD_ADDR
  | _ => Err NoWayAssert
  end.

Definition loadForm (addrForm : genTreeOps) : Res genTreeOps :=
  match addrForm with
  | GT_LCL_VAR_ADDR => Ok GT_LCL_VAR
  | GT_LCL_FLD_ADDR => Ok GT_LCL_FLD
  | _ => Err NoWayAssert
  end.

Definition bindRes {A B} (r : Res A) (f : A -> Res B) : Res B :=
  match r with
  | Ok a => f a
  | Err e => Err e
  end.

Definition isOk {A} (r : Res A) : bool :=
  match r with
  | Ok _ => true
  | Err _ => false
  end.

(** The kinds that have a store form and an address form: the plain reads
    of a local variable and of a local field. *)
Definition isReadKind (k : genTreeOps) : bool :=
  match k with
  | GT_LCL_VAR | GT_LCL_FLD => true
  | _ => false
  end.

(** ** Flag bits

    The flag constants are declared in the node header, which is not part
    of the sources at hand; they are kept abstract.  Theorems state the
    disjointness facts they rely on. *)

Class FlagBits : Type := {
  GTF_ALL_EFFECT : Z;       (* GTF_ASG | GTF_CALL | GTF_EXCEPT | GTF_GLOB_REF | GTF_ORDER_SIDEEFF *)
  GTF_CALL : Z;
  GTF_GLOB_REF : Z;
  GTF_REVERSE_OPS : Z;
  GTF_LATE_ARG : Z;
  GTF_DONT_CSE : Z;
  GTF_LIVENESS_MASK : Z;
  GTF_VAR_USEASG : Z;
  GTF_VAR_USEDEF : Z;
  GTF_IND_FLAGS : Z;
  GTF_BLK_VOLATILE : Z;
  GTF_BLK_UNALIGNED : Z;
  GTF_BLK_INIT : Z;
  GTF_LIST_AGGREGATE : Z
}.

(** [(flags & mask) != 0] *)
Definition hasFlag (flags mask : Z) : bool := negb (Z.land flags mask =? 0)%Z.

(** ** Nodes *)

(** Nodes are referred to by their index in the arena. *)
Abbreviation NodeId := nat (only parsing).

Inductive FieldSeq : Set :=
  | FieldSeqNull | FieldSeqNotAField | FieldSeqField (hnd : nat).

#[global] Instance FieldSeq_eq_dec : EqDecision FieldSeq.
Proof. solve_decision. Defined.

(** Side data of local-variable nodes (GenTreeLclVarCommon, GenTreeLclFld). *)
Record LclData : Set := {
  gtLclNum : nat;
  gtSsaNum : nat;
  gtLclOffs : nat;
  gtFieldSeq : FieldSeq
}.

(** Side data of statements (GenTreeStmt); [None] in [gtStmtILoffsx] is
    BAD_IL_OFFSET. *)
Record StmtData : Set := {
  gtStmtExpr : option NodeId;
  gtStmtList : option NodeId;
  gtStmtILoffsx : option nat
}.

(** One entry of a call's argument table (fgArgTabEntry). *)
Record fgArgTabEntry : Set := {
  node : NodeId;
  argNum : nat
}.

(** Side data of calls (GenTreeCall); [None] in [fgArgInfo] is a call whose
    argument table was never built. *)
Record CallData : Set := {
  gtCallObjp : option NodeId;
  gtCallArgs : option NodeId;
  gtCallLateArgs : option NodeId;
  gtCallMethHnd : nat;
  fgArgInfo : option (list fgArgTabEntry)
}.

Record IntrinsicData : Set := {
  gtIntrinsicId : nat;
  gtMethodHandle : nat
}.

Record SIMDData : Set := {
  gtSIMDIntrinsicID : SIMDIntrinsicID;
  gtSIMDBaseType : var_types;
  gtSIMDSize : nat
}.

Record AddrModeData : Set := {
  gtScale : nat;
  gtOffset : nat
}.

Record GenTree : Set := mkGenTree {
  gtOper : genTreeOps;
  gtType : var_types;
  gtFlags : Z;
  gtPrev : option NodeId;
  gtNext : option NodeId;
  gtOp1 : option NodeId;
  gtOp2 : option NodeId;
  gtDynamicSize : option NodeId;
  gtLcl : LclData;
  gtStmt : StmtData;
  gtCall : CallData;
  gtIntrinsic : IntrinsicData;
  gtSIMD : SIMDData;
  gtAddrMode : AddrModeData
}.

Definition set_gtOper (v : genTreeOps) (t : GenTree) : GenTree :=
  {| gtOper := v; gtType := gtType t; gtFlags := gtFlags t;
     gtPrev := gtPrev t; gtNext := gtNext t; gtOp1 := gtOp1 t;
     gtOp2 := gtOp2 t; gtDynamicSize := gtDynamicSize t; gtLcl := gtLcl t;
     gtStmt := gtStmt t; gtCall := gtCall t; gtIntrinsic := gtIntrinsic t;
     gtSIMD := gtSIMD t; gtAddrMode := gtAddrMode t |}.

Definition set_gtType (v : var_types) (t : GenTree) : GenTree :=
  {| gtOper := gtOper t; gtType := v; gtFlags := gtFlags t;
     gtPrev := gtPrev t; gtNext := gtNext t; gtOp1 := gtOp1 t;
     gtOp2 := gtOp2 t; gtDynamicSize := gtDynamicSize t; gtLcl := gtLcl t;
     gtStmt := gtStmt t; gtCall := gtCall t; gtIntrinsic := gtIntrinsic t;
     gtSIMD := gtSIMD t; gtAddrMode := gtAddrMode t |}.

Definition set_gtFlags (v : Z) (t : GenTree) : GenTree :=
  {| gtOper := gtOper t; gtType := gtType t; gtFlags := v;
     gtPrev := gtPrev t; gtNext := gtNext t; gtOp1 := gtOp1 t;
     gtOp2 := gtOp2 t; gtDynamicSize := gtDynamicSize t; gtLcl := gtLcl t;
     gtStmt := gtStmt t; gtCall := gtCall t; gtIntrinsic := gtIntrinsic t;
     gtSIMD := gtSIMD t; gtAddrMode := gtAddrMode t |}.

Definition set_gtPrev (v : option NodeId) (t : GenTree) : GenTree :=
  {| gtOper := gtOper t; gtType := gtType t; gtFlags := gtFlags t;
     gtPrev := v; gtNext := gtNext t; gtOp1 := gtOp1 t; gtOp2 := gtOp2 t;
     gtDynamicSize := gtDynamicSize t; gtLcl := gtLcl t; gtStmt := gtStmt t;
     gtCall := gtCall t; gtIntrinsic := gtIntrinsic t; gtSIMD := gtSIMD t;
     gtAddrMode := gtAddrMode t |}.

Definition set_gtNext (v : option NodeId) (t : GenTree) : GenTree :=
  {| gtOper := gtOper t; gtType := gtType t; gtFlags := gtFlags t;
     gtPrev := gtPrev t; gtNext := v; gtOp1 := gtOp1 t; gtOp2 := gtOp2 t;
     gtDynamicSize := gtDynamicSize t; gtLcl := gtLcl t; gtStmt := gtStmt t;
     gtCall := gtCall t; gtIntrinsic := gtIntrinsic t; gtSIMD := gtSIMD t;
     gtAddrMode := gtAddrMode t |}.

Definition set_gtOp1 (v : option NodeId) (t : GenTree) : GenTree :=
  {| gtOper := gtOper t; gtType := gtType t; gtFlags := gtFlags t;
     gtPrev := gtPrev t; gtNext := gtNext t; gtOp1 := v; gtOp2 := gtOp2 t;
     gtDynamicSize := gtDynamicSize t; gtLcl := gtLcl t; gtStmt := gtStmt t;
     gtCall := gtCall t; gtIntrinsic := gtIntrinsic t; gtSIMD := gtSIMD t;
     gtAddrMode := gtAddrMode t |}.

Definition set_gtOp2 (v : option NodeId) (t : GenTree) : GenTree :=
  {| gtOper := gtOper t; gtType := gtType t; gtFlags := gtFlags t;
     gtPrev := gtPrev t; gtNext := gtNext t; gtOp1 := gtOp1 t; gtOp2 := v;
     gtDynamicSize := gtDynamicSize t; gtLcl := gtLcl t; gtStmt := gtStmt t;
     gtCall := gtCall t; gtIntrinsic := gtIntrinsic t; gtSIMD := gtSIMD t;
     gtAddrMode := gtAddrMode t |}.

Definition set_gtDynamicSize (v : option NodeId) (t : GenTree) : GenTree :=
  {| gtOper := gtOper t; gtType := gtType t; gtFlags := gtFlags t;
     gtPrev := gtPrev t; gtNext := gtNext t; gtOp1 := gtOp1 t;
     gtOp2 := gtOp2 t; gtDynamicSize := v; gtLcl := gtLcl t;
     gtStmt := gtStmt t; gtCall := gtCall t; gtIntrinsic := gtIntrinsic t;
     gtSIMD := gtSIMD t; gtAddrMode := gtAddrMode t |}.

Definition set_gtLcl (v : LclData) (t : GenTree) : GenTree :=
  {| gtOper := gtOper t; gtType := gtType t; gtFlags := gtFlags t;
     gtPrev := gtPrev t; gtNext := gtNext t; gtOp1 := gtOp1 t;
     gtOp2 := gtOp2 t; gtDynamicSize := gtDynamicSize t; gtLcl := v;
     gtStmt := gtStmt t; gtCall := gtCall t; gtIntrinsic := gtIntrinsic t;
     gtSIMD := gtSIMD t; gtAddrMode := gtAddrMode t |}.

Definition set_gtStmt (v : StmtData) (t : GenTree) : GenTree :=
  {| gtOper := gtOper t; gtType := gtType t; gtFlags := gtFlags t;
     gtPrev := gtPrev t; gtNext := gtNext t; gtOp1 := gtOp1 t;
     gtOp2 := gtOp2 t; gtDynamicSize := gtDynamicSize t; gtLcl := gtLcl t;
     gtStmt := v; gtCall := gtCall t; gtIntrinsic := gtIntrinsic t;
     gtSIMD := gtSIMD t; gtAddrMode := gtAddrMode t |}.

Definition set_gtCall (v : CallData) (t : GenTree) : GenTree :=
  {| gtOper := gtOper t; gtType := gtType t; gtFlags := gtFlags t;
     gtPrev := gtPrev t; gtNext := gtNext t; gtOp1 := gtOp1 t;
     gtOp2 := gtOp2 t; gtDynamicSize := gtDynamicSize t; gtLcl := gtLcl t;
     gtStmt := gtStmt t; gtCall := v; gtIntrinsic := gtIntrinsic t;
     gtSIMD := gtSIMD t; gtAddrMode := gtAddrMode t |}.

Definition set_gtSIMD_of (v : SIMDData) (t : GenTree) : GenTree :=
  {| gtOper := gtOper t; gtType := gtType t; gtFlags := gtFlags t;
     gtPrev := gtPrev t; gtNext := gtNext t; gtOp1 := gtOp1 t; gtOp2 := gtOp2 t;
     gtDynamicSize := gtDynamicSize t; gtLcl := gtLcl t; gtStmt := gtStmt t;
     gtCall := gtCall t; gtIntrinsic := gtIntrinsic t; gtSIMD := v;
     gtAddrMode := gtAddrMode t |}.

Definition set_gtAddrMode_of (v : AddrModeData) (t : GenTree) : GenTree :=
  {| gtOper := gtOper t; gtType := gtType t; gtFlags := gtFlags t;
     gtPrev := gtPrev t; gtNext := gtNext t; gtOp1 := gtOp1 t; gtOp2 := gtOp2 t;
     gtDynamicSize := gtDynamicSize t; gtLcl := gtLcl t; gtStmt := gtStmt t;
     gtCall := gtCall t; gtIntrinsic := gtIntrinsic t; gtSIMD := gtSIMD t;
     gtAddrMode := v |}.

Definition noLcl : LclData :=
  {| gtLclNum := 0; gtSsaNum := 0; gtLclOffs := 0; gtFieldSeq := FieldSeqNull |}.
Definition noStmt : StmtData :=
  {| gtStmtExpr := None; gtStmtList := None; gtStmtILoffsx := None |}.
Definition noCall : CallData :=
  {| gtCallObjp := None; gtCallArgs := None; gtCallLateArgs := None;
     gtCallMethHnd := 0; fgArgInfo := None |}.
Definition noIntrinsic : IntrinsicData :=
  {| gtIntrinsicId := 0; gtMethodHandle := 0 |}.
Definition noSIMD : SIMDData :=
  {| gtSIMDIntrinsicID := SIMDIntrinsicOther 0; gtSIMDBaseType := TYP_UNKNOWN;
     gtSIMDSize := 0 |}.
Definition noAddrMode : AddrModeData := {| gtScale := 0; gtOffset := 0 |}.

(** A freshly constructed node: no flags, not linked into any order. *)
Definition newNode (oper : genTreeOps) (type : var_types)
    (op1 op2 : option NodeId) : GenTree :=
  {| gtOper := oper; gtType := type; gtFlags := 0;
     gtPrev := None; gtNext := None; gtOp1 := op1; gtOp2 := op2;
     gtDynamicSize := None; gtLcl := noLcl; gtStmt := noStmt; gtCall := noCall;
     gtIntrinsic := noIntrinsic; gtSIMD := noSIMD; gtAddrMode := noAddrMode |}.

(** ** Compiler instance *)

Record LclVarDsc : Set := {
  lvType : var_types;
  lvExactSize : nat;
  lvRefCnt : nat;
  lvPromotedIndependent : bool
}.

(** A basic block.  Before the phase [bbTreeList] is the first statement;
    [MakeLIR] turns it into the first node of the block's linear range and
    records the last node in [bbLastNode]. *)
Record BasicBlock : Set := {
  bbTreeList : option NodeId;
  bbLastNode : option NodeId;
  bbIsLIR : bool
}.

Record Compiler : Set := {
  nodes : list GenTree;           (* the node arena *)
  fgBBs : list BasicBlock;        (* fgFirstBB and its bbNext chain *)
  m_block : option nat;           (* the block being rationalized *)
  lvaTable : list LclVarDsc;
  compRationalIRForm : bool
}.

Definition set_nodes (v : list GenTree) (c : Compiler) : Compiler :=
  {| nodes := v; fgBBs := fgBBs c; m_block := m_block c;
     lvaTable := lvaTable c; compRationalIRForm := compRationalIRForm c |}.
Definition set_fgBBs (v : list BasicBlock) (c : Compiler) : Compiler :=
  {| nodes := nodes c; fgBBs := v; m_block := m_block c;
     lvaTable := lvaTable c; compRationalIRForm := compRationalIRForm c |}.
Definition set_m_block (v : option nat) (c : Compiler) : Compiler :=
  {| nodes := nodes c; fgBBs := fgBBs c; m_block := v;
     lvaTable := lvaTable c; compRationalIRForm := compRationalIRForm c |}.
Definition set_lvaTable (v : list LclVarDsc) (c : Compiler) : Compiler :=
  {| nodes := nodes c; fgBBs := fgBBs c; m_block := m_block c;
     lvaTable := v; compRationalIRForm := compRationalIRForm c |}.
Definition set_compRationalIRForm (v : bool) (c : Compiler) : Compiler :=
  {| nodes := nodes c; fgBBs := fgBBs c; m_block := m_block c;
     lvaTable := lvaTable c; compRationalIRForm := v |}.

(** ** The state-and-abort monad *)

Definition M (A : Type) : Type := Compiler -> Res (A * Compiler).

#[global] Instance M_ret : MRet M := fun A a s => Ok (a, s).
#[global] Instance M_bind : MBind M := fun A B f m s =>
  match m s with
  | Ok (a, s') => f a s'
  | Err e => Err e
  end.

Definition abort {A} (e : Abort) : M A := fun _ => Err e.

Definition liftRes {A} (r : Res A) : M A :=
  fun s => match r with Ok a => Ok (a, s) | Err e => Err e end.

(** Dereference of a node pointer. *)
Definition getNode (n : NodeId) : M GenTree :=
  fun s => match nodes s !! n with
           | Some t => Ok (t, s)
           | None => Err NullDeref
           end.

(** Use of a possibly-null pointer where the code dereferences it. *)
Definition deref (p : option NodeId) : M NodeId :=
  match p with
  | Some n => mret n
  | None => abort NullDeref
  end.

(** In-place update of the node behind a pointer. *)
Definition modNode (n : NodeId) (f : GenTree -> GenTree) : M unit :=
  fun s => match nodes s !! n with
           | Some t => Ok (tt, set_nodes (<[n := f t]> (nodes s)) s)
           | None => Err NullDeref
           end.

(** Allocation of a new node at the end of the arena. *)
Definition allocNode (t : GenTree) : M NodeId :=
  fun s => Ok (length (nodes s), set_nodes (nodes s ++ [t]) s).

Definition SetOper (n : NodeId) (oper : genTreeOps) : M unit :=
  modNode n (set_gtOper oper).
Definition setType (n : NodeId) (type : var_types) : M unit :=
  modNode n (set_gtType type).
Definition setFlags (n : NodeId) (f : Z -> Z) : M unit :=
  modNode n (fun t => set_gtFlags (f (gtFlags t)) t).
Definition setPrev (n : NodeId) (p : option NodeId) : M unit :=
  modNode n (set_gtPrev p).
Definition setNext (n : NodeId) (p : option NodeId) : M unit :=
  modNode n (set_gtNext p).

(** [when c m]: a one-armed conditional. *)
Definition when (c : bool) (m : M unit) : M unit :=
  if c then m else mret tt.

(** ** External collaborators and build configuration

    Queries answered by other parts of the compiler (the SIMD support, the
    target description, the type tables) and the preprocessor switches of
    the build. *)

Class JitEnv : Type := {
  FEATURE_SIMD : bool;                 (* #ifdef FEATURE_SIMD *)
  TARGET_XARCH : bool;                 (* #ifdef _TARGET_XARCH_ *)
  featureSIMD : bool;                  (* comp->featureSIMD *)
  TARGET_POINTER_SIZE : nat;
  TYP_I_IMPL : var_types;
  isAddrOfSIMDType : Compiler -> NodeId -> bool;
  getBaseTypeOfSIMDLocal : Compiler -> NodeId -> var_types;
  getSIMDTypeForSize : nat -> var_types;
  genTypeSize : var_types -> nat;
  OperIsInitBlkOp : Compiler -> NodeId -> bool;
  IsTargetIntrinsic : nat -> bool;
  IsIntrinsicImplementedByUserCall : nat -> bool;
  offsetof_u1Elems : nat               (* offsetof(CORINFO_Array, u1Elems) *)
}.

Section Model.
Context {FB : FlagBits} {JE : JitEnv}.

(** Ask an external collaborator about the current state. *)
Definition query {A} (f : Compiler -> A) : M A := fun s => Ok (f s, s).

Definition modify (f : Compiler -> Compiler) : M unit := fun s => Ok (tt, f s).

(** copy the flags determined by mask from src to dst (lines 106-110) *)
Definition copyFlags (dst src : NodeId) (mask : Z) : M unit :=
  setFlags dst (fun f => Z.land f (Z.lnot mask)) ;;
  s ← getNode src ;
  setFlags dst (fun f => Z.lor f (Z.land (gtFlags s) mask)).

(** ** The block's linear range

    [BlockRange()] is the range of [m_block]: its first and last node, the
    nodes in between being chained by [gtNext]/[gtPrev]. *)

Definition getBlock : M BasicBlock :=
  fun s => match m_block s ≫= (fun b => fgBBs s !! b) with
           | Some bb => Ok (bb, s)
           | None => Err NullDeref
           end.

Definition modBlock (f : BasicBlock -> BasicBlock) : M unit :=
  fun s => match m_block s with
           | Some b =>
               match fgBBs s !! b with
               | Some bb => Ok (tt, set_fgBBs (<[b := f bb]> (fgBBs s)) s)
               | None => Err NullDeref
               end
           | None => Err NullDeref
           end.

Definition FirstNode : M (option NodeId) := bb ← getBlock ; mret (bbTreeList bb).
Definition LastNode : M (option NodeId) := bb ← getBlock ; mret (bbLastNode bb).

Definition setFirstNode (n : option NodeId) : M unit :=
  modBlock (fun bb => {| bbTreeList := n; bbLastNode := bbLastNode bb;
                         bbIsLIR := bbIsLIR bb |}).
Definition setLastNode (n : option NodeId) : M unit :=
  modBlock (fun bb => {| bbTreeList := bbTreeList bb; bbLastNode := n;
                         bbIsLIR := bbIsLIR bb |}).

(** Modelled from the spec: [LIR::Range::Remove] (lir.cpp is not among the
    sources): "excises one node from linear order, re-linking neighbors". *)
Definition Range_Remove (n : NodeId) : M unit :=
  t ← getNode n ;
  let prev := gtPrev t in
  let next := gtNext t in
  match prev with
  | Some p => setNext p next
  | None => setFirstNode next
  end ;;
  match next with
  | Some x => setPrev x prev
  | None => setLastNode prev
  end ;;
  setPrev n None ;;
  setNext n None.

(** Modelled from the spec: [LIR::Range::InsertBefore]/[InsertAfter]: "splices
    one or more nodes into linear order adjacent to an anchor".  [first] ..
    [last] is an already chained run of nodes; a null insertion point
    appends (resp. prepends). *)
Definition FinishInsertBefore (insertionPoint : option NodeId)
    (first last : NodeId) : M unit :=
  match insertionPoint with
  | None =>
      fn ← FirstNode ;
      match fn with
      | None => setFirstNode (Some first)
      | Some _ =>
          ln ← LastNode ;
          l ← deref ln ;
          setNext l (Some first) ;;
          setPrev first (Some l)
      end ;;
      setLastNode (Some last)
  | Some ip =>
      t ← getNode ip ;
      setPrev first (gtPrev t) ;;
      match gtPrev t with
      | None => setFirstNode (Some first)
      | Some p => setNext p (Some first)
      end ;;
      setNext last (Some ip) ;;
      setPrev ip (Some last)
  end.

Definition FinishInsertAfter (insertionPoint : option NodeId)
    (first last : NodeId) : M unit :=
  match insertionPoint with
  | None =>
      ln ← LastNode ;
      match ln with
      | None => setLastNode (Some last)
      | Some _ =>
          fn ← FirstNode ;
          f ← deref fn ;
          setPrev f (Some last) ;;
          setNext last (Some f)
      end ;;
      setFirstNode (Some first)
  | Some ip =>
      t ← getNode ip ;
      setNext last (gtNext t) ;;
      match gtNext t with
      | None => setLastNode (Some last)
      | Some x => setPrev x (Some last)
      end ;;
      setPrev first (Some ip) ;;
      setNext ip (Some first)
  end.

Definition Range_InsertBefore (insertionPoint : option NodeId) (n : NodeId) : M unit :=
  FinishInsertBefore insertionPoint n n.

Definition Range_InsertBefore2 (insertionPoint : option NodeId)
    (node1 node2 : NodeId) : M unit :=
  setNext node1 (Some node2) ;;
  setPrev node2 (Some node1) ;;
  FinishInsertBefore insertionPoint node1 node2.

Definition Range_InsertAfter (insertionPoint : option NodeId) (n : NodeId) : M unit :=
  FinishInsertAfter insertionPoint n n.

(** Elements of a GT_LIST chain ([Current()] is [gtOp1], [Rest()] is [gtOp2]). *)
Fixpoint listElems (fuel : nat) (ns : list GenTree) (p : option NodeId) : list NodeId :=
  match fuel, p with
  | S fuel', Some l =>
      match ns !! l with
      | Some t => option_list (gtOp1 t) ++ listElems fuel' ns (gtOp2 t)
      | None => []
      end
  | _, _ => []
  end.

(** Modelled from the spec: the operand edges of a node in linear IR (the
    operand iterator of the node header): the fixed operand slots of the
    kind; a call uses its arguments themselves, the GT_LIST scaffolding being
    transparent. *)
Definition Operands (ns : list GenTree) (t : GenTree) : list NodeId :=
  match gtOper t with
  | GT_LCL_VAR | GT_LCL_FLD | GT_REG_VAR | GT_PHI_ARG
  | GT_LCL_VAR_ADDR | GT_LCL_FLD_ADDR | GT_CLS_VAR | GT_CLS_VAR_ADDR
  | GT_ARGPLACE | GT_CNS_INT | GT_IL_OFFSET | GT_STMT => []
  | GT_STORE_LCL_VAR | GT_STORE_LCL_FLD | GT_IND | GT_NULLCHECK
  | GT_BLK | GT_OBJ | GT_ADDR | GT_BOX | GT_NOP | GT_NEG | GT_RETURN =>
      option_list (gtOp1 t)
  | GT_DYN_BLK =>
      option_list (gtOp1 t) ++ option_list (gtDynamicSize t)
  | GT_STORE_DYN_BLK =>
      option_list (gtOp1 t) ++ option_list (gtOp2 t) ++ option_list (gtDynamicSize t)
  | GT_CALL =>
      option_list (gtCallObjp (gtCall t))
      ++ listElems (length ns) ns (gtCallArgs (gtCall t))
      ++ listElems (length ns) ns (gtCallLateArgs (gtCall t))
  | _ => option_list (gtOp1 t) ++ option_list (gtOp2 t)
  end.

(** Operands that take part in the execution order: argument placeholders
    do not. *)
Fixpoint markableOperands (ops : list NodeId) : M (list NodeId) :=
  match ops with
  | [] => mret []
  | o :: rest =>
      t ← getNode o ;
      r ← markableOperands rest ;
      mret (if decide (gtOper t = GT_ARGPLACE) then r else o :: r)
  end.

(** Result of [GetTreeRange]: the first and last node of the range, whether
    the range is closed, and the union of the side-effect flags in it. *)
Record TreeRange : Set := {
  rangeFirst : NodeId;
  rangeLast : NodeId;
  isClosed : bool;
  sideEffects : Z
}.

(** Modelled from the spec: [LIR::Range::GetTreeRange]: "returns the
    contiguous linear sub-range that exactly covers a subtree rooted at
    node, plus a flag reporting whether that range is topologically closed
    and the union of side-effect flags across it".  The range is found by
    walking [gtPrev] from the root, marking the operands of every marked
    node, until no mark is pending. *)
Fixpoint GetMarkedRange (fuel : nat) (markCount : nat) (marks : list NodeId)
    (firstNode : NodeId) (lastNode : option NodeId)
    (sawUnmarkedNode : bool) (sideEffectsInRange : Z) : M TreeRange :=
  match fuel with
  | 0 => abort OutOfFuel
  | S fuel' =>
      t ← getNode firstNode ;
      ns ← query nodes ;
      ops ← (if decide (firstNode ∈ marks)
             then markableOperands (Operands ns t) else mret []) ;
      let marked := bool_decide (firstNode ∈ marks) in
      let lastNode' :=
        if marked then Some (default firstNode lastNode) else lastNode in
      let marks' :=
        if marked then ops ++ filter (fun m => m ≠ firstNode) marks else marks in
      let markCount' :=
        if marked then markCount + length ops - 1 else markCount in
      let saw' :=
        if marked then sawUnmarkedNode
        else sawUnmarkedNode || bool_decide (is_Some lastNode) in
      let sideEffects' :=
        match lastNode' with
        | Some _ => Z.lor sideEffectsInRange (Z.land (gtFlags t) GTF_ALL_EFFECT)
        | None => sideEffectsInRange
        end in
      if decide (markCount' = 0) then
        l ← deref lastNode' ;
        mret {| rangeFirst := firstNode; rangeLast := l;
                isClosed := negb saw'; sideEffects := sideEffects' |}
      else
        p ← deref (gtPrev t) ;
        GetMarkedRange fuel' markCount' marks' p lastNode' saw' sideEffects'
  end.

Definition Range_GetTreeRange (root : NodeId) : M TreeRange :=
  ns ← query nodes ;
  GetMarkedRange (S (length ns)) 1 [root] root None false 0.

(** Modelled from the spec: [Compiler::lvaDecRefCnts] (lclvars.cpp is not
    among the sources): dropping a local read means "decrementing that
    local's reference count"; reduced to the count of the local the node
    names. *)
Definition decRefCnt (lclNum : nat) : M unit :=
  fun s =>
    match lvaTable s !! lclNum with
    | Some d =>
        Ok (tt, set_lvaTable
                  (<[lclNum :=
                       {| lvType := lvType d; lvExactSize := lvExactSize d;
                          lvRefCnt := pred (lvRefCnt d);
                          lvPromotedIndependent := lvPromotedIndependent d |}]>
                     (lvaTable s)) s)
    | None => Err NoWayAssert
    end.

Definition lvaDecRefCnts (n : NodeId) : M unit :=
  t ← getNode n ;
  decRefCnt (gtLclNum (gtLcl t)).

Fixpoint decRefCntsInRange (fuel : nat) (cur last : NodeId) : M unit :=
  match fuel with
  | 0 => abort OutOfFuel
  | S fuel' =>
      t ← getNode cur ;
      when (OperIsLocal (gtOper t)) (lvaDecRefCnts cur) ;;
      if decide (cur = last) then mret tt
      else
        nx ← deref (gtNext t) ;
        decRefCntsInRange fuel' nx last
  end.

(** Modelled from the spec: [LIR::Range::Delete]: "removes an entire
    previously-identified range"; the reference counts of the locals in the
    range are decremented. *)
Definition Range_Delete (range : TreeRange) : M unit :=
  ns ← query nodes ;
  decRefCntsInRange (S (length ns)) (rangeFirst range) (rangeLast range) ;;
  f ← getNode (rangeFirst range) ;
  l ← getNode (rangeLast range) ;
  let prev := gtPrev f in
  let next := gtNext l in
  match prev with
  | Some p => setNext p next
  | None => setFirstNode next
  end ;;
  match next with
  | Some x => setPrev x prev
  | None => setLastNode prev
  end ;;
  setPrev (rangeFirst range) None ;;
  setNext (rangeLast range) None.

(** ** Uses (def-use edges)

    An edge is the storage slot that holds a node reference. *)

Inductive Edge : Set :=
  | EdgeOp1 (user : NodeId)
  | EdgeOp2 (user : NodeId)
  | EdgeDynamicSize (user : NodeId)
  | EdgeCallObjp (user : NodeId)
  | EdgeCallArgs (user : NodeId)
  | EdgeCallLateArgs (user : NodeId)
  | EdgeStmtExpr (stmt : NodeId).

Definition set_gtCallObjp (v : option NodeId) (c : CallData) : CallData :=
  {| gtCallObjp := v; gtCallArgs := gtCallArgs c;
     gtCallLateArgs := gtCallLateArgs c; gtCallMethHnd := gtCallMethHnd c;
     fgArgInfo := fgArgInfo c |}.
Definition set_gtCallArgs (v : option NodeId) (c : CallData) : CallData :=
  {| gtCallObjp := gtCallObjp c; gtCallArgs := v;
     gtCallLateArgs := gtCallLateArgs c; gtCallMethHnd := gtCallMethHnd c;
     fgArgInfo := fgArgInfo c |}.
Definition set_gtCallLateArgs (v : option NodeId) (c : CallData) : CallData :=
  {| gtCallObjp := gtCallObjp c; gtCallArgs := gtCallArgs c;
     gtCallLateArgs := v; gtCallMethHnd := gtCallMethHnd c;
     fgArgInfo := fgArgInfo c |}.
Definition set_fgArgInfo (v : option (list fgArgTabEntry)) (c : CallData) : CallData :=
  {| gtCallObjp := gtCallObjp c; gtCallArgs := gtCallArgs c;
     gtCallLateArgs := gtCallLateArgs c; gtCallMethHnd := gtCallMethHnd c;
     fgArgInfo := v |}.
Definition set_gtStmtExpr (v : option NodeId) (d : StmtData) : StmtData :=
  {| gtStmtExpr := v; gtStmtList := gtStmtList d;
     gtStmtILoffsx := gtStmtILoffsx d |}.
Definition set_gtStmtList (v : option NodeId) (d : StmtData) : StmtData :=
  {| gtStmtExpr := gtStmtExpr d; gtStmtList := v;
     gtStmtILoffsx := gtStmtILoffsx d |}.

Definition edgeOwner (e : Edge) : NodeId :=
  match e with
  | EdgeOp1 u | EdgeOp2 u | EdgeDynamicSize u
  | EdgeCallObjp u | EdgeCallArgs u | EdgeCallLateArgs u | EdgeStmtExpr u => u
  end.

Definition edgeGet (e : Edge) (t : GenTree) : option NodeId :=
  match e with
  | EdgeOp1 _ => gtOp1 t
  | EdgeOp2 _ => gtOp2 t
  | EdgeDynamicSize _ => gtDynamicSize t
  | EdgeCallObjp _ => gtCallObjp (gtCall t)
  | EdgeCallArgs _ => gtCallArgs (gtCall t)
  | EdgeCallLateArgs _ => gtCallLateArgs (gtCall t)
  | EdgeStmtExpr _ => gtStmtExpr (gtStmt t)
  end.

Definition edgeSet (e : Edge) (v : option NodeId) (t : GenTree) : GenTree :=
  match e with
  | EdgeOp1 _ => set_gtOp1 v t
  | EdgeOp2 _ => set_gtOp2 v t
  | EdgeDynamicSize _ => set_gtDynamicSize v t
  | EdgeCallObjp _ => set_gtCall (set_gtCallObjp v (gtCall t)) t
  | EdgeCallArgs _ => set_gtCall (set_gtCallArgs v (gtCall t)) t
  | EdgeCallLateArgs _ => set_gtCall (set_gtCallLateArgs v (gtCall t)) t
  | EdgeStmtExpr _ => set_gtStmt (set_gtStmtExpr v (gtStmt t)) t
  end.

(** [*edge] and [*edge = v] *)
Definition readEdge (e : Edge) : M (option NodeId) :=
  t ← getNode (edgeOwner e) ; mret (edgeGet e t).
Definition writeEdge (e : Edge) (v : option NodeId) : M unit :=
  modNode (edgeOwner e) (edgeSet e v).

(** Modelled from the spec: [LIR::Use] (lir.h is not among the sources),
    which "identifies the storage slot holding a node reference and, if
    any, the immediate consuming node".  A dummy use (of a statement root,
    which has no consumer) has no slot in the tree: its edge is its own
    [m_user] field, written here as [m_edge = None]. *)
Record Use : Set := {
  m_edge : option Edge;
  m_user : NodeId
}.

Definition GetDummyUse (n : NodeId) : Use := {| m_edge := None; m_user := n |}.
Definition Use_IsDummyUse (use : Use) : bool := bool_decide (m_edge use = None).
Definition Use_User (use : Use) : NodeId := m_user use.
Definition Use_Def (use : Use) : M NodeId :=
  match m_edge use with
  | None => mret (m_user use)
  | Some e => p ← readEdge e ; deref p
  end.

(** ** Call-argument fixup (lines 23-55, 114-158) *)

Fixpoint isNodeCallArg_loop (ancestors : list NodeId) : M (option NodeId) :=
  match ancestors with
  | [] => mret None
  | n :: rest =>
      t ← getNode n ;
      match gtOper t with
      | GT_LIST | GT_ARGPLACE => isNodeCallArg_loop rest
      | GT_NOP =>
          op1 ← deref (gtOp1 t) ;
          t1 ← getNode op1 ;
          if decide (gtOper t1 = GT_CALL) then mret (Some op1)
          else isNodeCallArg_loop rest
      | GT_CALL => mret (Some n)
      | _ => mret None
      end
  end.

(** The stack is a list whose head is [Index(0)], the current node. *)
Definition isNodeCallArg (parentStack : list NodeId) : M (option NodeId) :=
  isNodeCallArg_loop (tail parentStack).

(** Modelled from the spec: [Compiler::gtArgEntryByNode]: the argument table
    is an "association from a call node to each of its argument nodes,
    keyed by node identity"; a missing table or entry is a contract
    violation. *)
Definition gtArgEntryByNode (call : NodeId) (n : NodeId)
  : M (nat * fgArgTabEntry) :=
  c ← getNode call ;
  match fgArgInfo (gtCall c) with
  | None => abort NoWayAssert
  | Some tab =>
      match list_find (fun e => node e = n) tab with
      | Some r => mret r
      | None => abort NoWayAssert
      end
  end.

Definition setArgEntryNode (call : NodeId) (i : nat) (newArg : NodeId) : M unit :=
  modNode call (fun c =>
    set_gtCall
      (set_fgArgInfo
         ((fun tab => alter (fun e => {| node := newArg; argNum := argNum e |}) i tab)
            <$> fgArgInfo (gtCall c))
         (gtCall c)) c).

Definition fgFixupArgTabEntryPtr (parentCall oldArg newArg : NodeId) : M unit :=
  o ← getNode oldArg ;
  if hasFlag (gtFlags o) GTF_LATE_ARG then
    setFlags newArg (fun f => Z.lor f GTF_LATE_ARG)
  else
    fp ← gtArgEntryByNode parentCall oldArg ;
    setArgEntryNode parentCall fp.1 newArg.

Definition fgFixupIfCallArg (parentStack : list NodeId) (oldChild newChild : NodeId)
  : M unit :=
  parentCall ← isNodeCallArg parentStack ;
  match parentCall with
  | None => mret tt
  | Some c => fgFixupArgTabEntryPtr c oldChild newChild
  end.

(** Modelled from the spec: [LIR::Use::ReplaceWith] (lir.cpp is not among
    the sources), in the four steps the spec gives it.

    Steps 1 and 2, [Use_Splice]: "computes the old node's linear sub-range"
    and "splices newNode's own linear range into the position vacated by the
    old range, stitching external neighbors".  The range of a subtree ends
    with its root, so the position is the one of the replaced node itself.
    The callers take the replaced node out of the order themselves, after
    the call (lines 570, 616, 659, 737) or before it (line 199): while the
    replaced node is still linked the replacement is unlinked from where it
    stands and linked in right before it, where the caller's removal leaves
    it in the position of the replaced node.  Nothing moves when the
    replacement already stands next to the replaced node (the callers of
    lines 568, 824 and 904 have inserted it there) or when the replaced node
    has already left the order, as no position is left to move to.  Only
    the replacement node moves; its operands stay where they are. *)
Definition isLinked (n : NodeId) : M bool :=
  t ← getNode n ;
  first ← FirstNode ;
  mret (bool_decide (is_Some (gtPrev t)) || bool_decide (is_Some (gtNext t))
        || bool_decide (first = Some n)).

Definition Use_Splice (replacedNode replacement : NodeId) : M unit :=
  o ← getNode replacedNode ;
  if bool_decide (replacedNode = replacement)
     || bool_decide (gtPrev o = Some replacement)
     || bool_decide (gtNext o = Some replacement) then mret tt
  else
    there ← isLinked replacedNode ;
    if negb there then mret tt
    else
      linked ← isLinked replacement ;
      when linked (Range_Remove replacement) ;;
      Range_InsertBefore (Some replacedNode) replacement.

(** Steps 3 and 4, [Use_Redirect]: "writes newNode into the slot" and, when
    the slot is an argument slot of a call, "updates that call's
    argument-table entry to point at newNode, unless the old argument was
    marked late, in which case the marker is copied onto the new node and
    the table is left untouched".  A use records the immediate consumer
    only; the walk presents a call as the consumer of each of its arguments
    (the cells of the argument lists are not on the stack, [walkEdges]),
    so the consumer of an argument slot is the call. *)
Definition Use_Redirect (use : Use) (replacement : NodeId) : M Use :=
  match m_edge use with
  | None => mret {| m_edge := None; m_user := replacement |}
  | Some e =>
      replacedNode ← readEdge e ;
      writeEdge e (Some replacement) ;;
      u ← getNode (m_user use) ;
      (if decide (gtOper u = GT_CALL) then
         old ← deref replacedNode ;
         fgFixupArgTabEntryPtr (m_user use) old replacement
       else mret tt) ;;
      mret use
  end.

Definition Use_ReplaceWith (use : Use) (replacement : NodeId) : M Use :=
  replacedNode ← Use_Def use ;
  Use_Splice replacedNode replacement ;;
  Use_Redirect use replacement.

(** ** Node construction *)

Definition effectsOf (p : option NodeId) : M Z :=
  match p with
  | None => mret 0%Z
  | Some n => t ← getNode n ; mret (Z.land (gtFlags t) GTF_ALL_EFFECT)
  end.

(** Modelled from the spec: the [GenTreeOp] constructor (and
    [gtNewOperNode]) of the node header, by which a node is "synthesized by
    a rewrite rule": the new node has the given kind, type and operands and
    starts with the side-effect flags of its operands. *)
Definition newOperNode (oper : genTreeOps) (type : var_types)
    (op1 op2 : option NodeId) (extra : GenTree -> GenTree) : M NodeId :=
  f1 ← effectsOf op1 ;
  f2 ← effectsOf op2 ;
  allocNode (extra (set_gtFlags (Z.lor f1 f2) (newNode oper type op1 op2))).

(** ** SIMD normalization (lines 173-211, 348-400) *)

Definition RewriteSIMDOperand (use : Use) (keepBlk : bool) : M Use :=
  if negb FEATURE_SIMD then mret use
  else if negb featureSIMD then mret use
  else
    tree ← Use_Def use ;
    t ← getNode tree ;
    if negb (OperIsIndir (gtOper t)) then mret use
    else
      let simdType := gtType t in
      if negb (varTypeIsSIMD simdType) then mret use
      else
        addr ← deref (gtOp1 t) ;
        a ← getNode addr ;
        isSimdAddr ← query (fun s => isAddrOfSIMDType s addr) ;
        if OperIsLocalAddr (gtOper a) && isSimdAddr then
          Range_Remove tree ;;
          a' ← getNode addr ;
          oper ← liftRes (loadForm (gtOper a')) ;
          SetOper addr oper ;;
          setType addr simdType ;;
          Use_ReplaceWith use addr
        else if negb keepBlk then
          SetOper tree GT_IND ;;
          setType tree simdType ;;
          mret use
        else mret use.

Definition roundUp (size mult : nat) : nat := (size + (mult - 1)) / mult * mult.

Definition FixupIfSIMDLocal (n : NodeId) : M unit :=
  if negb FEATURE_SIMD then mret tt
  else if negb featureSIMD then mret tt
  else
    t ← getNode n ;
    tab ← query lvaTable ;
    match tab !! gtLclNum (gtLcl t) with
    | None => abort NullDeref
    | Some varDsc =>
        if negb (varTypeIsSIMD (lvType varDsc)) then mret tt
        else
          let retype :=
            setType n (getSIMDTypeForSize (roundUp (lvExactSize varDsc) TARGET_POINTER_SIZE)) in
          match gtOper t with
          | GT_LCL_FLD =>
              if bool_decide (gtFieldSeq (gtLcl t) = FieldSeqNotAField)
                 && bool_decide (gtLclOffs (gtLcl t) = 0)
                 && bool_decide (gtType t = TYP_I_IMPL)
                 && bool_decide (lvExactSize varDsc = TARGET_POINTER_SIZE)
              then
                SetOper n GT_LCL_VAR ;;
                setFlags n (fun f => Z.land f (Z.lnot GTF_VAR_USEASG)) ;;
                retype
              else mret tt
          | GT_STORE_LCL_FLD =>
              SetOper n GT_STORE_LCL_VAR ;;
              setFlags n (fun f => Z.land f (Z.lnot GTF_VAR_USEASG)) ;;
              retype
          | _ => retype
          end
    end.

(** ** Assignments (lines 451-626) *)

(** From line 468 on the assignment node is used as a
    [GenTreeLclVarCommon]: the local number and the SSA number written at
    lines 471-472 take the storage that held the second operand of the
    [GenTreeOp], so that slot no longer names a node.  The field offset and
    the field sequence are parts of the node for the field kinds only. *)
Definition RewriteAssignmentIntoStoreLclCore (assignment location : NodeId)
    (value : option NodeId) (locationOp : genTreeOps) : M unit :=
  storeOp ← liftRes (storeForm locationOp) ;
  SetOper assignment storeOp ;;
  let store := assignment in
  let var := location in
  v ← getNode var ;
  modNode store (fun t =>
    set_gtOp2 None
      (set_gtLcl {| gtLclNum := gtLclNum (gtLcl v); gtSsaNum := gtSsaNum (gtLcl t);
                    gtLclOffs := gtLclOffs (gtLcl t);
                    gtFieldSeq := gtFieldSeq (gtLcl t) |} t)) ;;
  v ← getNode var ;
  modNode store (fun t =>
    set_gtLcl {| gtLclNum := gtLclNum (gtLcl t); gtSsaNum := gtSsaNum (gtLcl v);
                 gtLclOffs := gtLclOffs (gtLcl t);
                 gtFieldSeq := gtFieldSeq (gtLcl t) |} t) ;;
  when (bool_decide (locationOp = GT_LCL_FLD))
    (v ← getNode var ;
     modNode store (fun t =>
       set_gtLcl {| gtLclNum := gtLclNum (gtLcl t); gtSsaNum := gtSsaNum (gtLcl t);
                    gtLclOffs := gtLclOffs (gtLcl v);
                    gtFieldSeq := gtFieldSeq (gtLcl t) |} t) ;;
     v ← getNode var ;
     modNode store (fun t =>
       set_gtLcl {| gtLclNum := gtLclNum (gtLcl t); gtSsaNum := gtSsaNum (gtLcl t);
                    gtLclOffs := gtLclOffs (gtLcl t);
                    gtFieldSeq := gtFieldSeq (gtLcl v) |} t)) ;;
  copyFlags store var GTF_LIVENESS_MASK ;;
  setFlags store (fun f => Z.land f (Z.lnot GTF_REVERSE_OPS)) ;;
  v ← getNode var ;
  setType store (gtType v) ;;
  modNode store (set_gtOp1 value).

Definition RewriteAssignmentIntoStoreLcl (assignment : NodeId) : M unit :=
  a ← getNode assignment ;
  location ← deref (gtOp1 a) ;
  let value := gtOp2 a in
  loc ← getNode location ;
  RewriteAssignmentIntoStoreLclCore assignment location value (gtOper loc).

(** The pre-step of [RewriteAssignment] under FEATURE_SIMD (lines 513-539):
    returns the value operand to use. *)
Definition RewriteAssignment_SIMDInit (assignment location : NodeId)
    (value : option NodeId) : M (option NodeId) :=
  if negb FEATURE_SIMD then mret value
  else
    loc ← getNode location ;
    isInit ← query (fun s => OperIsInitBlkOp s assignment) ;
    if varTypeIsSIMD (gtType loc) && isInit then
      if decide (gtOper loc = GT_LCL_VAR) then
        let simdType := gtType loc in
        a ← getNode assignment ;
        let initVal := gtOp2 a in
        baseType ← query (fun s => getBaseTypeOfSIMDLocal s location) ;
        if decide (baseType ≠ TYP_UNKNOWN) then
          simdTree ← newOperNode GT_SIMD simdType initVal None
                       (set_gtSIMD_of {| gtSIMDIntrinsicID := SIMDIntrinsicInit;
                                         gtSIMDBaseType := baseType;
                                         gtSIMDSize := genTypeSize simdType |}) ;
          modNode assignment (set_gtOp2 (Some simdTree)) ;;
          iv ← deref initVal ;
          setNext iv (Some simdTree) ;;
          setPrev simdTree (Some iv) ;;
          setNext simdTree (Some location) ;;
          setPrev location (Some simdTree) ;;
          mret (Some simdTree)
        else mret value
      else mret value
    else mret value.

Definition RewriteAssignment (use : Use) : M Use :=
  assignment ← Use_Def use ;
  a ← getNode assignment ;
  location ← deref (gtOp1 a) ;
  loc ← getNode location ;
  let locationOp := gtOper loc in
  value ← RewriteAssignment_SIMDInit assignment location (gtOp2 a) ;
  match locationOp with
  | GT_LCL_VAR | GT_LCL_FLD | GT_REG_VAR | GT_PHI_ARG =>
      RewriteAssignmentIntoStoreLclCore assignment location value locationOp ;;
      Range_Remove location ;;
      mret use
  | GT_IND =>
      loc ← getNode location ;
      store ← newOperNode GT_STOREIND (gtType loc) (gtOp1 loc) value id ;
      copyFlags store assignment GTF_ALL_EFFECT ;;
      copyFlags store location GTF_IND_FLAGS ;;
      a ← getNode assignment ;
      when (hasFlag (gtFlags a) GTF_REVERSE_OPS)
        (setFlags store (fun f => Z.lor f GTF_REVERSE_OPS)) ;;
      Range_Remove location ;;
      Range_InsertBefore (Some assignment) store ;;
      use' ← Use_ReplaceWith use store ;
      Range_Remove assignment ;;
      mret use'
  | GT_CLS_VAR =>
      SetOper location GT_CLS_VAR_ADDR ;;
      setType location TYP_BYREF ;;
      SetOper assignment GT_STOREIND ;;
      mret use
  | GT_BLK | GT_OBJ | GT_DYN_BLK =>
      let storeBlk := location in
      loc ← getNode location ;
      storeOper ← match gtOper loc with
                  | GT_BLK => mret GT_STORE_BLK
                  | GT_OBJ => mret GT_STORE_OBJ
                  | GT_DYN_BLK => mret GT_STORE_DYN_BLK
                  | _ => abort Unreached
                  end ;
      SetOper storeBlk storeOper ;;
      setFlags storeBlk (fun f => Z.land f (Z.lnot GTF_DONT_CSE)) ;;
      a ← getNode assignment ;
      setFlags storeBlk (fun f =>
        Z.lor f (Z.land (gtFlags a)
                   (Z.lor GTF_ALL_EFFECT (Z.lor GTF_REVERSE_OPS (Z.lor GTF_BLK_VOLATILE
                      (Z.lor GTF_BLK_UNALIGNED (Z.lor GTF_BLK_INIT GTF_DONT_CSE))))))) ;;
      modNode storeBlk (set_gtOp2 value) ;;
      use' ← Use_ReplaceWith use storeBlk ;
      Range_Remove assignment ;;
      mret use'
  | _ => abort Unreached
  end.

(** ** Address-of (lines 628-683) *)

Definition RewriteAddress (use : Use) : M Use :=
  address ← Use_Def use ;
  a ← getNode address ;
  location ← deref (gtOp1 a) ;
  loc ← getNode location ;
  let locationOp := gtOper loc in
  if OperIsLocal locationOp then
    oper ← liftRes (addrForm locationOp) ;
    SetOper location oper ;;
    setType location TYP_BYREF ;;
    copyFlags location address GTF_ALL_EFFECT ;;
    use' ← Use_ReplaceWith use location ;
    Range_Remove address ;;
    mret use'
  else if decide (locationOp = GT_CLS_VAR) then
    SetOper location GT_CLS_VAR_ADDR ;;
    setType location TYP_BYREF ;;
    copyFlags location address GTF_ALL_EFFECT ;;
    use' ← Use_ReplaceWith use location ;
    Range_Remove address ;;
    mret use'
  else if OperIsIndir locationOp then
    op1 ← deref (gtOp1 loc) ;
    use' ← Use_ReplaceWith use op1 ;
    Range_Remove location ;;
    Range_Remove address ;;
    mret use'
  else mret use.

(** ** The per-node rewrite (lines 685-949) *)

Definition IsAggregate (t : GenTree) : bool := hasFlag (gtFlags t) GTF_LIST_AGGREGATE.

(** The loop of lines 699-704: remove the GT_LIST nodes that precede [n] in
    linear order and are not aggregates. *)
Fixpoint removePrecedingLists (fuel : nat) (n : NodeId) : M unit :=
  match fuel with
  | 0 => abort OutOfFuel
  | S fuel' =>
      t ← getNode n ;
      match gtPrev t with
      | None => mret tt
      | Some prev =>
          p ← getNode prev ;
          if bool_decide (gtOper p = GT_LIST) && negb (IsAggregate p) then
            Range_Remove prev ;;
            removePrecedingLists fuel' n
          else mret tt
      end
  end.

(** The GT_COMMA case (lines 755-799). *)
Definition RewriteComma (use : Use) (n : NodeId) : M Use :=
  t ← getNode n ;
  op1 ← deref (gtOp1 t) ;
  o1 ← getNode op1 ;
  when (Z.land (gtFlags o1) GTF_ALL_EFFECT =? 0)%Z
    (lhsRange ← Range_GetTreeRange op1 ;
     Range_Delete lhsRange) ;;
  t ← getNode n ;
  replacement ← deref (gtOp2 t) ;
  use' ← (if negb (Use_IsDummyUse use) then
            Use_ReplaceWith use replacement
          else
            r ← getNode replacement ;
            when (Z.land (gtFlags r) GTF_ALL_EFFECT =? 0)%Z
              (rhsRange ← Range_GetTreeRange replacement ;
               Range_Delete rhsRange) ;;
            mret use) ;
  Range_Remove n ;;
  mret use'.

(** The GT_CLS_VAR case (lines 809-830), compiled for xarch targets. *)
Definition RewriteClsVar (use : Use) (n : NodeId) : M Use :=
  u ← getNode (Use_User use) ;
  let isLHSOfAssignment :=
    bool_decide (gtOper u = GT_ASG) && bool_decide (gtOp1 u = Some n) in
  if negb isLHSOfAssignment then
    t ← getNode n ;
    ind ← newOperNode GT_IND (gtType t) (Some n) None id ;
    SetOper n GT_CLS_VAR_ADDR ;;
    setType n TYP_BYREF ;;
    Range_InsertAfter (Some n) ind ;;
    Use_ReplaceWith use ind
  else mret use.

(** The GT_BLK / GT_OBJ case (lines 839-869), compiled under FEATURE_SIMD. *)
Definition RewriteBlkObj (use : Use) (n : NodeId) : M Use :=
  let parent := Use_User use in
  p ← getNode parent ;
  t ← getNode n ;
  keepBlk ←
    (if bool_decide (gtOper p = GT_ASG) && bool_decide (gtOp1 p = Some n) then
       isInit ← query (fun s => OperIsInitBlkOp s parent) ;
       if bool_decide (gtType t = TYP_STRUCT) || isInit then mret true
       else
         addr ← deref (gtOp1 t) ;
         isSimdAddr ← query (fun s => isAddrOfSIMDType s addr) ;
         if negb isSimdAddr then
           dataSrc ← deref (gtOp2 p) ;
           d ← getNode dataSrc ;
           if negb (OperIsLocal (gtOper d)) && negb (bool_decide (gtOper d = GT_SIMD)) then
             if negb (OperIsIndir (gtOper d)) then abort NoWayAssert
             else
               srcAddr ← deref (gtOp1 d) ;
               isSimdSrc ← query (fun s => isAddrOfSIMDType s srcAddr) ;
               mret (negb isSimdSrc)
           else mret false
         else mret false
     else mret false) ;
  RewriteSIMDOperand use keepBlk.

(** The GT_SIMD case (lines 877-930), compiled under FEATURE_SIMD. *)
Definition RewriteSIMDNode (use : Use) (simdNode : NodeId) : M Use :=
  if negb featureSIMD then abort NoWayAssert
  else
    t ← getNode simdNode ;
    let simdSize := gtSIMDSize (gtSIMD t) in
    let simdType := getSIMDTypeForSize simdSize in
    when (bool_decide (gtType t = TYP_I_IMPL)
          && bool_decide (gtSIMDSize (gtSIMD t) = TARGET_POINTER_SIZE))
      (setType simdNode TYP_SIMD8) ;;
    if decide (gtSIMDIntrinsicID (gtSIMD t) = SIMDIntrinsicInitArray) then
      let baseTypeSize := genTypeSize (gtSIMDBaseType (gtSIMD t)) in
      address ← newOperNode GT_LEA TYP_BYREF (gtOp1 t) (gtOp2 t)
                  (set_gtAddrMode_of {| gtScale := baseTypeSize;
                                        gtOffset := offsetof_u1Elems |}) ;
      ind ← newOperNode GT_IND simdType (Some address) None id ;
      Range_InsertBefore2 (Some simdNode) address ind ;;
      use' ← Use_ReplaceWith use ind ;
      Range_Remove simdNode ;;
      mret use'
    else
      match gtOp1 t with
      | Some op1 =>
          o ← getNode op1 ;
          when (bool_decide (gtType o = TYP_STRUCT)) (setType op1 simdType)
      | None => mret tt
      end ;;
      t ← getNode simdNode ;
      match gtOp2 t with
      | Some op2 =>
          o ← getNode op2 ;
          when (bool_decide (gtType o = TYP_STRUCT)) (setType op2 simdType)
      | None => mret tt
      end ;;
      mret use.

(** The [switch] of lines 728-935. *)
Definition RewriteNode_dispatch (use : Use) (n : NodeId) (oper : genTreeOps) : M Use :=
  match oper with
  | GT_ASG => RewriteAssignment use
  | GT_BOX =>
      t ← getNode n ;
      op1 ← deref (gtOp1 t) ;
      use' ← Use_ReplaceWith use op1 ;
      Range_Remove n ;;
      mret use'
  | GT_ADDR => RewriteAddress use
  | GT_NOP =>
      t ← getNode n ;
      match gtOp1 t with
      | Some op1 =>
          use' ← Use_ReplaceWith use op1 ;
          Range_Remove n ;;
          mret use'
      | None => mret use
      end
  | GT_COMMA => RewriteComma use n
  | GT_ARGPLACE => Range_Remove n ;; mret use
  | GT_CLS_VAR =>
      if TARGET_XARCH then RewriteClsVar use n else mret use
  | GT_INTRINSIC => mret use
  | GT_BLK | GT_OBJ =>
      if FEATURE_SIMD then RewriteBlkObj use n else mret use
  | GT_LCL_FLD | GT_STORE_LCL_FLD =>
      if FEATURE_SIMD then FixupIfSIMDLocal n ;; mret use else mret use
  | GT_SIMD =>
      if FEATURE_SIMD then RewriteSIMDNode use n else mret use
  | _ => mret use
  end.

Definition RewriteNode (useEdge : Edge) (parentStack : list NodeId) : M unit :=
  p ← readEdge useEdge ;
  n ← deref p ;
  ns ← query nodes ;
  removePrecedingLists (S (length ns)) n ;;
  t ← getNode n ;
  if decide (gtOper t = GT_LIST) then
    when (negb (IsAggregate t)) (Range_Remove n)
  else
    let use :=
      match parentStack with
      | _ :: user :: _ => {| m_edge := Some useEdge; m_user := user |}
      | _ => GetDummyUse n
      end in
    use' ← RewriteNode_dispatch use n (gtOper t) ;
    t' ← getNode n ;
    when (Use_IsDummyUse use' && OperIsLocalRead (gtOper t'))
      (lvaDecRefCnts n ;;
       Range_Remove n).

(** ** The tree walk

    Modelled from the spec: [Compiler::fgWalkTreePost] with the parent stack
    enabled: "a postorder walk of one statement's expression tree" that
    "maintains an explicit stack of ancestor nodes (index 0 = current node)
    available to every callback"; "the callback may replace the node at the
    current slot".  Operands are visited in execution order, the second
    operand of a binary node first when the node is marked
    GTF_REVERSE_OPS. *)

Definition operandEdges (n : NodeId) (t : GenTree) : list Edge :=
  let binary :=
    if hasFlag (gtFlags t) GTF_REVERSE_OPS then [EdgeOp2 n; EdgeOp1 n]
    else [EdgeOp1 n; EdgeOp2 n] in
  match gtOper t with
  | GT_LCL_VAR | GT_LCL_FLD | GT_REG_VAR | GT_PHI_ARG
  | GT_LCL_VAR_ADDR | GT_LCL_FLD_ADDR | GT_CLS_VAR | GT_CLS_VAR_ADDR
  | GT_ARGPLACE | GT_CNS_INT | GT_IL_OFFSET => []
  | GT_STORE_LCL_VAR | GT_STORE_LCL_FLD | GT_IND | GT_NULLCHECK
  | GT_BLK | GT_OBJ | GT_ADDR | GT_BOX | GT_NOP | GT_NEG | GT_RETURN => [EdgeOp1 n]
  | GT_DYN_BLK => [EdgeOp1 n; EdgeDynamicSize n]
  | GT_STORE_DYN_BLK => binary ++ [EdgeDynamicSize n]
  | GT_CALL => [EdgeCallObjp n; EdgeCallArgs n; EdgeCallLateArgs n]
  | GT_STMT => [EdgeStmtExpr n]
  | _ => binary
  end.

(** The cells of a GT_LIST chain. *)
Fixpoint listCells (fuel : nat) (ns : list GenTree) (p : option NodeId) : list NodeId :=
  match fuel, p with
  | S fuel', Some l =>
      match ns !! l with
      | Some t => l :: listCells fuel' ns (gtOp2 t)
      | None => []
      end
  | _, _ => []
  end.

(** The slots the walk descends into.  Under a call the walk goes from one
    argument to the next along the argument lists and visits the arguments
    themselves: the GT_LIST cells of the lists are not visited, and the
    call is the parent of each argument on the stack. *)
Definition walkEdges (ns : list GenTree) (n : NodeId) (t : GenTree) : list Edge :=
  match gtOper t with
  | GT_CALL =>
      EdgeCallObjp n
      :: (EdgeOp1 <$> listCells (length ns) ns (gtCallArgs (gtCall t)))
      ++ (EdgeOp1 <$> listCells (length ns) ns (gtCallLateArgs (gtCall t)))
  | _ => operandEdges n t
  end.

Definition Visitor : Type := Edge -> list NodeId -> M (list NodeId).

Fixpoint forEdges (f : Edge -> list NodeId -> M (list NodeId))
    (es : list Edge) (stack : list NodeId) : M (list NodeId) :=
  match es with
  | [] => mret stack
  | e :: rest =>
      stack' ← f e stack ;
      forEdges f rest stack'
  end.

Fixpoint fgWalkTreePostRec (fuel : nat) (visitor : Visitor)
    (pTree : Edge) (parentStack : list NodeId) : M (list NodeId) :=
  match fuel with
  | 0 => abort OutOfFuel
  | S fuel' =>
      p ← readEdge pTree ;
      tree ← deref p ;
      t ← getNode tree ;
      ns ← query nodes ;
      stack ← forEdges
                (fun e st =>
                   v ← readEdge e ;
                   match v with
                   | Some _ => fgWalkTreePostRec fuel' visitor e st
                   | None => mret st
                   end)
                (walkEdges ns tree t) (tree :: parentStack) ;
      stack' ← visitor pTree stack ;
      mret (tail stack')
  end.

Definition fgWalkTreePost (pTree : Edge) (visitor : Visitor) : M unit :=
  ns ← query nodes ;
  fgWalkTreePostRec (S (length ns)) visitor pTree [] ;;
  mret tt.

(** ** Intrinsics rewritten as user calls (lines 226-333) *)

(** Execution order of the subtree rooted at [n]: operands first, in the
    order of [operandEdges], then the node. *)
Fixpoint treeSeq (fuel : nat) (ns : list GenTree) (n : NodeId) : list NodeId :=
  match fuel with
  | 0 => []
  | S fuel' =>
      match ns !! n with
      | None => []
      | Some t =>
          concat (map (fun e =>
                         match edgeGet e t with
                         | Some c => treeSeq fuel' ns c
                         | None => []
                         end) (operandEdges n t))
          ++ [n]
      end
  end.

(** Modelled from the spec: [Compiler::fgGetFirstNode] (flowgraph.cpp is
    not among the sources): the first node of a subtree in execution order,
    the node whose predecessor and successor the call is stitched to. *)
Definition fgGetFirstNode (tree : NodeId) : M NodeId :=
  ns ← query nodes ;
  mret (default tree (head (treeSeq (S (length ns)) ns tree))).

(** Modelled from the spec: [Compiler::gtNewArgList], which serves to
    "build an argument list from the intrinsic's one or two operands": a
    GT_LIST chain of one or two arguments. *)
Definition gtNewArgList1 (op1 : option NodeId) : M NodeId :=
  newOperNode GT_LIST TYP_VOID op1 None id.
Definition gtNewArgList2 (op1 op2 : option NodeId) : M NodeId :=
  rest ← newOperNode GT_LIST TYP_VOID op2 None id ;
  newOperNode GT_LIST TYP_VOID op1 (Some rest) id.

(** Modelled from the spec: [Compiler::gtNewCallNode] for a user function,
    which serves to "construct a new call node addressing the intrinsic's
    underlying method": a call with the given handle, type and argument
    list and no argument table yet, carrying the call bits and the
    side-effect flags of the argument list. *)
Definition gtNewCallNode (callHnd : nat) (type : var_types) (args : option NodeId)
  : M NodeId :=
  f ← effectsOf args ;
  allocNode
    (set_gtCall {| gtCallObjp := None; gtCallArgs := args; gtCallLateArgs := None;
                   gtCallMethHnd := callHnd; fgArgInfo := None |}
       (set_gtFlags (Z.lor (Z.lor GTF_CALL GTF_GLOB_REF) f)
          (newNode GT_CALL type None None))).

Fixpoint mkArgTable (args : list NodeId) (i : nat) : list fgArgTabEntry :=
  match args with
  | [] => []
  | a :: rest => {| node := a; argNum := i |} :: mkArgTable rest (S i)
  end.

(** Modelled from the spec: [Compiler::fgMorphArgs], "the standard
    argument-binding procedure", run on the new call "to populate its
    argument table": one entry per argument, in the order of the argument
    list. *)
Definition fgMorphArgs (call : NodeId) : M NodeId :=
  c ← getNode call ;
  ns ← query nodes ;
  modNode call (fun t =>
    set_gtCall
      (set_fgArgInfo
         (Some (mkArgTable (listElems (length ns) ns (gtCallArgs (gtCall c))) 0))
         (gtCall t)) t) ;;
  mret call.

Fixpoint linkSeq (prev : option NodeId) (seq : list NodeId) : M unit :=
  match seq with
  | [] => mret tt
  | n :: rest =>
      match prev with
      | Some p => setNext p (Some n)
      | None => mret tt
      end ;;
      setPrev n prev ;;
      setNext n None ;;
      linkSeq (Some n) rest
  end.

(** Modelled from the spec: [Compiler::fgSetTreeSeq], "the external
    statement-ordering procedure" that re-establishes "evaluation order for
    the call's subtree": the nodes of the subtree are chained in execution
    order after [prevTree]. *)
Definition fgSetTreeSeq (tree : NodeId) (prevTree : option NodeId) : M unit :=
  ns ← query nodes ;
  linkSeq prevTree (treeSeq (S (length ns)) ns tree).

(** The loop of lines 285-290. *)
Fixpoint propagateCallFlags (call : NodeId) (ancestors : list NodeId) : M unit :=
  match ancestors with
  | [] => mret tt
  | n :: rest =>
      setFlags n (fun f => Z.lor f GTF_CALL) ;;
      c ← getNode call ;
      setFlags n (fun f => Z.lor f (Z.land (gtFlags c) GTF_ALL_EFFECT)) ;;
      propagateCallFlags call rest
  end.

(** [root] is the statement being walked ([SplitData::root]); the result
    is the parent stack after the call has replaced the node on it. *)
Definition RewriteNodeAsCall (use : Edge) (parentStack : list NodeId)
    (root : NodeId) (callHnd : nat) (args : NodeId) : M (list NodeId) :=
  p ← readEdge use ;
  tree ← deref p ;
  treeFirstNode ← fgGetFirstNode tree ;
  let treeLastNode := tree in
  tf ← getNode treeFirstNode ;
  let treePrevNode := gtPrev tf in
  tl ← getNode treeLastNode ;
  let treeNextNode := gtNext tl in
  call ← gtNewCallNode callHnd (gtType tl) (Some args) ;
  call ← fgMorphArgs call ;
  writeEdge use (Some call) ;;
  (* gtSetStmtInfo(root): costs only *)
  fgSetTreeSeq call treePrevNode ;;
  match treePrevNode with
  | Some prev =>
      first ← fgGetFirstNode call ;
      setPrev first (Some prev) ;;
      setNext prev (Some first)
  | None =>
      first ← fgGetFirstNode call ;
      modNode root (fun t => set_gtStmt (set_gtStmtList (Some first) (gtStmt t)) t)
  end ;;
  match treeNextNode with
  | Some next =>
      setNext call (Some next) ;;
      setPrev next (Some call)
  | None => mret tt
  end ;;
  fgFixupIfCallArg parentStack tree call ;;
  propagateCallFlags call (tail parentStack) ;;
  mret (call :: tail parentStack).

Definition RewriteIntrinsicAsUserCall (use : Edge) (parentStack : list NodeId)
    (root : NodeId) : M (list NodeId) :=
  p ← readEdge use ;
  intrinsic ← deref p ;
  t ← getNode intrinsic ;
  args ← match gtOp2 t with
         | None => gtNewArgList1 (gtOp1 t)
         | Some _ => gtNewArgList2 (gtOp1 t) (gtOp2 t)
         end ;
  RewriteNodeAsCall use parentStack root (gtMethodHandle (gtIntrinsic t)) args.

(** ** The phase (lines 951-1056) *)

(** The visitor of the first walk (lines 998-1011). *)
Definition prepassVisitor (root : NodeId) : Visitor :=
  fun use parentStack =>
    p ← readEdge use ;
    n ← deref p ;
    t ← getNode n ;
    if bool_decide (gtOper t = GT_INTRINSIC)
       && IsIntrinsicImplementedByUserCall (gtIntrinsicId (gtIntrinsic t)) then
      RewriteIntrinsicAsUserCall use parentStack root
    else if OperIsLocal (gtOper t) then
      setFlags n (fun f => Z.land f (Z.lnot GTF_VAR_USEDEF)) ;;
      mret parentStack
    else mret parentStack.

(** The visitor of the second walk (lines 1045-1048). *)
Definition rewriteVisitor : Visitor :=
  fun use parentStack => RewriteNode use parentStack ;; mret parentStack.

Definition MakeLIR (firstNode lastNode : option NodeId) : M unit :=
  modBlock (fun _ => {| bbTreeList := firstNode; bbLastNode := lastNode;
                        bbIsLIR := true |}).

(** The loop of lines 985-1022. *)
Fixpoint linkStatements (fuel : nat) (statement : option NodeId)
    (lastNodeInPreviousStatement : option NodeId) : M unit :=
  match fuel, statement with
  | _, None => mret tt
  | 0, Some _ => abort OutOfFuel
  | S fuel', Some stmt =>
      fgWalkTreePost (EdgeStmtExpr stmt) (prepassVisitor stmt) ;;
      st ← getNode stmt ;
      let firstNodeInStatement := gtStmtList (gtStmt st) in
      match lastNodeInPreviousStatement with
      | Some l => setNext l firstNodeInStatement
      | None => mret tt
      end ;;
      f ← deref firstNodeInStatement ;
      setPrev f lastNodeInPreviousStatement ;;
      st ← getNode stmt ;
      linkStatements fuel' (gtNext st) (gtStmtExpr (gtStmt st))
  end.

(** The loop of lines 1027-1050. *)
Fixpoint rewriteStatements (fuel : nat) (statement : option NodeId) : M unit :=
  match fuel, statement with
  | _, None => mret tt
  | 0, Some _ => abort OutOfFuel
  | S fuel', Some stmt =>
      st ← getNode stmt ;
      let nextStatement := gtNext st in
      when (bool_decide (is_Some (gtStmtILoffsx (gtStmt st))))
        (SetOper stmt GT_IL_OFFSET ;;
         setNext stmt None ;;
         setPrev stmt None ;;
         st ← getNode stmt ;
         Range_InsertBefore (gtStmtList (gtStmt st)) stmt) ;;
      fgWalkTreePost (EdgeStmtExpr stmt) rewriteVisitor ;;
      rewriteStatements fuel' nextStatement
  end.

Definition rationalizeBlock (b : nat) : M unit :=
  modify (set_m_block (Some b)) ;;
  block ← getBlock ;
  match bbTreeList block with
  | None => MakeLIR None None
  | Some firstStatement =>
      fs ← getNode firstStatement ;
      let lastStatement := gtPrev fs in
      ns ← query nodes ;
      linkStatements (S (length ns)) (Some firstStatement) None ;;
      fs ← getNode firstStatement ;
      lst ← deref lastStatement ;
      ls ← getNode lst ;
      MakeLIR (gtStmtList (gtStmt fs)) (gtStmtExpr (gtStmt ls)) ;;
      ns ← query nodes ;
      rewriteStatements (S (length ns)) (Some firstStatement)
  end.

Fixpoint forBlocks (bs : list nat) : M unit :=
  match bs with
  | [] => mret tt
  | b :: rest => rationalizeBlock b ;; forBlocks rest
  end.

Definition DoPhase : M unit :=
  modify (set_m_block None) ;;
  bbs ← query fgBBs ;
  forBlocks (seq 0 (length bbs)) ;;
  modify (set_compRationalIRForm true).

End Model.

(** ** Vocabulary of the properties *)

(** The nodes of a linear order, read by following [gtNext] from [p]. *)
Fixpoint walkNext (fuel : nat) (ns : list GenTree) (p : option NodeId) : list NodeId :=
  match fuel, p with
  | S fuel', Some n => n :: walkNext fuel' ns (ns !! n ≫= gtNext)
  | _, _ => []
  end.

(** The linear sequence of block [b], walked from its first node. *)
Definition blockOrder (s : Compiler) (b : nat) : list NodeId :=
  match fgBBs s !! b with
  | Some bb => walkNext (length (nodes s)) (nodes s) (bbTreeList bb)
  | None => []
  end.

(** [segment ns prev l next]: the nodes of [l] are chained in this order by
    their [gtPrev]/[gtNext] links, coming from [prev] and leading to [next]. *)
Fixpoint segment (ns : list GenTree) (prev : option NodeId) (l : list NodeId)
    (next : option NodeId) : Prop :=
  match l with
  | [] => True
  | x :: l' =>
      (exists t, ns !! x = Some t /\ gtPrev t = prev
                 /\ gtNext t = match l' with [] => next | y :: _ => Some y end)
      /\ segment ns (Some x) l' next
  end.

(** The current block: its first and last node. *)
Definition rangeIs (s : Compiler) (first last : option NodeId) : Prop :=
  exists b bb, m_block s = Some b /\ fgBBs s !! b = Some bb
               /\ bbTreeList bb = first /\ bbLastNode bb = last.

(** [LinearOrder s l]: the range of the current block is exactly the list
    [l] of distinct nodes. *)
Definition LinearOrder (s : Compiler) (l : list NodeId) : Prop :=
  NoDup l
  /\ segment (nodes s) None l None
  /\ rangeIs s (head l) (last l).

(** A node without its linear-order links. *)
Definition unlinked (t : GenTree) : GenTree := set_gtPrev None (set_gtNext None t).

(** [sameTrees s s']: the two states hold the same nodes up to the
    linear-order links. *)
Definition sameTrees (s s' : Compiler) : Prop :=
  unlinked <$> nodes s' = unlinked <$> nodes s.

(** [treesKept s s']: every node of [s] is still there in [s'], the same up
    to its linear-order links. *)
Definition treesKept (s s' : Compiler) : Prop :=
  forall x t, nodes s !! x = Some t ->
    exists t', nodes s' !! x = Some t' /\ unlinked t' = unlinked t.

(** [a] if it is a node, [b] otherwise. *)
Definition orElse (a b : option NodeId) : option NodeId :=
  match a with
  | Some x => Some x
  | None => b
  end.

(** What the range operations leave alone. *)
Definition sameRest (s s' : Compiler) : Prop :=
  lvaTable s' = lvaTable s /\ m_block s' = m_block s
  /\ compRationalIRForm s' = compRationalIRForm s.

Section Vocabulary.
Context {FB : FlagBits}.

(** The flag word of node [n]. *)
Definition flagsOf (s : Compiler) (n : NodeId) : Z :=
  default 0%Z (gtFlags <$> nodes s !! n).

Definition operOf (s : Compiler) (n : NodeId) : option genTreeOps :=
  gtOper <$> nodes s !! n.

(** The operand edges that take part in the execution order. *)
Definition uses (ns : list GenTree) (n : NodeId) : list NodeId :=
  match ns !! n with
  | Some t =>
      filter (fun o => (gtOper <$> ns !! o) ≠ Some GT_ARGPLACE) (Operands ns t)
  | None => []
  end.

(** [Postorder ns n l]: [l] is a postorder layout of the tree rooted at [n]:
    the layouts of the operand subtrees, each contiguous, in some order,
    followed by [n] itself.  [PostorderList ns roots l]: [l] is the
    concatenation of layouts of the trees rooted at [roots]. *)
Inductive Postorder (ns : list GenTree) : NodeId -> list NodeId -> Prop :=
  | Postorder_node n roots l :
      roots ≡ₚ uses ns n ->
      PostorderList ns roots l ->
      Postorder ns n (l ++ [n])
with PostorderList (ns : list GenTree) : list NodeId -> list NodeId -> Prop :=
  | PostorderList_nil : PostorderList ns [] []
  | PostorderList_cons r rs c l :
      Postorder ns r c ->
      PostorderList ns rs l ->
      PostorderList ns (r :: rs) (c ++ l).

Scheme Postorder_mut := Minimality for Postorder Sort Prop
  with PostorderList_mut := Minimality for PostorderList Sort Prop.
Combined Scheme Postorder_mutind from Postorder_mut, PostorderList_mut.

(** The operand slots of the nodes of [l] hold no dangling pointer. *)
Definition operandsExist (ns : list GenTree) (l : list NodeId) : Prop :=
  forall x t o, x ∈ l -> ns !! x = Some t -> o ∈ Operands ns t -> is_Some (ns !! o).

(** Every local-variable node names a variable of the table. *)
Definition validLocals (s : Compiler) : Prop :=
  forall n t, nodes s !! n = Some t -> OperIsLocal (gtOper t) = true ->
              gtLclNum (gtLcl t) < length (lvaTable s).

(** The argument-table update that [Use::ReplaceWith] performs for the
    operand [old] of a call can be carried out: [old] is a late argument or
    has an entry in the table of the call. *)
Definition argFixable (s : Compiler) (use : Use) (old : NodeId) : Prop :=
  match m_edge use with
  | None => True
  | Some _ =>
      forall u, nodes s !! m_user use = Some u -> gtOper u = GT_CALL ->
        hasFlag (flagsOf s old) GTF_LATE_ARG = true
        \/ exists tab, fgArgInfo (gtCall u) = Some tab
                       /\ exists e, e ∈ tab /\ node e = old
  end.

(** The location kinds for which [RewriteAssignment] has a store rewrite:
    local variable, local field, indirection, class variable, and the three
    block flavours. *)
Definition hasStoreRewrite (k : genTreeOps) : bool :=
  match k with
  | GT_LCL_VAR | GT_LCL_FLD | GT_IND | GT_CLS_VAR
  | GT_BLK | GT_OBJ | GT_DYN_BLK => true
  | _ => false
  end.

(** Consistency of a call's argument table [tab] with the current roots of
    its argument subtrees: every entry records the root of its argument,
    unless that root is a late argument, which is tracked by its flag. *)
Definition tableConsistent (s : Compiler) (tab : list fgArgTabEntry)
    (roots : list NodeId) : Prop :=
  Forall2 (fun e r => hasFlag (flagsOf s r) GTF_LATE_ARG = true \/ node e = r)
    tab roots.

(** [keepsLate n s s']: node [n] is still there in [s'], with its
    late-argument marker as in [s]. *)
Definition keepsLate (n : NodeId) (s s' : Compiler) : Prop :=
  forall t, nodes s !! n = Some t ->
    exists t', nodes s' !! n = Some t'
               /\ hasFlag (gtFlags t') GTF_LATE_ARG = hasFlag (gtFlags t) GTF_LATE_ARG.

(** [Pres R m]: whenever [m] returns, the states before and after are
    related by [R]. *)
Definition Pres (R : Compiler -> Compiler -> Prop) {A} (m : M A) : Prop :=
  forall s a s', m s = Ok (a, s') -> R s s'.

(** [fieldKept f s s']: every node of [s] is still there in [s'], with
    the same value of [f]. *)
Definition fieldKept {A} (f : GenTree -> A) (s s' : Compiler) : Prop :=
  forall x t, nodes s !! x = Some t ->
    exists t', nodes s' !! x = Some t' /\ f t' = f t.

(** The length of the arena, for runs that allocate nothing. *)
Definition sameLength (s s' : Compiler) : Prop := length (nodes s') = length (nodes s).

(** The linear-order links of the nodes hold no dangling pointer. *)
Definition linksExist (s : Compiler) : Prop :=
  forall x t p, nodes s !! x = Some t ->
    gtPrev t = Some p \/ gtNext t = Some p -> is_Some (nodes s !! p).

(** The ancestors on the traversal stack are nodes; a GT_NOP among them has
    an operand, and is not the consumer whose slot [use] is rewritten. *)
Definition ancestorsOk (s : Compiler) (use : Edge) (ancestors : list NodeId) : Prop :=
  Forall (fun x => exists tx, nodes s !! x = Some tx
            /\ (gtOper tx = GT_NOP ->
                 x <> edgeOwner use
                 /\ exists o, gtOp1 tx = Some o /\ is_Some (nodes s !! o)))
    ancestors.

(** When the node [old] on top of the stack is an argument of a call, the
    argument table of that call can be updated: [old] is a late argument or
    has an entry in the table. *)
Definition callArgFixable (s : Compiler) (parentStack : list NodeId) (old : NodeId)
  : Prop :=
  forall c u, isNodeCallArg parentStack s = Ok (Some c, s) ->
    nodes s !! c = Some u ->
    hasFlag (flagsOf s old) GTF_LATE_ARG = true
    \/ exists tab, fgArgInfo (gtCall u) = Some tab
                   /\ exists e, e ∈ tab /\ node e = old.

(** A node without its links and without the first node recorded in a
    statement; a node without its flags and without its argument table. *)
Definition detached (t : GenTree) : GenTree :=
  set_gtStmt (set_gtStmtList None (gtStmt t)) (unlinked t).
Definition unflagged (t : GenTree) : GenTree :=
  set_gtFlags 0%Z (set_gtCall (set_fgArgInfo None (gtCall t)) t).

(** What the execution order of a tree depends on. *)
Definition orderShape (t : GenTree) :=
  (gtOper t, hasFlag (gtFlags t) GTF_REVERSE_OPS,
   (gtOp1 t, gtOp2 t, gtDynamicSize t),
   (gtCallObjp (gtCall t), gtCallArgs (gtCall t), gtCallLateArgs (gtCall t)),
   gtStmtExpr (gtStmt t)).

(** What [Use::ReplaceWith] does to the nodes when it writes [new] into the
    slot [e] that held [old]: the slot now holds [new]; apart from that
    slot, the late-argument marker of [new] (copied from [old]) and the
    argument table of the consumer, every node is as before. *)
Definition slotWritten (e : Edge) (old new : NodeId) (s s' : Compiler) : Prop :=
  length (nodes s') = length (nodes s)
  /\ fgBBs s' = fgBBs s /\ sameRest s s'
  /\ (exists o, nodes s' !! edgeOwner e = Some o /\ edgeGet e o = Some new)
  /\ forall x t, nodes s !! x = Some t ->
       exists t', nodes s' !! x = Some t'
         /\ gtOper t' = gtOper t /\ gtType t' = gtType t
         /\ gtPrev t' = gtPrev t /\ gtNext t' = gtNext t
         /\ (gtFlags t' = gtFlags t
             \/ (x = new /\ gtFlags t' = Z.lor (gtFlags t) GTF_LATE_ARG
                 /\ hasFlag (flagsOf s old) GTF_LATE_ARG = true))
         /\ (x <> edgeOwner e -> gtOp1 t' = gtOp1 t /\ gtOp2 t' = gtOp2 t).

End Vocabulary.

(** ** Sample data

    One assignment of bits to the flag constants (the layout of the node
    header of the CoreCLR JIT), a target description, and small blocks on
    which the phase is run. *)

Definition sample_flags : FlagBits := {|
  GTF_ALL_EFFECT := 0x1F; GTF_CALL := 0x2; GTF_GLOB_REF := 0x8;
  GTF_REVERSE_OPS := 0x20; GTF_LATE_ARG := 0x10000; GTF_DONT_CSE := 0x1000;
  GTF_LIVENESS_MASK := 0xE6000000; GTF_VAR_USEASG := 0x40000000;
  GTF_VAR_USEDEF := 0x20000000; GTF_IND_FLAGS := 0x7B804000;
  GTF_BLK_VOLATILE := 0x40000000; GTF_BLK_UNALIGNED := 0x02000000;
  GTF_BLK_INIT := 0x01000000; GTF_LIST_AGGREGATE := 0x80000000 |}.

Definition sample_env (simd xarch : bool) : JitEnv := {|
  FEATURE_SIMD := simd; TARGET_XARCH := xarch; featureSIMD := simd;
  TARGET_POINTER_SIZE := 8; TYP_I_IMPL := TYP_LONG;
  isAddrOfSIMDType := fun _ _ => false;
  getBaseTypeOfSIMDLocal := fun _ _ => TYP_UNKNOWN;
  getSIMDTypeForSize := fun n =>
    match n with 8 => TYP_SIMD8 | 12 => TYP_SIMD12 | 16 => TYP_SIMD16 | _ => TYP_SIMD32 end;
  genTypeSize := fun _ => 4;
  OperIsInitBlkOp := fun _ _ => false;
  IsTargetIntrinsic := fun id => negb (bool_decide (id = 1));
  IsIntrinsicImplementedByUserCall := fun id => bool_decide (id = 1);
  offsetof_u1Elems := 16 |}.

Definition mkNode (oper : genTreeOps) (type : var_types) (flags : Z)
    (prev next op1 op2 : option NodeId) : GenTree :=
  set_gtNext next (set_gtPrev prev (set_gtFlags flags (newNode oper type op1 op2))).

Definition mkStmt (expr first : NodeId) (il : option nat)
    (prev next : option NodeId) : GenTree :=
  set_gtStmt {| gtStmtExpr := Some expr; gtStmtList := Some first;
                gtStmtILoffsx := il |}
    (mkNode GT_STMT TYP_VOID 0 prev next None None).

Definition mkCompiler (ns : list GenTree) (firstStmt : option NodeId) : Compiler :=
  {| nodes := ns;
     fgBBs := [ {| bbTreeList := firstStmt; bbLastNode := None; bbIsLIR := false |} ];
     m_block := None;
     lvaTable := [ {| lvType := TYP_INT; lvExactSize := 4; lvRefCnt := 2;
                      lvPromotedIndependent := false |} ];
     compRationalIRForm := false |}.

(** A block holding the one statement [COMMA(1, 2)], both operands
    constants without side effects; [il] is the IL offset of the
    statement. *)
Definition commaBlock (il : option nat) : Compiler :=
  mkCompiler
    [ mkNode GT_CNS_INT TYP_INT 0 None (Some 1) None None;
      mkNode GT_CNS_INT TYP_INT 0 (Some 0) (Some 2) None None;
      mkNode GT_COMMA TYP_INT 0 (Some 1) None (Some 0) (Some 1);
      mkStmt 2 0 il (Some 3) None ]
    (Some 3).

(** ** Checks that compute

    Boolean forms of the predicates on concrete states. *)

Fixpoint segmentb (ns : list GenTree) (prev : option NodeId) (l : list NodeId)
    (next : option NodeId) : bool :=
  match l with
  | [] => true
  | x :: l' =>
      match ns !! x with
      | Some t =>
          bool_decide (gtPrev t = prev)
          && bool_decide (gtNext t = match l' with [] => next | y :: _ => Some y end)
      | None => false
      end
      && segmentb ns (Some x) l' next
  end.

Definition rangeIsb (s : Compiler) (first last : option NodeId) : bool :=
  match m_block s with
  | Some b =>
      match fgBBs s !! b with
      | Some bb => bool_decide (bbTreeList bb = first) && bool_decide (bbLastNode bb = last)
      | None => false
      end
  | None => false
  end.

Definition LinearOrderb (s : Compiler) (l : list NodeId) : bool :=
  bool_decide (NoDup l) && segmentb (nodes s) None l None && rangeIsb s (head l) (last l).

Definition operandsExistb (ns : list GenTree) (l : list NodeId) : bool :=
  forallb (fun x =>
             match ns !! x with
             | Some t => forallb (fun o => bool_decide (is_Some (ns !! o))) (Operands ns t)
             | None => true
             end) l.

Definition validLocalsb (s : Compiler) : bool :=
  forallb (fun t => negb (OperIsLocal (gtOper t))
                    || bool_decide (gtLclNum (gtLcl t) < length (lvaTable s)))
    (nodes s).

Definition linksExistb (s : Compiler) : bool :=
  forallb (fun t =>
             match gtPrev t with
             | Some p => bool_decide (is_Some (nodes s !! p))
             | None => true
             end
             && match gtNext t with
                | Some p => bool_decide (is_Some (nodes s !! p))
                | None => true
                end)
    (nodes s).

Definition ancestorsOkb (s : Compiler) (use : Edge) (ancestors : list NodeId) : bool :=
  forallb (fun x =>
             match nodes s !! x with
             | Some tx =>
                 negb (bool_decide (gtOper tx = GT_NOP))
                 || (negb (bool_decide (x = edgeOwner use))
                     && match gtOp1 tx with
                        | Some o => bool_decide (is_Some (nodes s !! o))
                        | None => false
                        end)
             | None => false
             end) ancestors.

(** The state in which a run ends. *)
Definition stateAfter {A} (m : M A) (s : Compiler) : Compiler :=
  match m s with
  | Ok (_, s') => s'
  | Err _ => s
  end.

(** ** Sample blocks in linear form *)

Definition mkLIR (ns : list GenTree) (first last : option NodeId) : Compiler :=
  {| nodes := ns;
     fgBBs := [ {| bbTreeList := first; bbLastNode := last; bbIsLIR := true |} ];
     m_block := Some 0;
     lvaTable := [ {| lvType := TYP_INT; lvExactSize := 4; lvRefCnt := 2;
                      lvPromotedIndependent := false |} ];
     compRationalIRForm := false |}.

(** [ASG(loc, 7)] where [loc] is a leaf of kind [locOper] with flags
    [locFlags]; the assignment has flags [asgFlags]; linear order
    [loc; 7; ASG]. *)
Definition asgBlock (locOper : genTreeOps) (locFlags asgFlags : Z) : Compiler :=
  mkLIR
    [ mkNode locOper TYP_INT locFlags None (Some 1) None None;
      mkNode GT_CNS_INT TYP_INT 0 (Some 0) (Some 2) None None;
      mkNode GT_ASG TYP_INT asgFlags (Some 1) None (Some 0) (Some 1);
      mkStmt 2 0 None None None ]
    (Some 0) (Some 2).

(** [*p = 7]: linear order [p; IND; 7; ASG]. *)
Definition indirBlock : Compiler :=
  mkLIR
    [ mkNode GT_LCL_VAR TYP_BYREF 0 None (Some 1) None None;
      mkNode GT_IND TYP_INT 0x4000 (Some 0) (Some 2) (Some 0) None;
      mkNode GT_CNS_INT TYP_INT 0 (Some 1) (Some 3) None None;
      mkNode GT_ASG TYP_INT 1 (Some 2) None (Some 1) (Some 2);
      mkStmt 3 0 None None None ]
    (Some 0) (Some 3).

(** [ADDR(loc)] where [loc] is a leaf of kind [locOper]: linear order
    [loc; ADDR]. *)
Definition addrBlock (locOper : genTreeOps) : Compiler :=
  mkLIR
    [ mkNode locOper TYP_INT 0 None (Some 1) None None;
      mkNode GT_ADDR TYP_BYREF 0 (Some 0) None (Some 0) None;
      mkStmt 1 0 None None None ]
    (Some 0) (Some 1).

(** [COMMA(1, 2)] in linear form: linear order [1; 2; COMMA]. *)
Definition commaLIR : Compiler :=
  mkLIR
    [ mkNode GT_CNS_INT TYP_INT 0 None (Some 1) None None;
      mkNode GT_CNS_INT TYP_INT 0 (Some 0) (Some 2) None None;
      mkNode GT_COMMA TYP_INT 0 (Some 1) None (Some 0) (Some 1);
      mkStmt 2 0 None None None ]
    (Some 0) (Some 2).

(** A call whose argument table records node 1 as its only argument, and a
    node 2 that is to replace it. *)
Definition callBlock : Compiler :=
  mkLIR
    [ set_gtCall {| gtCallObjp := None; gtCallArgs := None; gtCallLateArgs := None;
                    gtCallMethHnd := 5;
                    fgArgInfo := Some [ {| node := 1; argNum := 0 |} ] |}
        (mkNode GT_CALL TYP_INT 2 None None None None);
      mkNode GT_CNS_INT TYP_INT 0 None None None None;
      mkNode GT_CNS_INT TYP_INT 0 None None None None ]
    None None.

(** The statement [NEG(INTRINSIC(1, 2))] in tree form, the intrinsic being
    one that is implemented by a user call (method 7). *)
Definition intrinsicBlock : Compiler :=
  mkCompiler
    [ mkNode GT_CNS_INT TYP_INT 0 None (Some 1) None None;
      mkNode GT_CNS_INT TYP_INT 0 (Some 0) (Some 2) None None;
      {| gtOper := GT_INTRINSIC; gtType := TYP_INT; gtFlags := 0;
         gtPrev := Some 1; gtNext := Some 3; gtOp1 := Some 0; gtOp2 := Some 1;
         gtDynamicSize := None; gtLcl := noLcl; gtStmt := noStmt; gtCall := noCall;
         gtIntrinsic := {| gtIntrinsicId := 1; gtMethodHandle := 7 |};
         gtSIMD := noSIMD; gtAddrMode := noAddrMode |};
      mkNode GT_NEG TYP_INT 0 (Some 2) None (Some 2) None;
      mkStmt 3 0 None (Some 4) None ]
    (Some 4).

(** The target description used with the samples. *)
Definition sample_jit : JitEnv := sample_env false false.

(** ** Vocabulary of the further properties *)

Section MoreVocabulary.
Context {FB : FlagBits}.

(** The kinds for which the [switch] of [RewriteNode] does nothing in any
    build: those that fall to its [default] case, and GT_INTRINSIC, whose
    case only holds an assertion. *)
Definition hasNoRule (oper : genTreeOps) : bool :=
  match oper with
  | GT_ASG | GT_BOX | GT_ADDR | GT_NOP | GT_COMMA | GT_ARGPLACE | GT_CLS_VAR
  | GT_BLK | GT_OBJ | GT_LCL_FLD | GT_STORE_LCL_FLD | GT_SIMD | GT_LIST => false
  | _ => true
  end.

(** The use that [RewriteNode] builds for the node [n] in the slot
    [useEdge]: a dummy use when the stack holds no consumer. *)
Definition useFor (useEdge : Edge) (parentStack : list NodeId) (n : NodeId) : Use :=
  match parentStack with
  | _ :: user :: _ => {| m_edge := Some useEdge; m_user := user |}
  | _ => GetDummyUse n
  end.

(** A run of list nodes that are not aggregates. *)
Definition plainLists (s : Compiler) (lists : list NodeId) : Prop :=
  Forall (fun x => exists t, nodes s !! x = Some t /\ gtOper t = GT_LIST
                             /\ IsAggregate t = false) lists.

(** The node at the end of [l], if any, is not a list node that the loop
    at the head of [RewriteNode] would remove. *)
Definition stopsLists (s : Compiler) (l : list NodeId) : Prop :=
  forall p tp, last l = Some p -> nodes s !! p = Some tp ->
               gtOper tp = GT_LIST -> IsAggregate tp = true.

(** The two conditions above, computed. *)
Definition plainListsb (s : Compiler) (lists : list NodeId) : bool :=
  forallb (fun x => match nodes s !! x with
                    | Some t => bool_decide (gtOper t = GT_LIST) && negb (IsAggregate t)
                    | None => false
                    end) lists.

Definition stopsListsb (s : Compiler) (l : list NodeId) : bool :=
  match last l with
  | None => true
  | Some p =>
      match nodes s !! p with
      | Some tp => negb (bool_decide (gtOper tp = GT_LIST)) || IsAggregate tp
      | None => true
      end
  end.

End MoreVocabulary.

(** [blocksKept s s']: the current block is the same, no block is added or
    dropped, a block in linear form stays in linear form, and every block
    but the current one is untouched. *)
Definition blocksKept (s s' : Compiler) : Prop :=
  m_block s' = m_block s
  /\ length (fgBBs s') = length (fgBBs s)
  /\ forall b bb, fgBBs s !! b = Some bb ->
       exists bb', fgBBs s' !! b = Some bb'
         /\ (bbIsLIR bb = true -> bbIsLIR bb' = true)
         /\ (m_block s <> Some b -> bb' = bb).

(** [varsKept s s']: the variable table has the same variables, each with
    its type, size and promotion class, and no reference count has gone
    up. *)
Definition varsKept (s s' : Compiler) : Prop :=
  length (lvaTable s') = length (lvaTable s)
  /\ forall i d, lvaTable s !! i = Some d ->
       exists d', lvaTable s' !! i = Some d'
         /\ lvType d' = lvType d /\ lvExactSize d' = lvExactSize d
         /\ lvPromotedIndependent d' = lvPromotedIndependent d
         /\ lvRefCnt d' <= lvRefCnt d.

(** ** Further sample data *)

(** A target with the vector feature on whose collaborators know every
    local address to be of a vector type, every vector local to hold
    floats, and every assignment to be an initializing block operation. *)
Definition simd_env : JitEnv := {|
  FEATURE_SIMD := true; TARGET_XARCH := true; featureSIMD := true;
  TARGET_POINTER_SIZE := 8; TYP_I_IMPL := TYP_LONG;
  isAddrOfSIMDType := fun _ _ => true;
  getBaseTypeOfSIMDLocal := fun _ _ => TYP_FLOAT;
  getSIMDTypeForSize := fun n =>
    match n with 8 => TYP_SIMD8 | 12 => TYP_SIMD12 | 16 => TYP_SIMD16 | _ => TYP_SIMD32 end;
  genTypeSize := fun _ => 4;
  OperIsInitBlkOp := fun _ _ => true;
  IsTargetIntrinsic := fun _ => true;
  IsIntrinsicImplementedByUserCall := fun _ => false;
  offsetof_u1Elems := 16 |}.

(** A block in linear form whose one local is a 16-byte vector. *)
Definition mkSIMD (ns : list GenTree) (first last : option NodeId) : Compiler :=
  {| nodes := ns;
     fgBBs := [ {| bbTreeList := first; bbLastNode := last; bbIsLIR := true |} ];
     m_block := Some 0;
     lvaTable := [ {| lvType := TYP_SIMD16; lvExactSize := 16; lvRefCnt := 2;
                      lvPromotedIndependent := false |} ];
     compRationalIRForm := false |}.

(** [wrap(leaf)]: a leaf of kind [leafOper] and type [leafType] under a
    unary node of kind [wrapOper] and type [wrapType], the root of its
    statement; linear order [leaf; wrap]. *)
Definition unaryNodes (leafOper : genTreeOps) (leafType : var_types)
    (wrapOper : genTreeOps) (wrapType : var_types) : list GenTree :=
  [ mkNode leafOper leafType 0 None (Some 1) None None;
    mkNode wrapOper wrapType 0 (Some 0) None (Some 0) None;
    mkStmt 1 0 None None None ].

Definition unaryBlock (leafOper : genTreeOps) (leafType : var_types)
    (wrapOper : genTreeOps) (wrapType : var_types) : Compiler :=
  mkLIR (unaryNodes leafOper leafType wrapOper wrapType) (Some 0) (Some 1).

(** A single leaf of kind [oper], the root of its statement, preceded in
    the linear order by one non-aggregate list node: linear order
    [LIST; leaf]. *)
Definition listThenLeaf (oper : genTreeOps) : Compiler :=
  mkLIR
    [ mkNode GT_LIST TYP_VOID 0 None (Some 1) None None;
      mkNode oper TYP_INT 0 (Some 0) None None None;
      mkStmt 1 1 None None None ]
    (Some 0) (Some 1).

(** [ASG(loc, v)] with the operands evaluated in reverse order: linear
    order [v; loc; ASG]; [loc] is a leaf of kind [locOper] and type
    [locType]. *)
Definition revAsgNodes (locOper : genTreeOps) (locType : var_types) : list GenTree :=
  [ mkNode GT_CNS_INT TYP_INT 0 None (Some 1) None None;
    mkNode locOper locType 0 (Some 0) (Some 2) None None;
    mkNode GT_ASG locType 0x21 (Some 1) None (Some 1) (Some 0);
    mkStmt 2 0 None None None ].

(** Two blocks without statements. *)
Definition emptyBlocks : Compiler :=
  {| nodes := [];
     fgBBs := [ {| bbTreeList := None; bbLastNode := None; bbIsLIR := false |};
                {| bbTreeList := None; bbLastNode := None; bbIsLIR := false |} ];
     m_block := None; lvaTable := []; compRationalIRForm := false |}.

(** A call with one argument: node 0 is the call, node 2 the list cell of
    its argument list, node 1 the argument, recorded in the argument
    table. *)
Definition callListBlock : Compiler :=
  mkLIR
    [ set_gtCall {| gtCallObjp := None; gtCallArgs := Some 2; gtCallLateArgs := None;
                    gtCallMethHnd := 5;
                    fgArgInfo := Some [ {| node := 1; argNum := 0 |} ] |}
        (mkNode GT_CALL TYP_INT 2 None None None None);
      mkNode GT_CNS_INT TYP_INT 0 None None None None;
      mkNode GT_LIST TYP_VOID 0 None None (Some 1) None ]
    None None.

(** [ASG(BLK(p), v)] in linear form, operands in source order: linear
    order [p; BLK; v; ASG]. *)
Definition blkStoreLIR : Compiler :=
  mkLIR
    [ mkNode GT_LCL_VAR TYP_BYREF 0 None (Some 1) None None;
      mkNode GT_BLK TYP_STRUCT 0 (Some 0) (Some 2) (Some 0) None;
      mkNode GT_LCL_VAR TYP_STRUCT 0 (Some 1) (Some 3) None None;
      mkNode GT_ASG TYP_STRUCT 1 (Some 2) None (Some 1) (Some 2);
      mkStmt 3 0 None None None ]
    (Some 0) (Some 3).

(** [NEG(BOX(c))] in linear form: linear order [c; BOX; NEG]. *)
Definition boxUnderNeg : Compiler :=
  mkLIR
    [ mkNode GT_CNS_INT TYP_INT 0 None (Some 1) None None;
      mkNode GT_BOX TYP_INT 0 (Some 0) (Some 2) (Some 0) None;
      mkNode GT_NEG TYP_INT 0 (Some 1) None (Some 1) None;
      mkStmt 2 0 None None None ]
    (Some 0) (Some 2).

(** A single node that names the vector local, of kind [oper] and type
    [type], marked use-assign. *)
Definition simdLeaf (oper : genTreeOps) (type : var_types) : Compiler :=
  mkSIMD
    [ mkNode oper type 0x40000000 None None None None;
      mkStmt 0 0 None None None ]
    (Some 0) (Some 0).

(** The target descriptions with the vector feature on, and for xarch. *)
Definition sample_simd : JitEnv := sample_env true true.
Definition sample_xarch : JitEnv := sample_env false true.

(** A block holding one statement whose whole tree is a read of local 0
    that nothing uses. *)
Definition unusedRead : Compiler :=
  mkCompiler
    [ mkNode GT_LCL_VAR TYP_INT 0 None None None None;
      mkStmt 0 0 None (Some 1) None ]
    (Some 1).

(** A 16-byte vector node of intrinsic [id] over one operand of type
    [opType]: linear order [operand; vector node]. *)
Definition simdOver (id : SIMDIntrinsicID) (opType : var_types) : Compiler :=
  mkLIR
    [ mkNode GT_LCL_VAR opType 0 None (Some 1) None None;
      set_gtSIMD_of {| gtSIMDIntrinsicID := id; gtSIMDBaseType := TYP_FLOAT;
                       gtSIMDSize := 16 |}
        (mkNode GT_SIMD TYP_SIMD16 0 (Some 0) None (Some 0) None);
      mkStmt 1 0 None None None ]
    (Some 0) (Some 1).

(** The statement [NOP(INTRINSIC(1, 2))] in tree form: the intrinsic of
    [intrinsicBlock], implemented by a user call (method 7), under a no-op
    wrapper instead of a negation. *)
Definition intrinsicUnderNop : Compiler :=
  mkCompiler
    [ mkNode GT_CNS_INT TYP_INT 0 None (Some 1) None None;
      mkNode GT_CNS_INT TYP_INT 0 (Some 0) (Some 2) None None;
      {| gtOper := GT_INTRINSIC; gtType := TYP_INT; gtFlags := 0;
         gtPrev := Some 1; gtNext := Some 3; gtOp1 := Some 0; gtOp2 := Some 1;
         gtDynamicSize := None; gtLcl := noLcl; gtStmt := noStmt; gtCall := noCall;
         gtIntrinsic := {| gtIntrinsicId := 1; gtMethodHandle := 7 |};
         gtSIMD := noSIMD; gtAddrMode := noAddrMode |};
      mkNode GT_NOP TYP_INT 0 (Some 2) None (Some 2) None;
      mkStmt 3 0 None (Some 4) None ]
    (Some 4).

(** A call whose one late argument is a no-op wrapper over a constant, in
    linear form: node 0 is the constant, node 1 the wrapper, which carries
    the late-argument marker (0x10000), node 2 the cell of the list of late
    arguments, node 3 the call; linear order [0; 1; 3]. *)
Definition lateArgBlock : Compiler :=
  mkLIR
    [ mkNode GT_CNS_INT TYP_INT 0 None (Some 1) None None;
      mkNode GT_NOP TYP_INT 0x10000 (Some 0) (Some 3) (Some 0) None;
      mkNode GT_LIST TYP_VOID 0 None None (Some 1) None;
      set_gtCall {| gtCallObjp := None; gtCallArgs := None; gtCallLateArgs := Some 2;
                    gtCallMethHnd := 5; fgArgInfo := Some [] |}
        (mkNode GT_CALL TYP_INT 2 (Some 1) None None None);
      mkStmt 3 0 None None None ]
    (Some 0) (Some 3).

(** * Verification *)

(** ** The monad *)

Lemma bind_run {A B} (m : M A) (f : A -> M B) s a s1 :
  m s = Ok (a, s1) -> (m ≫= f) s = f a s1.
Proof. intros H. unfold mbind, M_bind. by rewrite H. Qed.

Lemma bind_inv {A B} (m : M A) (f : A -> M B) s r :
  (m ≫= f) s = Ok r -> exists a s1, m s = Ok (a, s1) /\ f a s1 = Ok r.
Proof.
  unfold mbind, M_bind. destruct (m s) as [[a s1]|e]; [|discriminate].
  intros H. by exists a, s1.
Qed.

Lemma bind_err {A B} (m : M A) (f : A -> M B) s e :
  m s = Err e -> (m ≫= f) s = Err e.
Proof. intros H. unfold mbind, M_bind. by rewrite H. Qed.

Lemma mret_run {A} (a : A) s : (mret a : M A) s = Ok (a, s).
Proof. reflexivity. Qed.

Lemma getNode_run s n t : nodes s !! n = Some t -> getNode n s = Ok (t, s).
Proof. intros H. unfold getNode. by rewrite H. Qed.

Lemma getNode_inv s n t s' :
  getNode n s = Ok (t, s') -> s' = s /\ nodes s !! n = Some t.
Proof.
  unfold getNode. destruct (nodes s !! n); [|discriminate].
  intros [= -> ->]. done.
Qed.

Lemma modNode_run s n f t :
  nodes s !! n = Some t ->
  modNode n f s = Ok (tt, set_nodes (<[n := f t]> (nodes s)) s).
Proof. intros H. unfold modNode. by rewrite H. Qed.

Lemma modNode_inv s n f u s' :
  modNode n f s = Ok (u, s') ->
  exists t, nodes s !! n = Some t /\ s' = set_nodes (<[n := f t]> (nodes s)) s.
Proof.
  unfold modNode. destruct (nodes s !! n) as [t|]; [|discriminate].
  intros [= <- <-]. by exists t.
Qed.

Lemma deref_inv p s n s' : deref p s = Ok (n, s') -> p = Some n /\ s' = s.
Proof. destruct p; [|discriminate]. by intros [= -> ->]. Qed.

Lemma liftRes_inv {A} (r : Res A) s a s' :
  liftRes r s = Ok (a, s') -> r = Ok a /\ s' = s.
Proof. destruct r; [|discriminate]. by intros [= -> ->]. Qed.

Lemma lookup_set_same (ns : list GenTree) n t (u : GenTree) :
  ns !! n = Some t -> <[n := u]> ns !! n = Some u.
Proof. intros H. apply list_lookup_insert_eq. by eapply lookup_lt_Some. Qed.

(** ** Bit masks *)

Lemma testbit_land_0 a b i :
  Z.land a b = 0%Z -> Z.testbit a i && Z.testbit b i = false.
Proof. intros H. rewrite <- Z.land_spec, H. apply Z.bits_0. Qed.

Ltac bits_hyps i :=
  repeat match goal with
         | H : Z.land ?a ?b = 0%Z |- _ => apply (testbit_land_0 a b i) in H
         end.

Ltac bitblast :=
  apply Z.bits_inj'; let i := fresh "i" in let Hi := fresh "Hi" in
  intros i Hi; bits_hyps i;
  repeat (progress rewrite ?Z.land_spec, ?Z.lor_spec, ?Z.lnot_spec, ?Z.bits_0 in *
            by assumption);
  repeat match goal with
         | H : context [Z.testbit ?x i] |- _ => destruct (Z.testbit x i)
         | |- context [Z.testbit ?x i] => destruct (Z.testbit x i)
         end; simpl in *; congruence.

Lemma copy_mask_same f v m :
  Z.land (Z.lor (Z.land f (Z.lnot m)) (Z.land v m)) m = Z.land v m.
Proof. bitblast. Qed.

Lemma copy_mask_other f v m k :
  Z.land m k = 0%Z ->
  Z.land (Z.lor (Z.land f (Z.lnot m)) (Z.land v m)) k = Z.land f k.
Proof. intros H. bitblast. Qed.

Lemma clear_mask_same f m : Z.land (Z.land f (Z.lnot m)) m = 0%Z.
Proof. bitblast. Qed.

Lemma clear_mask_other f m k :
  Z.land m k = 0%Z -> Z.land (Z.land f (Z.lnot m)) k = Z.land f k.
Proof. intros H. bitblast. Qed.

Lemma set_mask_other f m k :
  Z.land m k = 0%Z -> Z.land (Z.lor f m) k = Z.land f k.
Proof. intros H. bitblast. Qed.

Lemma set_sub_mask_other f v m k :
  Z.land m k = 0%Z -> Z.land (Z.lor f (Z.land v m)) k = Z.land f k.
Proof. intros H. bitblast. Qed.

(** ** Store, address and load forms *)

(** C3, as stated, fails: the plain read of a local variable is a read
    kind, yet [loadForm] is not defined on it, so neither is the
    composition [storeForm (loadForm k)]. *)
Lemma form_composition_read_kind_counterexample :
  ~ (forall k, isOk (bindRes (loadForm k) storeForm) = true <-> isReadKind k = true).
Proof.
  intros H. destruct (H GT_LCL_VAR) as [_ H2].
  specialize (H2 eq_refl). discriminate.
Qed.

(** C3, amended: [storeForm (loadForm k)] is defined exactly when [k] is a
    local-address kind, and [addrForm] followed by [loadForm] returns the
    read kind it started from. *)
Theorem form_bijection k :
  (isOk (bindRes (loadForm k) storeForm) = true <-> OperIsLocalAddr k = true)
  /\ (isReadKind k = true -> bindRes (addrForm k) loadForm = Ok k)
  /\ (isOk (storeForm k) = true <-> isReadKind k = true)
  /\ (isOk (addrForm k) = true <-> isReadKind k = true).
Proof. destruct k; simpl; intuition congruence. Qed.

Lemma form_bijection_witness :
  isReadKind GT_LCL_FLD = true /\ bindRes (addrForm GT_LCL_FLD) loadForm = Ok GT_LCL_FLD.
Proof.
  split; [reflexivity|].
  apply (form_bijection GT_LCL_FLD). reflexivity.
Defined.

(** ** Symbolic execution *)

Lemma bind_assoc {A B C} (m : M A) (f : A -> M B) (g : B -> M C) s :
  ((m ≫= f) ≫= g) s = (m ≫= fun a => f a ≫= g) s.
Proof. unfold mbind, M_bind. by destruct (m s) as [[a s1]|e]. Qed.

Lemma mret_bind {A B} (a : A) (f : A -> M B) s : (mret a ≫= f) s = f a s.
Proof. reflexivity. Qed.

Lemma set_nodes_set_nodes l1 l2 s : set_nodes l2 (set_nodes l1 s) = set_nodes l2 s.
Proof. reflexivity. Qed.

Ltac norm :=
  rewrite ?set_nodes_set_nodes;
  cbn [nodes fgBBs m_block lvaTable compRationalIRForm
       set_nodes set_fgBBs set_m_block set_lvaTable set_compRationalIRForm];
  cbn [gtOper gtType gtFlags gtPrev gtNext gtOp1 gtOp2 gtDynamicSize gtLcl gtStmt
       gtCall gtIntrinsic gtSIMD gtAddrMode
       set_gtOper set_gtType set_gtFlags set_gtPrev set_gtNext set_gtOp1 set_gtOp2
       set_gtDynamicSize set_gtLcl set_gtStmt set_gtCall set_gtSIMD_of set_gtAddrMode_of];
  cbn [gtLclNum gtSsaNum gtLclOffs gtFieldSeq
       gtStmtExpr gtStmtList gtStmtILoffsx
       gtCallObjp gtCallArgs gtCallLateArgs gtCallMethHnd fgArgInfo
       set_gtCallObjp set_gtCallArgs set_gtCallLateArgs set_fgArgInfo
       set_gtStmtExpr set_gtStmtList].

Ltac lookup_tac :=
  norm;
  repeat first
    [ rewrite list_lookup_insert_ne by congruence
    | rewrite list_lookup_insert_eq
        by (rewrite ?length_insert; eapply lookup_lt_Some; eassumption) ];
  try eassumption; try reflexivity.

(** One step of a run: the first action is a node read or a node update
    whose target is known to exist. *)
Ltac step :=
  first
    [ rewrite bind_assoc
    | rewrite mret_bind
    | erewrite bind_run by (first [apply getNode_run | apply modNode_run]; lookup_tac);
      norm; rewrite ?list_insert_insert_eq ].

Ltac finish_run :=
  first [ apply getNode_run | apply modNode_run | reflexivity ]; lookup_tac.

Section Proofs.
Context {FB : FlagBits} {JE : JitEnv}.

(** ** Assignment into a local: flags of the store *)

(** C4.  Rewriting an assignment whose location is a local variable or a
    local field turns the assignment node into the store form; the
    liveness bits of the store are those of the location node, and its
    reverse-evaluation-order flag is clear whatever the assignment
    carried. *)
Theorem store_lcl_flags s assignment location value locationOp a v :
  Z.land GTF_REVERSE_OPS GTF_LIVENESS_MASK = 0%Z ->
  nodes s !! assignment = Some a -> gtOper a = GT_ASG ->
  nodes s !! location = Some v -> gtOper v = locationOp ->
  isReadKind locationOp = true ->
  exists s' st,
    RewriteAssignmentIntoStoreLclCore assignment location value locationOp s = Ok (tt, s')
    /\ nodes s' !! assignment = Some st
    /\ storeForm locationOp = Ok (gtOper st)
    /\ Z.land (gtFlags st) GTF_LIVENESS_MASK = Z.land (gtFlags v) GTF_LIVENESS_MASK
    /\ Z.land (gtFlags st) GTF_REVERSE_OPS = 0%Z
    /\ gtOp1 st = value
    /\ nodes s' !! location = Some v.
Proof.
  intros Hdisj Ha Hoa Hv Hov Hk.
  assert (Hne : assignment <> location).
  { intros ->. rewrite Ha in Hv. injection Hv as ->.
    rewrite Hoa in Hov. subst. discriminate. }
  unfold RewriteAssignmentIntoStoreLclCore, copyFlags, SetOper, setFlags, setType, when.
  destruct locationOp; try discriminate; simpl liftRes;
    [ rewrite bool_decide_eq_false_2 by discriminate
    | rewrite bool_decide_eq_true_2 by reflexivity ];
    (eexists _, _; split; [|split];
     [ erewrite (bind_run _ _ s _ s eq_refl); repeat step; finish_run
     | lookup_tac
     | norm; repeat split; try reflexivity;
       [ rewrite clear_mask_other by done; apply copy_mask_same
       | apply clear_mask_same
       | lookup_tac ] ]).
Qed.

(** ** Assignment into a location without a store form *)

Lemma SIMDInit_skip s assignment location value loc :
  nodes s !! location = Some loc -> gtOper loc <> GT_LCL_VAR ->
  RewriteAssignment_SIMDInit assignment location value s = Ok (value, s).
Proof.
  intros Hloc Hop. unfold RewriteAssignment_SIMDInit.
  destruct FEATURE_SIMD; [|reflexivity]. cbn [negb].
  rewrite (bind_run _ _ _ _ _ (getNode_run _ _ _ Hloc)).
  unfold query at 1. rewrite (bind_run _ _ s _ s eq_refl).
  destruct (varTypeIsSIMD (gtType loc) && _); [|reflexivity].
  destruct (decide (gtOper loc = GT_LCL_VAR)); [done|reflexivity].
Qed.

(** C9.  When the location of an assignment has a kind without a store
    rewrite, [RewriteAssignment] does not return: it aborts through
    [noway_assert] (the kinds routed through [storeForm]: register
    variable, phi argument) or [unreached] (every other kind). *)
Theorem assignment_without_store_form_aborts use s assignment a location loc :
  Use_Def use s = Ok (assignment, s) ->
  nodes s !! assignment = Some a -> gtOp1 a = Some location ->
  nodes s !! location = Some loc ->
  hasStoreRewrite (gtOper loc) = false ->
  exists e, RewriteAssignment use s = Err e /\ isFatal e = true.
Proof.
  intros Hdef Ha Hop1 Hloc Hk. unfold RewriteAssignment.
  rewrite (bind_run _ _ _ _ _ Hdef).
  rewrite (bind_run _ _ _ _ _ (getNode_run _ _ _ Ha)).
  rewrite Hop1. simpl deref. rewrite mret_bind.
  rewrite (bind_run _ _ _ _ _ (getNode_run _ _ _ Hloc)).
  erewrite bind_run; [|eapply SIMDInit_skip; [eassumption|]].
  2:{ intros E. rewrite E in Hk. discriminate. }
  destruct (gtOper loc) eqn:E; try discriminate Hk;
    try (exists Unreached; split; reflexivity);
    (exists NoWayAssert; split; [|reflexivity];
     unfold RewriteAssignmentIntoStoreLclCore; simpl storeForm;
     rewrite bind_assoc; reflexivity).
Qed.

(** ** The argument table *)

Lemma flagsOf_lookup s n t : nodes s !! n = Some t -> flagsOf s n = gtFlags t.
Proof. intros H. unfold flagsOf. by rewrite H. Qed.

Lemma hasFlag_lor_same f m : hasFlag f m = true -> hasFlag (Z.lor f m) m = true.
Proof.
  unfold hasFlag. rewrite !negb_true_iff, !Z.eqb_neq. intros H E. apply H.
  assert (Z.land m m = m) as Hm by apply Z.land_diag.
  rewrite Z.land_lor_distr_l, Hm in E.
  apply Z.lor_eq_0_iff in E as [E _]. exact E.
Qed.

Lemma hasFlag_lor_mono f m k : hasFlag f k = true -> hasFlag (Z.lor f m) k = true.
Proof.
  unfold hasFlag. rewrite !negb_true_iff, !Z.eqb_neq. intros H E. apply H.
  rewrite Z.land_lor_distr_l in E. by apply Z.lor_eq_0_iff in E as [E _].
Qed.

Lemma hasFlag_set m f : m <> 0%Z -> hasFlag (Z.lor f m) m = true.
Proof.
  unfold hasFlag. rewrite negb_true_iff, Z.eqb_neq. intros Hm E.
  rewrite Z.land_lor_distr_l, Z.land_diag in E.
  by apply Z.lor_eq_0_iff in E as [_ E].
Qed.

Lemma hasFlag_nonzero f m : hasFlag f m = true -> m <> 0%Z.
Proof.
  unfold hasFlag. rewrite negb_true_iff, Z.eqb_neq. intros H ->.
  by rewrite Z.land_0_r in H.
Qed.

Lemma tableConsistent_mono s s' tab roots :
  (forall r, hasFlag (flagsOf s r) GTF_LATE_ARG = true ->
             hasFlag (flagsOf s' r) GTF_LATE_ARG = true) ->
  tableConsistent s tab roots -> tableConsistent s' tab roots.
Proof.
  intros Hmono H. unfold tableConsistent in *.
  eapply Forall2_impl; [exact H|]. intros e r [Hl|He]; [left; by apply Hmono|by right].
Qed.

(** C8.  [fgFixupArgTabEntryPtr] after the root [oldArg] of the [i]-th
    argument of a call has been replaced by [newArg]: when [oldArg] carries
    the late-argument marker, only the marker is copied onto [newArg] and
    the argument table stays as it is; otherwise the entry that records
    [oldArg] is made to record [newArg].  Either way a table that was
    consistent with the argument roots is consistent with the new roots. *)
Theorem arg_table_fixup s parentCall c tab roots i oldArg newArg o nw :
  nodes s !! parentCall = Some c -> fgArgInfo (gtCall c) = Some tab ->
  nodes s !! oldArg = Some o -> nodes s !! newArg = Some nw ->
  tableConsistent s tab roots -> NoDup (node <$> tab) ->
  roots !! i = Some oldArg ->
  exists s' c' tab',
    fgFixupArgTabEntryPtr parentCall oldArg newArg s = Ok (tt, s')
    /\ nodes s' !! parentCall = Some c'
    /\ fgArgInfo (gtCall c') = Some tab'
    /\ (if hasFlag (gtFlags o) GTF_LATE_ARG
        then tab' = tab
             /\ nodes s' = <[newArg := set_gtFlags (Z.lor (gtFlags nw) GTF_LATE_ARG) nw]> (nodes s)
        else node <$> tab' = <[i := newArg]> (node <$> tab)
             /\ argNum <$> tab' = argNum <$> tab
             /\ (forall n, flagsOf s' n = flagsOf s n)
             /\ (forall n, n <> parentCall -> nodes s' !! n = nodes s !! n))
    /\ tableConsistent s' tab' (<[i := newArg]> roots).
Proof.
  intros Hc Htab Ho Hnw Hcons Hnd Hi.
  unfold fgFixupArgTabEntryPtr.
  rewrite (bind_run _ _ _ _ _ (getNode_run _ _ _ Ho)).
  destruct (hasFlag (gtFlags o) GTF_LATE_ARG) eqn:Hlate.
  - (* late argument: the marker is copied *)
    unfold setFlags. rewrite (modNode_run _ _ _ _ Hnw).
    destruct (decide (newArg = parentCall)) as [->|Hne].
    + rewrite Hc in Hnw. injection Hnw as <-.
      eexists _, _, tab. split; [reflexivity|]. norm.
      split; [by eapply lookup_set_same|]. norm.
      split; [done|]. split; [done|].
      apply Forall2_same_length_lookup_2.
      { rewrite length_insert. by eapply Forall2_length. }
      intros j e r He Hr.
      destruct (decide (i = j)) as [->|Hij].
      * rewrite list_lookup_insert_eq in Hr by (by eapply lookup_lt_Some).
        injection Hr as <-. left. unfold flagsOf. norm.
        erewrite lookup_set_same by done. simpl.
        apply hasFlag_set. by eapply hasFlag_nonzero.
      * rewrite list_lookup_insert_ne in Hr by done.
        destruct (Forall2_lookup_lr _ _ _ _ _ _ Hcons He Hr) as [Hl|Heq]; [|by right].
        left. unfold flagsOf in *. norm.
        destruct (decide (r = parentCall)) as [->|Hrp].
        -- erewrite lookup_set_same by done. rewrite Hc in Hl. simpl in *.
           by apply hasFlag_lor_mono.
        -- by rewrite list_lookup_insert_ne by done.
    + eexists _, c, tab. split; [reflexivity|]. norm.
      split; [by rewrite list_lookup_insert_ne by done|].
      split; [done|]. split; [done|].
      apply Forall2_same_length_lookup_2.
      { rewrite length_insert. by eapply Forall2_length. }
      intros j e r He Hr.
      destruct (decide (i = j)) as [->|Hij].
      * rewrite list_lookup_insert_eq in Hr by (by eapply lookup_lt_Some).
        injection Hr as <-. left. unfold flagsOf. norm.
        erewrite lookup_set_same by done. simpl.
        apply hasFlag_set. by eapply hasFlag_nonzero.
      * rewrite list_lookup_insert_ne in Hr by done.
        destruct (Forall2_lookup_lr _ _ _ _ _ _ Hcons He Hr) as [Hl|Heq]; [|by right].
        left. unfold flagsOf in *. norm.
        destruct (decide (r = newArg)) as [->|Hrp].
        -- erewrite lookup_set_same by done. rewrite Hnw in Hl. simpl in *.
           by apply hasFlag_lor_mono.
        -- by rewrite list_lookup_insert_ne by done.
  - (* ordinary argument: the entry is redirected *)
    assert (exists e, tab !! i = Some e /\ node e = oldArg) as (e & He & Hne).
    { destruct (Forall2_lookup_r _ _ _ _ _ Hcons Hi) as (e & He & [Hl|Heq]).
      - rewrite (flagsOf_lookup _ _ _ Ho) in Hl. congruence.
      - by exists e. }
    assert (list_find (fun e => node e = oldArg) tab = Some (i, e)) as Hfind.
    { apply list_find_Some. split; [done|]. split; [done|].
      intros j y Hy Hlt Hny.
      assert ((node <$> tab) !! j = (node <$> tab) !! i) as Heq.
      { rewrite !list_lookup_fmap, Hy, He. simpl. congruence. }
      apply NoDup_lookup with (i := j) (j := i) (x := oldArg) in Hnd.
      - lia.
      - by rewrite list_lookup_fmap, Hy; simpl; rewrite Hny.
      - by rewrite list_lookup_fmap, He; simpl; rewrite Hne. }
    unfold gtArgEntryByNode.
    rewrite bind_assoc.
    rewrite (bind_run _ _ _ _ _ (getNode_run _ _ _ Hc)).
    rewrite Htab, Hfind. rewrite mret_bind. simpl fst.
    unfold setArgEntryNode. rewrite (modNode_run _ _ _ _ Hc).
    rewrite Htab. simpl fmap.
    eexists _, _, _. split; [reflexivity|]. norm.
    split; [by eapply lookup_set_same|]. norm.
    split; [reflexivity|].
    assert (node <$> alter (fun e0 => {| node := newArg; argNum := argNum e0 |}) i tab
            = <[i := newArg]> (node <$> tab)) as Hnodes.
    { apply list_eq. intros j. rewrite list_lookup_fmap.
      destruct (decide (i = j)) as [->|Hij].
      - rewrite list_lookup_alter_eq, He. simpl.
        rewrite list_lookup_insert_eq; [done|].
        rewrite length_fmap. by eapply lookup_lt_Some.
      - rewrite list_lookup_alter_ne by done.
        rewrite list_lookup_insert_ne by done. by rewrite list_lookup_fmap. }
    assert (forall n, flagsOf
              (set_nodes (<[parentCall := set_gtCall
                 (set_fgArgInfo (Some (alter (fun e0 => {| node := newArg; argNum := argNum e0 |}) i tab))
                    (gtCall c)) c]> (nodes s)) s) n = flagsOf s n) as Hflags.
    { intros n. unfold flagsOf. norm.
      destruct (decide (n = parentCall)) as [->|Hn].
      - erewrite lookup_set_same by done. by rewrite Hc.
      - by rewrite list_lookup_insert_ne by done. }
    split.
    { split; [exact Hnodes|]. split.
      - apply list_eq. intros j. rewrite !list_lookup_fmap.
        destruct (decide (i = j)) as [->|Hij].
        + by rewrite list_lookup_alter_eq, He.
        + by rewrite list_lookup_alter_ne by done.
      - split; [exact Hflags|]. intros n Hn. norm.
        by rewrite list_lookup_insert_ne by done. }
    apply Forall2_same_length_lookup_2.
    { rewrite length_alter, length_insert. by eapply Forall2_length. }
    intros j e' r He' Hr.
    destruct (decide (i = j)) as [->|Hij].
    + rewrite list_lookup_insert_eq in Hr by (by eapply lookup_lt_Some).
      injection Hr as <-. right.
      rewrite list_lookup_alter_eq, He in He'. by injection He' as <-.
    + rewrite list_lookup_insert_ne in Hr by done.
      rewrite list_lookup_alter_ne in He' by done.
      destruct (Forall2_lookup_lr _ _ _ _ _ _ Hcons He' Hr) as [Hl|Heq]; [|by right].
      left. by rewrite Hflags.
Qed.

(** ** The linear order as a list *)

Lemma orElse_last_cons x l p : orElse (last (x :: l)) p = orElse (last l) (Some x).
Proof.
  destruct l as [|y l]; [done|]. rewrite last_cons_cons.
  destruct (last (y :: l)) eqn:E; [done|]. by apply last_None in E.
Qed.

Lemma segment_app ns p l1 l2 nx :
  segment ns p (l1 ++ l2) nx <->
  segment ns p l1 (orElse (head l2) nx) /\ segment ns (orElse (last l1) p) l2 nx.
Proof.
  revert p. induction l1 as [|x l1 IH]; intros p.
  - simpl. tauto.
  - rewrite orElse_last_cons. cbn [app segment]. rewrite IH.
    assert (match l1 ++ l2 with [] => nx | y :: _ => Some y end
            = match l1 with [] => orElse (head l2) nx | y :: _ => Some y end) as ->.
    { destruct l1; [|done]. by destruct l2. }
    tauto.
Qed.

Lemma segment_exists ns p l nx x :
  segment ns p l nx -> x ∈ l -> is_Some (ns !! x).
Proof.
  revert p. induction l as [|y l IH]; intros p Hs Hx; [by apply elem_of_nil in Hx|].
  destruct Hs as [(t & Ht & _) Hs]. apply elem_of_cons in Hx as [->|Hx]; eauto.
Qed.

Lemma segment_frame ns ns' p l nx :
  (forall x, x ∈ l -> ns' !! x = ns !! x) ->
  segment ns p l nx -> segment ns' p l nx.
Proof.
  revert p. induction l as [|y l IH]; intros p Hf Hs; [done|].
  destruct Hs as [(t & Ht & Hp & Hn) Hs]. split.
  - exists t. rewrite Hf by apply list_elem_of_here. done.
  - apply IH; [|done]. intros x Hx. apply Hf. by apply list_elem_of_further.
Qed.

Lemma segment_links ns ns' p l nx :
  (forall x t, x ∈ l -> ns !! x = Some t ->
     exists t', ns' !! x = Some t' /\ gtPrev t' = gtPrev t /\ gtNext t' = gtNext t) ->
  segment ns p l nx -> segment ns' p l nx.
Proof.
  revert p. induction l as [|y l IH]; intros p Hf Hs; [done|].
  destruct Hs as [(t & Ht & Hp & Hn) Hs]. split.
  - destruct (Hf y t (list_elem_of_here _ _) Ht) as (t' & Ht' & Hp' & Hn').
    exists t'. rewrite Hp', Hn'. done.
  - apply IH; [|done]. intros x tx Hx. apply Hf. by apply list_elem_of_further.
Qed.

Lemma segment_insert_other ns p l nx x t' :
  x ∉ l -> segment ns p l nx -> segment (<[x := t']> ns) p l nx.
Proof.
  intros Hx. apply segment_frame. intros y Hy.
  apply list_lookup_insert_ne. intros ->. done.
Qed.

Lemma segment_set_prev_first ns p p' x l nx t :
  x ∉ l -> ns !! x = Some t ->
  segment ns p (x :: l) nx ->
  segment (<[x := set_gtPrev p' t]> ns) p' (x :: l) nx.
Proof.
  intros Hx Ht [(t0 & Ht0 & Hp & Hn) Hs]. rewrite Ht in Ht0. injection Ht0 as <-.
  split.
  - exists (set_gtPrev p' t). split; [by eapply lookup_set_same|]. done.
  - by apply segment_insert_other.
Qed.

Lemma segment_set_next_last ns p l x nx nx' t :
  x ∉ l -> ns !! x = Some t ->
  segment ns p (l ++ [x]) nx ->
  segment (<[x := set_gtNext nx' t]> ns) p (l ++ [x]) nx'.
Proof.
  intros Hx Ht Hs. apply segment_app in Hs as [Hs1 Hs2]. apply segment_app.
  simpl in *. split.
  - by apply segment_insert_other.
  - destruct Hs2 as [(t0 & Ht0 & Hp & Hn) _]. rewrite Ht in Ht0. injection Ht0 as <-.
    split; [|done]. exists (set_gtNext nx' t).
    split; [by eapply lookup_set_same|]. done.
Qed.

Lemma snoc_or_nil {A} (l : list A) : l = [] \/ exists l' x, l = l' ++ [x].
Proof.
  induction l as [|a l IH] using rev_ind; [by left|]. right. by exists l, a.
Qed.

Lemma unlinked_set_prev p t : unlinked (set_gtPrev p t) = unlinked t.
Proof. reflexivity. Qed.
Lemma unlinked_set_next p t : unlinked (set_gtNext p t) = unlinked t.
Proof. reflexivity. Qed.

Lemma sameTrees_refl s : sameTrees s s.
Proof. reflexivity. Qed.

Lemma sameTrees_trans s1 s2 s3 : sameTrees s1 s2 -> sameTrees s2 s3 -> sameTrees s1 s3.
Proof. unfold sameTrees. congruence. Qed.

Lemma sameTrees_insert s n t t' :
  nodes s !! n = Some t -> unlinked t' = unlinked t ->
  sameTrees s (set_nodes (<[n := t']> (nodes s)) s).
Proof.
  intros Ht Hu. unfold sameTrees. simpl. rewrite list_fmap_insert, Hu.
  apply list_insert_id. by rewrite list_lookup_fmap, Ht.
Qed.

Lemma sameTrees_lookup s s' n t :
  sameTrees s s' -> nodes s !! n = Some t ->
  exists t', nodes s' !! n = Some t' /\ unlinked t' = unlinked t.
Proof.
  intros H Ht. unfold sameTrees in H.
  assert ((unlinked <$> nodes s') !! n = Some (unlinked t)) as H'.
  { by rewrite H, list_lookup_fmap, Ht. }
  rewrite list_lookup_fmap in H'. destruct (nodes s' !! n) as [t'|]; [|done].
  exists t'. split; [done|]. simpl in H'. congruence.
Qed.

Lemma sameTrees_lookup_inv s s' n t' :
  sameTrees s s' -> nodes s' !! n = Some t' ->
  exists t, nodes s !! n = Some t /\ unlinked t' = unlinked t.
Proof.
  intros H Ht. unfold sameTrees in H.
  assert ((unlinked <$> nodes s) !! n = Some (unlinked t')) as H'.
  { by rewrite <- H, list_lookup_fmap, Ht. }
  rewrite list_lookup_fmap in H'. destruct (nodes s !! n) as [t|]; [|done].
  exists t. split; [done|]. simpl in H'. congruence.
Qed.

Lemma sameTrees_length s s' : sameTrees s s' -> length (nodes s') = length (nodes s).
Proof.
  intros H. unfold sameTrees in H.
  by rewrite <- (length_fmap unlinked (nodes s')), H, length_fmap.
Qed.

Lemma setNext_run s n p t :
  nodes s !! n = Some t ->
  setNext n p s = Ok (tt, set_nodes (<[n := set_gtNext p t]> (nodes s)) s).
Proof. apply modNode_run. Qed.

Lemma setPrev_run s n p t :
  nodes s !! n = Some t ->
  setPrev n p s = Ok (tt, set_nodes (<[n := set_gtPrev p t]> (nodes s)) s).
Proof. apply modNode_run. Qed.

Lemma modBlock_run s b bb f :
  m_block s = Some b -> fgBBs s !! b = Some bb ->
  modBlock f s = Ok (tt, set_fgBBs (<[b := f bb]> (fgBBs s)) s).
Proof. intros Hb Hbb. unfold modBlock. by rewrite Hb, Hbb. Qed.

(** Re-linking the predecessor side: the nodes of [l1] lead to [nn] instead
    of [o]. *)
Lemma relink_pred s l1 o nn lst :
  NoDup l1 -> segment (nodes s) None l1 o ->
  rangeIs s (orElse (head l1) o) lst ->
  exists s',
    match last l1 with
    | Some p => setNext p nn
    | None => setFirstNode nn
    end s = Ok (tt, s')
    /\ segment (nodes s') None l1 nn
    /\ rangeIs s' (orElse (head l1) nn) lst
    /\ (forall x, x ∉ l1 -> nodes s' !! x = nodes s !! x)
    /\ sameTrees s s' /\ sameRest s s'.
Proof.
  intros Hnd Hseg (b & bb & Hb & Hbb & Hfirst & Hlast).
  destruct (snoc_or_nil l1) as [->|(l & p & ->)].
  - simpl in *. unfold setFirstNode. rewrite (modBlock_run _ _ _ _ Hb Hbb).
    eexists. split; [reflexivity|]. split; [done|]. split.
    + eexists b, _. simpl. split; [done|]. split.
      * apply list_lookup_insert_eq. by eapply lookup_lt_Some.
      * done.
    + split; [done|]. split; [reflexivity|done].
  - rewrite last_snoc.
    apply NoDup_app in Hnd as (_ & Hdisj & _).
    assert (p ∉ l) as Hp. { intros H. eapply Hdisj; [done|apply list_elem_of_here]. }
    destruct (segment_exists _ _ _ _ p Hseg) as [t Ht].
    { apply elem_of_app. right. apply list_elem_of_here. }
    rewrite (setNext_run _ _ _ _ Ht).
    eexists. split; [reflexivity|]. simpl. split.
    { by eapply segment_set_next_last. }
    split.
    { exists b, bb. simpl. repeat split; try done.
      rewrite Hfirst. by destruct l. }
    split.
    { intros x Hx. apply list_lookup_insert_ne. intros <-. apply Hx.
      apply elem_of_app. right. apply list_elem_of_here. }
    split; [|done]. by eapply sameTrees_insert.
Qed.

(** Re-linking the successor side: the nodes of [l2] come from [np] instead
    of [o]. *)
Lemma relink_succ s l2 o np fst :
  NoDup l2 -> segment (nodes s) o l2 None ->
  rangeIs s fst (orElse (last l2) o) ->
  exists s',
    match head l2 with
    | Some x => setPrev x np
    | None => setLastNode np
    end s = Ok (tt, s')
    /\ segment (nodes s') np l2 None
    /\ rangeIs s' fst (orElse (last l2) np)
    /\ (forall x, x ∉ l2 -> nodes s' !! x = nodes s !! x)
    /\ sameTrees s s' /\ sameRest s s'.
Proof.
  intros Hnd Hseg (b & bb & Hb & Hbb & Hfirst & Hlast).
  destruct l2 as [|x l].
  - simpl in *. unfold setLastNode. rewrite (modBlock_run _ _ _ _ Hb Hbb).
    eexists. split; [reflexivity|]. split; [done|]. split.
    + eexists b, _. simpl. split; [done|]. split.
      * apply list_lookup_insert_eq. by eapply lookup_lt_Some.
      * done.
    + split; [done|]. split; [reflexivity|done].
  - cbn [head].
    apply NoDup_cons in Hnd as [Hx _].
    destruct (segment_exists _ _ _ _ x Hseg) as [t Ht]; [apply list_elem_of_here|].
    rewrite (setPrev_run _ _ _ _ Ht).
    eexists. split; [reflexivity|]. simpl nodes. split.
    { by eapply segment_set_prev_first. }
    split.
    { exists b, bb. simpl. repeat split; try done.
      rewrite Hlast. rewrite last_cons. by destruct (last l). }
    split.
    { intros y Hy. apply list_lookup_insert_ne. intros <-. apply Hy.
      apply list_elem_of_here. }
    split; [|done]. by eapply sameTrees_insert.
Qed.

(** ** The range operations on a well-formed linear order *)

Lemma orElse_None_r a : orElse a None = a.
Proof. by destruct a. Qed.

Lemma head_app_orElse (l1 l2 : list NodeId) : head (l1 ++ l2) = orElse (head l1) (head l2).
Proof. by destruct l1. Qed.

Lemma last_app_orElse (l1 l2 : list NodeId) : last (l1 ++ l2) = orElse (last l2) (last l1).
Proof.
  rewrite last_app. by destruct (last l2).
Qed.

Lemma head_cons_orElse (x : NodeId) l o : orElse (head (x :: l)) o = Some x.
Proof. done. Qed.

Lemma next_of_tail (l : list NodeId) o :
  match l with [] => o | y :: _ => Some y end = orElse (head l) o.
Proof. by destruct l. Qed.

Lemma sameRest_refl s : sameRest s s.
Proof. done. Qed.

Lemma sameRest_trans s1 s2 s3 : sameRest s1 s2 -> sameRest s2 s3 -> sameRest s1 s3.
Proof. unfold sameRest. intuition congruence. Qed.

Lemma rangeIs_set_nodes s l f lst : rangeIs s f lst -> rangeIs (set_nodes l s) f lst.
Proof. done. Qed.

Lemma NoDup_bounded_length (l : list nat) n :
  NoDup l -> (forall x, x ∈ l -> x < n) -> length l <= n.
Proof.
  intros Hnd Hb. transitivity (length (seq 0 n)); [|by rewrite length_seq].
  apply submseteq_length.
  apply NoDup_submseteq; [done|]. intros x Hx. apply elem_of_seq. specialize (Hb x Hx). lia.
Qed.

Lemma LinearOrder_exists s l x : LinearOrder s l -> x ∈ l -> is_Some (nodes s !! x).
Proof. intros (_ & Hs & _) Hx. by eapply segment_exists. Qed.

Lemma LinearOrder_length s l : LinearOrder s l -> length l <= length (nodes s).
Proof.
  intros H. apply NoDup_bounded_length; [apply H|].
  intros x Hx. destruct (LinearOrder_exists _ _ _ H Hx) as [t Ht].
  by eapply lookup_lt_Some.
Qed.

(** Facts carried by a linear order around one of its nodes. *)
Lemma LinearOrder_split s l1 n l2 :
  LinearOrder s (l1 ++ n :: l2) ->
  NoDup l1 /\ NoDup l2 /\ (n ∉ l1) /\ (n ∉ l2) /\ (forall x, x ∈ l1 -> x ∉ l2)
  /\ segment (nodes s) None l1 (Some n)
  /\ segment (nodes s) (Some n) l2 None
  /\ (exists t, nodes s !! n = Some t /\ gtPrev t = last l1 /\ gtNext t = head l2)
  /\ rangeIs s (orElse (head l1) (Some n)) (orElse (last l2) (Some n)).
Proof.
  intros (Hnd & Hseg & Hr).
  apply NoDup_app in Hnd as (Hnd1 & Hdisj & Hnd2).
  apply NoDup_cons in Hnd2 as [Hn2 Hnd2].
  apply segment_app in Hseg as [Hs1 Hs2]. simpl in Hs1.
  destruct Hs2 as [(t & Ht & Hp & Hn) Hs2].
  rewrite orElse_None_r in Hp. rewrite next_of_tail, orElse_None_r in Hn.
  rewrite head_app_orElse, last_app_orElse in Hr. simpl head in Hr.
  rewrite last_cons in Hr.
  repeat split; try done.
  - intros H. eapply Hdisj; [done|]. apply list_elem_of_here.
  - intros x H1 H2. eapply Hdisj; [done|]. by apply list_elem_of_further.
  - by exists t.
  - by destruct (last l2).
Qed.

Lemma LinearOrder_build s l1 l2 nx pv :
  NoDup (l1 ++ l2) ->
  segment (nodes s) None l1 nx -> nx = head l2 ->
  segment (nodes s) pv l2 None -> pv = last l1 ->
  rangeIs s (orElse (head l1) (head l2)) (orElse (last l2) (last l1)) ->
  LinearOrder s (l1 ++ l2).
Proof.
  intros Hnd Hs1 -> Hs2 -> Hr. split; [done|]. split.
  - apply segment_app. by rewrite !orElse_None_r.
  - by rewrite head_app_orElse, last_app_orElse.
Qed.

(** [Remove] takes the node out of the list and leaves the trees alone. *)
Lemma Range_Remove_spec s l1 n l2 :
  LinearOrder s (l1 ++ n :: l2) ->
  exists s',
    Range_Remove n s = Ok (tt, s')
    /\ LinearOrder s' (l1 ++ l2)
    /\ sameTrees s s' /\ sameRest s s'
    /\ (forall x, x ∉ l1 ++ n :: l2 -> nodes s' !! x = nodes s !! x).
Proof.
  intros Hlo.
  destruct (LinearOrder_split _ _ _ _ Hlo)
    as (Hnd1 & Hnd2 & Hn1 & Hn2 & Hdisj & Hs1 & Hs2 & (t & Ht & Hp & Hn) & Hr).
  unfold Range_Remove.
  rewrite (bind_run _ _ _ _ _ (getNode_run _ _ _ Ht)). rewrite Hp, Hn.
  destruct (relink_pred s l1 (Some n) (head l2) _ Hnd1 Hs1 Hr)
    as (s1 & Hrun1 & Hs1' & Hr1 & Hfr1 & Hst1 & Hsr1).
  rewrite (bind_run _ _ _ _ _ Hrun1).
  assert (segment (nodes s1) (Some n) l2 None) as Hs2'.
  { eapply segment_frame; [|exact Hs2]. intros x Hx. apply Hfr1.
    intros Hx1. by eapply Hdisj. }
  destruct (relink_succ s1 l2 (Some n) (last l1) _ Hnd2 Hs2' Hr1)
    as (s2 & Hrun2 & Hs2'' & Hr2 & Hfr2 & Hst2 & Hsr2).
  rewrite (bind_run _ _ _ _ _ Hrun2).
  assert (segment (nodes s2) None l1 (head l2)) as Hs1''.
  { eapply segment_frame; [|exact Hs1']. intros x Hx. apply Hfr2.
    intros Hx2. by eapply Hdisj. }
  destruct (sameTrees_lookup _ _ _ _ (sameTrees_trans _ _ _ Hst1 Hst2) Ht)
    as (t2 & Ht2 & Hu2).
  rewrite (bind_run _ _ _ _ _ (setPrev_run _ _ _ _ Ht2)).
  erewrite setNext_run by (simpl; by eapply lookup_set_same).
  eexists. split; [reflexivity|]. simpl.
  rewrite list_insert_insert_eq.
  split; [|split; [|split]].
  - apply LinearOrder_build with (nx := head l2) (pv := last l1); try done.
    + apply (NoDup_app l1 l2). split; [done|]. split; [|done]. apply Hdisj.
    + by apply segment_insert_other.
    + by apply segment_insert_other.
  - eapply sameTrees_trans; [exact Hst1|]. eapply sameTrees_trans; [exact Hst2|].
    by eapply (sameTrees_insert s2).
  - eapply sameRest_trans; [exact Hsr1|]. exact Hsr2.
  - intros x Hx. rewrite list_lookup_insert_ne.
    + rewrite Hfr2, Hfr1; [done| |].
      * intros H. apply Hx. apply elem_of_app. by left.
      * intros H. apply Hx. apply elem_of_app. right. by apply list_elem_of_further.
    + intros <-. apply Hx. apply elem_of_app. right. apply list_elem_of_here.
Qed.

(** A removed node carries no link, and is not the first node of the
    range. *)
Lemma Range_Remove_unlinks s l1 n l2 s' :
  LinearOrder s (l1 ++ n :: l2) -> Range_Remove n s = Ok (tt, s') ->
  (exists t, nodes s' !! n = Some t /\ gtPrev t = None /\ gtNext t = None)
  /\ head (l1 ++ l2) <> Some n.
Proof.
  intros Hlo Hrun.
  destruct (Range_Remove_spec _ _ _ _ Hlo) as (s2 & Hrun2 & Hlo2 & _).
  rewrite Hrun2 in Hrun. injection Hrun as <-.
  split.
  - destruct (LinearOrder_split _ _ _ _ Hlo)
      as (_ & _ & _ & _ & _ & _ & _ & (t & Ht & _) & _).
    revert Hrun2. unfold Range_Remove. intros Hrun2.
    apply bind_inv in Hrun2 as (t0 & sa & _ & Hrun2).
    apply bind_inv in Hrun2 as ([] & sb & _ & Hrun2).
    apply bind_inv in Hrun2 as ([] & sc & _ & Hrun2).
    apply bind_inv in Hrun2 as ([] & sd & Hp & Hn).
    unfold setPrev in Hp. apply modNode_inv in Hp as (tp & Htp & ->).
    unfold setNext in Hn. apply modNode_inv in Hn as (tn & Htn & ->).
    simpl in Htn. erewrite lookup_set_same in Htn by done. injection Htn as <-.
    eexists. split; [simpl; eapply lookup_set_same; simpl; by eapply lookup_set_same|done].
  - intros Hh.
    destruct Hlo as (Hnd & _). apply NoDup_app in Hnd as (_ & Hdisj & Hnd2).
    apply NoDup_cons in Hnd2 as [Hn2 _].
    destruct l1 as [|x l1]; simpl in Hh.
    + destruct l2 as [|y l2]; [done|]. injection Hh as ->. apply Hn2. apply list_elem_of_here.
    + injection Hh as ->. apply (Hdisj n); apply list_elem_of_here.
Qed.

(** [InsertBefore] puts a node that is not in the list in front of the
    insertion point. *)
Lemma Range_InsertBefore_spec s l1 ip l2 n tn :
  LinearOrder s (l1 ++ ip :: l2) ->
  n ∉ l1 ++ ip :: l2 -> nodes s !! n = Some tn ->
  exists s',
    Range_InsertBefore (Some ip) n s = Ok (tt, s')
    /\ LinearOrder s' (l1 ++ n :: ip :: l2)
    /\ sameTrees s s' /\ sameRest s s'.
Proof.
  intros Hlo Hn Htn.
  destruct (LinearOrder_split _ _ _ _ Hlo)
    as (Hnd1 & Hnd2 & Hip1 & Hip2 & Hdisj & Hs1 & Hs2 & (t & Ht & Hp & Hnx) & Hr).
  assert ((n ∉ l1) /\ n <> ip /\ (n ∉ l2)) as (Hn1 & Hnip & Hn2).
  { rewrite elem_of_app, elem_of_cons in Hn. naive_solver. }
  unfold Range_InsertBefore, FinishInsertBefore.
  rewrite (bind_run _ _ _ _ _ (getNode_run _ _ _ Ht)). rewrite Hp.
  rewrite (bind_run _ _ _ _ _ (setPrev_run _ _ _ _ Htn)).
  set (s0 := set_nodes (<[n := set_gtPrev (last l1) tn]> (nodes s)) s).
  assert (segment (nodes s0) None l1 (Some ip)) as Hs1_0 by by apply segment_insert_other.
  assert (rangeIs s0 (orElse (head l1) (Some ip)) (orElse (last l2) (Some ip))) as Hr0 by done.
  destruct (relink_pred s0 l1 (Some ip) (Some n) _ Hnd1 Hs1_0 Hr0)
    as (s1 & Hrun1 & Hs1' & Hr1 & Hfr1 & Hst1 & Hsr1).
  rewrite (bind_run _ _ _ _ _ Hrun1).
  assert (nodes s1 !! n = Some (set_gtPrev (last l1) tn)) as Hn_1.
  { rewrite Hfr1 by done. simpl. by eapply lookup_set_same. }
  assert (nodes s1 !! ip = Some t) as Hip_1.
  { rewrite Hfr1 by done. simpl. by rewrite list_lookup_insert_ne. }
  rewrite (bind_run _ _ _ _ _ (setNext_run _ _ _ _ Hn_1)).
  erewrite setPrev_run by (simpl; rewrite list_lookup_insert_ne by done; exact Hip_1).
  eexists. split; [reflexivity|]. simpl.
  split; [|split].
  - change (l1 ++ n :: ip :: l2) with (l1 ++ [n] ++ ip :: l2).
    split; [|split].
    + apply NoDup_app. split; [done|]. split.
      * intros x Hx1 Hx. apply elem_of_app in Hx as [Hx|Hx].
        -- apply list_elem_of_singleton in Hx as ->. done.
        -- apply elem_of_cons in Hx as [->|Hx]; [done|]. by eapply Hdisj.
      * apply NoDup_cons. split.
        -- rewrite elem_of_cons. intros [?|?]; congruence || done.
        -- apply NoDup_cons. split; [done|done].
    + apply segment_app. split.
      * simpl. apply segment_insert_other; [done|]. by apply segment_insert_other.
      * rewrite orElse_None_r. simpl. split.
        -- exists (set_gtNext (Some ip) (set_gtPrev (last l1) tn)).
           split; [|done]. rewrite list_lookup_insert_ne by done.
           by eapply lookup_set_same.
        -- split.
           ++ exists (set_gtPrev (Some n) t). split.
              { apply list_lookup_insert_eq. rewrite length_insert.
                by eapply lookup_lt_Some. }
              split; [done|]. simpl. by rewrite Hnx, next_of_tail, orElse_None_r.
           ++ apply segment_insert_other; [done|]. apply segment_insert_other; [done|].
              eapply segment_frame; [|exact Hs2]. intros x Hx. rewrite Hfr1.
              ** simpl. apply list_lookup_insert_ne. intros <-. done.
              ** intros Hx1. by eapply Hdisj.
    + rewrite head_app_orElse, last_app_orElse. simpl head.
      assert (last ([n] ++ ip :: l2) = orElse (last l2) (Some ip)) as ->.
      { change ([n] ++ ip :: l2) with (n :: ip :: l2).
        rewrite last_cons_cons, last_cons. by destruct (last l2). }
      assert (orElse (orElse (last l2) (Some ip)) (last l1) = orElse (last l2) (Some ip)) as ->.
      { by destruct (last l2). }
      exact Hr1.
  - assert (sameTrees s s0) as Hst0 by (by apply (sameTrees_insert s n tn)).
    eapply sameTrees_trans; [exact Hst0|]. eapply sameTrees_trans; [exact Hst1|].
    eapply sameTrees_trans.
    { by apply (sameTrees_insert s1 n (set_gtPrev (last l1) tn)
                  (set_gtNext (Some ip) (set_gtPrev (last l1) tn)) Hn_1). }
    apply (sameTrees_insert
             (set_nodes (<[n := set_gtNext (Some ip) (set_gtPrev (last l1) tn)]> (nodes s1)) s1)
             ip t (set_gtPrev (Some n) t)); [|done].
    simpl. rewrite list_lookup_insert_ne by done. exact Hip_1.
  - eapply sameRest_trans; [|exact Hsr1]. done.
Qed.

(** ** Replacing the node of a use *)

Lemma edgeSet_oper e v t : gtOper (edgeSet e v t) = gtOper t.
Proof. by destruct e. Qed.
Lemma edgeSet_type e v t : gtType (edgeSet e v t) = gtType t.
Proof. by destruct e. Qed.
Lemma edgeSet_flags e v t : gtFlags (edgeSet e v t) = gtFlags t.
Proof. by destruct e. Qed.
Lemma edgeSet_prev e v t : gtPrev (edgeSet e v t) = gtPrev t.
Proof. by destruct e. Qed.
Lemma edgeSet_next e v t : gtNext (edgeSet e v t) = gtNext t.
Proof. by destruct e. Qed.
Lemma edgeSet_argInfo e v t : fgArgInfo (gtCall (edgeSet e v t)) = fgArgInfo (gtCall t).
Proof. by destruct e. Qed.
Lemma edgeGet_edgeSet e v t : edgeGet e (edgeSet e v t) = v.
Proof. by destruct e. Qed.

Lemma readEdge_run s e o :
  nodes s !! edgeOwner e = Some o -> readEdge e s = Ok (edgeGet e o, s).
Proof.
  intros H. unfold readEdge. by rewrite (bind_run _ _ _ _ _ (getNode_run _ _ _ H)).
Qed.

Lemma readEdge_inv s e v s' :
  readEdge e s = Ok (v, s') ->
  s' = s /\ exists o, nodes s !! edgeOwner e = Some o /\ edgeGet e o = v.
Proof.
  unfold readEdge. intros H. apply bind_inv in H as (o & s1 & H1 & H2).
  apply getNode_inv in H1 as [-> Ho]. injection H2 as <- <-. eauto.
Qed.

Lemma Use_Def_inv use s n s' :
  Use_Def use s = Ok (n, s') ->
  s' = s /\ match m_edge use with
            | None => m_user use = n
            | Some e => exists o, nodes s !! edgeOwner e = Some o /\ edgeGet e o = Some n
            end.
Proof.
  unfold Use_Def. destruct (m_edge use) as [e|].
  - intros H. apply bind_inv in H as (v & s1 & H1 & H2).
    apply readEdge_inv in H1 as (-> & o & Ho & Hv).
    apply deref_inv in H2 as [-> ->]. eauto.
  - by intros [= -> ->].
Qed.

Lemma setFlags_run s n f t :
  nodes s !! n = Some t ->
  setFlags n f s = Ok (tt, set_nodes (<[n := set_gtFlags (f (gtFlags t)) t]> (nodes s)) s).
Proof. intros H. unfold setFlags. by rewrite (modNode_run _ _ _ _ H). Qed.

(** What [fgFixupArgTabEntryPtr] changes, whenever it returns. *)
Lemma fgFixupArgTabEntryPtr_inv s call old new s' :
  fgFixupArgTabEntryPtr call old new s = Ok (tt, s') ->
  length (nodes s') = length (nodes s)
  /\ fgBBs s' = fgBBs s /\ sameRest s s'
  /\ forall x t, nodes s !! x = Some t ->
       exists t', nodes s' !! x = Some t'
         /\ gtOper t' = gtOper t /\ gtType t' = gtType t
         /\ gtPrev t' = gtPrev t /\ gtNext t' = gtNext t
         /\ (gtFlags t' = gtFlags t
             \/ (x = new /\ gtFlags t' = Z.lor (gtFlags t) GTF_LATE_ARG
                 /\ hasFlag (flagsOf s old) GTF_LATE_ARG = true))
         /\ gtOp1 t' = gtOp1 t /\ gtOp2 t' = gtOp2 t
         /\ (forall e, edgeGet e t' = edgeGet e t).
Proof.
  unfold fgFixupArgTabEntryPtr. intros H.
  apply bind_inv in H as (o & s1 & H1 & H).
  apply getNode_inv in H1 as [-> Ho].
  destruct (hasFlag (gtFlags o) GTF_LATE_ARG) eqn:Hlate.
  - unfold setFlags in H. apply modNode_inv in H as (tn & Htn & ->). simpl.
    rewrite length_insert. repeat split; try done.
    intros x t Ht. destruct (decide (x = new)) as [->|Hx].
    + rewrite Htn in Ht. injection Ht as <-.
      eexists. split; [by eapply lookup_set_same|]. simpl.
      repeat split; try done; try (by intros []).
      right. repeat split; try done. by rewrite (flagsOf_lookup _ _ _ Ho).
    + exists t. rewrite list_lookup_insert_ne by done. repeat split; try done. by left.
  - apply bind_inv in H as ([i fp] & s1 & H1 & H).
    unfold gtArgEntryByNode in H1.
    apply bind_inv in H1 as (c & s2 & H1 & H2). apply getNode_inv in H1 as [-> Hc].
    assert (s1 = s) as ->.
    { destruct (fgArgInfo (gtCall c)); [|done].
      destruct (list_find _ _); [|done]. by injection H2. }
    unfold setArgEntryNode in H. apply modNode_inv in H as (c' & Hc' & ->). simpl.
    rewrite length_insert. repeat split; try done.
    intros x t Ht. destruct (decide (x = call)) as [->|Hx].
    + rewrite Hc' in Ht. injection Ht as <-.
      eexists. split; [by eapply lookup_set_same|]. simpl.
      repeat split; try done; try (by intros []). by left.
    + exists t. rewrite list_lookup_insert_ne by done. repeat split; try done. by left.
Qed.

(** What the write into the slot changes, whenever it returns. *)
Lemma Use_Redirect_inv use new s use' s' :
  Use_Redirect use new s = Ok (use', s') ->
  match m_edge use with
  | None => s' = s /\ use' = GetDummyUse new
  | Some e =>
      use' = use
      /\ exists o old, nodes s !! edgeOwner e = Some o /\ edgeGet e o = old
           /\ forall n, old = Some n -> slotWritten e n new s s'
  end.
Proof.
  unfold Use_Redirect. destruct (m_edge use) as [e|] eqn:He.
  2:{ by intros [= <- <-]. }
  intros H.
  apply bind_inv in H as (old & s1 & H1 & H).
  apply readEdge_inv in H1 as (-> & o & Ho & Hold).
  apply bind_inv in H as ([] & s1 & H1 & H).
  unfold writeEdge in H1. apply modNode_inv in H1 as (o' & Ho' & ->).
  rewrite Ho in Ho'. injection Ho' as <-.
  apply bind_inv in H as (u & s2 & H1 & H).
  apply getNode_inv in H1 as [-> Hu].
  apply bind_inv in H as ([] & s3 & H1 & H). injection H as <- <-.
  split; [done|]. exists o, old. split; [done|]. split; [done|].
  intros n ->.
  assert (forall x t, nodes s !! x = Some t ->
            exists t', <[edgeOwner e := edgeSet e (Some new) o]> (nodes s) !! x = Some t'
              /\ gtOper t' = gtOper t /\ gtType t' = gtType t
              /\ gtPrev t' = gtPrev t /\ gtNext t' = gtNext t
              /\ gtFlags t' = gtFlags t
              /\ (x <> edgeOwner e -> t' = t)) as Hw.
  { intros x t Ht. destruct (decide (x = edgeOwner e)) as [->|Hx].
    - rewrite Ho in Ht. injection Ht as <-.
      eexists. split; [by eapply lookup_set_same|].
      repeat split; try (by destruct e).
    - exists t. rewrite list_lookup_insert_ne by done. done. }
  assert (forall n, flagsOf (set_nodes (<[edgeOwner e := edgeSet e (Some new) o]> (nodes s)) s) n
                    = flagsOf s n) as Hfl.
  { intros k. unfold flagsOf. simpl. destruct (decide (k = edgeOwner e)) as [->|Hk].
    - erewrite lookup_set_same by done. rewrite Ho. simpl. apply edgeSet_flags.
    - by rewrite list_lookup_insert_ne by done. }
  destruct (decide (gtOper u = GT_CALL)) as [Hcall|Hcall].
  - apply bind_inv in H1 as (old' & s4 & H1 & H2).
    apply deref_inv in H1 as [H1 ->]. injection H1 as <-.
    apply fgFixupArgTabEntryPtr_inv in H2
      as (Hlen & Hbb & Hrest & Hnodes).
    simpl in *. rewrite length_insert in Hlen.
    unfold slotWritten.
    split; [done|]. split; [done|]. split; [done|]. split.
    + destruct (Hnodes (edgeOwner e) (edgeSet e (Some new) o))
        as (t' & Ht' & _ & _ & _ & _ & _ & _ & _ & Hedges).
      { by eapply lookup_set_same. }
      exists t'. split; [done|]. by rewrite Hedges, edgeGet_edgeSet.
    + intros x t Ht.
      destruct (Hw x t Ht) as (t1 & Ht1 & Ho1 & Hty1 & Hp1 & Hn1 & Hf1 & Heq1).
      destruct (Hnodes x t1 Ht1) as (t2 & Ht2 & Ho2 & Hty2 & Hp2 & Hn2 & Hf2 & Hop1 & Hop2 & _).
      exists t2. split; [done|].
      rewrite Ho2, Hty2, Hp2, Hn2, Ho1, Hty1, Hp1, Hn1.
      repeat split; try done.
      * destruct Hf2 as [Hf2|(-> & Hf2 & Hl)]; [left; congruence|].
        right. split; [done|]. split; [congruence|]. by rewrite Hfl in Hl.
      * rewrite Hop1. by rewrite Heq1.
      * rewrite Hop2. by rewrite Heq1.
  - injection H1 as <-. unfold slotWritten. simpl nodes. rewrite length_insert.
    split; [done|]. split; [done|]. split; [done|]. split.
    + eexists. split; [by eapply lookup_set_same|]. apply edgeGet_edgeSet.
    + intros x t Ht.
      destruct (Hw x t Ht) as (t1 & Ht1 & Ho1 & Hty1 & Hp1 & Hn1 & Hf1 & Heq1).
      exists t1. repeat split; try done; [by left|..]; by rewrite Heq1.
Qed.

(** ** Bringing the replacement to the place of the replaced node *)

Ltac list_norm := repeat (progress (rewrite <- ?app_assoc; cbn [app])).

(** The order [H] with its list written another way. *)
Ltac relist H :=
  match type of H with
  | LinearOrder ?s ?l =>
      match goal with
      | |- LinearOrder s ?l' => replace l' with l; [exact H|list_norm; reflexivity]
      end
  end.

Lemma FirstNode_run s first last : rangeIs s first last -> FirstNode s = Ok (first, s).
Proof.
  intros (b & bb & Hb & Hbb & Hf & _). unfold FirstNode, getBlock.
  unfold mbind, M_bind. rewrite Hb. simpl. by rewrite Hbb, <- Hf.
Qed.

Lemma LinearOrder_first s l : LinearOrder s l -> FirstNode s = Ok (head l, s).
Proof. intros (_ & _ & Hr). by eapply FirstNode_run. Qed.

(** Nothing moves when the replacement stands next to the replaced node. *)
Lemma Use_Splice_here s old new o :
  nodes s !! old = Some o ->
  old = new \/ gtPrev o = Some new \/ gtNext o = Some new ->
  Use_Splice old new s = Ok (tt, s).
Proof.
  intros Ho Hnear. unfold Use_Splice.
  rewrite (bind_run _ _ _ _ _ (getNode_run _ _ _ Ho)).
  destruct Hnear as [->|[Hp|Hn]].
  - by rewrite bool_decide_eq_true_2.
  - rewrite (bool_decide_eq_true_2 (gtPrev o = Some new)) by done.
    by rewrite orb_true_r.
  - rewrite (bool_decide_eq_true_2 (gtNext o = Some new)) by done.
    by rewrite !orb_true_r.
Qed.

(** Nothing moves when the replaced node has left the order. *)
Lemma Use_Splice_gone s old new o first last :
  nodes s !! old = Some o -> gtPrev o = None -> gtNext o = None ->
  rangeIs s first last -> first <> Some old ->
  Use_Splice old new s = Ok (tt, s).
Proof.
  intros Ho Hp Hn Hr Hf. unfold Use_Splice.
  rewrite (bind_run _ _ _ _ _ (getNode_run _ _ _ Ho)).
  match goal with |- context [if ?c then _ else _] => destruct c end; [done|].
  unfold isLinked.
  rewrite bind_assoc, (bind_run _ _ _ _ _ (getNode_run _ _ _ Ho)).
  rewrite bind_assoc, (bind_run _ _ _ _ _ (FirstNode_run _ _ _ Hr)).
  rewrite mret_bind, Hp, Hn.
  rewrite (bool_decide_eq_false_2 (is_Some None)) by (by intros [? ?]).
  by rewrite (bool_decide_eq_false_2 (first = Some old)) by done.
Qed.

Lemma LinearOrder_prev s l1 x y l2 :
  LinearOrder s (l1 ++ x :: y :: l2) ->
  exists ty, nodes s !! y = Some ty /\ gtPrev ty = Some x.
Proof.
  intros Hlo. change (l1 ++ x :: y :: l2) with (l1 ++ [x] ++ y :: l2) in Hlo.
  rewrite app_assoc in Hlo.
  destruct (LinearOrder_split _ _ _ _ Hlo) as (_ & _ & _ & _ & _ & _ & _ & (t & Ht & Hp & _) & _).
  exists t. split; [done|]. by rewrite Hp, last_snoc.
Qed.

Lemma LinearOrder_next s l1 x y l2 :
  LinearOrder s (l1 ++ x :: y :: l2) ->
  exists tx, nodes s !! x = Some tx /\ gtNext tx = Some y.
Proof.
  intros Hlo.
  destruct (LinearOrder_split _ _ _ _ Hlo) as (_ & _ & _ & _ & _ & _ & _ & (t & Ht & _ & Hn) & _).
  exists t. split; [done|]. by rewrite Hn.
Qed.

(** The replacement stands before the replaced node: it is brought right
    before it, and nothing else changes place. *)
Lemma Use_Splice_spec s old new l1 l2 l3 :
  LinearOrder s (l1 ++ new :: l2 ++ old :: l3) ->
  exists s',
    Use_Splice old new s = Ok (tt, s')
    /\ LinearOrder s' (l1 ++ l2 ++ new :: old :: l3)
    /\ sameTrees s s' /\ sameRest s s'.
Proof.
  intros Hlo.
  destruct (snoc_or_nil l2) as [->|(l2' & z & ->)].
  - destruct (LinearOrder_prev _ _ _ _ _ Hlo) as (o & Ho & Hp).
    exists s. split; [by eapply Use_Splice_here; eauto|]. done.
  - pose proof Hlo as Hnd. destruct Hnd as [Hnd _].
    assert (LinearOrder s ((l1 ++ new :: l2') ++ z :: old :: l3)) as Hlo'.
    { relist Hlo. }
    destruct (LinearOrder_prev _ _ _ _ _ Hlo') as (o & Ho & Hp).
    assert (LinearOrder s ((l1 ++ new :: l2' ++ [z]) ++ old :: l3)) as Hlo''.
    { relist Hlo. }
    destruct (LinearOrder_split _ _ _ _ Hlo'')
      as (_ & _ & Ho1 & Ho2 & _ & _ & _ & (o' & Ho' & _ & Hnx) & _).
    rewrite Ho in Ho'. injection Ho' as <-.
    destruct (LinearOrder_split _ _ _ _ Hlo)
      as (_ & _ & Hn1 & Hn2 & _ & _ & _ & (tn & Htn & _ & Hnn) & _).
    assert (old <> new) as Hne.
    { intros ->. apply Hn2. apply elem_of_app. right. apply list_elem_of_here. }
    assert (z <> new) as Hz.
    { intros ->. apply Hn2. apply elem_of_app. left. apply elem_of_app. right.
      apply list_elem_of_here. }
    assert (gtNext o <> Some new) as Hnx'.
    { rewrite Hnx. destruct l3 as [|w l3']; [done|]. simpl. intros [= ->].
      apply Hn2. rewrite <- app_assoc. apply elem_of_app. right.
      apply list_elem_of_further, list_elem_of_further, list_elem_of_here. }
    assert (is_Some (gtNext tn)) as Hsn.
    { rewrite Hnn. destruct l2'; simpl; eauto. }
    assert (Use_Splice old new s
            = (Range_Remove new ;; Range_InsertBefore (Some old) new) s) as Hsp.
    { unfold Use_Splice.
      rewrite (bind_run _ _ _ _ _ (getNode_run _ _ _ Ho)).
      rewrite (bool_decide_eq_false_2 (old = new)) by done.
      rewrite (bool_decide_eq_false_2 (gtPrev o = Some new)) by (rewrite Hp; congruence).
      rewrite (bool_decide_eq_false_2 (gtNext o = Some new)) by done.
      cbn [orb]. unfold isLinked.
      rewrite bind_assoc, (bind_run _ _ _ _ _ (getNode_run _ _ _ Ho)).
      rewrite bind_assoc, (bind_run _ _ _ _ _ (LinearOrder_first _ _ Hlo)).
      rewrite mret_bind, Hp.
      rewrite (bool_decide_eq_true_2 (is_Some (Some z))) by eauto.
      cbn [orb negb].
      rewrite bind_assoc, (bind_run _ _ _ _ _ (getNode_run _ _ _ Htn)).
      rewrite bind_assoc, (bind_run _ _ _ _ _ (LinearOrder_first _ _ Hlo)).
      rewrite mret_bind.
      rewrite (bool_decide_eq_true_2 (is_Some (gtNext tn))) by done.
      by rewrite orb_true_r. }
    destruct (Range_Remove_spec _ _ _ _ Hlo) as (s1 & Hrun1 & Hlo1 & Hst1 & Hsr1 & _).
    destruct (sameTrees_lookup _ _ _ _ Hst1 Htn) as (tn1 & Htn1 & _).
    assert (LinearOrder s1 ((l1 ++ l2' ++ [z]) ++ old :: l3)) as Hlo1' by relist Hlo1.
    destruct (Range_InsertBefore_spec s1 (l1 ++ l2' ++ [z]) old l3 new tn1 Hlo1')
      as (s2 & Hrun2 & Hlo2 & Hst2 & Hsr2); [|done|].
    { rewrite <- app_assoc. intros Hin.
      apply NoDup_app in Hnd as (_ & Hd & Hnd2). apply NoDup_cons in Hnd2 as [Hnew _].
      apply elem_of_app in Hin as [Hin|Hin]; [by eapply Hd; [exact Hin|apply list_elem_of_here]|].
      by apply Hnew. }
    exists s2. split; [by rewrite Hsp, (bind_run _ _ _ _ _ Hrun1)|]. split; [relist Hlo2|].
    split; [by eapply sameTrees_trans|by eapply sameRest_trans].
Qed.

(** [Use::ReplaceWith] where nothing has to move: only the slot is written. *)
Lemma Use_ReplaceWith_here s use old new o :
  Use_Def use s = Ok (old, s) -> nodes s !! old = Some o ->
  old = new \/ gtPrev o = Some new \/ gtNext o = Some new ->
  Use_ReplaceWith use new s = Use_Redirect use new s.
Proof.
  intros Hdef Ho Hnear. unfold Use_ReplaceWith.
  rewrite (bind_run _ _ _ _ _ Hdef).
  by rewrite (bind_run _ _ _ _ _ (Use_Splice_here _ _ _ _ Ho Hnear)).
Qed.

Lemma Use_ReplaceWith_gone s use old new o first last :
  Use_Def use s = Ok (old, s) -> nodes s !! old = Some o ->
  gtPrev o = None -> gtNext o = None ->
  rangeIs s first last -> first <> Some old ->
  Use_ReplaceWith use new s = Use_Redirect use new s.
Proof.
  intros Hdef Ho Hp Hn Hr Hf. unfold Use_ReplaceWith.
  rewrite (bind_run _ _ _ _ _ Hdef).
  by rewrite (bind_run _ _ _ _ _ (Use_Splice_gone _ _ _ _ _ _ Ho Hp Hn Hr Hf)).
Qed.

Lemma Use_Redirect_ok use new s old :
  Use_Def use s = Ok (old, s) ->
  is_Some (nodes s !! m_user use) -> is_Some (nodes s !! old) ->
  is_Some (nodes s !! new) ->
  argFixable s use old ->
  exists use' s', Use_Redirect use new s = Ok (use', s').
Proof.
  intros Hdef [u Hu] [to Hto] [tn Htn] Hfix.
  apply Use_Def_inv in Hdef as [_ Hdef].
  unfold Use_Redirect, argFixable in *. destruct (m_edge use) as [e|]; [|by eauto].
  destruct Hdef as (o & Ho & Hold).
  rewrite (bind_run _ _ _ _ _ (readEdge_run _ _ _ Ho)). rewrite Hold.
  unfold writeEdge. rewrite (bind_run _ _ _ _ _ (modNode_run _ _ _ _ Ho)).
  set (s1 := set_nodes (<[edgeOwner e := edgeSet e (Some new) o]> (nodes s)) s).
  assert (forall x t, nodes s !! x = Some t ->
            exists t', nodes s1 !! x = Some t' /\ gtOper t' = gtOper t
                       /\ gtFlags t' = gtFlags t
                       /\ fgArgInfo (gtCall t') = fgArgInfo (gtCall t)) as Hw.
  { intros x t Ht. simpl. destruct (decide (x = edgeOwner e)) as [->|Hx].
    - rewrite Ho in Ht. injection Ht as <-.
      eexists. split; [by eapply lookup_set_same|].
      by rewrite edgeSet_oper, edgeSet_flags, edgeSet_argInfo.
    - exists t. by rewrite list_lookup_insert_ne by done. }
  destruct (Hw _ _ Hu) as (u' & Hu' & Hou & _ & Htab).
  destruct (Hw _ _ Hto) as (to' & Hto' & _ & Hfo & _).
  destruct (Hw _ _ Htn) as (tn' & Htn' & _ & _ & _).
  rewrite (bind_run _ _ _ _ _ (getNode_run _ _ _ Hu')).
  destruct (decide (gtOper u' = GT_CALL)) as [Hcall|Hcall]; [|by eauto].
  cbn [deref]. rewrite bind_assoc, mret_bind.
  unfold fgFixupArgTabEntryPtr. rewrite bind_assoc.
  rewrite (bind_run _ _ _ _ _ (getNode_run _ _ _ Hto')).
  destruct (hasFlag (gtFlags to') GTF_LATE_ARG) eqn:Hlate.
  - rewrite (bind_run _ _ _ _ _ (setFlags_run _ _ _ _ Htn')). by eauto.
  - destruct (Hfix u Hu) as [Hl|(tab & Htab' & en & Hen & Hnode)]; [congruence| |].
    { rewrite (flagsOf_lookup _ _ _ Hto) in Hl. congruence. }
    unfold gtArgEntryByNode. rewrite !bind_assoc.
    rewrite (bind_run _ _ _ _ _ (getNode_run _ _ _ Hu')).
    rewrite Htab, Htab'.
    destruct (list_find_elem_of (fun e0 => node e0 = old) tab en Hen Hnode) as [[i fp] Hfind].
    rewrite Hfind. rewrite mret_bind. unfold setArgEntryNode.
    rewrite (bind_run _ _ _ _ _ (modNode_run _ _ _ _ Hu')). by eauto.
Qed.

Lemma LinearOrder_links s s' l :
  LinearOrder s l ->
  (forall x t, nodes s !! x = Some t ->
     exists t', nodes s' !! x = Some t' /\ gtPrev t' = gtPrev t /\ gtNext t' = gtNext t) ->
  fgBBs s' = fgBBs s -> m_block s' = m_block s ->
  LinearOrder s' l.
Proof.
  intros (Hnd & Hseg & (b & bb & Hb & Hbb & Hf & Hl)) Hlinks Hbbs Hmb.
  split; [done|]. split.
  - eapply segment_links; [|exact Hseg]. intros x t _ Ht. by apply Hlinks.
  - exists b, bb. by rewrite Hbbs, Hmb.
Qed.

Lemma LinearOrder_slotWritten e old new s s' l :
  slotWritten e old new s s' -> LinearOrder s l -> LinearOrder s' l.
Proof.
  intros (_ & Hbb & (_ & Hmb & _) & _ & Hn) Hlo.
  eapply LinearOrder_links; [exact Hlo| |done|done].
  intros x t Ht. destruct (Hn x t Ht) as (t' & Ht' & _ & _ & Hp & Hnx & _).
  by exists t'.
Qed.

Lemma lookup_snoc_new (l : list GenTree) x : (l ++ [x]) !! length l = Some x.
Proof. by apply list_lookup_middle. Qed.

Lemma lookup_snoc_old (l : list GenTree) x n t : l !! n = Some t -> (l ++ [x]) !! n = Some t.
Proof. intros H. by apply lookup_app_l_Some. Qed.

Lemma insert_snoc (l : list GenTree) x y : <[length l := y]> (l ++ [x]) = l ++ [y].
Proof.
  rewrite insert_app_r_alt by lia. by rewrite Nat.sub_diag.
Qed.

Lemma effectsOf_run s n t :
  nodes s !! n = Some t ->
  effectsOf (Some n) s = Ok (Z.land (gtFlags t) GTF_ALL_EFFECT, s).
Proof. intros H. unfold effectsOf. by rewrite (bind_run _ _ _ _ _ (getNode_run _ _ _ H)). Qed.

(** ** Splicing a new node into the place of an old one *)

Lemma unlinked_oper t t' : unlinked t' = unlinked t -> gtOper t' = gtOper t.
Proof. intros H. by apply (f_equal gtOper) in H. Qed.
Lemma unlinked_type t t' : unlinked t' = unlinked t -> gtType t' = gtType t.
Proof. intros H. by apply (f_equal gtType) in H. Qed.
Lemma unlinked_flags t t' : unlinked t' = unlinked t -> gtFlags t' = gtFlags t.
Proof. intros H. by apply (f_equal gtFlags) in H. Qed.
Lemma unlinked_op1 t t' : unlinked t' = unlinked t -> gtOp1 t' = gtOp1 t.
Proof. intros H. by apply (f_equal gtOp1) in H. Qed.
Lemma unlinked_op2 t t' : unlinked t' = unlinked t -> gtOp2 t' = gtOp2 t.
Proof. intros H. by apply (f_equal gtOp2) in H. Qed.
Lemma unlinked_call t t' : unlinked t' = unlinked t -> gtCall t' = gtCall t.
Proof. intros H. by apply (f_equal gtCall) in H. Qed.
Lemma unlinked_lcl t t' : unlinked t' = unlinked t -> gtLcl t' = gtLcl t.
Proof. intros H. by apply (f_equal gtLcl) in H. Qed.
Lemma unlinked_edge e t t' : unlinked t' = unlinked t -> edgeGet e t' = edgeGet e t.
Proof.
  intros H. destruct e; simpl;
    first [ by apply (f_equal gtOp1) in H | by apply (f_equal gtOp2) in H
          | by apply (f_equal gtDynamicSize) in H
          | by apply (f_equal gtCall) in H; simpl in H; rewrite H
          | by apply (f_equal gtStmt) in H; simpl in H; rewrite H ].
Qed.

Lemma treesKept_refl s : treesKept s s.
Proof. intros x t Ht. by exists t. Qed.

Lemma treesKept_trans s1 s2 s3 : treesKept s1 s2 -> treesKept s2 s3 -> treesKept s1 s3.
Proof.
  intros H12 H23 x t Ht. destruct (H12 x t Ht) as (t2 & Ht2 & Hu2).
  destruct (H23 x t2 Ht2) as (t3 & Ht3 & Hu3). exists t3. split; [done|congruence].
Qed.

Lemma sameTrees_kept s s' : sameTrees s s' -> treesKept s s'.
Proof. intros H x t Ht. by eapply sameTrees_lookup. Qed.

Lemma treesKept_snoc s st : treesKept s (set_nodes (nodes s ++ [st]) s).
Proof. intros x t Ht. exists t. split; [|done]. simpl. by apply lookup_snoc_old. Qed.

Lemma treesKept_flagsOf s s' x :
  treesKept s s' -> is_Some (nodes s !! x) -> flagsOf s' x = flagsOf s x.
Proof.
  intros H [t Ht]. destruct (H x t Ht) as (t' & Ht' & Hu).
  unfold flagsOf. rewrite Ht, Ht'. simpl. by apply unlinked_flags.
Qed.

Lemma treesKept_Use_Def s s' use n :
  treesKept s s' -> Use_Def use s = Ok (n, s) -> Use_Def use s' = Ok (n, s').
Proof.
  intros H Hdef. apply Use_Def_inv in Hdef as [_ Hdef]. unfold Use_Def.
  destruct (m_edge use) as [e|]; [|by rewrite Hdef].
  destruct Hdef as (o & Ho & Hn). destruct (H _ _ Ho) as (o' & Ho' & Hu).
  rewrite (bind_run _ _ _ _ _ (readEdge_run _ _ _ Ho')).
  by rewrite (unlinked_edge _ _ _ Hu), Hn.
Qed.

Lemma treesKept_argFixable s s' use old :
  treesKept s s' -> is_Some (nodes s !! m_user use) -> is_Some (nodes s !! old) ->
  argFixable s use old -> argFixable s' use old.
Proof.
  intros H [u Hu] Hold Hfix. unfold argFixable in *.
  destruct (m_edge use); [|done]. intros u' Hu' Hcall.
  destruct (H _ _ Hu) as (u2 & Hu2 & Hun). rewrite Hu' in Hu2. injection Hu2 as <-.
  rewrite (treesKept_flagsOf _ _ _ H Hold).
  rewrite (unlinked_call _ _ Hun).
  apply (Hfix u Hu). by rewrite <- (unlinked_oper _ _ Hun).
Qed.

Lemma treesKept_LinearOrder s st l :
  LinearOrder s l -> LinearOrder (set_nodes (nodes s ++ [st]) s) l.
Proof.
  intros H. eapply LinearOrder_links; [exact H| |done|done].
  intros x t Ht. exists t. split; [|done]. simpl. by apply lookup_snoc_old.
Qed.

(** The tail of the rewrites that synthesize a node: with the new node [st]
    just allocated, remove [location], insert the new node before
    [assignment], redirect the use to it and remove [assignment]. *)
Lemma store_splice s st use assignment location l1 l2 l3 :
  LinearOrder s (l1 ++ location :: l2 ++ assignment :: l3) ->
  Use_Def use s = Ok (assignment, s) ->
  is_Some (nodes s !! m_user use) -> argFixable s use assignment ->
  exists use' s' st',
    (Range_Remove location ;;
     Range_InsertBefore (Some assignment) (length (nodes s)) ;;
     use' ← Use_ReplaceWith use (length (nodes s)) ;
     Range_Remove assignment ;;
     mret use') (set_nodes (nodes s ++ [st]) s) = Ok (use', s')
    /\ length (nodes s') = S (length (nodes s))
    /\ nodes s' !! length (nodes s) = Some st'
    /\ gtOper st' = gtOper st /\ gtType st' = gtType st
    /\ gtOp1 st' = gtOp1 st /\ gtOp2 st' = gtOp2 st
    /\ (gtFlags st' = gtFlags st \/ gtFlags st' = Z.lor (gtFlags st) GTF_LATE_ARG)
    /\ LinearOrder s' (l1 ++ l2 ++ length (nodes s) :: l3)
    /\ Use_Def use' s' = Ok (length (nodes s), s')
    /\ (forall x t, nodes s !! x = Some t ->
          exists t', nodes s' !! x = Some t' /\ gtOper t' = gtOper t).
Proof.
  intros Hlo Hdef Huser Hfix.
  set (store := length (nodes s)).
  set (s3 := set_nodes (nodes s ++ [st]) s).
  assert (treesKept s s3) as Hk3 by apply treesKept_snoc.
  assert (LinearOrder s3 (l1 ++ location :: l2 ++ assignment :: l3)) as Hlo3
    by by apply treesKept_LinearOrder.
  assert (is_Some (nodes s !! assignment)) as Hasg.
  { eapply LinearOrder_exists; [exact Hlo|]. rewrite elem_of_app, elem_of_cons, elem_of_app,
      elem_of_cons. naive_solver. }
  assert (forall x, x ∈ l1 ++ location :: l2 ++ assignment :: l3 -> x <> store) as Hfresh.
  { intros x Hx ->. destruct (LinearOrder_exists _ _ _ Hlo Hx) as [t Ht].
    apply lookup_lt_Some in Ht. unfold store in Ht. lia. }
  (* remove the location *)
  destruct (Range_Remove_spec _ _ _ _ Hlo3) as (s4 & Hrun4 & Hlo4 & Hst4 & Hsr4 & _).
  rewrite (bind_run _ _ _ _ _ Hrun4).
  (* insert the store *)
  assert (nodes s3 !! store = Some st) as Hst3 by apply lookup_snoc_new.
  destruct (sameTrees_lookup _ _ _ _ Hst4 Hst3) as (st4 & Hn4 & Hu4).
  rewrite (app_assoc l1 l2) in Hlo4.
  assert (store ∉ (l1 ++ l2) ++ assignment :: l3) as Hnotin.
  { intros Hin. eapply Hfresh; [|reflexivity].
    rewrite !elem_of_app, !elem_of_cons, !elem_of_app, !elem_of_cons in *. tauto. }
  destruct (Range_InsertBefore_spec _ _ _ _ _ _ Hlo4 Hnotin Hn4)
    as (s5 & Hrun5 & Hlo5 & Hst5 & Hsr5).
  rewrite (bind_run _ _ _ _ _ Hrun5).
  (* redirect the use *)
  assert (treesKept s s5) as Hk5.
  { eapply treesKept_trans; [exact Hk3|]. eapply treesKept_trans; by apply sameTrees_kept. }
  destruct (sameTrees_lookup _ _ _ _ Hst5 Hn4) as (st5 & Hn5 & Hu5).
  destruct (Use_Redirect_ok use store s5 assignment) as (use' & s6 & Hrun6).
  { by eapply treesKept_Use_Def. }
  { destruct Huser as [u Hu]. destruct (Hk5 _ _ Hu) as (u' & Hu' & _). eauto. }
  { destruct Hasg as [u Hu]. destruct (Hk5 _ _ Hu) as (u' & Hu' & _). eauto. }
  { eauto. }
  { by eapply treesKept_argFixable. }
  destruct (LinearOrder_prev _ _ _ _ _ Hlo5) as (ta5 & Hta5 & Hprev5).
  rewrite (bind_run _ _ _ _ _
             (eq_trans (Use_ReplaceWith_here s5 use assignment store ta5
                          (treesKept_Use_Def _ _ _ _ Hk5 Hdef) Hta5
                          (or_intror (or_introl Hprev5))) Hrun6)).
  pose proof (Use_Redirect_inv _ _ _ _ _ Hrun6) as Hinv.
  pose proof (treesKept_Use_Def _ _ _ _ Hk5 Hdef) as Hdef5.
  apply Use_Def_inv in Hdef5 as [_ Hdef5].
  assert (LinearOrder s6 ((l1 ++ l2) ++ store :: assignment :: l3)
          /\ length (nodes s6) = length (nodes s5)
          /\ Use_Def use' s6 = Ok (store, s6)
          /\ (exists st6, nodes s6 !! store = Some st6
                /\ gtOper st6 = gtOper st5 /\ gtType st6 = gtType st5
                /\ gtOp1 st6 = gtOp1 st5 /\ gtOp2 st6 = gtOp2 st5
                /\ (gtFlags st6 = gtFlags st5
                    \/ gtFlags st6 = Z.lor (gtFlags st5) GTF_LATE_ARG))
          /\ (forall x t, nodes s5 !! x = Some t ->
                exists t', nodes s6 !! x = Some t' /\ gtOper t' = gtOper t))
    as (Hlo6 & Hlen6 & Hdef6 & (st6 & Hn6 & Ho6 & Hty6 & Hop16 & Hop26 & Hf6) & Hoper6).
  { destruct (m_edge use) as [e|] eqn:He.
    - destruct Hinv as (-> & o & old & Ho & Hold & Hsw).
      destruct Hdef5 as (o' & Ho' & Hold'). rewrite Ho in Ho'. injection Ho' as <-.
      specialize (Hsw assignment (eq_trans (eq_sym Hold) Hold')).
      split; [by eapply LinearOrder_slotWritten|].
      destruct Hsw as (Hlen & _ & _ & (ow & How & Hget) & Hn).
      split; [done|]. split.
      { unfold Use_Def. rewrite He.
        rewrite (bind_run _ _ _ _ _ (readEdge_run _ _ _ How)). by rewrite Hget. }
      split.
      + destruct (Hn _ _ Hn5) as (st6 & Hn6 & Ho6 & Hty6 & _ & _ & Hf6 & Hops).
        exists st6. split; [done|].
        assert (store <> edgeOwner e) as Hne.
        { intros Heq. destruct Huser as [u Hu].
          apply Use_Def_inv in Hdef as [_ Hdef]. rewrite He in Hdef.
          destruct Hdef as (o0 & Ho0 & _). apply lookup_lt_Some in Ho0.
          rewrite <- Heq in Ho0. unfold store in Ho0. lia. }
        destruct (Hops Hne) as [Hop1 Hop2].
        repeat split; try done. destruct Hf6 as [Hf6|(_ & Hf6 & _)]; eauto.
      + intros x t Ht. destruct (Hn _ _ Ht) as (t' & Ht' & Ho6 & _). eauto.
    - destruct Hinv as [-> ->]. split; [done|]. split; [done|]. split; [done|].
      split; [|by eauto]. exists st5. repeat split; try done. by left. }
  (* remove the assignment *)
  assert (LinearOrder s6 (((l1 ++ l2) ++ [store]) ++ assignment :: l3)) as Hlo6'.
  { by rewrite <- (app_assoc (l1 ++ l2) [store]). }
  destruct (Range_Remove_spec _ _ _ _ Hlo6') as (s7 & Hrun7 & Hlo7 & Hst7 & Hsr7 & _).
  rewrite (bind_run _ _ _ _ _ Hrun7).
  destruct (sameTrees_lookup _ _ _ _ Hst7 Hn6) as (st7 & Hn7 & Hu7).
  exists use', s7, st7. split; [reflexivity|].
  split.
  { rewrite (sameTrees_length _ _ Hst7), Hlen6, (sameTrees_length _ _ Hst5),
      (sameTrees_length _ _ Hst4). unfold s3. simpl. rewrite length_app. simpl. lia. }
  split; [done|].
  rewrite (unlinked_oper _ _ Hu7), (unlinked_type _ _ Hu7), (unlinked_op1 _ _ Hu7),
    (unlinked_op2 _ _ Hu7), (unlinked_flags _ _ Hu7).
  rewrite Ho6, Hty6, Hop16, Hop26.
  rewrite (unlinked_oper _ _ Hu5), (unlinked_type _ _ Hu5), (unlinked_op1 _ _ Hu5),
    (unlinked_op2 _ _ Hu5).
  rewrite (unlinked_oper _ _ Hu4), (unlinked_type _ _ Hu4), (unlinked_op1 _ _ Hu4),
    (unlinked_op2 _ _ Hu4).
  rewrite (unlinked_flags _ _ Hu5), (unlinked_flags _ _ Hu4) in Hf6.
  do 4 (split; [done|]). split; [exact Hf6|].
  split; [by rewrite <- !app_assoc in Hlo7|].
  split; [eapply treesKept_Use_Def; [by apply sameTrees_kept|done]|].
  intros x t Ht. destruct (Hk5 _ _ Ht) as (t5 & Ht5 & Hut5).
    destruct (Hoper6 _ _ Ht5) as (t6 & Ht6 & Hot6).
    destruct (sameTrees_lookup _ _ _ _ Hst7 Ht6) as (t7 & Ht7 & Hut7).
    exists t7. split; [done|].
    by rewrite (unlinked_oper _ _ Hut7), Hot6, (unlinked_oper _ _ Hut5).
Qed.

(** ** Assignment through an indirection *)

Lemma set_gtFlags_twice f g t : set_gtFlags f (set_gtFlags g t) = set_gtFlags f t.
Proof. reflexivity. Qed.

Ltac snoc_lookup :=
  norm;
  repeat first
    [ rewrite lookup_snoc_new
    | erewrite lookup_snoc_old by eassumption
    | rewrite list_lookup_insert_ne by congruence
    | rewrite list_lookup_insert_eq
        by (rewrite ?length_insert; eapply lookup_lt_Some; eassumption) ];
  try eassumption; try reflexivity.

Ltac snoc_step :=
  first
    [ rewrite bind_assoc
    | rewrite mret_bind
    | erewrite bind_run by (first [apply getNode_run | apply modNode_run]; snoc_lookup);
      norm; rewrite ?insert_snoc, ?set_gtFlags_twice ].

(** C2.  Rewriting [*p = v]: one node is allocated, a store-indirect with
    operands [(p, v)]; its side-effect flags are those of the assignment,
    its indirection flags those of the dereference, and it is marked
    reverse-ops exactly when the assignment was; afterwards the linear
    order holds neither the dereference nor the assignment, the new node
    stands where the assignment stood, and the use refers to it. *)
Theorem indirect_store_rewrite s use assignment a location loc p v l1 l2 l3 :
  Z.land GTF_ALL_EFFECT GTF_IND_FLAGS = 0%Z ->
  Z.land GTF_ALL_EFFECT GTF_REVERSE_OPS = 0%Z ->
  Z.land GTF_IND_FLAGS GTF_REVERSE_OPS = 0%Z ->
  Z.land GTF_LATE_ARG GTF_ALL_EFFECT = 0%Z ->
  Z.land GTF_LATE_ARG GTF_IND_FLAGS = 0%Z ->
  Z.land GTF_LATE_ARG GTF_REVERSE_OPS = 0%Z ->
  LinearOrder s (l1 ++ location :: l2 ++ assignment :: l3) ->
  Use_Def use s = Ok (assignment, s) ->
  is_Some (nodes s !! m_user use) -> argFixable s use assignment ->
  nodes s !! assignment = Some a -> gtOp1 a = Some location -> gtOp2 a = Some v ->
  nodes s !! location = Some loc -> gtOper loc = GT_IND -> gtOp1 loc = Some p ->
  is_Some (nodes s !! p) -> is_Some (nodes s !! v) ->
  exists use' s' st,
    RewriteAssignment use s = Ok (use', s')
    /\ length (nodes s') = S (length (nodes s))
    /\ nodes s' !! length (nodes s) = Some st
    /\ gtOper st = GT_STOREIND /\ gtOp1 st = Some p /\ gtOp2 st = Some v
    /\ gtType st = gtType loc
    /\ Z.land (gtFlags st) GTF_ALL_EFFECT = Z.land (gtFlags a) GTF_ALL_EFFECT
    /\ Z.land (gtFlags st) GTF_IND_FLAGS = Z.land (gtFlags loc) GTF_IND_FLAGS
    /\ hasFlag (gtFlags st) GTF_REVERSE_OPS = hasFlag (gtFlags a) GTF_REVERSE_OPS
    /\ LinearOrder s' (l1 ++ l2 ++ length (nodes s) :: l3)
    /\ Use_Def use' s' = Ok (length (nodes s), s')
    /\ (forall x t, nodes s !! x = Some t ->
          exists t', nodes s' !! x = Some t' /\ gtOper t' = gtOper t).
Proof.
  intros HAI HAR HIR HLA HLI HLR Hlo Hdef Huser Hfix Ha Hop1 Hop2 Hloc Hoper Hp1
    [tp Htp] [tv Htv].
  unfold RewriteAssignment.
  rewrite (bind_run _ _ _ _ _ Hdef).
  rewrite (bind_run _ _ _ _ _ (getNode_run _ _ _ Ha)).
  rewrite Hop1. cbn [deref]. rewrite mret_bind.
  rewrite (bind_run _ _ _ _ _ (getNode_run _ _ _ Hloc)).
  erewrite bind_run; [|eapply SIMDInit_skip; [eassumption|by rewrite Hoper]].
  rewrite Hoper. cbv iota.
  rewrite (bind_run _ _ _ _ _ (getNode_run _ _ _ Hloc)).
  unfold newOperNode. rewrite Hp1, Hop2. rewrite !bind_assoc.
  rewrite (bind_run _ _ _ _ _ (effectsOf_run _ _ _ Htp)). rewrite !bind_assoc.
  rewrite (bind_run _ _ _ _ _ (effectsOf_run _ _ _ Htv)). rewrite ?bind_assoc.
  unfold allocNode at 1. erewrite (bind_run _ _ s); [|reflexivity].
  unfold copyFlags, setFlags, when. cbn [id].
  repeat snoc_step.
  set (F0 := Z.lor (Z.land (Z.lor (Z.land (Z.lor (Z.land (gtFlags tp) GTF_ALL_EFFECT)
                (Z.land (gtFlags tv) GTF_ALL_EFFECT)) (Z.lnot GTF_ALL_EFFECT))
                (Z.land (gtFlags a) GTF_ALL_EFFECT)) (Z.lnot GTF_IND_FLAGS))
                (Z.land (gtFlags loc) GTF_IND_FLAGS)).
  assert (Z.land F0 GTF_ALL_EFFECT = Z.land (gtFlags a) GTF_ALL_EFFECT) as HF0A.
  { unfold F0. clear -HAI. bitblast. }
  assert (Z.land F0 GTF_IND_FLAGS = Z.land (gtFlags loc) GTF_IND_FLAGS) as HF0I.
  { unfold F0. clear -HAI. bitblast. }
  assert (Z.land F0 GTF_REVERSE_OPS = 0%Z) as HF0R.
  { unfold F0. clear -HAR HIR. bitblast. }
  destruct (hasFlag (gtFlags a) GTF_REVERSE_OPS) eqn:Hrev.
  - repeat snoc_step.
    match goal with
    | |- context [set_nodes (nodes s ++ [?x]) s] => set (st := x)
    end.
    destruct (store_splice s st use assignment location l1 l2 l3 Hlo Hdef Huser Hfix)
      as (use' & s' & st' & Hrun & Hlen & Hst' & Ho & Hty & Ho1 & Ho2 & Hf & Hlo' & Hdef' & Hk).
    exists use', s', st'. split; [exact Hrun|]. split; [done|]. split; [done|].
    rewrite Ho, Hty, Ho1, Ho2. do 4 (split; [done|]).
    assert (gtFlags st = Z.lor F0 GTF_REVERSE_OPS) as Hfst by reflexivity.
    assert (GTF_REVERSE_OPS <> 0%Z) as Hnz by by eapply hasFlag_nonzero.
    split; [|split; [|split; [|done]]].
    + destruct Hf as [->| ->]; rewrite Hfst, <- HF0A; clear -HAR HLA; bitblast.
    + destruct Hf as [->| ->]; rewrite Hfst, <- HF0I; clear -HIR HLI; bitblast.
    + assert (hasFlag (gtFlags st) GTF_REVERSE_OPS = true) as Hs.
      { rewrite Hfst. by apply hasFlag_set. }
      destruct Hf as [->| ->]; [done|]. by apply hasFlag_lor_mono.
  - repeat snoc_step.
    match goal with
    | |- context [set_nodes (nodes s ++ [?x]) s] => set (st := x)
    end.
    destruct (store_splice s st use assignment location l1 l2 l3 Hlo Hdef Huser Hfix)
      as (use' & s' & st' & Hrun & Hlen & Hst' & Ho & Hty & Ho1 & Ho2 & Hf & Hlo' & Hdef' & Hk).
    exists use', s', st'. split; [exact Hrun|]. split; [done|]. split; [done|].
    rewrite Ho, Hty, Ho1, Ho2. do 4 (split; [done|]).
    assert (gtFlags st = F0) as Hfst by reflexivity.
    split; [|split; [|split; [|done]]].
    + destruct Hf as [->| ->]; rewrite Hfst, <- HF0A; clear -HLA; bitblast.
    + destruct Hf as [->| ->]; rewrite Hfst, <- HF0I; clear -HLI; bitblast.
    + assert (Z.land (gtFlags st') GTF_REVERSE_OPS = 0%Z) as Hz.
      { destruct Hf as [->| ->]; rewrite Hfst, <- HF0R; clear -HLR; bitblast. }
      unfold hasFlag. rewrite Hz. reflexivity.
Qed.

(** ** Address-of *)

(** Writing an existing node [new] into the slot of a use of [old]: the
    use then refers to [new], the linear order is as before, and the nodes
    keep their operators and types. *)
Lemma Use_Redirect_spec s use old new :
  Use_Def use s = Ok (old, s) ->
  is_Some (nodes s !! m_user use) -> is_Some (nodes s !! old) ->
  is_Some (nodes s !! new) ->
  argFixable s use old ->
  exists use' s',
    Use_Redirect use new s = Ok (use', s')
    /\ (forall l, LinearOrder s l -> LinearOrder s' l)
    /\ Use_Def use' s' = Ok (new, s')
    /\ length (nodes s') = length (nodes s)
    /\ (forall x t, nodes s !! x = Some t ->
          exists t', nodes s' !! x = Some t'
            /\ gtOper t' = gtOper t /\ gtType t' = gtType t
            /\ (gtFlags t' = gtFlags t \/ gtFlags t' = Z.lor (gtFlags t) GTF_LATE_ARG)).
Proof.
  intros Hdef Huser Hold Hnew Hfix.
  destruct (Use_Redirect_ok use new s old Hdef Huser Hold Hnew Hfix)
    as (use' & s1 & Hrun1).
  exists use', s1. split; [exact Hrun1|].
  pose proof (Use_Redirect_inv _ _ _ _ _ Hrun1) as Hinv.
  pose proof Hdef as Hdef0. apply Use_Def_inv in Hdef0 as [_ Hdef0].
  destruct (m_edge use) as [e|] eqn:He.
  - destruct Hinv as (-> & o & oldv & Ho & Holdv & Hsw).
    destruct Hdef0 as (o' & Ho' & Hold'). rewrite Ho in Ho'. injection Ho' as <-.
    specialize (Hsw old (eq_trans (eq_sym Holdv) Hold')).
    split; [intros l Hl; by eapply LinearOrder_slotWritten|].
    destruct Hsw as (Hlen & _ & _ & (ow & How & Hget) & Hn).
    split.
    { unfold Use_Def. rewrite He.
      rewrite (bind_run _ _ _ _ _ (readEdge_run _ _ _ How)). by rewrite Hget. }
    split; [done|].
    intros x t Ht. destruct (Hn _ _ Ht) as (t' & Ht' & Ho1 & Hty1 & _ & _ & Hf & _).
    exists t'. do 3 (split; [done|]). destruct Hf as [Hf|(_ & Hf & _)]; eauto.
  - destruct Hinv as [-> ->]. split; [done|]. split; [done|]. split; [done|].
    intros x t Ht. exists t. eauto.
Qed.

(** [Use::ReplaceWith] with the replacement [new] standing before the
    replaced node [old]: [new] is brought right before [old], the use then
    refers to it, and the nodes keep their operators and types. *)
Lemma Use_ReplaceWith_spec s use old new l1 l2 l3 :
  LinearOrder s (l1 ++ new :: l2 ++ old :: l3) ->
  Use_Def use s = Ok (old, s) ->
  is_Some (nodes s !! m_user use) ->
  argFixable s use old ->
  exists use' s',
    Use_ReplaceWith use new s = Ok (use', s')
    /\ LinearOrder s' (l1 ++ l2 ++ new :: old :: l3)
    /\ Use_Def use' s' = Ok (new, s')
    /\ length (nodes s') = length (nodes s)
    /\ (forall x t, nodes s !! x = Some t ->
          exists t', nodes s' !! x = Some t'
            /\ gtOper t' = gtOper t /\ gtType t' = gtType t
            /\ (gtFlags t' = gtFlags t \/ gtFlags t' = Z.lor (gtFlags t) GTF_LATE_ARG)).
Proof.
  intros Hlo Hdef Huser Hfix.
  assert (is_Some (nodes s !! old)) as Hold.
  { eapply LinearOrder_exists; [exact Hlo|].
    rewrite elem_of_app, elem_of_cons, elem_of_app, elem_of_cons. tauto. }
  assert (is_Some (nodes s !! new)) as Hnew.
  { eapply LinearOrder_exists; [exact Hlo|]. rewrite elem_of_app, elem_of_cons. tauto. }
  destruct (Use_Splice_spec _ _ _ _ _ _ Hlo) as (s1 & Hrun1 & Hlo1 & Hst1 & Hsr1).
  pose proof (sameTrees_kept _ _ Hst1) as Hk1.
  destruct (Use_Redirect_spec s1 use old new) as (use' & s2 & Hrun2 & Hlo2 & Hdef2 & Hlen2 & Hk2).
  { by eapply treesKept_Use_Def. }
  { destruct Huser as [u Hu]. destruct (Hk1 _ _ Hu) as (u' & Hu' & _). eauto. }
  { destruct Hold as [u Hu]. destruct (Hk1 _ _ Hu) as (u' & Hu' & _). eauto. }
  { destruct Hnew as [u Hu]. destruct (Hk1 _ _ Hu) as (u' & Hu' & _). eauto. }
  { by eapply treesKept_argFixable. }
  exists use', s2. split.
  { unfold Use_ReplaceWith. rewrite (bind_run _ _ _ _ _ Hdef).
    by rewrite (bind_run _ _ _ _ _ Hrun1). }
  split; [by apply Hlo2|]. split; [done|].
  split; [by rewrite Hlen2, (sameTrees_length _ _ Hst1)|].
  intros x t Ht. destruct (Hk1 _ _ Ht) as (t1 & Ht1 & Hu1).
  destruct (Hk2 _ _ Ht1) as (t2 & Ht2 & Ho2 & Hty2 & Hf2).
  exists t2. split; [done|].
  by rewrite Ho2, Hty2, (unlinked_oper _ _ Hu1), (unlinked_type _ _ Hu1),
    <- (unlinked_flags _ _ Hu1).
Qed.

(** Redirecting a use from [old] to a node [new] that stands before it and
    removing [old] from the linear order: [new] takes the place of [old]. *)
Lemma replace_remove s use old new l1 l2 l3 :
  LinearOrder s (l1 ++ new :: l2 ++ old :: l3) ->
  Use_Def use s = Ok (old, s) ->
  is_Some (nodes s !! m_user use) ->
  argFixable s use old ->
  exists use' s',
    (use' ← Use_ReplaceWith use new ; Range_Remove old ;; mret use') s = Ok (use', s')
    /\ LinearOrder s' (l1 ++ l2 ++ new :: l3)
    /\ Use_Def use' s' = Ok (new, s')
    /\ length (nodes s') = length (nodes s)
    /\ (forall x t, nodes s !! x = Some t ->
          exists t', nodes s' !! x = Some t'
            /\ gtOper t' = gtOper t /\ gtType t' = gtType t
            /\ (gtFlags t' = gtFlags t \/ gtFlags t' = Z.lor (gtFlags t) GTF_LATE_ARG)).
Proof.
  intros Hlo Hdef Huser Hfix.
  destruct (Use_ReplaceWith_spec s use old new l1 l2 l3 Hlo Hdef Huser Hfix)
    as (use' & s1 & Hrun1 & Hlo1 & Hdef1 & Hlen1 & Hk1).
  rewrite (bind_run _ _ _ _ _ Hrun1).
  assert (LinearOrder s1 ((l1 ++ l2 ++ [new]) ++ old :: l3)) as Hlo1' by relist Hlo1.
  destruct (Range_Remove_spec _ _ _ _ Hlo1') as (s2 & Hrun2 & Hlo2 & Hst2 & Hsr2 & _).
  rewrite (bind_run _ _ _ _ _ Hrun2).
  exists use', s2. split; [reflexivity|]. split; [relist Hlo2|].
  split; [eapply treesKept_Use_Def; [by apply sameTrees_kept|done]|].
  split; [by rewrite (sameTrees_length _ _ Hst2)|].
  intros x t Ht. destruct (Hk1 _ _ Ht) as (t1 & Ht1 & Ho1 & Hty1 & Hf1).
  destruct (sameTrees_lookup _ _ _ _ Hst2 Ht1) as (t2 & Ht2 & Hu2).
  exists t2. split; [done|].
  by rewrite (unlinked_oper _ _ Hu2), (unlinked_type _ _ Hu2), (unlinked_flags _ _ Hu2).
Qed.

(** A node update that leaves the links, the operand slots and the call
    data of the node alone does not disturb the linear order nor the uses. *)
Lemma LinearOrder_insert s m t t' l :
  nodes s !! m = Some t -> gtPrev t' = gtPrev t -> gtNext t' = gtNext t ->
  LinearOrder s l -> LinearOrder (set_nodes (<[m := t']> (nodes s)) s) l.
Proof.
  intros Hm Hp Hn Hlo. eapply LinearOrder_links; [exact Hlo| |done|done].
  intros x tx Hx. simpl. destruct (decide (x = m)) as [->|Hne].
  - rewrite Hm in Hx. injection Hx as <-. exists t'.
    split; [by eapply lookup_set_same|done].
  - exists tx. by rewrite list_lookup_insert_ne by done.
Qed.

Lemma Use_Def_insert s m t t' use n :
  nodes s !! m = Some t -> (forall e, edgeGet e t' = edgeGet e t) ->
  Use_Def use s = Ok (n, s) ->
  Use_Def use (set_nodes (<[m := t']> (nodes s)) s)
  = Ok (n, set_nodes (<[m := t']> (nodes s)) s).
Proof.
  intros Hm He Hdef. apply Use_Def_inv in Hdef as [_ Hdef]. unfold Use_Def.
  destruct (m_edge use) as [e|]; [|by rewrite Hdef].
  destruct Hdef as (o & Ho & Hn).
  destruct (decide (edgeOwner e = m)) as [Heq|Hne].
  - rewrite Heq in Ho. rewrite Hm in Ho. injection Ho as <-.
    assert (readEdge e (set_nodes (<[m := t']> (nodes s)) s)
            = Ok (edgeGet e t', set_nodes (<[m := t']> (nodes s)) s)) as Hr.
    { apply readEdge_run. simpl. rewrite Heq. by eapply lookup_set_same. }
    rewrite (bind_run _ _ _ _ _ Hr). by rewrite He, Hn.
  - assert (readEdge e (set_nodes (<[m := t']> (nodes s)) s)
            = Ok (edgeGet e o, set_nodes (<[m := t']> (nodes s)) s)) as Hr.
    { apply readEdge_run. simpl. by rewrite list_lookup_insert_ne by done. }
    rewrite (bind_run _ _ _ _ _ Hr). by rewrite Hn.
Qed.

Lemma argFixable_insert s m t t' use old :
  nodes s !! m = Some t -> m <> old ->
  gtCall t' = gtCall t -> (gtOper t' = GT_CALL -> gtOper t = GT_CALL) ->
  argFixable s use old ->
  argFixable (set_nodes (<[m := t']> (nodes s)) s) use old.
Proof.
  intros Hm Hne Hcall Hoper Hfix. unfold argFixable in *.
  destruct (m_edge use); [|done]. intros u Hu Hc. simpl in Hu.
  assert (flagsOf (set_nodes (<[m := t']> (nodes s)) s) old = flagsOf s old) as ->.
  { unfold flagsOf. simpl. by rewrite list_lookup_insert_ne by done. }
  destruct (decide (m_user use = m)) as [Heq|Hnm].
  - rewrite Heq in Hu. erewrite lookup_set_same in Hu by done. injection Hu as <-.
    rewrite Hcall. apply Hfix; [by rewrite Heq|by apply Hoper].
  - rewrite list_lookup_insert_ne in Hu by done. by apply Hfix.
Qed.

(** The in-place conversion of the operand of an address-of node: [location]
    takes the operator [k], the type byref and the side-effect flags of the
    address node, replaces the address node in its use and in the linear
    order. *)
Lemma address_in_place s use address a location loc k l1 l2 l3 :
  Z.land GTF_LATE_ARG GTF_ALL_EFFECT = 0%Z ->
  Use_Def use s = Ok (address, s) ->
  is_Some (nodes s !! m_user use) -> argFixable s use address ->
  nodes s !! address = Some a -> nodes s !! location = Some loc ->
  address <> location -> k <> GT_CALL ->
  LinearOrder s (l1 ++ location :: l2 ++ address :: l3) ->
  exists use' s' loc',
    (SetOper location k ;;
     setType location TYP_BYREF ;;
     copyFlags location address GTF_ALL_EFFECT ;;
     use' ← Use_ReplaceWith use location ;
     Range_Remove address ;;
     mret use') s = Ok (use', s')
    /\ nodes s' !! location = Some loc'
    /\ gtOper loc' = k /\ gtType loc' = TYP_BYREF
    /\ Z.land (gtFlags loc') GTF_ALL_EFFECT = Z.land (gtFlags a) GTF_ALL_EFFECT
    /\ Use_Def use' s' = Ok (location, s')
    /\ LinearOrder s' (l1 ++ l2 ++ location :: l3).
Proof.
  intros HLA Hdef Huser Hfix Ha Hloc Hne Hk Hlo.
  unfold SetOper, setType, copyFlags, setFlags.
  repeat step.
  set (F := Z.lor (Z.land (gtFlags loc) (Z.lnot GTF_ALL_EFFECT))
              (Z.land (gtFlags a) GTF_ALL_EFFECT)).
  set (loc1 := set_gtFlags F (set_gtType TYP_BYREF (set_gtOper k loc))).
  assert (<[location := set_gtFlags F
              (set_gtFlags (Z.land (gtFlags loc) (Z.lnot GTF_ALL_EFFECT))
                 (set_gtType TYP_BYREF (set_gtOper k loc)))]> (nodes s)
          = <[location := loc1]> (nodes s)) as -> by reflexivity.
  set (s1 := set_nodes (<[location := loc1]> (nodes s)) s).
  assert (LinearOrder s1 (l1 ++ location :: l2 ++ address :: l3)) as Hlo1
    by by eapply LinearOrder_insert.
  assert (Use_Def use s1 = Ok (address, s1)) as Hdef1
    by by eapply Use_Def_insert.
  assert (argFixable s1 use address) as Hfix1.
  { eapply argFixable_insert; try done. }
  assert (is_Some (nodes s1 !! m_user use)) as Huser1.
  { destruct Huser as [u Hu]. simpl.
    destruct (decide (m_user use = location)) as [->|Hn].
    - erewrite lookup_set_same by done. eauto.
    - rewrite list_lookup_insert_ne by done. eauto. }
  assert (nodes s1 !! location = Some loc1) as Hloc1 by by eapply lookup_set_same.
  destruct (replace_remove s1 use address location l1 l2 l3 Hlo1 Hdef1 Huser1 Hfix1)
    as (use' & s' & Hrun & Hlo' & Hdef' & Hlen' & Hk').
  destruct (Hk' _ _ Hloc1) as (loc' & Hloc' & Ho' & Hty' & Hf').
  exists use', s', loc'. split; [exact Hrun|]. split; [done|].
  rewrite Ho', Hty'. split; [done|]. split; [done|]. split; [|done].
  assert (Z.land F GTF_ALL_EFFECT = Z.land (gtFlags a) GTF_ALL_EFFECT) as HF
    by apply copy_mask_same.
  destruct Hf' as [->| ->]; simpl; [done|].
  rewrite <- HF. clear -HLA. bitblast.
Qed.

(** C7, as stated, fails on its last clause: the operand of the address-of
    node may be a local-variable kind other than the plain read of a
    variable or a field (a register variable, say); the rewrite then asks
    [addrForm] for a form that does not exist and aborts, instead of leaving
    the tree alone.  The theorem states the cases as the code has them. *)
Theorem address_rewrite s use address a location loc :
  Z.land GTF_LATE_ARG GTF_ALL_EFFECT = 0%Z ->
  Use_Def use s = Ok (address, s) ->
  is_Some (nodes s !! m_user use) -> argFixable s use address ->
  nodes s !! address = Some a -> gtOper a = GT_ADDR ->
  gtOp1 a = Some location -> nodes s !! location = Some loc ->
  (* a local variable or a local field: converted in place; it takes the
     place of the address node *)
  (forall k l1 l2 l3,
     addrForm (gtOper loc) = Ok k ->
     LinearOrder s (l1 ++ location :: l2 ++ address :: l3) ->
     exists use' s' loc',
       RewriteAddress use s = Ok (use', s')
       /\ nodes s' !! location = Some loc'
       /\ gtOper loc' = k /\ gtType loc' = TYP_BYREF
       /\ Z.land (gtFlags loc') GTF_ALL_EFFECT = Z.land (gtFlags a) GTF_ALL_EFFECT
       /\ Use_Def use' s' = Ok (location, s')
       /\ LinearOrder s' (l1 ++ l2 ++ location :: l3))
  (* a class variable: converted in place *)
  /\ (forall l1 l2 l3,
       gtOper loc = GT_CLS_VAR ->
       LinearOrder s (l1 ++ location :: l2 ++ address :: l3) ->
       exists use' s' loc',
         RewriteAddress use s = Ok (use', s')
         /\ nodes s' !! location = Some loc'
         /\ gtOper loc' = GT_CLS_VAR_ADDR /\ gtType loc' = TYP_BYREF
         /\ Z.land (gtFlags loc') GTF_ALL_EFFECT = Z.land (gtFlags a) GTF_ALL_EFFECT
         /\ Use_Def use' s' = Ok (location, s')
         /\ LinearOrder s' (l1 ++ l2 ++ location :: l3))
  (* a dereference: the address of [*p] is [p], which takes the place of
     the address node *)
  /\ (forall p l0 l1 l2 l3,
       OperIsIndir (gtOper loc) = true ->
       gtOp1 loc = Some p ->
       LinearOrder s (l0 ++ p :: l1 ++ location :: l2 ++ address :: l3) ->
       exists use' s',
         RewriteAddress use s = Ok (use', s')
         /\ Use_Def use' s' = Ok (p, s')
         /\ LinearOrder s' (l0 ++ l1 ++ l2 ++ p :: l3)
         /\ (forall x t, nodes s !! x = Some t ->
               exists t', nodes s' !! x = Some t'
                 /\ gtOper t' = gtOper t /\ gtType t' = gtType t))
  (* any other shape that is not a local: nothing changes *)
  /\ (OperIsLocal (gtOper loc) = false -> gtOper loc <> GT_CLS_VAR ->
      OperIsIndir (gtOper loc) = false ->
      RewriteAddress use s = Ok (use, s))
  (* another local kind: the address form does not exist *)
  /\ (OperIsLocal (gtOper loc) = true -> isReadKind (gtOper loc) = false ->
      RewriteAddress use s = Err NoWayAssert).
Proof.
  intros HLA Hdef Huser Hfix Ha Hoa Hop1 Hloc.
  assert (RewriteAddress use s =
            (if OperIsLocal (gtOper loc) then
               oper ← liftRes (addrForm (gtOper loc)) ;
               SetOper location oper ;; setType location TYP_BYREF ;;
               copyFlags location address GTF_ALL_EFFECT ;;
               use' ← Use_ReplaceWith use location ;
               Range_Remove address ;; mret use'
             else if decide (gtOper loc = GT_CLS_VAR) then
               SetOper location GT_CLS_VAR_ADDR ;; setType location TYP_BYREF ;;
               copyFlags location address GTF_ALL_EFFECT ;;
               use' ← Use_ReplaceWith use location ;
               Range_Remove address ;; mret use'
             else if OperIsIndir (gtOper loc) then
               op1 ← deref (gtOp1 loc) ;
               use' ← Use_ReplaceWith use op1 ;
               Range_Remove location ;; Range_Remove address ;; mret use'
             else mret use) s) as Hunf.
  { unfold RewriteAddress.
    rewrite (bind_run _ _ _ _ _ Hdef).
    rewrite (bind_run _ _ _ _ _ (getNode_run _ _ _ Ha)).
    rewrite Hop1. cbn [deref]. rewrite mret_bind.
    by rewrite (bind_run _ _ _ _ _ (getNode_run _ _ _ Hloc)). }
  split; [|split; [|split; [|split]]].
  - intros k l1 l2 l3 Hk Hlo. rewrite Hunf.
    assert (address <> location) as Hne.
    { intros ->. rewrite Ha in Hloc. injection Hloc as <-. by rewrite Hoa in Hk. }
    assert (OperIsLocal (gtOper loc) = true) as -> by (by destruct (gtOper loc)).
    rewrite Hk. cbn [liftRes]. erewrite (bind_run _ _ s); [|reflexivity].
    eapply address_in_place; try done.
    revert Hk. clear. by destruct (gtOper loc); intros [= <-].
  - intros l1 l2 l3 Hk Hlo. rewrite Hunf. rewrite Hk. cbn [OperIsLocal].
    assert (address <> location) as Hne.
    { intros ->. rewrite Ha in Hloc. injection Hloc as <-. by rewrite Hoa in Hk. }
    destruct (decide (GT_CLS_VAR = GT_CLS_VAR)); [|done].
    by eapply address_in_place.
  - intros p l0 l1 l2 l3 Hk Hp Hlo. rewrite Hunf.
    assert (OperIsLocal (gtOper loc) = false) as -> by (by destruct (gtOper loc)).
    destruct (decide (gtOper loc = GT_CLS_VAR)) as [E|_]; [by rewrite E in Hk|].
    rewrite Hk, Hp. cbn [deref]. rewrite mret_bind.
    assert (LinearOrder s (l0 ++ p :: (l1 ++ location :: l2) ++ address :: l3)) as Hlo'
      by relist Hlo.
    destruct (Use_ReplaceWith_spec s use address p _ _ _ Hlo' Hdef Huser Hfix)
      as (use' & s1 & Hrun1 & Hlo1 & Hdef1 & Hlen1 & Hk1).
    rewrite (bind_run _ _ _ _ _ Hrun1).
    assert (LinearOrder s1 ((l0 ++ l1) ++ location :: l2 ++ p :: address :: l3)) as Hlo1'
      by relist Hlo1.
    destruct (Range_Remove_spec _ _ _ _ Hlo1') as (s2 & Hrun2 & Hlo2 & Hst2 & _ & _).
    rewrite (bind_run _ _ _ _ _ Hrun2).
    assert (LinearOrder s2 ((l0 ++ l1 ++ l2 ++ [p]) ++ address :: l3)) as Hlo2'
      by relist Hlo2.
    destruct (Range_Remove_spec _ _ _ _ Hlo2') as (s3 & Hrun3 & Hlo3 & Hst3 & _ & _).
    rewrite (bind_run _ _ _ _ _ Hrun3).
    exists use', s3. split; [reflexivity|].
    assert (treesKept s1 s3) as Hk13.
    { eapply treesKept_trans; by apply sameTrees_kept. }
    split; [by eapply treesKept_Use_Def|].
    split; [relist Hlo3|].
    intros x t Ht. destruct (Hk1 _ _ Ht) as (t1 & Ht1 & Ho1 & Hty1 & _).
    destruct (Hk13 _ _ Ht1) as (t3 & Ht3 & Hu3).
    exists t3. split; [done|].
    by rewrite (unlinked_oper _ _ Hu3), (unlinked_type _ _ Hu3).
  - intros Hl Hc Hi. rewrite Hunf, Hl, Hi.
    by destruct (decide (gtOper loc = GT_CLS_VAR)).
  - intros Hl Hk. rewrite Hunf, Hl.
    assert (addrForm (gtOper loc) = Err NoWayAssert) as ->
      by (by destruct (gtOper loc)).
    reflexivity.
Qed.

(** ** What the range operations never touch *)

Lemma Pres_bind R {A B} (m : M A) (f : A -> M B) :
  (forall s1 s2 s3, R s1 s2 -> R s2 s3 -> R s1 s3) ->
  Pres R m -> (forall a, Pres R (f a)) -> Pres R (m ≫= f).
Proof.
  intros Htr Hm Hf s b s' H. apply bind_inv in H as (a & s1 & H1 & H2).
  eapply Htr; [by eapply Hm|by eapply Hf].
Qed.

Lemma Pres_ret R {A} (a : A) : (forall s, R s s) -> Pres R (mret a : M A).
Proof. intros Hr s b s' [= <- <-]. apply Hr. Qed.

Lemma Pres_abort R {A} e : Pres R (abort e : M A).
Proof. intros s a s' H. discriminate. Qed.

Lemma Pres_getNode R n : (forall s, R s s) -> Pres R (getNode n).
Proof. intros Hr s a s' H. apply getNode_inv in H as [-> _]. apply Hr. Qed.

Lemma Pres_deref R p : (forall s, R s s) -> Pres R (deref p).
Proof. intros Hr s a s' H. apply deref_inv in H as [_ ->]. apply Hr. Qed.

Lemma Pres_query R {A} (f : Compiler -> A) : (forall s, R s s) -> Pres R (query f).
Proof. intros Hr s a s' [= <- <-]. apply Hr. Qed.

Lemma Pres_liftRes R {A} (r : Res A) : (forall s, R s s) -> Pres R (liftRes r).
Proof. intros Hr s a s' H. apply liftRes_inv in H as [_ ->]. apply Hr. Qed.

Lemma Pres_modNode_links n f :
  (forall t, unlinked (f t) = unlinked t) -> Pres sameTrees (modNode n f).
Proof.
  intros Hf s a s' H. apply modNode_inv in H as (t & Ht & ->).
  by eapply sameTrees_insert.
Qed.

Lemma Pres_setPrev n p : Pres sameTrees (setPrev n p).
Proof. by apply Pres_modNode_links. Qed.

Lemma Pres_setNext n p : Pres sameTrees (setNext n p).
Proof. by apply Pres_modNode_links. Qed.

Lemma Pres_modBlock f : Pres sameTrees (modBlock f).
Proof.
  intros s a s' H. unfold modBlock in H.
  destruct (m_block s); [|done]. destruct (fgBBs s !! _); [|done].
  injection H as <- <-. reflexivity.
Qed.

Lemma Pres_getBlock R : (forall s, R s s) -> Pres R getBlock.
Proof.
  intros Hr s a s' H. unfold getBlock in H.
  destruct (m_block s ≫= _); [|done]. injection H as <- <-. apply Hr.
Qed.

Lemma Pres_decRefCnt lclNum : Pres sameTrees (decRefCnt lclNum).
Proof.
  intros s a s' H. unfold decRefCnt in H.
  destruct (lvaTable s !! lclNum); [|done]. injection H as <- <-. reflexivity.
Qed.

Create HintDb pres discriminated.

Hint Resolve sameTrees_refl sameTrees_trans Pres_setPrev Pres_setNext Pres_modBlock
  Pres_decRefCnt : pres.

(** Structural proof of a [Pres] goal. *)
Ltac pres_auto :=
  repeat first
    [ progress intros
    | apply Pres_ret; [solve [eauto with pres]]
    | apply Pres_abort
    | apply Pres_getNode; [solve [eauto with pres]]
    | apply Pres_deref; [solve [eauto with pres]]
    | apply Pres_query; [solve [eauto with pres]]
    | apply Pres_liftRes; [solve [eauto with pres]]
    | apply Pres_getBlock; [solve [eauto with pres]]
    | solve [eauto with pres]
    | apply Pres_bind; [solve [eauto with pres] | | ]
    | match goal with
      | |- Pres _ (match ?x with _ => _ end) => destruct x
      | |- Pres _ (when ?b _) => unfold when; destruct b
      end ].

Lemma Pres_FirstNode R : (forall s, R s s) -> Pres R FirstNode.
Proof.
  intros Hr s a s' H. unfold FirstNode in H. apply bind_inv in H as (bb & s1 & H1 & H2).
  injection H2 as <- <-. by eapply (Pres_getBlock R Hr).
Qed.

Lemma Pres_LastNode R : (forall s, R s s) -> Pres R LastNode.
Proof.
  intros Hr s a s' H. unfold LastNode in H. apply bind_inv in H as (bb & s1 & H1 & H2).
  injection H2 as <- <-. by eapply (Pres_getBlock R Hr).
Qed.

Lemma Pres_Range_Remove n : Pres sameTrees (Range_Remove n).
Proof. unfold Range_Remove, setFirstNode, setLastNode. pres_auto. Qed.

Lemma Pres_FinishInsertBefore ip first last :
  Pres sameTrees (FinishInsertBefore ip first last).
Proof.
  unfold FinishInsertBefore, setFirstNode, setLastNode.
  pose proof (Pres_FirstNode sameTrees sameTrees_refl).
  pose proof (Pres_LastNode sameTrees sameTrees_refl).
  pres_auto.
Qed.

Lemma Pres_FinishInsertAfter ip first last :
  Pres sameTrees (FinishInsertAfter ip first last).
Proof.
  unfold FinishInsertAfter, setFirstNode, setLastNode.
  pose proof (Pres_FirstNode sameTrees sameTrees_refl).
  pose proof (Pres_LastNode sameTrees sameTrees_refl).
  pres_auto.
Qed.

Lemma Pres_Range_InsertBefore ip n : Pres sameTrees (Range_InsertBefore ip n).
Proof. apply Pres_FinishInsertBefore. Qed.

Lemma Pres_Range_InsertBefore2 ip n1 n2 : Pres sameTrees (Range_InsertBefore2 ip n1 n2).
Proof.
  unfold Range_InsertBefore2. pose proof (Pres_FinishInsertBefore ip n1 n2). pres_auto.
Qed.

Lemma Pres_Range_InsertAfter ip n : Pres sameTrees (Range_InsertAfter ip n).
Proof. apply Pres_FinishInsertAfter. Qed.

Lemma Pres_markableOperands R ops : (forall s, R s s) -> Pres R (markableOperands ops).
Proof.
  intros Hr. induction ops as [|o ops IH]; simpl.
  - by apply Pres_ret.
  - intros s a s' H. apply bind_inv in H as (t & s1 & H1 & H).
    apply getNode_inv in H1 as [-> _].
    apply bind_inv in H as (r & s2 & H2 & H). injection H as <- <-.
    by eapply IH.
Qed.

(** [GetTreeRange] only reads. *)
Lemma GetMarkedRange_state fuel markCount marks firstNode lastNode saw eff s r s' :
  GetMarkedRange fuel markCount marks firstNode lastNode saw eff s = Ok (r, s') -> s' = s.
Proof.
  revert markCount marks firstNode lastNode saw eff.
  induction fuel as [|fuel IH]; intros markCount marks firstNode lastNode saw eff H;
    [discriminate|].
  simpl in H.
  apply bind_inv in H as (t & s1 & H1 & H). apply getNode_inv in H1 as [-> _].
  apply bind_inv in H as (ns & s1 & H1 & H). injection H1 as <- <-.
  apply bind_inv in H as (ops & s1 & H1 & H).
  assert (s1 = s) as ->.
  { destruct (decide (firstNode ∈ marks)).
    - by eapply (Pres_markableOperands eq _ (fun s => eq_refl)) in H1.
    - by injection H1. }
  clear H1. destruct (decide (_ = 0)).
  - apply bind_inv in H as (l & s1 & H1 & H). apply deref_inv in H1 as [_ ->].
    by injection H.
  - apply bind_inv in H as (p & s1 & H1 & H). apply deref_inv in H1 as [_ ->].
    by eapply IH.
Qed.

Lemma Range_GetTreeRange_state root s r s' :
  Range_GetTreeRange root s = Ok (r, s') -> s' = s.
Proof.
  unfold Range_GetTreeRange. intros H. apply bind_inv in H as (ns & s1 & H1 & H).
  injection H1 as <- <-. by eapply GetMarkedRange_state.
Qed.

Lemma Pres_lvaDecRefCnts n : Pres sameTrees (lvaDecRefCnts n).
Proof. unfold lvaDecRefCnts. pres_auto. Qed.

Lemma Pres_decRefCntsInRange fuel cur last :
  Pres sameTrees (decRefCntsInRange fuel cur last).
Proof.
  revert cur. induction fuel as [|fuel IH]; intros cur; simpl; [apply Pres_abort|].
  pose proof (Pres_lvaDecRefCnts cur). pres_auto.
Qed.

Lemma Pres_Range_Delete r : Pres sameTrees (Range_Delete r).
Proof.
  unfold Range_Delete, setFirstNode, setLastNode.
  pose proof Pres_decRefCntsInRange. pres_auto.
Qed.

Lemma Pres_removePrecedingLists fuel n : Pres sameTrees (removePrecedingLists fuel n).
Proof.
  induction fuel as [|fuel IH]; simpl; [apply Pres_abort|].
  pose proof (Pres_Range_Remove). pres_auto.
Qed.

(** ** The late-argument marker of the visited node *)

Lemma keepsLate_refl n s : keepsLate n s s.
Proof. intros t Ht. by exists t. Qed.

Lemma keepsLate_trans n s1 s2 s3 :
  keepsLate n s1 s2 -> keepsLate n s2 s3 -> keepsLate n s1 s3.
Proof.
  intros H1 H2 t Ht. destruct (H1 _ Ht) as (t2 & Ht2 & E2).
  destruct (H2 _ Ht2) as (t3 & Ht3 & E3). exists t3. split; [done|congruence].
Qed.

Lemma treesKept_keepsLate n s s' : treesKept s s' -> keepsLate n s s'.
Proof.
  intros H t Ht. destruct (H _ _ Ht) as (t' & Ht' & Hu). exists t'.
  split; [done|]. by rewrite (unlinked_flags _ _ Hu).
Qed.

Lemma PresK_same n {A} (m : M A) : Pres sameTrees m -> Pres (keepsLate n) m.
Proof.
  intros Hm s a s' H. apply treesKept_keepsLate, sameTrees_kept. by eapply Hm.
Qed.

Lemma PresK_read n {A} (m : M A) :
  (forall s a s', m s = Ok (a, s') -> s' = s) -> Pres (keepsLate n) m.
Proof. intros Hm s a s' H. rewrite (Hm _ _ _ H). apply keepsLate_refl. Qed.

Lemma hasFlag_land f g m : Z.land f m = Z.land g m -> hasFlag f m = hasFlag g m.
Proof. unfold hasFlag. by intros ->. Qed.

Lemma PresK_modNode n x f :
  (x = n -> forall t, hasFlag (gtFlags (f t)) GTF_LATE_ARG = hasFlag (gtFlags t) GTF_LATE_ARG) ->
  Pres (keepsLate n) (modNode x f).
Proof.
  intros Hf s a s' H. apply modNode_inv in H as (tx & Htx & ->).
  intros t Ht. simpl. destruct (decide (x = n)) as [->|Hx].
  - rewrite Htx in Ht. injection Ht as <-. exists (f tx).
    split; [by eapply lookup_set_same|by apply Hf].
  - exists t. by rewrite list_lookup_insert_ne.
Qed.

Lemma PresK_modNode_flags n x f :
  (forall t, gtFlags (f t) = gtFlags t) -> Pres (keepsLate n) (modNode x f).
Proof. intros Hf. apply PresK_modNode. intros _ t. by rewrite Hf. Qed.

Lemma PresK_SetOper n x oper : Pres (keepsLate n) (SetOper x oper).
Proof. by apply PresK_modNode_flags. Qed.

Lemma PresK_setType n x ty : Pres (keepsLate n) (setType x ty).
Proof. by apply PresK_modNode_flags. Qed.

Lemma PresK_setFlags_other n x f : x <> n -> Pres (keepsLate n) (setFlags x f).
Proof. intros Hx. by apply PresK_modNode. Qed.

Lemma PresK_setFlags_mask n x f :
  (forall v, Z.land (f v) GTF_LATE_ARG = Z.land v GTF_LATE_ARG) ->
  Pres (keepsLate n) (setFlags x f).
Proof. intros Hf. apply PresK_modNode. intros _ t. simpl. by apply hasFlag_land. Qed.

Lemma PresK_allocNode n t : Pres (keepsLate n) (allocNode t).
Proof.
  intros s a s' [= <- <-] t0 Ht0. exists t0. split; [|done]. simpl.
  by apply lookup_snoc_old.
Qed.

Lemma effectsOf_state p s v s' : effectsOf p s = Ok (v, s') -> s' = s.
Proof.
  unfold effectsOf. destruct p as [x|]; [|by intros [= <- <-]].
  intros H. apply bind_inv in H as (t & s1 & H1 & H). apply getNode_inv in H1 as [-> _].
  by injection H.
Qed.

Lemma newOperNode_inv oper type op1 op2 extra s i s' :
  newOperNode oper type op1 op2 extra s = Ok (i, s') ->
  i = length (nodes s) /\ exists t, s' = set_nodes (nodes s ++ [t]) s.
Proof.
  unfold newOperNode. intros H.
  apply bind_inv in H as (f1 & s1 & H1 & H). apply effectsOf_state in H1 as ->.
  apply bind_inv in H as (f2 & s1 & H1 & H). apply effectsOf_state in H1 as ->.
  injection H as <- <-. eauto.
Qed.

Lemma PresK_newOperNode n oper type op1 op2 extra :
  Pres (keepsLate n) (newOperNode oper type op1 op2 extra).
Proof.
  intros s i s' H. apply newOperNode_inv in H as (_ & t & ->).
  by eapply (PresK_allocNode n t s).
Qed.

Lemma PresK_copyFlags_other n dst src mask :
  dst <> n -> Pres (keepsLate n) (copyFlags dst src mask).
Proof.
  intros Hd. unfold copyFlags.
  apply Pres_bind; [apply keepsLate_trans|by apply PresK_setFlags_other|intros _].
  apply Pres_bind; [apply keepsLate_trans|apply Pres_getNode, keepsLate_refl|intros t].
  by apply PresK_setFlags_other.
Qed.

Lemma PresK_copyFlags_mask n dst src mask :
  Z.land mask GTF_LATE_ARG = 0%Z -> Pres (keepsLate n) (copyFlags dst src mask).
Proof.
  intros Hm. unfold copyFlags.
  apply Pres_bind; [apply keepsLate_trans| |intros _].
  { apply PresK_setFlags_mask. intros v. by apply clear_mask_other. }
  apply Pres_bind; [apply keepsLate_trans|apply Pres_getNode, keepsLate_refl|intros t].
  apply PresK_setFlags_mask. intros v. by apply set_sub_mask_other.
Qed.

Hint Resolve keepsLate_refl keepsLate_trans PresK_SetOper PresK_setType
  PresK_allocNode PresK_newOperNode : pres.

Hint Extern 1 (Pres (keepsLate _) (Range_Remove _)) =>
  apply PresK_same, Pres_Range_Remove : pres.
Hint Extern 1 (Pres (keepsLate _) (Range_InsertBefore _ _)) =>
  apply PresK_same, Pres_Range_InsertBefore : pres.
Hint Extern 1 (Pres (keepsLate _) (Range_InsertAfter _ _)) =>
  apply PresK_same, Pres_Range_InsertAfter : pres.
Hint Extern 1 (Pres (keepsLate _) (Range_InsertBefore2 _ _ _)) =>
  apply PresK_same, Pres_Range_InsertBefore2 : pres.
Hint Extern 1 (Pres (keepsLate _) (Range_Delete _)) =>
  apply PresK_same, Pres_Range_Delete : pres.
Hint Extern 1 (Pres (keepsLate _) (setPrev _ _)) =>
  apply PresK_same, Pres_setPrev : pres.
Hint Extern 1 (Pres (keepsLate _) (setNext _ _)) =>
  apply PresK_same, Pres_setNext : pres.
Hint Extern 1 (Pres (keepsLate _) (lvaDecRefCnts _)) =>
  apply PresK_same, Pres_lvaDecRefCnts : pres.
Hint Extern 1 (Pres (keepsLate _) (Range_GetTreeRange _)) =>
  apply PresK_read, Range_GetTreeRange_state : pres.
Hint Extern 1 (Pres (keepsLate _) (modNode _ _)) =>
  apply PresK_modNode_flags; reflexivity : pres.
Hint Extern 2 (Pres (keepsLate _) (setFlags _ _)) =>
  apply PresK_setFlags_other; congruence : pres.
Hint Extern 2 (Pres (keepsLate _) (copyFlags _ _ _)) =>
  apply PresK_copyFlags_other; congruence : pres.
Hint Extern 3 (Pres (keepsLate _) (copyFlags _ _ _)) =>
  apply PresK_copyFlags_mask; assumption : pres.
Hint Extern 3 (Pres (keepsLate _) (setFlags _ (fun f => Z.land f (Z.lnot _)))) =>
  apply PresK_setFlags_mask; intros; apply clear_mask_other; assumption : pres.

Section LateArg.
Variable n : NodeId.
Hypothesis Hlive : Z.land GTF_LIVENESS_MASK GTF_LATE_ARG = 0%Z.
Hypothesis Hrev : Z.land GTF_REVERSE_OPS GTF_LATE_ARG = 0%Z.
Hypothesis Huseasg : Z.land GTF_VAR_USEASG GTF_LATE_ARG = 0%Z.

Lemma PresK_StoreLclCore assignment location value locationOp :
  Pres (keepsLate n)
    (RewriteAssignmentIntoStoreLclCore assignment location value locationOp).
Proof using Hlive Hrev. unfold RewriteAssignmentIntoStoreLclCore. pres_auto. Qed.

Lemma PresK_FixupIfSIMDLocal x : Pres (keepsLate n) (FixupIfSIMDLocal x).
Proof using Huseasg. unfold FixupIfSIMDLocal. pres_auto. Qed.

Lemma PresK_SIMDInit assignment location value :
  Pres (keepsLate n) (RewriteAssignment_SIMDInit assignment location value).
Proof. unfold RewriteAssignment_SIMDInit. pres_auto. Qed.

End LateArg.

Lemma Pres_use R {A} (m : M A) s a s' : Pres R m -> m s = Ok (a, s') -> R s s'.
Proof. intros H. apply H. Qed.

Lemma keepsLate_fresh n s0 s t :
  nodes s0 !! n = Some t -> keepsLate n s0 s -> length (nodes s) <> n.
Proof.
  intros Ht HK. destruct (HK _ Ht) as (t' & Ht' & _).
  apply lookup_lt_Some in Ht'. lia.
Qed.

(** The write into the slot marks the replacement as a late argument only
    when the replaced node was one. *)
Lemma Use_Redirect_keeps n use new s use' s' :
  Use_Redirect use new s = Ok (use', s') ->
  new <> n \/ Use_Def use s = Ok (n, s) ->
  keepsLate n s s'.
Proof.
  unfold Use_Redirect. intros H Hcase.
  destruct (m_edge use) as [e|] eqn:He; [|injection H as <- <-; apply keepsLate_refl].
  apply bind_inv in H as (rep & s1 & H1 & H).
  apply readEdge_inv in H1 as (-> & o & Ho & Hrep).
  apply bind_inv in H as ([] & s1 & H1 & H).
  assert (keepsLate n s s1) as HK1.
  { eapply (PresK_modNode_flags n); [|exact H1]. intros t. apply edgeSet_flags. }
  eapply keepsLate_trans; [exact HK1|].
  apply bind_inv in H as (u & s2 & H2 & H). apply getNode_inv in H2 as [-> Hu].
  apply bind_inv in H as ([] & s2 & H2 & H). injection H as _ <-.
  destruct (decide (gtOper u = GT_CALL)); [|injection H2 as <-; apply keepsLate_refl].
  apply bind_inv in H2 as (old & s3 & H3 & H2). apply deref_inv in H3 as [-> ->].
  apply fgFixupArgTabEntryPtr_inv in H2 as (_ & _ & _ & Hn).
  intros t1 Ht1. destruct (Hn _ _ Ht1) as (t2 & Ht2 & _ & _ & _ & _ & Hf & _).
  exists t2. split; [done|].
  destruct Hf as [->|(-> & -> & Hold)]; [done|].
  destruct Hcase as [Hne|Hdef]; [done|].
  apply Use_Def_inv in Hdef as [_ Hdef]. rewrite He in Hdef.
  destruct Hdef as (o' & Ho' & Hget). rewrite Ho in Ho'. injection Ho' as <-.
  rewrite Hrep in Hget. injection Hget as ->.
  rewrite (flagsOf_lookup _ _ _ Ht1) in Hold. rewrite Hold.
  by apply hasFlag_lor_same.
Qed.

Lemma Pres_Use_Splice old new : Pres sameTrees (Use_Splice old new).
Proof.
  unfold Use_Splice, isLinked.
  pose proof (Pres_FirstNode sameTrees sameTrees_refl).
  pose proof Pres_Range_Remove. pose proof Pres_Range_InsertBefore.
  pres_auto.
Qed.

(** [Use::ReplaceWith] marks the replacement as a late argument only when
    the replaced node was one. *)
Lemma Use_ReplaceWith_keeps n use new s use' s' :
  Use_ReplaceWith use new s = Ok (use', s') ->
  new <> n \/ Use_Def use s = Ok (n, s) ->
  keepsLate n s s'.
Proof.
  unfold Use_ReplaceWith. intros H Hcase.
  apply bind_inv in H as (old & s0 & H0 & H). apply Use_Def_inv in H0 as [-> _].
  apply bind_inv in H as ([] & s1 & H1 & H).
  pose proof (sameTrees_kept _ _ (Pres_Use_Splice _ _ _ _ _ H1)) as Hk1.
  eapply keepsLate_trans; [by apply treesKept_keepsLate|].
  eapply Use_Redirect_keeps; [exact H|].
  destruct Hcase as [Hne|Hdef]; [by left|right]. by eapply treesKept_Use_Def.
Qed.

Lemma PresK_ReplaceWith_other n use new :
  new <> n -> Pres (keepsLate n) (Use_ReplaceWith use new).
Proof. intros Hne s a s' H. eapply Use_ReplaceWith_keeps; eauto. Qed.

Hint Extern 2 (Pres (keepsLate _) (Use_ReplaceWith _ _)) =>
  apply PresK_ReplaceWith_other; congruence : pres.

Section LateArgRules.
Variable n : NodeId.
Hypothesis Hlive : Z.land GTF_LIVENESS_MASK GTF_LATE_ARG = 0%Z.
Hypothesis Hrev : Z.land GTF_REVERSE_OPS GTF_LATE_ARG = 0%Z.
Hypothesis Huseasg : Z.land GTF_VAR_USEASG GTF_LATE_ARG = 0%Z.

Lemma RewriteAssignment_keeps use s t use' s' :
  Use_Def use s = Ok (n, s) -> nodes s !! n = Some t -> gtOper t = GT_ASG ->
  RewriteAssignment use s = Ok (use', s') ->
  keepsLate n s s'.
Proof using Hlive Hrev.
  intros Hdef Ht Hop H. unfold RewriteAssignment in H.
  rewrite (bind_run _ _ _ _ _ Hdef), (bind_run _ _ _ _ _ (getNode_run _ _ _ Ht)) in H.
  apply bind_inv in H as (location & s1 & H1 & H). apply deref_inv in H1 as [Hl ->].
  apply bind_inv in H as (loc & s1 & H1 & H). apply getNode_inv in H1 as [-> Hloc].
  apply bind_inv in H as (value & s1 & H1 & H).
  apply (Pres_use _ _ _ _ _ (PresK_SIMDInit n _ _ _)) in H1.
  eapply keepsLate_trans; [exact H1|].
  assert (gtOper loc <> GT_ASG -> location <> n) as Hne.
  { intros Hk ->. rewrite Ht in Hloc. injection Hloc as <-. done. }
  pose proof (PresK_StoreLclCore n Hlive Hrev) as Hcore.
  destruct (gtOper loc) eqn:Hk; try discriminate;
    try specialize (Hne ltac:(discriminate));
    try (revert H; apply Pres_use; pres_auto; fail).
  (* the indirect store is a new node *)
  apply bind_inv in H as (loc1 & s2 & H2 & H). apply getNode_inv in H2 as [-> Hloc1].
  apply bind_inv in H as (store & s2 & H2 & H).
  pose proof (Pres_use _ _ _ _ _ (PresK_newOperNode n _ _ _ _ _) H2) as HK2.
  apply newOperNode_inv in H2 as (-> & _).
  pose proof (keepsLate_fresh _ _ _ _ Ht H1) as Hfresh.
  eapply keepsLate_trans; [exact HK2|].
  revert H; apply Pres_use; pres_auto.
Qed.

Lemma RewriteAddress_keeps use s t use' s' :
  Use_Def use s = Ok (n, s) -> nodes s !! n = Some t -> gtOper t = GT_ADDR ->
  RewriteAddress use s = Ok (use', s') ->
  keepsLate n s s'.
Proof.
  intros Hdef Ht Hop H. unfold RewriteAddress in H.
  rewrite (bind_run _ _ _ _ _ Hdef), (bind_run _ _ _ _ _ (getNode_run _ _ _ Ht)) in H.
  apply bind_inv in H as (location & s1 & H1 & H). apply deref_inv in H1 as [Hl ->].
  apply bind_inv in H as (loc & s1 & H1 & H). apply getNode_inv in H1 as [-> Hloc].
  assert (gtOper loc <> GT_ADDR -> location <> n) as Hne.
  { intros Hk ->. rewrite Ht in Hloc. injection Hloc as <-. done. }
  destruct (OperIsLocal (gtOper loc)) eqn:Hlocal.
  { assert (location <> n) by (apply Hne; intros E; by rewrite E in Hlocal).
    revert H; apply Pres_use; pres_auto. }
  destruct (decide (gtOper loc = GT_CLS_VAR)) as [Hcls|_].
  { assert (location <> n) by (apply Hne; by rewrite Hcls).
    revert H; apply Pres_use; pres_auto. }
  destruct (OperIsIndir (gtOper loc)); [|injection H as _ <-; apply keepsLate_refl].
  apply bind_inv in H as (op1 & s1 & H1 & H). apply deref_inv in H1 as [_ ->].
  apply bind_inv in H as (use1 & s1 & H1 & H).
  eapply keepsLate_trans; [eapply Use_ReplaceWith_keeps; [exact H1|by right]|].
  revert H; apply Pres_use; pres_auto.
Qed.

Lemma RewriteComma_keeps use s t use' s' :
  Use_Def use s = Ok (n, s) -> nodes s !! n = Some t ->
  RewriteComma use n s = Ok (use', s') ->
  keepsLate n s s'.
Proof.
  intros Hdef Ht H. unfold RewriteComma in H.
  rewrite (bind_run _ _ _ _ _ (getNode_run _ _ _ Ht)) in H.
  apply bind_inv in H as (op1 & s1 & H1 & H). apply deref_inv in H1 as [_ ->].
  apply bind_inv in H as (o1 & s1 & H1 & H). apply getNode_inv in H1 as [-> _].
  apply bind_inv in H as ([] & s1 & H1 & H).
  assert (sameTrees s s1) as Hsame.
  { revert H1. apply Pres_use. pose proof Pres_Range_Delete.
    assert (forall r, Pres sameTrees (Range_GetTreeRange r)).
    { intros r s0 a s0' Hr. apply Range_GetTreeRange_state in Hr as ->. reflexivity. }
    pres_auto. }
  eapply keepsLate_trans; [by apply treesKept_keepsLate, sameTrees_kept|].
  pose proof (treesKept_Use_Def _ _ _ _ (sameTrees_kept _ _ Hsame) Hdef) as Hdef1.
  apply bind_inv in H as (t1 & s2 & H2 & H). apply getNode_inv in H2 as [-> _].
  apply bind_inv in H as (replacement & s2 & H2 & H). apply deref_inv in H2 as [_ ->].
  apply bind_inv in H as (use1 & s2 & H2 & H).
  apply (keepsLate_trans n s1 s2 s'); [|revert H; apply Pres_use; pres_auto].
  destruct (negb (Use_IsDummyUse use)).
  - eapply Use_ReplaceWith_keeps; [exact H2|by right].
  - revert H2; apply Pres_use; pres_auto.
Qed.

Lemma RewriteClsVar_keeps use s t use' s' :
  nodes s !! n = Some t ->
  RewriteClsVar use n s = Ok (use', s') ->
  keepsLate n s s'.
Proof.
  intros Ht H. unfold RewriteClsVar in H.
  apply bind_inv in H as (u & s1 & H1 & H). apply getNode_inv in H1 as [-> _].
  destruct (negb _); [|injection H as _ <-; apply keepsLate_refl].
  rewrite (bind_run _ _ _ _ _ (getNode_run _ _ _ Ht)) in H.
  apply bind_inv in H as (ind & s2 & H2 & H).
  pose proof (Pres_use _ _ _ _ _ (PresK_newOperNode n _ _ _ _ _) H2) as HK2.
  apply newOperNode_inv in H2 as (-> & _).
  pose proof (keepsLate_fresh _ _ _ _ Ht (keepsLate_refl n s)) as Hfresh.
  eapply keepsLate_trans; [exact HK2|].
  revert H; apply Pres_use; pres_auto.
Qed.

Lemma RewriteSIMDOperand_keeps use keepBlk s use' s' :
  Use_Def use s = Ok (n, s) ->
  RewriteSIMDOperand use keepBlk s = Ok (use', s') ->
  keepsLate n s s'.
Proof.
  intros Hdef H. unfold RewriteSIMDOperand in H.
  destruct (negb FEATURE_SIMD); [injection H as _ <-; apply keepsLate_refl|].
  destruct (negb featureSIMD); [injection H as _ <-; apply keepsLate_refl|].
  rewrite (bind_run _ _ _ _ _ Hdef) in H.
  apply bind_inv in H as (t & s1 & H1 & H). apply getNode_inv in H1 as [-> Ht].
  destruct (OperIsIndir (gtOper t)) eqn:Hind; [|injection H as _ <-; apply keepsLate_refl].
  simpl in H.
  destruct (varTypeIsSIMD (gtType t)); [|injection H as _ <-; apply keepsLate_refl].
  simpl in H.
  apply bind_inv in H as (addr & s1 & H1 & H). apply deref_inv in H1 as [_ ->].
  apply bind_inv in H as (a & s1 & H1 & H). apply getNode_inv in H1 as [-> Ha].
  apply bind_inv in H as (isSimdAddr & s1 & H1 & H). injection H1 as <- <-.
  destruct (OperIsLocalAddr (gtOper a)) eqn:Hla; simpl in H.
  - destruct (isAddrOfSIMDType s addr); simpl in H.
    + assert (addr <> n).
      { intros ->. rewrite Ht in Ha. injection Ha as <-.
        destruct (gtOper t); discriminate. }
      revert H; apply Pres_use; pres_auto.
    + revert H; apply Pres_use; pres_auto.
  - revert H; apply Pres_use; pres_auto.
Qed.

Lemma RewriteBlkObj_keeps use s use' s' :
  Use_Def use s = Ok (n, s) ->
  RewriteBlkObj use n s = Ok (use', s') ->
  keepsLate n s s'.
Proof.
  intros Hdef H. unfold RewriteBlkObj in H.
  apply bind_inv in H as (p & s1 & H1 & H). apply getNode_inv in H1 as [-> _].
  apply bind_inv in H as (t & s1 & H1 & H). apply getNode_inv in H1 as [-> _].
  apply bind_inv in H as (keepBlk & s1 & H1 & H).
  assert (s = s1) as <-.
  { revert H1. apply (Pres_use eq).
    assert (forall s0 : Compiler, s0 = s0) as Hr by done.
    assert (forall s1 s2 s3 : Compiler, s1 = s2 -> s2 = s3 -> s1 = s3) as Htr by congruence.
    pres_auto. }
  by eapply RewriteSIMDOperand_keeps.
Qed.

Lemma RewriteSIMDNode_keeps use s t use' s' :
  nodes s !! n = Some t ->
  RewriteSIMDNode use n s = Ok (use', s') ->
  keepsLate n s s'.
Proof.
  intros Ht H. unfold RewriteSIMDNode in H.
  destruct (negb featureSIMD); [discriminate|].
  rewrite (bind_run _ _ _ _ _ (getNode_run _ _ _ Ht)) in H.
  apply bind_inv in H as ([] & s1 & H1 & H).
  assert (keepsLate n s s1) as HK1 by (revert H1; apply Pres_use; pres_auto).
  eapply keepsLate_trans; [exact HK1|].
  destruct (decide _); [|revert H; apply Pres_use; pres_auto].
  apply bind_inv in H as (address & s2 & H2 & H).
  pose proof (Pres_use _ _ _ _ _ (PresK_newOperNode n _ _ _ _ _) H2) as HK2.
  apply bind_inv in H as (ind & s3 & H3 & H).
  pose proof (Pres_use _ _ _ _ _ (PresK_newOperNode n _ _ _ _ _) H3) as HK3.
  apply newOperNode_inv in H3 as (-> & _).
  pose proof (keepsLate_fresh _ _ _ _ Ht (keepsLate_trans _ _ _ _ HK1 HK2)) as Hfresh.
  eapply keepsLate_trans; [exact HK2|]. eapply keepsLate_trans; [exact HK3|].
  revert H; apply Pres_use; pres_auto.
Qed.

Lemma RewriteNode_dispatch_keeps use s t use' s' :
  Use_Def use s = Ok (n, s) -> nodes s !! n = Some t ->
  RewriteNode_dispatch use n (gtOper t) s = Ok (use', s') ->
  keepsLate n s s'.
Proof using Hlive Hrev Huseasg.
  intros Hdef Ht H. unfold RewriteNode_dispatch in H.
  pose proof (PresK_FixupIfSIMDLocal n Huseasg) as Hfix.
  destruct (gtOper t) eqn:Hop;
    try (injection H as _ <-; apply keepsLate_refl);
    try (destruct FEATURE_SIMD;
         [|injection H as _ <-; apply keepsLate_refl]).
  all: try (by eapply RewriteBlkObj_keeps).
  all: try (revert H; apply Pres_use; pres_auto; fail).
  - destruct TARGET_XARCH; [|injection H as _ <-; apply keepsLate_refl].
    by eapply RewriteClsVar_keeps.
  - by eapply RewriteAssignment_keeps.
  - by eapply RewriteAddress_keeps.
  - rewrite (bind_run _ _ _ _ _ (getNode_run _ _ _ Ht)) in H.
    apply bind_inv in H as (op1 & s1 & H1 & H). apply deref_inv in H1 as [_ ->].
    apply bind_inv in H as (use1 & s1 & H1 & H).
    eapply keepsLate_trans; [eapply Use_ReplaceWith_keeps; [exact H1|by right]|].
    revert H; apply Pres_use; pres_auto.
  - rewrite (bind_run _ _ _ _ _ (getNode_run _ _ _ Ht)) in H.
    destruct (gtOp1 t) as [op1|]; [|injection H as _ <-; apply keepsLate_refl].
    apply bind_inv in H as (use1 & s1 & H1 & H).
    eapply keepsLate_trans; [eapply Use_ReplaceWith_keeps; [exact H1|by right]|].
    revert H; apply Pres_use; pres_auto.
  - by eapply RewriteComma_keeps.
  - by eapply RewriteSIMDNode_keeps.
Qed.

End LateArgRules.

(** C10: processing a node leaves its late-argument marker as it was.  The
    node [n] that occupies the visited slot when [RewriteNode] starts is
    still in the arena when [RewriteNode] returns, and its GTF_LATE_ARG bit
    is the same before and after (the check of lines 692-694 and 946),
    whatever rule was applied.  The marker bit is assumed distinct from the
    bits the rules clear or copy on the node itself: the liveness bits, the
    reverse-operands bit and the use-assign bit. *)
Theorem late_arg_flag_unchanged useEdge parentStack s s' n :
  Z.land GTF_LIVENESS_MASK GTF_LATE_ARG = 0%Z ->
  Z.land GTF_REVERSE_OPS GTF_LATE_ARG = 0%Z ->
  Z.land GTF_VAR_USEASG GTF_LATE_ARG = 0%Z ->
  readEdge useEdge s = Ok (Some n, s) ->
  RewriteNode useEdge parentStack s = Ok (tt, s') ->
  is_Some (nodes s !! n) /\ is_Some (nodes s' !! n)
  /\ hasFlag (flagsOf s' n) GTF_LATE_ARG = hasFlag (flagsOf s n) GTF_LATE_ARG.
Proof.
  intros Hlive Hrev Huseasg Hread H.
  assert (keepsLate n s s' /\ is_Some (nodes s !! n)) as [HK [t Ht]].
  { unfold RewriteNode in H. rewrite (bind_run _ _ _ _ _ Hread) in H.
    cbn [deref] in H. rewrite mret_bind in H.
    apply bind_inv in H as (ns & s1 & H1 & H). injection H1 as <- <-.
    apply bind_inv in H as ([] & s1 & H1 & H).
    apply (Pres_use _ _ _ _ _ (Pres_removePrecedingLists _ _)) in H1.
    apply bind_inv in H as (t1 & s2 & H2 & H). apply getNode_inv in H2 as [-> Ht1].
    destruct (sameTrees_lookup_inv _ _ _ _ H1 Ht1) as (t & Ht & Hu).
    split; [|by exists t].
    eapply keepsLate_trans; [by apply treesKept_keepsLate, sameTrees_kept|].
    destruct (decide (gtOper t1 = GT_LIST)).
    { revert H; apply Pres_use; pres_auto. }
    apply bind_inv in H as (use' & s2 & H2 & H).
    apply (keepsLate_trans n s1 s2 s'); [|revert H; apply Pres_use; pres_auto].
    eapply (RewriteNode_dispatch_keeps n Hlive Hrev Huseasg); [|exact Ht1|exact H2].
    assert (Use_Def {| m_edge := Some useEdge; m_user := 0 |} s = Ok (n, s)) as Hd.
    { unfold Use_Def. cbn [m_edge]. by rewrite (bind_run _ _ _ _ _ Hread). }
    apply (treesKept_Use_Def _ _ _ _ (sameTrees_kept _ _ H1)) in Hd.
    by destruct parentStack as [|x [|user rest]]. }
  destruct (HK _ Ht) as (t' & Ht' & Hf).
  split; [by exists t|]. split; [by exists t'|].
  by rewrite (flagsOf_lookup _ _ _ Ht), (flagsOf_lookup _ _ _ Ht').
Qed.

(** ** Deleting a range *)

Lemma decRefCntsInRange_spec la : forall fuel s pv nx cur l,
  segment (nodes s) pv la nx -> head la = Some cur -> last la = Some l ->
  validLocals s -> length la <= fuel ->
  exists tab,
    decRefCntsInRange fuel cur l s = Ok (tt, set_lvaTable tab s)
    /\ length tab = length (lvaTable s).
Proof.
  induction la as [|x la IH]; intros fuel s pv nx cur l Hseg Hhd Hlast Hval Hfuel;
    [discriminate|].
  injection Hhd as ->. destruct fuel as [|fuel]; [simpl in Hfuel; lia|].
  destruct Hseg as [(t & Ht & Hp & Hn) Hseg]. cbn [decRefCntsInRange].
  rewrite (bind_run _ _ _ _ _ (getNode_run _ _ _ Ht)).
  assert (exists tab1, when (OperIsLocal (gtOper t)) (lvaDecRefCnts cur) s
                       = Ok (tt, set_lvaTable tab1 s)
                       /\ length tab1 = length (lvaTable s)) as (tab1 & Hrun & Hlen).
  { destruct (OperIsLocal (gtOper t)) eqn:Hloc; cbn [when].
    - unfold lvaDecRefCnts. rewrite (bind_run _ _ _ _ _ (getNode_run _ _ _ Ht)).
      unfold decRefCnt.
      destruct (lookup_lt_is_Some_2 _ _ (Hval _ _ Ht Hloc)) as [d ->].
      eexists. split; [reflexivity|]. by rewrite length_insert.
    - exists (lvaTable s). split; [|done]. by destruct s. }
  rewrite (bind_run _ _ _ _ _ Hrun).
  destruct (decide (cur = l)) as [->|Hne].
  { by exists tab1. }
  destruct la as [|y la]; [simpl in Hlast; congruence|].
  rewrite Hn. cbn [deref]. rewrite mret_bind.
  destruct (IH fuel (set_lvaTable tab1 s) (Some cur) nx y l) as (tab2 & Hrun2 & Hlen2);
    try done.
  { intros z tz Hz Hlz. simpl. rewrite Hlen. by apply (Hval z tz). }
  { simpl in Hfuel |- *. lia. }
  exists tab2. split; [|by rewrite Hlen2]. rewrite Hrun2. by destruct s.
Qed.

Lemma rangeIs_set_lvaTable s tab f lst : rangeIs s f lst -> rangeIs (set_lvaTable tab s) f lst.
Proof. done. Qed.

(** [Delete] takes the nodes of the range out of the list and leaves the
    trees alone. *)
Lemma Range_Delete_spec s l1 la l2 f l r :
  LinearOrder s (l1 ++ la ++ l2) -> head la = Some f -> last la = Some l ->
  validLocals s -> rangeFirst r = f -> rangeLast r = l ->
  exists s',
    Range_Delete r s = Ok (tt, s')
    /\ LinearOrder s' (l1 ++ l2)
    /\ sameTrees s s' /\ m_block s' = m_block s
    /\ length (lvaTable s') = length (lvaTable s).
Proof.
  intros (Hnd & Hseg & Hr) Hf Hl Hval <- <-.
  apply NoDup_app in Hnd as (Hnd1 & Hdisj1 & Hnd).
  apply NoDup_app in Hnd as (Hnda & Hdisja & Hnd2).
  apply segment_app in Hseg as [Hs1 Hseg].
  apply segment_app in Hseg as [Hsa Hs2].
  rewrite !orElse_None_r in *.
  rewrite head_app_orElse, Hf in Hs1. cbn [orElse] in Hs1.
  rewrite Hl in Hs2. cbn [orElse] in Hs2.
  rewrite head_app_orElse, last_app_orElse, head_app_orElse, last_app_orElse in Hr.
  rewrite Hf, Hl in Hr. cbn [orElse] in Hr.
  assert (rangeIs s (orElse (head l1) (Some (rangeFirst r)))
                    (orElse (last l2) (Some (rangeLast r)))) as Hr'.
  { by destruct (head l1), (last l2). }
  clear Hr.
  assert (length la <= S (length (nodes s))) as Hfuel.
  { apply Nat.le_trans with (length (nodes s)); [|lia].
    apply NoDup_bounded_length; [done|]. intros x Hx.
    destruct (segment_exists _ _ _ _ x Hsa Hx) as [t Ht]. by eapply lookup_lt_Some. }
  destruct (decRefCntsInRange_spec la _ s _ _ _ _ Hsa Hf Hl Hval Hfuel)
    as (tab & Hrun0 & Hlen).
  assert (exists tf, nodes s !! rangeFirst r = Some tf /\ gtPrev tf = last l1)
    as (tf & Htf & Hpf).
  { destruct la as [|x la']; [discriminate|]. injection Hf as ->.
    destruct Hsa as [(t & Ht & Hp & _) _]. by exists t. }
  assert (exists tl, nodes s !! rangeLast r = Some tl /\ gtNext tl = head l2)
    as (tl & Htl & Hnl).
  { destruct (snoc_or_nil la) as [->|(la' & x & ->)]; [discriminate|].
    rewrite last_snoc in Hl. injection Hl as ->.
    apply segment_app in Hsa as [_ Hsa]. destruct Hsa as [(t & Ht & _ & Hn) _].
    by exists t. }
  assert (rangeFirst r ∈ la) as Hfin.
  { destruct la as [|x la']; [discriminate|]. injection Hf as ->. apply list_elem_of_here. }
  assert (rangeLast r ∈ la) as Hlin.
  { destruct (snoc_or_nil la) as [->|(la' & x & ->)]; [discriminate|].
    rewrite last_snoc in Hl. injection Hl as ->. apply elem_of_app. right.
    apply list_elem_of_here. }
  assert (forall x, x ∈ la -> x ∉ l1) as Hal1.
  { intros x Hx H1. eapply Hdisj1; [done|]. apply elem_of_app. by left. }
  assert (forall x, x ∈ la -> x ∉ l2) as Hal2.
  { intros x Hx H2. by eapply Hdisja. }
  assert (forall x, x ∈ l1 -> x ∉ l2) as H12.
  { intros x H1 H2. eapply Hdisj1; [done|]. apply elem_of_app. by right. }
  unfold Range_Delete. cbn [query]. unfold query at 1.
  change ((fun s0 => Ok (nodes s0, s0)) ≫= ?k) with (fun s0 : Compiler => k (nodes s0) s0).
  cbv beta.
  rewrite (bind_run _ _ _ _ _ Hrun0).
  set (s0 := set_lvaTable tab s).
  assert (nodes s0 = nodes s) as Hn0 by done.
  rewrite (bind_run _ _ _ _ _ (getNode_run s0 _ _ Htf)).
  rewrite (bind_run _ _ _ _ _ (getNode_run s0 _ _ Htl)).
  rewrite Hpf, Hnl.
  destruct (relink_pred s0 l1 (Some (rangeFirst r)) (head l2) _ Hnd1 Hs1
              (rangeIs_set_lvaTable _ tab _ _ Hr'))
    as (s1 & Hrun1 & Hs1' & Hr1 & Hfr1 & Hst1 & Hsr1).
  rewrite (bind_run _ _ _ _ _ Hrun1).
  assert (segment (nodes s1) (Some (rangeLast r)) l2 None) as Hs2'.
  { eapply segment_frame; [|exact Hs2]. intros x Hx. rewrite Hfr1; [done|].
    intros Hx1. by eapply H12. }
  destruct (relink_succ s1 l2 (Some (rangeLast r)) (last l1) _ Hnd2 Hs2' Hr1)
    as (s2 & Hrun2 & Hs2'' & Hr2 & Hfr2 & Hst2 & Hsr2).
  rewrite (bind_run _ _ _ _ _ Hrun2).
  assert (segment (nodes s2) None l1 (head l2)) as Hs1''.
  { eapply segment_frame; [|exact Hs1']. intros x Hx. apply Hfr2.
    intros Hx2. by eapply H12. }
  assert (sameTrees s s2) as Hst.
  { eapply sameTrees_trans; [|exact Hst2]. eapply sameTrees_trans; [|exact Hst1]. done. }
  destruct (sameTrees_lookup _ _ _ _ Hst Htf) as (tf2 & Htf2 & Huf2).
  rewrite (bind_run _ _ _ _ _ (setPrev_run _ _ _ _ Htf2)).
  set (s3 := set_nodes _ s2).
  assert (sameTrees s2 s3) as Hst3 by (by eapply sameTrees_insert).
  destruct (sameTrees_lookup _ _ _ _ (sameTrees_trans _ _ _ Hst Hst3) Htl)
    as (tl3 & Htl3 & Hul3).
  rewrite (setNext_run _ _ _ _ Htl3).
  eexists. split; [reflexivity|]. split; [|split; [|split]].
  - apply LinearOrder_build with (nx := head l2) (pv := last l1); try done.
    + apply (NoDup_app l1 l2). split; [done|]. split; [|done]. apply H12.
    + simpl. apply segment_insert_other; [by apply Hal1|].
      apply segment_insert_other; [by apply Hal1|]. done.
    + simpl. apply segment_insert_other; [by apply Hal2|].
      apply segment_insert_other; [by apply Hal2|]. done.
  - eapply sameTrees_trans; [exact Hst|]. eapply sameTrees_trans; [exact Hst3|].
    by eapply (sameTrees_insert s3).
  - simpl. destruct Hsr2 as (_ & -> & _). destruct Hsr1 as (_ & -> & _). done.
  - simpl. destruct Hsr2 as (-> & _). destruct Hsr1 as (-> & _). done.
Qed.

(** ** The range of a tree *)

Lemma markableOperands_run s ops :
  (forall o, o ∈ ops -> is_Some (nodes s !! o)) ->
  markableOperands ops s
  = Ok (filter (fun o => (gtOper <$> nodes s !! o) ≠ Some GT_ARGPLACE) ops, s).
Proof.
  induction ops as [|o ops IH]; intros Hex; [done|].
  destruct (Hex o) as [t Ht]; [apply list_elem_of_here|].
  cbn [markableOperands]. rewrite (bind_run _ _ _ _ _ (getNode_run _ _ _ Ht)).
  rewrite (bind_run _ _ _ _ _ (IH (fun x Hx => Hex x (list_elem_of_further _ _ _ Hx)))).
  rewrite mret_run. f_equal. f_equal.
  destruct (decide (gtOper t = GT_ARGPLACE)) as [Ha|Ha].
  - rewrite filter_cons_False; [done|]. rewrite Ht. simpl. intros H. by apply H, f_equal.
  - rewrite filter_cons_True; [done|]. rewrite Ht. simpl. congruence.
Qed.

Lemma uses_lookup ns x t :
  ns !! x = Some t ->
  uses ns x = filter (fun o => (gtOper <$> ns !! o) ≠ Some GT_ARGPLACE) (Operands ns t).
Proof. intros H. unfold uses. by rewrite H. Qed.

Lemma PostorderList_app ns r1 l1 r2 l2 :
  PostorderList ns r1 l1 -> PostorderList ns r2 l2 ->
  PostorderList ns (r1 ++ r2) (l1 ++ l2).
Proof.
  induction 1 as [|r rs c l Hc Hl IH]; intros H2; [done|].
  rewrite <- app_assoc. simpl. constructor; [done|]. by apply IH.
Qed.

Lemma PostorderList_nil_inv ns roots : PostorderList ns roots [] -> roots = [].
Proof.
  inversion 1 as [|r rs c l Hc Hl E1 E2]; [done|].
  inversion Hc as [n rts l0 _ _ E3 E4]. subst.
  apply app_eq_nil in E2 as [E2 _]. by apply app_eq_nil in E2 as [_ E2].
Qed.

Lemma PostorderList_no_roots ns l : PostorderList ns [] l -> l = [].
Proof. by inversion 1. Qed.

Lemma PostorderList_snoc_inv ns roots pre x :
  PostorderList ns roots (pre ++ [x]) ->
  exists roots0 l0 rx lx,
    roots = roots0 ++ [x] /\ pre = l0 ++ lx
    /\ PostorderList ns roots0 l0
    /\ rx ≡ₚ uses ns x /\ PostorderList ns rx lx.
Proof.
  intros H. remember (pre ++ [x]) as l eqn:El. revert pre El.
  induction H as [|r rs c l Hc Hl IH]; intros pre El.
  { by destruct pre. }
  destruct (snoc_or_nil l) as [->|(l' & y & ->)].
  - apply PostorderList_nil_inv in Hl as ->.
    inversion Hc as [n rts l0 Hrts Hl0 E1 E2]. subst.
    rewrite app_nil_r in El. apply app_inj_tail in El as [-> ->].
    exists [], [], rts, pre. repeat split; try done. constructor.
  - rewrite app_assoc in El. apply app_inj_tail in El as [<- ->].
    destruct (IH l' eq_refl) as (roots0 & l0 & rx & lx & -> & -> & H0 & Hrx & Hlx).
    exists (r :: roots0), (c ++ l0), rx, lx. repeat split; try done.
    + by rewrite app_assoc.
    + by constructor.
Qed.

Lemma PostorderList_roots_in ns roots l r :
  PostorderList ns roots l -> r ∈ roots -> r ∈ l.
Proof.
  induction 1 as [|r0 rs c l Hc Hl IH]; intros Hr; [by apply elem_of_nil in Hr|].
  apply elem_of_app. apply elem_of_cons in Hr as [->|Hr]; [left|right; by apply IH].
  inversion Hc. apply elem_of_app. right. apply list_elem_of_here.
Qed.

Lemma PostorderList_NoDup_roots ns roots l :
  PostorderList ns roots l -> NoDup l -> NoDup roots.
Proof.
  induction 1 as [|r rs c l Hc Hl IH]; intros Hnd; [constructor|].
  apply NoDup_app in Hnd as (_ & Hdisj & Hnd). constructor; [|by apply IH].
  intros Hr. apply (Hdisj r); [|by eapply PostorderList_roots_in].
  inversion Hc. apply elem_of_app. right. apply list_elem_of_here.
Qed.

Lemma filter_ne_absent (x : NodeId) (l : list NodeId) :
  x ∉ l -> filter (fun m => m ≠ x) l = l.
Proof.
  induction l as [|y l IH]; intros Hx; [done|].
  apply not_elem_of_cons in Hx as [Hy Hx].
  rewrite filter_cons_True by congruence. by rewrite IH.
Qed.

(** The backward walk of [GetTreeRange]: the pending marks are the roots of
    the trees laid out in what remains to be walked. *)
Lemma GetMarkedRange_spec s pv pre : forall nx x fuel roots marks lastNode saw eff,
  segment (nodes s) pv (pre ++ [x]) nx -> NoDup (pre ++ [x]) ->
  PostorderList (nodes s) roots (pre ++ [x]) -> marks ≡ₚ roots ->
  operandsExist (nodes s) (pre ++ [x]) ->
  length (pre ++ [x]) <= fuel ->
  exists r,
    GetMarkedRange fuel (length marks) marks x lastNode saw eff s = Ok (r, s)
    /\ head (pre ++ [x]) = Some (rangeFirst r)
    /\ rangeLast r = default x lastNode.
Proof.
  induction pre as [|y pre IH] using rev_ind;
    intros nx x fuel roots marks lastNode saw eff Hseg Hnd Hpo Hperm Hex Hfuel.
  - (* the last node of the walk *)
    destruct fuel as [|fuel]; [simpl in Hfuel; lia|].
    destruct (PostorderList_snoc_inv _ _ _ _ Hpo)
      as (roots0 & l0 & rx & lx & -> & El & H0 & Hrx & Hlx).
    symmetry in El. apply app_eq_nil in El as [-> ->].
    apply PostorderList_nil_inv in H0 as ->. apply PostorderList_nil_inv in Hlx as ->.
    simpl in Hperm. apply Permutation_singleton_r in Hperm as ->.
    apply Permutation_nil_l in Hrx.
    destruct Hseg as [(t & Ht & _) _].
    cbn [GetMarkedRange]. rewrite (bind_run _ _ _ _ _ (getNode_run _ _ _ Ht)).
    rewrite (bind_run (query nodes) _ s (nodes s) s eq_refl).
    rewrite decide_True by apply list_elem_of_here.
    rewrite (bind_run _ _ _ _ _ (markableOperands_run s _
      (fun o Ho => Hex x t o (list_elem_of_here _ _) Ht Ho))).
    rewrite <- (uses_lookup _ _ _ Ht), <- Hrx.
    rewrite bool_decide_eq_true_2 by apply list_elem_of_here.
    simpl. eexists. split; [reflexivity|]. done.
  - (* a node with a predecessor in the range *)
    destruct fuel as [|fuel]; [rewrite !length_app in Hfuel; simpl in Hfuel; lia|].
    destruct (PostorderList_snoc_inv _ _ _ _ Hpo)
      as (roots0 & l0 & rx & lx & -> & El & H0 & Hrx & Hlx).
    pose proof (PostorderList_NoDup_roots _ _ _ Hpo Hnd) as Hndr.
    apply NoDup_app in Hndr as (_ & Hdisj & _).
    assert (x ∉ roots0) as Hx0.
    { intros H. eapply Hdisj; [exact H|apply list_elem_of_here]. }
    pose proof Hseg as Hseg0.
    apply segment_app in Hseg as [Hseg1 Hseg2].
    destruct Hseg2 as [(t & Ht & Hp & _) _].
    rewrite last_snoc in Hp. cbn [orElse] in Hp.
    cbn [GetMarkedRange]. rewrite (bind_run _ _ _ _ _ (getNode_run _ _ _ Ht)).
    rewrite (bind_run (query nodes) _ s (nodes s) s eq_refl).
    assert (x ∈ marks) as Hxm.
    { rewrite Hperm. apply elem_of_app. right. apply list_elem_of_here. }
    rewrite decide_True by done.
    rewrite (bind_run _ _ _ _ _ (markableOperands_run s _
      (fun o Ho => Hex x t o ltac:(apply elem_of_app; right; apply list_elem_of_here) Ht Ho))).
    rewrite <- (uses_lookup _ _ _ Ht).
    rewrite bool_decide_eq_true_2 by done.
    assert (filter (fun m => m ≠ x) marks ≡ₚ roots0) as Hfil.
    { rewrite Hperm, filter_app, (filter_ne_absent _ _ Hx0).
      rewrite filter_cons_False by (intros H; by apply H). by rewrite app_nil_r. }
    set (marks' := uses (nodes s) x ++ filter (fun m => m ≠ x) marks).
    assert (marks' ≡ₚ roots0 ++ rx) as Hperm'.
    { unfold marks'. rewrite Hfil, Hrx. apply Permutation_app_comm. }
    assert (PostorderList (nodes s) (roots0 ++ rx) (pre ++ [y])) as Hpo'.
    { rewrite El. by apply PostorderList_app. }
    assert (length marks + length (uses (nodes s) x) - 1 = length marks') as ->.
    { unfold marks'. rewrite length_app, Hfil, Hperm, length_app. simpl. lia. }
    assert (length marks' <> 0) as Hne.
    { intros H0'. apply nil_length_inv in H0'. rewrite H0' in Hperm'.
      apply Permutation_nil_l in Hperm'. rewrite <- Hperm' in Hpo'.
      apply PostorderList_no_roots in Hpo'. by destruct pre. }
    rewrite decide_False by done.
    rewrite Hp. cbn [deref]. rewrite mret_bind.
    apply NoDup_app in Hnd as (Hnd' & _).
    destruct (IH (Some x) y fuel (roots0 ++ rx) marks' (Some (default x lastNode)) saw
                (Z.lor eff (Z.land (gtFlags t) GTF_ALL_EFFECT)))
      as (r & Hrun & Hfirst & Hlast); try done.
    { intros z tz o Hz. apply Hex. apply elem_of_app. by left. }
    { clear -Hfuel. rewrite !length_app in Hfuel. rewrite length_app.
      cbn [length] in *. lia. }
    exists r. split; [exact Hrun|]. split; [|done].
    rewrite <- Hfirst. by destruct pre.
Qed.

Lemma Range_GetTreeRange_spec s p la q a :
  LinearOrder s (p ++ la ++ q) -> Postorder (nodes s) a la ->
  operandsExist (nodes s) la ->
  exists r,
    Range_GetTreeRange a s = Ok (r, s)
    /\ head la = Some (rangeFirst r) /\ last la = Some (rangeLast r)
    /\ rangeLast r = a.
Proof.
  intros (Hnd & Hseg & _) Hpo Hex.
  apply NoDup_app in Hnd as (_ & _ & Hnd). apply NoDup_app in Hnd as (Hnd & _).
  apply segment_app in Hseg as [_ Hseg]. apply segment_app in Hseg as [Hseg _].
  assert (PostorderList (nodes s) [a] la) as Hpl.
  { rewrite <- (app_nil_r la). constructor; [done|constructor]. }
  inversion Hpo as [n rts l0 Hrts Hl0 E1 E2]. subst.
  assert (length (l0 ++ [a]) <= S (length (nodes s))) as Hfuel.
  { apply Nat.le_trans with (length (nodes s)); [|lia].
    apply NoDup_bounded_length; [done|]. intros x Hx.
    destruct (segment_exists _ _ _ _ x Hseg Hx) as [t Ht]. by eapply lookup_lt_Some. }
  destruct (GetMarkedRange_spec s _ l0 _ a _ [a] [a] None false 0%Z Hseg Hnd Hpl
              (reflexivity _) Hex Hfuel) as (r & Hrun & Hfirst & Hlast).
  exists r. unfold Range_GetTreeRange. unfold query.
  split; [exact Hrun|]. split; [done|]. rewrite last_snoc. simpl in Hlast.
  by rewrite Hlast.
Qed.

(** ** Trees do not depend on the links *)

Lemma listElems_unlinked fuel ns p :
  listElems fuel (unlinked <$> ns) p = listElems fuel ns p.
Proof.
  revert p. induction fuel as [|fuel IH]; intros p; [done|].
  destruct p as [l|]; [|done]. simpl. rewrite list_lookup_fmap.
  destruct (ns !! l) as [t|]; [|done]. simpl. by rewrite IH.
Qed.

Lemma Operands_unlinked ns t : Operands (unlinked <$> ns) (unlinked t) = Operands ns t.
Proof.
  unfold Operands. rewrite length_fmap, !listElems_unlinked. done.
Qed.

Lemma uses_unlinked ns n : uses (unlinked <$> ns) n = uses ns n.
Proof.
  unfold uses. rewrite list_lookup_fmap. destruct (ns !! n) as [t|]; [|done]. simpl.
  rewrite Operands_unlinked. apply list_filter_iff. intros o.
  rewrite list_lookup_fmap. by destruct (ns !! o).
Qed.

Lemma uses_sameTrees s s' n : sameTrees s s' -> uses (nodes s') n = uses (nodes s) n.
Proof.
  intros H. rewrite <- (uses_unlinked (nodes s')), <- (uses_unlinked (nodes s)).
  by rewrite H.
Qed.

Lemma Postorder_uses ns ns' :
  (forall n, uses ns' n = uses ns n) ->
  (forall n l, Postorder ns n l -> Postorder ns' n l)
  /\ (forall roots l, PostorderList ns roots l -> PostorderList ns' roots l).
Proof.
  intros Hu. apply Postorder_mutind.
  - intros n roots l Hr _ IH. econstructor; [|exact IH]. by rewrite Hu.
  - constructor.
  - intros r rs c l _ IH1 _ IH2. by constructor.
Qed.

Lemma Postorder_sameTrees s s' n l :
  sameTrees s s' -> Postorder (nodes s) n l -> Postorder (nodes s') n l.
Proof. intros H. apply Postorder_uses. intros x. by apply uses_sameTrees. Qed.

Lemma operandsExist_sameTrees s s' l :
  sameTrees s s' -> operandsExist (nodes s) l -> operandsExist (nodes s') l.
Proof.
  intros H Hex x t' o Hx Ht' Ho.
  destruct (sameTrees_lookup_inv _ _ _ _ H Ht') as (t & Ht & Hu).
  assert (Operands (nodes s') t' = Operands (nodes s) t) as E.
  { rewrite <- (Operands_unlinked (nodes s')), <- (Operands_unlinked (nodes s)).
    unfold sameTrees in H. by rewrite H, Hu. }
  rewrite E in Ho. destruct (Hex x t o Hx Ht Ho) as [to Hto].
  destruct (sameTrees_lookup _ _ _ _ H Hto) as (to' & Hto' & _). by exists to'.
Qed.

Lemma validLocals_sameTrees s s' :
  sameTrees s s' -> length (lvaTable s') = length (lvaTable s) ->
  validLocals s -> validLocals s'.
Proof.
  intros H Hlen Hval x t' Ht' Hloc.
  destruct (sameTrees_lookup_inv _ _ _ _ H Ht') as (t & Ht & Hu).
  rewrite Hlen, (unlinked_lcl _ _ Hu). apply (Hval x t Ht).
  by rewrite <- (unlinked_oper _ _ Hu).
Qed.

(** Deleting the range of an operand tree when the operand has no side
    effects. *)
Lemma delete_if_free s p la q a ta :
  LinearOrder s (p ++ la ++ q) -> Postorder (nodes s) a la ->
  operandsExist (nodes s) la -> validLocals s ->
  exists s',
    when (Z.land (gtFlags ta) GTF_ALL_EFFECT =? 0)%Z
      (r ← Range_GetTreeRange a ; Range_Delete r) s = Ok (tt, s')
    /\ LinearOrder s'
         (p ++ (if (Z.land (gtFlags ta) GTF_ALL_EFFECT =? 0)%Z then [] else la) ++ q)
    /\ sameTrees s s' /\ m_block s' = m_block s
    /\ length (lvaTable s') = length (lvaTable s).
Proof.
  intros Hlo Hpo Hex Hval.
  destruct (Z.land (gtFlags ta) GTF_ALL_EFFECT =? 0)%Z; cbn [when].
  - destruct (Range_GetTreeRange_spec _ _ _ _ _ Hlo Hpo Hex) as (r & Hrun & Hf & Hl & _).
    rewrite (bind_run _ _ _ _ _ Hrun).
    destruct (Range_Delete_spec s p la q _ _ r Hlo Hf Hl Hval eq_refl eq_refl)
      as (s' & Hrun' & Hlo' & Hst & Hmb & Hlen).
    exists s'. by rewrite Hrun'.
  - exists s. split; [done|]. split; [done|]. split; [reflexivity|done].
Qed.

(** C5: the comma rule.  The comma [n] = (a, b) follows the layouts [la]
    of [a] and [lb] of [b] in the linear order.  The rule returns; the range
    of [a] is deleted when [a] has no side effects; when the comma has a
    consumer, the use is redirected to [b]; when it is a statement root and
    [b] has no side effects, the range of [b] is deleted too; the comma is
    removed in every case, and the other nodes of the order stay in place.
    A statement root made of two effect-free operands thus leaves no
    expression node: with [p] and [q] empty the resulting order is empty. *)
Theorem comma_rewrite use n s t a b ta tb p la lb q :
  LinearOrder s (p ++ la ++ lb ++ n :: q) ->
  nodes s !! n = Some t -> gtOper t = GT_COMMA ->
  gtOp1 t = Some a -> gtOp2 t = Some b ->
  nodes s !! a = Some ta -> nodes s !! b = Some tb ->
  Postorder (nodes s) a la -> Postorder (nodes s) b lb ->
  operandsExist (nodes s) (la ++ lb) -> validLocals s ->
  Use_Def use s = Ok (n, s) ->
  is_Some (nodes s !! m_user use) -> argFixable s use n ->
  exists use' s',
    RewriteNode_dispatch use n (gtOper t) s = Ok (use', s')
    /\ LinearOrder s'
         (p ++ (if (Z.land (gtFlags ta) GTF_ALL_EFFECT =? 0)%Z then [] else la)
            ++ (if Use_IsDummyUse use && (Z.land (gtFlags tb) GTF_ALL_EFFECT =? 0)%Z
                then [] else lb)
            ++ q)
    /\ (Use_IsDummyUse use = false -> Use_Def use' s' = Ok (b, s'))
    /\ (Use_IsDummyUse use = true -> use' = use)
    /\ (forall x tx, nodes s !! x = Some tx ->
          exists tx', nodes s' !! x = Some tx' /\ gtOper tx' = gtOper tx).
Proof.
  intros Hlo Ht Hop Ha Hb Hta Htb Hpa Hpb Hex Hval Hdef Huser Hfix.
  rewrite Hop. cbn [RewriteNode_dispatch]. unfold RewriteComma.
  rewrite (bind_run _ _ _ _ _ (getNode_run _ _ _ Ht)). rewrite Ha.
  cbn [deref]. rewrite mret_bind.
  rewrite (bind_run _ _ _ _ _ (getNode_run _ _ _ Hta)).
  destruct (delete_if_free s p la (lb ++ n :: q) a ta Hlo Hpa) as
    (s1 & Hrun1 & Hlo1 & Hst1 & Hmb1 & Hlen1); [|done|].
  { intros x tx o Hx. apply Hex. apply elem_of_app. by left. }
  rewrite (bind_run _ _ _ _ _ Hrun1).
  set (A := if (Z.land (gtFlags ta) GTF_ALL_EFFECT =? 0)%Z then [] else la) in *.
  destruct (sameTrees_lookup _ _ _ _ Hst1 Ht) as (t1 & Ht1 & Hu1).
  rewrite (bind_run _ _ _ _ _ (getNode_run _ _ _ Ht1)).
  rewrite (unlinked_op2 _ _ Hu1), Hb. cbn [deref]. rewrite mret_bind.
  destruct (sameTrees_lookup _ _ _ _ Hst1 Htb) as (tb1 & Htb1 & Hub1).
  pose proof (sameTrees_kept _ _ Hst1) as Hk1.
  destruct (Use_IsDummyUse use) eqn:Hdummy; cbn [negb andb].
  - (* statement root *)
    rewrite !bind_assoc.
    rewrite (bind_run _ _ _ _ _ (getNode_run _ _ _ Htb1)).
    rewrite (unlinked_flags _ _ Hub1).
    assert (LinearOrder s1 ((p ++ A) ++ lb ++ n :: q)) as Hlo1'.
    { by rewrite <- app_assoc. }
    destruct (delete_if_free s1 (p ++ A) lb (n :: q) b tb Hlo1') as
      (s2 & Hrun2 & Hlo2 & Hst2 & Hmb2 & Hlen2).
    { by eapply Postorder_sameTrees. }
    { eapply operandsExist_sameTrees; [done|].
      intros x tx o Hx. apply Hex. apply elem_of_app. by right. }
    { by eapply validLocals_sameTrees. }
    rewrite !bind_assoc.
    rewrite (bind_run _ _ _ _ _ Hrun2). rewrite mret_bind.
    set (B := if (Z.land (gtFlags tb) GTF_ALL_EFFECT =? 0)%Z then [] else lb) in *.
    assert (LinearOrder s2 ((p ++ A ++ B) ++ n :: q)) as Hlo2'.
    { rewrite <- !app_assoc in Hlo2. by rewrite <- !app_assoc. }
    destruct (Range_Remove_spec _ _ _ _ Hlo2') as (s3 & Hrun3 & Hlo3 & Hst3 & _).
    rewrite (bind_run _ _ _ _ _ Hrun3). rewrite mret_run.
    exists use, s3. split; [done|]. split; [by rewrite <- !app_assoc in Hlo3|].
    split; [done|]. split; [done|].
    intros x tx Hx.
    destruct (sameTrees_lookup _ _ _ _
                (sameTrees_trans _ _ _ Hst1 (sameTrees_trans _ _ _ Hst2 Hst3)) Hx)
      as (tx' & Hx' & Hux).
    exists tx'. split; [done|]. by apply unlinked_oper.
  - (* the comma has a consumer *)
    assert (exists lb', lb = lb' ++ [b]) as [lb' Elb].
    { inversion Hpb as [b0 roots l0 _ _ E1 E2]. by exists l0. }
    assert (LinearOrder s1 ((p ++ A ++ lb') ++ b :: [] ++ n :: q)) as Hlo1'.
    { rewrite Elb in Hlo1. relist Hlo1. }
    destruct (replace_remove s1 use n b _ _ _ Hlo1') as
      (use' & s2 & Hrun2 & Hlo2 & Hdef2 & Hlen2 & Hk2).
    { by eapply treesKept_Use_Def. }
    { destruct Huser as [u Hu]. destruct (Hk1 _ _ Hu) as (u' & Hu' & _). by exists u'. }
    { eapply treesKept_argFixable; [done|done| |done]. by exists t. }
    exists use', s2. split; [exact Hrun2|].
    split; [rewrite Elb; relist Hlo2|].
    split; [done|]. split; [done|].
    intros x tx Hx. destruct (Hk1 _ _ Hx) as (tx1 & Hx1 & Hux).
    destruct (Hk2 _ _ Hx1) as (tx2 & Hx2 & Ho2 & _).
    exists tx2. split; [done|]. rewrite Ho2. by apply unlinked_oper.
Qed.

(** ** Fields that a run leaves alone *)

Lemma fieldKept_refl {A} (f : GenTree -> A) s : fieldKept f s s.
Proof. intros x t Ht. by exists t. Qed.

Lemma fieldKept_trans {A} (f : GenTree -> A) s1 s2 s3 :
  fieldKept f s1 s2 -> fieldKept f s2 s3 -> fieldKept f s1 s3.
Proof.
  intros H1 H2 x t Ht. destruct (H1 _ _ Ht) as (t2 & Ht2 & E2).
  destruct (H2 _ _ Ht2) as (t3 & Ht3 & E3). exists t3. split; [done|congruence].
Qed.

Lemma fieldKept_lt {A} (f : GenTree -> A) s s' x :
  fieldKept f s s' -> x < length (nodes s) -> x < length (nodes s').
Proof.
  intros H Hx. destruct (lookup_lt_is_Some_2 _ _ Hx) as [t Ht].
  destruct (H _ _ Ht) as (t' & Ht' & _). by eapply lookup_lt_Some.
Qed.

Lemma fieldKept_compose {A B} (f : GenTree -> A) (g : A -> B) s s' :
  fieldKept f s s' -> fieldKept (fun t => g (f t)) s s'.
Proof.
  intros H x t Ht. destruct (H _ _ Ht) as (t' & Ht' & E). exists t'. by rewrite E.
Qed.

Lemma Pres_kept_modNode {A} (f : GenTree -> A) n g :
  (forall t, f (g t) = f t) -> Pres (fieldKept f) (modNode n g).
Proof.
  intros Hf s a s' H. apply modNode_inv in H as (tn & Htn & ->).
  intros x t Ht. simpl. destruct (decide (x = n)) as [->|Hx].
  - rewrite Htn in Ht. injection Ht as <-. exists (g tn).
    split; [by eapply lookup_set_same|done].
  - exists t. by rewrite list_lookup_insert_ne.
Qed.

Lemma Pres_kept_allocNode {A} (f : GenTree -> A) t : Pres (fieldKept f) (allocNode t).
Proof.
  intros s a s' [= <- <-] x tx Hx. exists tx. split; [|done]. simpl.
  by apply lookup_snoc_old.
Qed.

Lemma Pres_kept_read {A B} (f : GenTree -> A) (m : M B) :
  (forall s a s', m s = Ok (a, s') -> s' = s) -> Pres (fieldKept f) m.
Proof. intros Hm s a s' H. rewrite (Hm _ _ _ H). apply fieldKept_refl. Qed.

Lemma sameLength_refl s : sameLength s s.
Proof. done. Qed.

Lemma sameLength_trans s1 s2 s3 : sameLength s1 s2 -> sameLength s2 s3 -> sameLength s1 s3.
Proof. unfold sameLength. congruence. Qed.

Lemma Pres_length_modNode n g : Pres sameLength (modNode n g).
Proof.
  intros s a s' H. apply modNode_inv in H as (tn & Htn & ->).
  unfold sameLength. simpl. by rewrite length_insert.
Qed.

Hint Resolve fieldKept_refl fieldKept_trans sameLength_refl sameLength_trans : pres.
Hint Extern 1 (Pres sameLength (modNode _ _)) => apply Pres_length_modNode : pres.
Hint Extern 1 (Pres sameLength (setPrev _ _)) => apply Pres_length_modNode : pres.
Hint Extern 1 (Pres sameLength (setNext _ _)) => apply Pres_length_modNode : pres.
Hint Extern 1 (Pres sameLength (setFlags _ _)) => apply Pres_length_modNode : pres.
Hint Extern 1 (Pres (fieldKept _) (modNode _ _)) =>
  apply Pres_kept_modNode; intros; reflexivity : pres.
Hint Extern 1 (Pres (fieldKept _) (setPrev _ _)) =>
  apply Pres_kept_modNode; intros; reflexivity : pres.
Hint Extern 1 (Pres (fieldKept _) (setNext _ _)) =>
  apply Pres_kept_modNode; intros; reflexivity : pres.

(** Running a node update. *)
Lemma modNode_ok n g s :
  n < length (nodes s) -> exists s', modNode n g s = Ok (tt, s').
Proof.
  intros Hn. destruct (lookup_lt_is_Some_2 _ _ Hn) as [t Ht].
  eexists. by apply modNode_run.
Qed.

Lemma Pres_length_linkSeq seq : forall prev, Pres sameLength (linkSeq prev seq).
Proof. induction seq as [|x seq IH]; intros prev; simpl; pres_auto. Qed.

Lemma Pres_kept_linkSeq {A} (f : GenTree -> A) seq :
  (forall t p, f (set_gtPrev p t) = f t) -> (forall t p, f (set_gtNext p t) = f t) ->
  forall prev, Pres (fieldKept f) (linkSeq prev seq).
Proof.
  intros Hp Hn. induction seq as [|x seq IH]; intros prev; simpl.
  - pres_auto.
  - assert (forall y p, Pres (fieldKept f) (setPrev y p)) as Hsp.
    { intros y p. by apply Pres_kept_modNode. }
    assert (forall y p, Pres (fieldKept f) (setNext y p)) as Hsn.
    { intros y p. by apply Pres_kept_modNode. }
    pres_auto.
Qed.

Lemma linkSeq_ok seq : forall prev s,
  (forall x, x ∈ seq -> x < length (nodes s)) ->
  (forall p, prev = Some p -> p < length (nodes s)) ->
  exists s', linkSeq prev seq s = Ok (tt, s').
Proof.
  induction seq as [|x seq IH]; intros prev s Hseq Hprev; simpl; [by eauto|].
  assert (exists s1, match prev with Some p => setNext p (Some x) | None => mret tt end s
                     = Ok (tt, s1) /\ sameLength s s1) as (s1 & Hrun1 & Hl1).
  { destruct prev as [p|]; [|by exists s].
    destruct (modNode_ok p (set_gtNext (Some x)) s (Hprev p eq_refl)) as [s1 H1].
    exists s1. split; [done|]. by eapply Pres_length_modNode. }
  rewrite (bind_run _ _ _ _ _ Hrun1).
  assert (x < length (nodes s1)) as Hx.
  { rewrite Hl1. apply Hseq, list_elem_of_here. }
  destruct (modNode_ok x (set_gtPrev prev) s1 Hx) as [s2 Hrun2].
  unfold setPrev at 1. rewrite (bind_run _ _ _ _ _ Hrun2).
  pose proof (Pres_length_modNode _ _ _ _ _ Hrun2) as Hl2.
  assert (x < length (nodes s2)) as Hx2 by (by rewrite Hl2).
  destruct (modNode_ok x (set_gtNext None) s2 Hx2) as [s3 Hrun3].
  unfold setNext at 1. rewrite (bind_run _ _ _ _ _ Hrun3).
  pose proof (Pres_length_modNode _ _ _ _ _ Hrun3) as Hl3.
  apply IH.
  - intros y Hy. rewrite Hl3, Hl2, Hl1. by apply Hseq, list_elem_of_further.
  - intros p [= <-]. by rewrite Hl3.
Qed.

Lemma elem_of_concat_map {A} (g : A -> list NodeId) es x :
  x ∈ concat (map g es) -> exists e, x ∈ g e.
Proof.
  induction es as [|e es IH]; simpl; intros Hx; [by apply elem_of_nil in Hx|].
  apply elem_of_app in Hx as [Hx|Hx]; [by exists e|by apply IH].
Qed.

Lemma treeSeq_lt fuel : forall ns n x, x ∈ treeSeq fuel ns n -> x < length ns.
Proof.
  induction fuel as [|fuel IH]; intros ns n x Hx; simpl in Hx.
  { by apply elem_of_nil in Hx. }
  destruct (ns !! n) as [t|] eqn:Ht; [|by apply elem_of_nil in Hx].
  apply elem_of_app in Hx as [Hx|Hx].
  - apply elem_of_concat_map in Hx as (e & Hx).
    destruct (edgeGet e t) as [c|]; [|by apply elem_of_nil in Hx].
    by apply (IH ns c).
  - apply list_elem_of_singleton in Hx as ->. by eapply lookup_lt_Some.
Qed.

(** The execution order of a tree depends on the shape of the nodes only. *)
Lemma treeSeq_shape fuel : forall ns ns' n,
  (forall x, orderShape <$> ns' !! x = orderShape <$> ns !! x) ->
  treeSeq fuel ns' n = treeSeq fuel ns n.
Proof.
  induction fuel as [|fuel IH]; intros ns ns' n Hsh; [done|]. simpl.
  pose proof (Hsh n) as Hn.
  destruct (ns' !! n) as [t'|], (ns !! n) as [t|]; try discriminate; [|done].
  simpl in Hn. injection Hn as Ho Hr H1 H2 H3 H4 H5 H6 H7.
  assert (operandEdges n t' = operandEdges n t) as ->.
  { unfold operandEdges. by rewrite Ho, Hr. }
  f_equal. f_equal. apply map_ext. intros e.
  assert (edgeGet e t' = edgeGet e t) as ->.
  { destruct e; simpl; congruence. }
  destruct (edgeGet e t); [|done]. by apply IH.
Qed.

Lemma fieldKept_same_lookup {A} (f : GenTree -> A) s s' x :
  fieldKept f s s' -> sameLength s s' ->
  f <$> nodes s' !! x = f <$> nodes s !! x.
Proof.
  intros Hk Hl. destruct (nodes s !! x) as [t|] eqn:Ht.
  - destruct (Hk _ _ Ht) as (t' & -> & E). simpl. by rewrite E.
  - apply lookup_ge_None in Ht. rewrite <- Hl in Ht. apply lookup_ge_None in Ht.
    by rewrite Ht.
Qed.

Lemma fgGetFirstNode_run tree s :
  fgGetFirstNode tree s
  = Ok (default tree (head (treeSeq (S (length (nodes s))) (nodes s) tree)), s).
Proof. done. Qed.

Lemma fgGetFirstNode_kept tree s s' :
  fieldKept orderShape s s' -> sameLength s s' ->
  fgGetFirstNode tree s'
  = Ok (default tree (head (treeSeq (S (length (nodes s))) (nodes s) tree)), s').
Proof.
  intros Hk Hl. rewrite fgGetFirstNode_run, Hl.
  rewrite (treeSeq_shape _ (nodes s) (nodes s')); [done|].
  intros x. by apply fieldKept_same_lookup.
Qed.

Lemma fgGetFirstNode_lt tree s :
  tree < length (nodes s) ->
  default tree (head (treeSeq (S (length (nodes s))) (nodes s) tree)) < length (nodes s).
Proof.
  intros Ht. destruct (head _) as [x|] eqn:E; [|done]. simpl.
  apply (treeSeq_lt (S (length (nodes s))) _ tree). by eapply head_Some_elem_of.
Qed.

(** ** Finding the enclosing call *)

Lemma isNodeCallArg_loop_state ancestors : forall s r s',
  isNodeCallArg_loop ancestors s = Ok (r, s') -> s' = s.
Proof.
  induction ancestors as [|x rest IH]; intros s r s' H; simpl in H.
  { by injection H. }
  apply bind_inv in H as (t & s1 & H1 & H). apply getNode_inv in H1 as [-> _].
  destruct (gtOper t); try (by injection H); try (by eapply IH).
  apply bind_inv in H as (op1 & s1 & H1 & H). apply deref_inv in H1 as [_ ->].
  apply bind_inv in H as (t1 & s1 & H1 & H). apply getNode_inv in H1 as [-> _].
  destruct (decide _); [by injection H|by eapply IH].
Qed.

Lemma isNodeCallArg_loop_total s use ancestors :
  ancestorsOk s use ancestors ->
  exists r, isNodeCallArg_loop ancestors s = Ok (r, s)
            /\ forall c, r = Some c -> c < length (nodes s).
Proof.
  induction 1 as [|x rest (tx & Hx & Hnop) _ IH]; simpl.
  { exists None. split; [done|]. by intros c [=]. }
  rewrite (bind_run _ _ _ _ _ (getNode_run _ _ _ Hx)).
  destruct IH as (r & Hr & Hlt).
  destruct (gtOper tx) eqn:Hop;
    try (exists None; split; [done|by intros c [=]]);
    try (by exists r).
  - destruct Hnop as (_ & o & Ho & [to Hto]); [done|]. rewrite Ho. cbn [deref].
    rewrite mret_bind. rewrite (bind_run _ _ _ _ _ (getNode_run _ _ _ Hto)).
    destruct (decide _); [|by exists r].
    exists (Some o). split; [done|]. intros c [= <-]. by eapply lookup_lt_Some.
  - exists (Some x). split; [done|]. intros c [= <-]. by eapply lookup_lt_Some.
Qed.

Lemma isNodeCallArg_loop_kept ancestors : forall s s' r,
  fieldKept gtOper s s' ->
  (forall x t, x ∈ ancestors -> nodes s !! x = Some t -> gtOper t = GT_NOP ->
     exists t', nodes s' !! x = Some t' /\ gtOp1 t' = gtOp1 t) ->
  isNodeCallArg_loop ancestors s = Ok (r, s) ->
  isNodeCallArg_loop ancestors s' = Ok (r, s').
Proof.
  induction ancestors as [|x rest IH]; intros s s' r Hk Hnop H; simpl in H |- *.
  { by injection H as <-. }
  apply bind_inv in H as (t & s1 & H1 & H). apply getNode_inv in H1 as [-> Ht].
  destruct (Hk _ _ Ht) as (t' & Ht' & Ho).
  rewrite (bind_run _ _ _ _ _ (getNode_run _ _ _ Ht')). rewrite Ho.
  assert (forall y ty, y ∈ rest -> nodes s !! y = Some ty -> gtOper ty = GT_NOP ->
            exists ty', nodes s' !! y = Some ty' /\ gtOp1 ty' = gtOp1 ty) as Hrest.
  { intros y ty Hy. apply Hnop. by apply list_elem_of_further. }
  destruct (gtOper t) eqn:Hop; try (by injection H as <-); try (by apply (IH s)).
  apply bind_inv in H as (op1 & s1 & H1 & H). apply deref_inv in H1 as [Hop1 ->].
  apply bind_inv in H as (t1 & s1 & H1 & H). apply getNode_inv in H1 as [-> Ht1].
  destruct (Hnop x t (list_elem_of_here _ _) Ht Hop) as (t2 & Ht2 & Ho2).
  rewrite Ht' in Ht2. injection Ht2 as <-. rewrite Ho2, Hop1. cbn [deref].
  rewrite mret_bind.
  destruct (Hk _ _ Ht1) as (t1' & Ht1' & Ho1).
  rewrite (bind_run _ _ _ _ _ (getNode_run _ _ _ Ht1')). rewrite Ho1.
  destruct (decide _); [by injection H as <-|by apply (IH s)].
Qed.

(** ** The argument-table update, run *)

Lemma fgFixupArgTabEntryPtr_ok s c u old o new :
  nodes s !! c = Some u -> nodes s !! old = Some o -> new < length (nodes s) ->
  (hasFlag (gtFlags o) GTF_LATE_ARG = true
   \/ exists tab, fgArgInfo (gtCall u) = Some tab /\ exists e, e ∈ tab /\ node e = old) ->
  exists s', fgFixupArgTabEntryPtr c old new s = Ok (tt, s').
Proof.
  intros Hu Ho Hnew Hfix. unfold fgFixupArgTabEntryPtr.
  rewrite (bind_run _ _ _ _ _ (getNode_run _ _ _ Ho)).
  destruct (hasFlag (gtFlags o) GTF_LATE_ARG) eqn:Hlate.
  - by apply modNode_ok.
  - destruct Hfix as [Hl|(tab & Htab & en & Hen & Hnode)]; [congruence|].
    unfold gtArgEntryByNode. rewrite !bind_assoc.
    rewrite (bind_run _ _ _ _ _ (getNode_run _ _ _ Hu)). rewrite Htab.
    destruct (list_find_elem_of (fun e0 => node e0 = old) tab en Hen Hnode) as [[i fp] Hfind].
    rewrite Hfind. rewrite mret_bind. unfold setArgEntryNode.
    apply modNode_ok. by eapply lookup_lt_Some.
Qed.

Lemma gtArgEntryByNode_state c n s r s' : gtArgEntryByNode c n s = Ok (r, s') -> s' = s.
Proof.
  unfold gtArgEntryByNode. intros H.
  apply bind_inv in H as (t & s1 & H1 & H). apply getNode_inv in H1 as [-> _].
  destruct (fgArgInfo _); [|done]. destruct (list_find _ _); [|done]. by injection H.
Qed.

Lemma Pres_kept_fixup {A} (f : GenTree -> A) c old new :
  (forall t v, f (set_gtFlags v t) = f t) ->
  (forall t v, f (set_gtCall (set_fgArgInfo v (gtCall t)) t) = f t) ->
  Pres (fieldKept f) (fgFixupArgTabEntryPtr c old new).
Proof.
  intros Hf Hc. unfold fgFixupArgTabEntryPtr, setFlags, setArgEntryNode.
  assert (forall n, Pres (fieldKept f) (gtArgEntryByNode c n)) as Hg.
  { intros n. apply Pres_kept_read. apply gtArgEntryByNode_state. }
  assert (forall x g, Pres (fieldKept f) (modNode x (fun t => set_gtFlags (g t) t))) as Hm1.
  { intros x g. by apply Pres_kept_modNode. }
  assert (forall x g, Pres (fieldKept f)
            (modNode x (fun t => set_gtCall (set_fgArgInfo (g t) (gtCall t)) t))) as Hm2.
  { intros x g. by apply Pres_kept_modNode. }
  pres_auto.
Qed.

Lemma Pres_length_fixup c old new : Pres sameLength (fgFixupArgTabEntryPtr c old new).
Proof.
  unfold fgFixupArgTabEntryPtr, setFlags, setArgEntryNode.
  assert (forall n, Pres sameLength (gtArgEntryByNode c n)) as Hg.
  { intros n s a s' H. apply gtArgEntryByNode_state in H as ->. done. }
  pres_auto.
Qed.

(** ** Flags of the ancestors *)

Lemma lor_call_effects_twice f c e :
  Z.lor (Z.lor (Z.lor (Z.lor f c) e) c) e = Z.lor (Z.lor f c) e.
Proof. bitblast. Qed.

Lemma propagateCallFlags_spec call c ancestors : forall s,
  nodes s !! call = Some c -> call ∉ ancestors ->
  (forall x, x ∈ ancestors -> x < length (nodes s)) ->
  exists s',
    propagateCallFlags call ancestors s = Ok (tt, s')
    /\ forall x t, nodes s !! x = Some t ->
         nodes s' !! x
         = Some (if decide (x ∈ ancestors)
                 then set_gtFlags (Z.lor (Z.lor (gtFlags t) GTF_CALL)
                                     (Z.land (gtFlags c) GTF_ALL_EFFECT)) t
                 else t).
Proof.
  induction ancestors as [|a rest IH]; intros s Hc Hnot Hlt; cbn [propagateCallFlags].
  { exists s. split; [done|]. intros x t Ht. by rewrite decide_False by apply not_elem_of_nil. }
  apply not_elem_of_cons in Hnot as [Hca Hnot].
  destruct (lookup_lt_is_Some_2 _ _ (Hlt a (list_elem_of_here _ _))) as [ta Hta].
  rewrite (bind_run _ _ _ _ _ (setFlags_run _ _ _ _ Hta)).
  set (s1 := set_nodes _ s).
  assert (nodes s1 !! call = Some c) as Hc1.
  { unfold s1. simpl. by rewrite list_lookup_insert_ne by done. }
  rewrite (bind_run _ _ _ _ _ (getNode_run _ _ _ Hc1)).
  assert (nodes s1 !! a = Some (set_gtFlags (Z.lor (gtFlags ta) GTF_CALL) ta)) as Ha1.
  { unfold s1. simpl. by eapply lookup_set_same. }
  rewrite (bind_run _ _ _ _ _ (setFlags_run _ _ _ _ Ha1)).
  set (s2 := set_nodes _ s1).
  destruct (IH s2) as (s' & Hrun & Hspec).
  { unfold s2, s1. simpl. by rewrite !list_lookup_insert_ne by done. }
  { done. }
  { intros x Hx. unfold s2, s1. simpl. rewrite !length_insert.
    by apply Hlt, list_elem_of_further. }
  exists s'. split; [exact Hrun|]. intros x t Ht.
  destruct (decide (x = a)) as [->|Hxa].
  - rewrite Hta in Ht. injection Ht as <-.
    rewrite (Hspec a _ ltac:(unfold s2; simpl; eapply lookup_set_same; exact Ha1)).
    rewrite (decide_True (P := a ∈ a :: rest)) by apply list_elem_of_here.
    destruct (decide (a ∈ rest)); [|done]. simpl.
    f_equal. unfold set_gtFlags. simpl. f_equal. apply lor_call_effects_twice.
  - rewrite (Hspec x t).
    + destruct (decide (x ∈ rest)) as [Hin|Hin].
      * by rewrite (decide_True (P := x ∈ a :: rest)) by (by apply list_elem_of_further).
      * rewrite (decide_False (P := x ∈ a :: rest)); [done|].
        intros Hx. by apply elem_of_cons in Hx as [?|?].
    + unfold s2, s1. simpl. by rewrite !list_lookup_insert_ne by done.
Qed.

(** ** Splicing the call into the statement *)

Lemma fieldKept_via {A B} (core : GenTree -> B) (f : GenTree -> A) s s' :
  (forall t t', core t' = core t -> f t' = f t) ->
  fieldKept core s s' -> fieldKept f s s'.
Proof.
  intros Hf H x t Ht. destruct (H _ _ Ht) as (t' & Ht' & E). exists t'.
  split; [done|by apply Hf].
Qed.

Lemma detached_fields t t' :
  detached t' = detached t ->
  gtOper t' = gtOper t /\ gtType t' = gtType t /\ gtFlags t' = gtFlags t
  /\ gtOp1 t' = gtOp1 t /\ gtCall t' = gtCall t
  /\ orderShape t' = orderShape t.
Proof.
  intros H.
  pose proof (f_equal gtOper H) as H1. pose proof (f_equal gtType H) as H2.
  pose proof (f_equal gtFlags H) as H3. pose proof (f_equal gtOp1 H) as H4.
  pose proof (f_equal gtCall H) as H5. pose proof (f_equal gtOp2 H) as H6.
  pose proof (f_equal gtDynamicSize H) as H7.
  pose proof (f_equal (fun t => gtStmtExpr (gtStmt t)) H) as H8.
  simpl in *. unfold orderShape. by rewrite H1, H3, H4, H5, H6, H7, H8.
Qed.

Lemma unflagged_fields t t' :
  unflagged t' = unflagged t ->
  gtOper t' = gtOper t /\ gtType t' = gtType t /\ gtStmt t' = gtStmt t
  /\ gtCallMethHnd (gtCall t') = gtCallMethHnd (gtCall t)
  /\ (hasFlag (gtFlags t') GTF_REVERSE_OPS = hasFlag (gtFlags t) GTF_REVERSE_OPS ->
      orderShape t' = orderShape t).
Proof.
  intros H.
  pose proof (f_equal gtOper H) as H1. pose proof (f_equal gtType H) as H2.
  pose proof (f_equal gtStmt H) as H3. pose proof (f_equal gtOp1 H) as H4.
  pose proof (f_equal (fun t => gtCallMethHnd (gtCall t)) H) as H5.
  pose proof (f_equal gtOp2 H) as H6. pose proof (f_equal gtDynamicSize H) as H7.
  pose proof (f_equal (fun t => gtCallObjp (gtCall t)) H) as H8.
  pose proof (f_equal (fun t => gtCallArgs (gtCall t)) H) as H9.
  pose proof (f_equal (fun t => gtCallLateArgs (gtCall t)) H) as H10.
  simpl in *. repeat split; try done.
  intros Hr. unfold orderShape. by rewrite H1, Hr, H3, H4, H6, H7, H8, H9, H10.
Qed.

Lemma orderShape_edge e t t' : orderShape t' = orderShape t -> edgeGet e t' = edgeGet e t.
Proof. intros [= _ _ H1 H2 H3 H4 H5 H6 H7]. by destruct e. Qed.

Lemma orderShape_oper t t' : orderShape t' = orderShape t -> gtOper t' = gtOper t.
Proof. by intros [= H _]. Qed.

(** The argument-table update touches the table of the call [c] only. *)
Lemma fgFixupArgTabEntryPtr_other s c old new s' x t :
  fgFixupArgTabEntryPtr c old new s = Ok (tt, s') ->
  x <> c -> nodes s !! x = Some t ->
  exists t', nodes s' !! x = Some t' /\ gtCall t' = gtCall t.
Proof.
  unfold fgFixupArgTabEntryPtr. intros H Hx Ht.
  apply bind_inv in H as (o & s1 & H1 & H). apply getNode_inv in H1 as [-> _].
  destruct (hasFlag (gtFlags o) GTF_LATE_ARG).
  - eapply (Pres_kept_modNode gtCall); [|exact H|exact Ht]. done.
  - apply bind_inv in H as (fp & s1 & H1 & H). apply gtArgEntryByNode_state in H1 as ->.
    apply modNode_inv in H as (tc & Htc & ->). exists t. simpl.
    by rewrite list_lookup_insert_ne by done.
Qed.

Lemma Pres_length_propagate call ancestors : Pres sameLength (propagateCallFlags call ancestors).
Proof. induction ancestors as [|a rest IH]; cbn [propagateCallFlags]; pres_auto. Qed.

Lemma hasFlag_rev_late f :
  Z.land GTF_LATE_ARG GTF_REVERSE_OPS = 0%Z ->
  hasFlag (Z.lor f GTF_LATE_ARG) GTF_REVERSE_OPS = hasFlag f GTF_REVERSE_OPS.
Proof. intros H. apply hasFlag_land. by apply set_mask_other. Qed.

Lemma hasFlag_rev_call f cf :
  Z.land GTF_CALL GTF_REVERSE_OPS = 0%Z -> Z.land GTF_ALL_EFFECT GTF_REVERSE_OPS = 0%Z ->
  hasFlag (Z.lor (Z.lor f GTF_CALL) (Z.land cf GTF_ALL_EFFECT)) GTF_REVERSE_OPS
  = hasFlag f GTF_REVERSE_OPS.
Proof.
  intros H1 H2. apply hasFlag_land.
  rewrite set_sub_mask_other by done. by apply set_mask_other.
Qed.

(** The tail of [RewriteNodeAsCall], from the re-sequencing of the tree of
    the call: it returns; apart from links, flags, argument tables and the
    first node recorded in [root], the nodes are as before. *)
Lemma splice_call s call cn prevN nextN root tree tn ancestors pc :
  Z.land GTF_LATE_ARG GTF_REVERSE_OPS = 0%Z ->
  Z.land GTF_CALL GTF_REVERSE_OPS = 0%Z ->
  Z.land GTF_ALL_EFFECT GTF_REVERSE_OPS = 0%Z ->
  nodes s !! call = Some cn -> nodes s !! tree = Some tn ->
  (forall p, prevN = Some p -> p < length (nodes s)) ->
  (forall p, nextN = Some p -> p < length (nodes s)) ->
  root < length (nodes s) ->
  (forall x, x ∈ ancestors -> x < length (nodes s)) -> call ∉ ancestors ->
  isNodeCallArg_loop ancestors s = Ok (pc, s) ->
  (forall c, pc = Some c ->
     c <> call
     /\ exists u, nodes s !! c = Some u
          /\ (hasFlag (gtFlags tn) GTF_LATE_ARG = true
              \/ exists tab, fgArgInfo (gtCall u) = Some tab
                             /\ exists e, e ∈ tab /\ node e = tree)) ->
  exists s',
    (fgSetTreeSeq call prevN ;;
     match prevN with
     | Some prev =>
         first ← fgGetFirstNode call ;
         setPrev first (Some prev) ;;
         setNext prev (Some first)
     | None =>
         first ← fgGetFirstNode call ;
         modNode root (fun t => set_gtStmt (set_gtStmtList (Some first) (gtStmt t)) t)
     end ;;
     match nextN with
     | Some next =>
         setNext call (Some next) ;;
         setPrev next (Some call)
     | None => mret tt
     end ;;
     fgFixupIfCallArg (tree :: ancestors) tree call ;;
     propagateCallFlags call ancestors ;;
     mret (call :: ancestors)) s = Ok (call :: ancestors, s')
    /\ sameLength s s'
    /\ fieldKept orderShape s s'
    /\ fieldKept (fun t => (gtType t, gtCallMethHnd (gtCall t))) s s'
    /\ (exists c', nodes s' !! call = Some c'
                   /\ fgArgInfo (gtCall c') = fgArgInfo (gtCall cn))
    /\ (forall x, x ∈ ancestors ->
          flagsOf s' x = Z.lor (Z.lor (flagsOf s x) GTF_CALL)
                               (Z.land (flagsOf s' call) GTF_ALL_EFFECT))
    /\ (prevN = None ->
        exists r first, nodes s' !! root = Some r
                        /\ gtStmtList (gtStmt r) = Some first
                        /\ fgGetFirstNode call s' = Ok (first, s')).
Proof.
  intros Hlr Hcr Her Hcall Htree Hprev Hnext Hroot Hanc Hnotin Hpc Hfix.
  assert (call < length (nodes s)) as Hclt by (by eapply lookup_lt_Some).
  (* the tree of the call is put in execution order *)
  assert (exists s1, fgSetTreeSeq call prevN s = Ok (tt, s1)) as (s1 & Hrun1).
  { unfold fgSetTreeSeq. rewrite (bind_run (query nodes) _ s (nodes s) s eq_refl).
    apply linkSeq_ok; [|done]. intros x Hx. by eapply treeSeq_lt. }
  assert (fieldKept detached s s1 /\ sameLength s s1) as [Hk1 Hl1].
  { unfold fgSetTreeSeq in Hrun1.
    rewrite (bind_run (query nodes) _ s (nodes s) s eq_refl) in Hrun1.
    split; [|by eapply Pres_length_linkSeq].
    by eapply (Pres_kept_linkSeq detached). }
  rewrite (bind_run _ _ _ _ _ Hrun1).
  set (first := default call (head (treeSeq (S (length (nodes s1))) (nodes s1) call))).
  assert (first < length (nodes s1)) as Hflt.
  { apply fgGetFirstNode_lt. by rewrite Hl1. }
  (* the first node of the tree is linked to what precedes it *)
  assert (exists s2,
            match prevN with
            | Some prev =>
                first ← fgGetFirstNode call ;
                setPrev first (Some prev) ;;
                setNext prev (Some first)
            | None =>
                first ← fgGetFirstNode call ;
                modNode root
                  (fun t => set_gtStmt (set_gtStmtList (Some first) (gtStmt t)) t)
            end s1 = Ok (tt, s2)
            /\ fieldKept detached s1 s2 /\ sameLength s1 s2
            /\ (prevN = None ->
                exists r, nodes s2 !! root = Some r
                          /\ gtStmtList (gtStmt r) = Some first))
    as (s2 & Hrun2 & Hk2 & Hl2 & Hfirst2).
  { destruct prevN as [prev|].
    - rewrite (bind_run _ _ _ _ _ (fgGetFirstNode_run call s1)). fold first.
      destruct (modNode_ok first (set_gtPrev (Some prev)) s1 Hflt) as [sa Ha].
      unfold setPrev at 1. rewrite (bind_run _ _ _ _ _ Ha).
      pose proof (Pres_length_modNode _ _ _ _ _ Ha) as Hla.
      destruct (modNode_ok prev (set_gtNext (Some first)) sa) as [sb Hb].
      { rewrite Hla, Hl1. by apply Hprev. }
      exists sb. split; [exact Hb|]. split; [|split; [|done]].
      + eapply fieldKept_trans; [by eapply (Pres_kept_modNode detached); [|exact Ha]|].
        by eapply (Pres_kept_modNode detached); [|exact Hb].
      + eapply sameLength_trans; [exact Hla|]. by eapply Pres_length_modNode.
    - rewrite (bind_run _ _ _ _ _ (fgGetFirstNode_run call s1)). fold first.
      assert (root < length (nodes s1)) as Hr1 by (by rewrite Hl1).
      destruct (lookup_lt_is_Some_2 _ _ Hr1) as [r Hr].
      pose proof (modNode_run s1 root
        (fun t => set_gtStmt (set_gtStmtList (Some first) (gtStmt t)) t) r Hr) as Hm.
      eexists. split; [exact Hm|]. split; [|split].
      + by eapply (Pres_kept_modNode detached); [|exact Hm].
      + by eapply Pres_length_modNode.
      + intros _. eexists. split; [simpl; by eapply lookup_set_same|done]. }
  rewrite (bind_run _ _ _ _ _ Hrun2).
  (* the call is linked to what follows *)
  assert (exists s3,
            match nextN with
            | Some next => setNext call (Some next) ;; setPrev next (Some call)
            | None => mret tt
            end s2 = Ok (tt, s3)
            /\ fieldKept detached s2 s3 /\ fieldKept gtStmt s2 s3 /\ sameLength s2 s3)
    as (s3 & Hrun3 & Hk3 & Hst3 & Hl3).
  { destruct nextN as [next|].
    - destruct (modNode_ok call (set_gtNext (Some next)) s2) as [sa Ha].
      { by rewrite Hl2, Hl1. }
      unfold setNext at 1. rewrite (bind_run _ _ _ _ _ Ha).
      pose proof (Pres_length_modNode _ _ _ _ _ Ha) as Hla.
      destruct (modNode_ok next (set_gtPrev (Some call)) sa) as [sb Hb].
      { rewrite Hla, Hl2, Hl1. by apply Hnext. }
      exists sb. split; [exact Hb|]. split; [|split].
      + eapply fieldKept_trans; [by eapply (Pres_kept_modNode detached); [|exact Ha]|].
        by eapply (Pres_kept_modNode detached); [|exact Hb].
      + eapply fieldKept_trans; [by eapply (Pres_kept_modNode gtStmt); [|exact Ha]|].
        by eapply (Pres_kept_modNode gtStmt); [|exact Hb].
      + eapply sameLength_trans; [exact Hla|]. by eapply Pres_length_modNode.
    - exists s2. split; [done|]. split; [apply fieldKept_refl|].
      split; [apply fieldKept_refl|done]. }
  rewrite (bind_run _ _ _ _ _ Hrun3).
  pose proof (fieldKept_trans _ _ _ _ Hk1 (fieldKept_trans _ _ _ _ Hk2 Hk3)) as Hk13.
  assert (sameLength s s3) as Hl13.
  { eapply sameLength_trans; [exact Hl1|]. eapply sameLength_trans; [exact Hl2|done]. }
  (* the argument table of the enclosing call *)
  assert (isNodeCallArg_loop ancestors s3 = Ok (pc, s3)) as Hpc3.
  { eapply isNodeCallArg_loop_kept; [| |exact Hpc].
    - eapply fieldKept_via; [|exact Hk13]. intros t t' E. by apply detached_fields.
    - intros x t _ Ht _. destruct (Hk13 _ _ Ht) as (t' & Ht' & E).
      exists t'. split; [done|]. by apply detached_fields. }
  destruct (Hk13 _ _ Hcall) as (cn3 & Hcall3 & Ecn3).
  destruct (Hk13 _ _ Htree) as (tn3 & Htree3 & Etn3).
  assert (exists s4,
            fgFixupIfCallArg (tree :: ancestors) tree call s3 = Ok (tt, s4)
            /\ fieldKept unflagged s3 s4 /\ sameLength s3 s4
            /\ (forall x t, nodes s3 !! x = Some t ->
                  exists t', nodes s4 !! x = Some t'
                    /\ (x <> call -> gtFlags t' = gtFlags t)
                    /\ hasFlag (gtFlags t') GTF_REVERSE_OPS
                       = hasFlag (gtFlags t) GTF_REVERSE_OPS)
            /\ exists c4, nodes s4 !! call = Some c4 /\ gtCall c4 = gtCall cn3)
    as (s4 & Hrun4 & Hk4 & Hl4 & Hf4 & c4 & Hcall4 & Ec4).
  { unfold fgFixupIfCallArg, isNodeCallArg. cbn [tail].
    rewrite (bind_run _ _ _ _ _ Hpc3).
    destruct pc as [c|].
    - destruct (Hfix c eq_refl) as (Hcc & u & Hu & Hfx).
      destruct (Hk13 _ _ Hu) as (u3 & Hu3 & Eu3).
      destruct (fgFixupArgTabEntryPtr_ok s3 c u3 tree tn3 call Hu3 Htree3) as [s4 Hrun4].
      { by rewrite Hl13. }
      { destruct (detached_fields _ _ Eu3) as (_ & _ & _ & _ & -> & _).
        by destruct (detached_fields _ _ Etn3) as (_ & _ & -> & _). }
      exists s4. split; [exact Hrun4|]. split; [|split; [|split]].
      + by eapply (Pres_kept_fixup unflagged); [| |exact Hrun4].
      + by eapply Pres_length_fixup.
      + intros x t Ht.
        destruct (fgFixupArgTabEntryPtr_inv _ _ _ _ _ Hrun4) as (_ & _ & _ & Hn).
        destruct (Hn _ _ Ht) as (t' & Ht' & _ & _ & _ & _ & Hfl & _).
        exists t'. split; [done|].
        destruct Hfl as [->|(-> & -> & _)]; [done|].
        split; [done|]. by apply hasFlag_rev_late.
      + by eapply fgFixupArgTabEntryPtr_other.
    - exists s3. split; [done|]. split; [apply fieldKept_refl|]. split; [done|].
      split; [|by exists cn3]. intros x t Ht. by exists t. }
  rewrite (bind_run _ _ _ _ _ Hrun4).
  (* the flags of the ancestors *)
  destruct (propagateCallFlags_spec call c4 ancestors s4 Hcall4 Hnotin)
    as (s5 & Hrun5 & Hspec5).
  { intros x Hx. rewrite Hl4, Hl13. by apply Hanc. }
  rewrite (bind_run _ _ _ _ _ Hrun5). rewrite mret_run.
  pose proof (Pres_length_propagate _ _ _ _ _ Hrun5) as Hl5.
  assert (fieldKept orderShape s1 s5) as Hsh15.
  { intros x t Ht.
    destruct (fieldKept_trans _ _ _ _ Hk2 Hk3 _ _ Ht) as (t3 & Ht3 & E3).
    destruct (Hk4 _ _ Ht3) as (t4 & Ht4 & E4).
    destruct (Hf4 _ _ Ht3) as (t4' & Ht4' & _ & Hrev4).
    rewrite Ht4 in Ht4'. injection Ht4' as <-.
    rewrite (Hspec5 _ _ Ht4). eexists. split; [reflexivity|].
    destruct (detached_fields _ _ E3) as (_ & _ & _ & _ & _ & <-).
    destruct (unflagged_fields _ _ E4) as (_ & _ & _ & _ & Hsh). rewrite <- (Hsh Hrev4).
    destruct (decide (x ∈ ancestors)); [|done].
    unfold orderShape. simpl. by rewrite hasFlag_rev_call. }
  assert (fieldKept orderShape s s5) as Hsh.
  { eapply fieldKept_trans; [|exact Hsh15].
    eapply fieldKept_via; [|exact Hk1]. intros t t' E. by apply detached_fields. }
  exists s5. split; [done|]. split.
  { eapply sameLength_trans; [exact Hl13|]. eapply sameLength_trans; [exact Hl4|done]. }
  split; [exact Hsh|]. split.
  { intros x t Ht. destruct (Hk13 _ _ Ht) as (t3 & Ht3 & E3).
    destruct (Hk4 _ _ Ht3) as (t4 & Ht4 & E4).
    rewrite (Hspec5 _ _ Ht4). eexists. split; [reflexivity|].
    destruct (detached_fields _ _ E3) as (_ & <- & _ & _ & <- & _).
    destruct (unflagged_fields _ _ E4) as (_ & <- & _ & <- & _).
    by destruct (decide (x ∈ ancestors)). }
  split.
  { rewrite (Hspec5 _ _ Hcall4). rewrite decide_False by done.
    exists c4. split; [done|]. rewrite Ec4.
    by destruct (detached_fields _ _ Ecn3) as (_ & _ & _ & _ & -> & _). }
  split.
  { intros x Hx.
    destruct (lookup_lt_is_Some_2 _ _ (Hanc x Hx)) as [t Ht].
    destruct (Hk13 _ _ Ht) as (t3 & Ht3 & E3).
    destruct (Hf4 _ _ Ht3) as (t4 & Ht4 & Hfl4 & _).
    assert (x <> call) as Hxc by (intros ->; done).
    unfold flagsOf. rewrite (Hspec5 _ _ Ht4), (Hspec5 _ _ Hcall4), Ht.
    rewrite decide_True by done. rewrite decide_False by done. simpl.
    rewrite (Hfl4 Hxc). by destruct (detached_fields _ _ E3) as (_ & _ & -> & _). }
  intros Hnone. destruct (Hfirst2 Hnone) as (r & Hr & Hlist).
  destruct (Hst3 _ _ Hr) as (r3 & Hr3 & E3).
  destruct (Hk4 _ _ Hr3) as (r4 & Hr4 & E4).
  exists (if decide (root ∈ ancestors)
          then set_gtFlags (Z.lor (Z.lor (gtFlags r4) GTF_CALL)
                              (Z.land (gtFlags c4) GTF_ALL_EFFECT)) r4
          else r4), first.
  split; [by apply Hspec5|]. split.
  { destruct (unflagged_fields _ _ E4) as (_ & _ & E & _).
    destruct (decide (root ∈ ancestors)); simpl; by rewrite E, E3. }
  apply fgGetFirstNode_kept; [exact Hsh15|].
  eapply sameLength_trans; [exact Hl2|]. eapply sameLength_trans; [exact Hl3|].
  eapply sameLength_trans; [exact Hl4|done].
Qed.

(** ** Intrinsics rewritten as user calls *)

Lemma effectsOf_ok p s :
  (forall o, p = Some o -> o < length (nodes s)) ->
  exists f, effectsOf p s = Ok (f, s).
Proof.
  intros Hp. destruct p as [o|]; [|by exists 0%Z].
  destruct (lookup_lt_is_Some_2 _ _ (Hp o eq_refl)) as [t Ht].
  eexists. by apply effectsOf_run.
Qed.

Lemma newOperNode_ok oper type op1 op2 s :
  (forall o, op1 = Some o -> o < length (nodes s)) ->
  (forall o, op2 = Some o -> o < length (nodes s)) ->
  exists f,
    newOperNode oper type op1 op2 id s
    = Ok (length (nodes s),
          set_nodes (nodes s ++ [set_gtFlags f (newNode oper type op1 op2)]) s).
Proof.
  intros H1 H2. unfold newOperNode.
  destruct (effectsOf_ok _ _ H1) as [f1 Hf1]. destruct (effectsOf_ok _ _ H2) as [f2 Hf2].
  rewrite (bind_run _ _ _ _ _ Hf1), (bind_run _ _ _ _ _ Hf2). by eexists.
Qed.

(** The argument list built from the operands of the intrinsic. *)
Lemma newArgList_spec s t :
  (forall o, gtOp1 t = Some o -> o < length (nodes s)) ->
  (forall o, gtOp2 t = Some o -> o < length (nodes s)) ->
  exists args ex,
    match gtOp2 t with
    | None => gtNewArgList1 (gtOp1 t)
    | Some _ => gtNewArgList2 (gtOp1 t) (gtOp2 t)
    end s = Ok (args, set_nodes (nodes s ++ ex) s)
    /\ length (nodes s) <= args /\ args < length (nodes s ++ ex)
    /\ Forall (fun nd => gtPrev nd = None /\ gtNext nd = None) ex
    /\ forall rest fuel, length ex < fuel ->
         listElems fuel (nodes s ++ ex ++ rest) (Some args)
         = option_list (gtOp1 t) ++ option_list (gtOp2 t).
Proof.
  intros H1 H2. destruct (gtOp2 t) as [op2|] eqn:E2.
  - unfold gtNewArgList2.
    destruct (newOperNode_ok GT_LIST TYP_VOID (Some op2) None s) as [fa Ha]; [done|done|].
    rewrite (bind_run _ _ _ _ _ Ha).
    set (sa := set_nodes _ s).
    destruct (newOperNode_ok GT_LIST TYP_VOID (gtOp1 t) (Some (length (nodes s))) sa)
      as [fb Hb].
    { intros o Ho. unfold sa. simpl. rewrite length_app. specialize (H1 o Ho). lia. }
    { intros o [= <-]. unfold sa. simpl. rewrite length_app. simpl. lia. }
    rewrite Hb. unfold sa. simpl. rewrite <- app_assoc. simpl.
    eexists _, [_; _]. split; [reflexivity|]. rewrite !length_app. simpl.
    split; [lia|]. split; [lia|]. split; [by repeat constructor|].
    intros rest fuel Hfuel. destruct fuel as [|[|fuel]]; [lia|lia|]. simpl.
    rewrite lookup_app_r by lia.
    replace (length (nodes s) + 1 - length (nodes s)) with 1 by lia. simpl.
    rewrite lookup_app_r by lia. rewrite Nat.sub_diag. simpl.
    by destruct fuel.
  - unfold gtNewArgList1.
    destruct (newOperNode_ok GT_LIST TYP_VOID (gtOp1 t) None s) as [fa Ha]; [done|done|].
    rewrite Ha. eexists _, [_]. split; [reflexivity|]. rewrite !length_app. simpl.
    split; [lia|]. split; [lia|]. split; [by repeat constructor|].
    intros rest fuel Hfuel. destruct fuel as [|fuel]; [lia|]. simpl.
    rewrite lookup_app_r by lia. rewrite Nat.sub_diag. simpl.
    by destruct fuel.
Qed.

(** An intrinsic that the target does not implement becomes a user call.
    [tree], the intrinsic, is the node of the slot [use] and the top of the
    traversal stack [tree :: ancestors]; no no-op wrapper on the stack is
    the consumer of the intrinsic ([ancestorsOk]), and when the intrinsic is
    an argument of a call the table of that call can be updated
    ([callArgFixable]).  The rewrite returns; the slot holds a new GT_CALL
    node for the method of the intrinsic, whose argument table lists the
    operands of the intrinsic, first operand first; every ancestor has
    GTF_CALL and the side-effect flags of the call added to its flags; the
    call replaces the intrinsic on the stack; and when the first node of the
    tree of the intrinsic has no predecessor, the first node recorded in the
    statement [root] is the first node of the tree of the call. *)
Theorem intrinsic_as_user_call use root tree ancestors s t :
  Z.land GTF_LATE_ARG GTF_REVERSE_OPS = 0%Z ->
  Z.land GTF_CALL GTF_REVERSE_OPS = 0%Z ->
  Z.land GTF_ALL_EFFECT GTF_REVERSE_OPS = 0%Z ->
  readEdge use s = Ok (Some tree, s) -> nodes s !! tree = Some t ->
  (forall o, gtOp1 t = Some o \/ gtOp2 t = Some o -> is_Some (nodes s !! o)) ->
  linksExist s -> is_Some (nodes s !! root) ->
  ancestorsOk s use ancestors -> callArgFixable s (tree :: ancestors) tree ->
  exists s' call argNodes,
    RewriteIntrinsicAsUserCall use (tree :: ancestors) root s
    = Ok (call :: ancestors, s')
    /\ call = length (nodes s) + length argNodes
    /\ readEdge use s' = Ok (Some call, s')
    /\ (exists c, nodes s' !! call = Some c
          /\ gtOper c = GT_CALL /\ gtType c = gtType t
          /\ gtCallMethHnd (gtCall c) = gtMethodHandle (gtIntrinsic t)
          /\ fgArgInfo (gtCall c)
             = Some (mkArgTable (option_list (gtOp1 t) ++ option_list (gtOp2 t)) 0))
    /\ (forall x, x ∈ ancestors ->
          flagsOf s' x = Z.lor (Z.lor (flagsOf s x) GTF_CALL)
                               (Z.land (flagsOf s' call) GTF_ALL_EFFECT))
    /\ (forall tfn tf,
          fgGetFirstNode tree (set_nodes (nodes s ++ argNodes) s)
          = Ok (tfn, set_nodes (nodes s ++ argNodes) s) ->
          (nodes s ++ argNodes) !! tfn = Some tf -> gtPrev tf = None ->
          exists r first, nodes s' !! root = Some r
                          /\ gtStmtList (gtStmt r) = Some first
                          /\ fgGetFirstNode call s' = Ok (first, s')).
Proof.
  intros Hlr Hcr Her Hread Ht Hops Hlinks [r0 Hroot] Hanc Hfixable.
  destruct (readEdge_inv _ _ _ _ Hread) as (_ & o & Ho & Hget).
  unfold RewriteIntrinsicAsUserCall.
  rewrite (bind_run _ _ _ _ _ Hread). cbn [deref]. rewrite mret_bind.
  rewrite (bind_run _ _ _ _ _ (getNode_run _ _ _ Ht)).
  destruct (newArgList_spec s t) as (args & ex & Hargs & Hge & Hlt & Hex & Hlist).
  { intros o1 H1. apply lookup_lt_is_Some. apply Hops. by left. }
  { intros o2 H2. apply lookup_lt_is_Some. apply Hops. by right. }
  rewrite (bind_run _ _ _ _ _ Hargs).
  set (s1 := set_nodes (nodes s ++ ex) s).
  assert (forall x tx, nodes s !! x = Some tx -> nodes s1 !! x = Some tx) as Hold1.
  { intros x tx Hx. unfold s1. simpl. by apply lookup_app_l_Some. }
  unfold RewriteNodeAsCall.
  rewrite (bind_run _ _ _ _ _ (readEdge_run s1 use o (Hold1 _ _ Ho))). rewrite Hget.
  cbn [deref]. rewrite mret_bind.
  rewrite (bind_run _ _ _ _ _ (fgGetFirstNode_run tree s1)).
  set (tfn := default tree (head (treeSeq (S (length (nodes s1))) (nodes s1) tree))).
  assert (tfn < length (nodes s1)) as Htfn.
  { apply fgGetFirstNode_lt. eapply lookup_lt_Some. by apply Hold1. }
  destruct (lookup_lt_is_Some_2 _ _ Htfn) as [tf Htf].
  rewrite (bind_run _ _ _ _ _ (getNode_run _ _ _ Htf)).
  rewrite (bind_run _ _ _ _ _ (getNode_run _ _ _ (Hold1 _ _ Ht))).
  destruct (lookup_lt_is_Some_2 _ _ Hlt) as [la Hla].
  unfold gtNewCallNode. rewrite bind_assoc.
  rewrite (bind_run _ _ _ _ _ (effectsOf_run s1 args la Hla)).
  match goal with
  | |- context [allocNode ?c] =>
      set (cn := c); rewrite (bind_run (allocNode cn) _ s1 _ _ eq_refl)
  end.
  set (call := length (nodes s1)).
  set (s2 := set_nodes (nodes s1 ++ [cn]) s1).
  assert (nodes s2 !! call = Some cn) as Hc2 by apply lookup_snoc_new.
  unfold fgMorphArgs. rewrite !bind_assoc.
  rewrite (bind_run _ _ _ _ _ (getNode_run _ _ _ Hc2)).
  rewrite !bind_assoc.
  rewrite (bind_run (query nodes) _ s2 (nodes s2) s2 eq_refl).
  rewrite !bind_assoc.
  rewrite (bind_run _ _ _ _ _ (modNode_run _ _ _ _ Hc2)). rewrite mret_bind.
  assert (listElems (length (nodes s2)) (nodes s2) (gtCallArgs (gtCall cn))
          = option_list (gtOp1 t) ++ option_list (gtOp2 t)) as ->.
  { unfold s2, s1. simpl. rewrite <- app_assoc. apply Hlist.
    rewrite !length_app. simpl. lia. }
  set (cn' := set_gtCall
                (set_fgArgInfo
                   (Some (mkArgTable (option_list (gtOp1 t) ++ option_list (gtOp2 t)) 0))
                   (gtCall cn)) cn).
  set (s3 := set_nodes (<[call := cn']> (nodes s2)) s2).
  assert (length (nodes s) <= call) as Hcge.
  { unfold call, s1. simpl. rewrite length_app. lia. }
  assert (forall x tx, nodes s !! x = Some tx -> nodes s3 !! x = Some tx) as Hold3.
  { intros x tx Hx. unfold s3, s2. simpl.
    rewrite list_lookup_insert_ne by (apply lookup_lt_Some in Hx; lia).
    apply lookup_app_l_Some. by apply Hold1. }
  unfold writeEdge. rewrite (bind_run _ _ _ _ _ (modNode_run _ _ _ _ (Hold3 _ _ Ho))).
  set (s4 := set_nodes (<[edgeOwner use := edgeSet use (Some call) o]> (nodes s3)) s3).
  assert (forall x tx, nodes s !! x = Some tx ->
            nodes s4 !! x = Some (if decide (x = edgeOwner use)
                                  then edgeSet use (Some call) tx else tx)) as Hold4.
  { intros x tx Hx. unfold s4. simpl. destruct (decide (x = edgeOwner use)) as [->|Hne].
    - rewrite Ho in Hx. injection Hx as <-. eapply lookup_set_same. by apply Hold3.
    - rewrite list_lookup_insert_ne by done. by apply Hold3. }
  assert (length (nodes s4) = S call) as Hlen4.
  { unfold s4, s3, s2, call. simpl. rewrite !length_insert, length_app. simpl. lia. }
  assert (nodes s4 !! call = Some cn') as Hcall4.
  { unfold s4. simpl.
    rewrite list_lookup_insert_ne by (apply lookup_lt_Some in Ho; lia).
    unfold s3. simpl. by eapply lookup_set_same. }
  assert (forall x, x < length (nodes s) -> x < length (nodes s4)) as Hlt4.
  { intros x Hx. rewrite Hlen4. lia. }
  set (tn := if decide (tree = edgeOwner use) then edgeSet use (Some call) t else t).
  assert (gtFlags tn = gtFlags t) as Htnf.
  { unfold tn. destruct (decide (tree = edgeOwner use)); [apply edgeSet_flags|done]. }
  (* the enclosing call, before and after *)
  destruct (isNodeCallArg_loop_total _ _ _ Hanc) as (pc & Hpc & Hpclt).
  assert (isNodeCallArg_loop ancestors s4 = Ok (pc, s4)) as Hpc4.
  { eapply isNodeCallArg_loop_kept; [| |exact Hpc].
    - intros x tx Hx. rewrite (Hold4 _ _ Hx). eexists. split; [reflexivity|].
      destruct (decide (x = edgeOwner use)); [apply edgeSet_oper|done].
    - intros x tx Hin Hx Hnop. rewrite (Hold4 _ _ Hx). eexists. split; [reflexivity|].
      unfold ancestorsOk in Hanc. rewrite Forall_forall in Hanc.
      destruct (Hanc x Hin) as (tx' & Hx' & Hn). rewrite Hx in Hx'. injection Hx' as <-.
      destruct (Hn Hnop) as [Hne _]. by rewrite decide_False by done. }
  destruct (splice_call s4 call cn' (gtPrev tf) (gtNext t) root tree tn ancestors pc
              Hlr Hcr Her Hcall4 (Hold4 _ _ Ht))
    as (s' & Hrun & Hl & Hsh & Htm & (c' & Hc' & Htab) & Hflags & Hfirst).
  { intros p Hp. destruct (decide (tfn < length (nodes s))) as [Hin|Hout].
    - destruct (lookup_lt_is_Some_2 _ _ Hin) as [tf0 Htf0].
      rewrite (Hold1 _ _ Htf0) in Htf. injection Htf as <-.
      apply Hlt4. apply lookup_lt_is_Some. eapply Hlinks; [exact Htf0|by left].
    - unfold s1 in Htf. simpl in Htf. rewrite lookup_app_r in Htf by lia.
      rewrite Forall_forall in Hex.
      destruct (Hex tf) as [Hp0 _]; [by eapply list_elem_of_lookup_2|]. congruence. }
  { intros p Hp. apply Hlt4. apply lookup_lt_is_Some. eapply Hlinks; [exact Ht|by right]. }
  { apply Hlt4. by eapply lookup_lt_Some. }
  { intros x Hx. apply Hlt4. unfold ancestorsOk in Hanc. rewrite Forall_forall in Hanc.
    destruct (Hanc x Hx) as (tx & Hx' & _). by eapply lookup_lt_Some. }
  { intros Hin. unfold ancestorsOk in Hanc. rewrite Forall_forall in Hanc.
    destruct (Hanc call Hin) as (tx & Hx' & _). apply lookup_lt_Some in Hx'. lia. }
  { exact Hpc4. }
  { intros c ->. specialize (Hpclt c eq_refl). split; [lia|].
    destruct (lookup_lt_is_Some_2 _ _ Hpclt) as [u Hu].
    eexists. split; [by apply Hold4|].
    rewrite Htnf.
    destruct (Hfixable c u Hpc Hu) as [Hlate|Hentry].
    - left. by rewrite (flagsOf_lookup _ _ _ Ht) in Hlate.
    - right. destruct (decide (c = edgeOwner use)); [by rewrite edgeSet_argInfo|done]. }
  cbn [tail]. exists s', call, ex.
  split; [exact Hrun|].
  split; [unfold call, s1; simpl; by rewrite length_app|].
  assert (nodes s4 !! edgeOwner use = Some (edgeSet use (Some call) o)) as Ho4.
  { rewrite (Hold4 _ _ Ho). by rewrite decide_True. }
  destruct (Hsh _ _ Ho4) as (o' & Ho' & Eo').
  split.
  { rewrite (readEdge_run _ _ _ Ho'). by rewrite (orderShape_edge _ _ _ Eo'), edgeGet_edgeSet. }
  split.
  { destruct (Hsh _ _ Hcall4) as (c2 & Hc2' & Ec2). rewrite Hc' in Hc2'. injection Hc2' as <-.
    destruct (Htm _ _ Hcall4) as (c3 & Hc3' & Ec3). rewrite Hc' in Hc3'. injection Hc3' as <-.
    exists c'. split; [done|]. split; [by rewrite (orderShape_oper _ _ Ec2)|].
    injection Ec3 as -> ->. rewrite Htab. done. }
  split.
  { intros x Hx. rewrite (Hflags x Hx). f_equal. f_equal.
    unfold ancestorsOk in Hanc. rewrite Forall_forall in Hanc.
    destruct (Hanc x Hx) as (tx & Hx' & _).
    rewrite (flagsOf_lookup _ _ _ Hx'), (flagsOf_lookup _ _ _ (Hold4 _ _ Hx')).
    destruct (decide (x = edgeOwner use)); [apply edgeSet_flags|done]. }
  intros tfn0 tf0 Hfn Htf0 Hp0. apply Hfirst.
  rewrite fgGetFirstNode_run in Hfn. injection Hfn as <-.
  fold s1 tfn in Htf0. change (nodes s1 !! tfn = Some tf0) in Htf0.
  rewrite Htf in Htf0. by injection Htf0 as ->.
Qed.

(** ** The computed checks are sound *)

Lemma segmentb_sound ns l : forall prev next,
  segmentb ns prev l next = true -> segment ns prev l next.
Proof.
  induction l as [|x l IH]; intros prev next H; [done|]. simpl in H |- *.
  apply andb_true_iff in H as [H1 H2].
  destruct (ns !! x) as [t|]; [|done].
  apply andb_true_iff in H1 as [Hp Hn].
  apply bool_decide_eq_true in Hp. apply bool_decide_eq_true in Hn.
  split; [by exists t|by apply IH].
Qed.

Lemma LinearOrderb_sound s l : LinearOrderb s l = true -> LinearOrder s l.
Proof.
  unfold LinearOrderb, LinearOrder, rangeIsb, rangeIs. intros H.
  apply andb_true_iff in H as [H Hr]. apply andb_true_iff in H as [Hnd Hseg].
  apply bool_decide_eq_true in Hnd. split; [done|].
  split; [by apply segmentb_sound|].
  destruct (m_block s) as [b|]; [|done]. destruct (fgBBs s !! b) as [bb|] eqn:Hbb; [|done].
  apply andb_true_iff in Hr as [Hf Hl].
  apply bool_decide_eq_true in Hf. apply bool_decide_eq_true in Hl.
  by exists b, bb.
Qed.

Lemma operandsExistb_sound ns l : operandsExistb ns l = true -> operandsExist ns l.
Proof.
  unfold operandsExistb, operandsExist. intros H x t o Hx Ht Ho.
  rewrite forallb_forall in H. apply list_elem_of_In in Hx. specialize (H x Hx).
  rewrite Ht in H. rewrite forallb_forall in H. apply list_elem_of_In in Ho.
  specialize (H o Ho). by apply bool_decide_eq_true in H.
Qed.

Lemma validLocalsb_sound s : validLocalsb s = true -> validLocals s.
Proof.
  unfold validLocalsb, validLocals. intros H n t Ht Hloc.
  rewrite forallb_forall in H.
  specialize (H t ltac:(apply list_elem_of_In; by eapply list_elem_of_lookup_2)).
  rewrite Hloc in H. simpl in H. by apply bool_decide_eq_true in H.
Qed.

Lemma linksExistb_sound s : linksExistb s = true -> linksExist s.
Proof.
  unfold linksExistb, linksExist. intros H x t p Ht Hp.
  rewrite forallb_forall in H.
  specialize (H t ltac:(apply list_elem_of_In; by eapply list_elem_of_lookup_2)).
  apply andb_true_iff in H as [H1 H2].
  destruct Hp as [Hp|Hp]; rewrite Hp in *; by apply bool_decide_eq_true in H1 || apply bool_decide_eq_true in H2.
Qed.

Lemma ancestorsOkb_sound s use ancestors :
  ancestorsOkb s use ancestors = true -> ancestorsOk s use ancestors.
Proof.
  unfold ancestorsOkb, ancestorsOk. intros H. rewrite forallb_forall in H.
  apply Forall_forall. intros x Hx. apply list_elem_of_In in Hx. specialize (H x Hx).
  destruct (nodes s !! x) as [tx|]; [|done]. exists tx. split; [done|].
  intros Hnop. rewrite bool_decide_eq_true_2 in H by done. simpl in H.
  apply andb_true_iff in H as [H1 H2].
  apply negb_true_iff, bool_decide_eq_false in H1. split; [done|].
  destruct (gtOp1 tx) as [o|]; [|done]. exists o. split; [done|].
  by apply bool_decide_eq_true in H2.
Qed.

(** * Further properties of the rationalizer *)

(** ** Form conversions, flag copy and the search for the enclosing call *)

(** The conversions stay within their classes, and the load form of a
    local address converts back to that address: [addrForm (loadForm k)]
    is [k] for the two local-address kinds and an abort for every other
    kind; what [storeForm], [addrForm] and [loadForm] return is a local
    store, a local address and a plain local read respectively, and where
    they return nothing the abort is fatal. *)
Theorem form_conversions_stay_in_class k :
  bindRes (loadForm k) addrForm
  = (if OperIsLocalAddr k then Ok k else Err NoWayAssert)
  /\ match storeForm k with
     | Ok k' => OperIsLocalStore k' = true /\ OperIsLocal k' = true
     | Err e => isFatal e = true
     end
  /\ match addrForm k with
     | Ok k' => OperIsLocalAddr k' = true /\ OperIsLocal k' = false
     | Err e => isFatal e = true
     end
  /\ match loadForm k with
     | Ok k' => OperIsLocalRead k' = true /\ isReadKind k' = true
     | Err e => isFatal e = true
     end.
Proof. destruct k; simpl; repeat split. Qed.

Lemma copy_mask_rest f v m :
  Z.land (Z.lor (Z.land f (Z.lnot m)) (Z.land v m)) (Z.lnot m) = Z.land f (Z.lnot m).
Proof. bitblast. Qed.

Lemma clear_mask_twice f m :
  Z.lor (Z.land f (Z.lnot m)) (Z.land (Z.land f (Z.lnot m)) m) = Z.land f (Z.lnot m).
Proof. bitblast. Qed.

(** [copyFlags dst src mask] changes the flag word of [dst] and nothing
    else.  The bits outside [mask] stay as they were; the bits inside
    [mask] become those of [src].  When [dst] and [src] are the same node,
    the masked bits are cleared before they are read, so the node loses
    them. *)
Theorem copyFlags_copies_masked_bits s dst src mask d sr :
  nodes s !! dst = Some d -> nodes s !! src = Some sr ->
  exists f,
    copyFlags dst src mask s
    = Ok (tt, set_nodes (<[dst := set_gtFlags f d]> (nodes s)) s)
    /\ Z.land f (Z.lnot mask) = Z.land (gtFlags d) (Z.lnot mask)
    /\ Z.land f mask = (if decide (dst = src) then 0%Z else Z.land (gtFlags sr) mask).
Proof.
  intros Hd Hs. unfold copyFlags.
  rewrite (bind_run _ _ _ _ _ (setFlags_run _ _ _ _ Hd)).
  destruct (decide (dst = src)) as [->|Hne].
  - rewrite Hd in Hs. injection Hs as <-.
    erewrite bind_run by (apply getNode_run; simpl; by eapply lookup_set_same).
    erewrite setFlags_run by (simpl; by eapply lookup_set_same).
    simpl. rewrite list_insert_insert_eq, clear_mask_twice.
    eexists. split; [reflexivity|]. split; [|apply clear_mask_same].
    rewrite <- Z.land_assoc. f_equal. apply Z.land_diag.
  - erewrite bind_run
      by (apply getNode_run; simpl; rewrite list_lookup_insert_ne by done; exact Hs).
    erewrite setFlags_run by (simpl; by eapply lookup_set_same).
    simpl. rewrite list_insert_insert_eq.
    eexists. split; [reflexivity|]. split; [apply copy_mask_rest|apply copy_mask_same].
Qed.

(** The search for the enclosing call never examines the current node (the
    top of the stack), looks past the list and placeholder ancestors, and
    stops at the first ancestor of another kind: the answer is that
    ancestor when it is a call, and no call when it is anything but a call
    or a no-op.  The state is left as it is. *)
Theorem isNodeCallArg_looks_past_scaffolding s cur scaffolding anc rest ta :
  Forall (fun x => exists t, nodes s !! x = Some t
                             /\ (gtOper t = GT_LIST \/ gtOper t = GT_ARGPLACE))
         scaffolding ->
  nodes s !! anc = Some ta ->
  gtOper ta <> GT_LIST -> gtOper ta <> GT_ARGPLACE -> gtOper ta <> GT_NOP ->
  isNodeCallArg (cur :: scaffolding ++ anc :: rest) s
  = Ok (if decide (gtOper ta = GT_CALL) then Some anc else None, s).
Proof.
  intros Hsc Ha Hl Hp Hn. unfold isNodeCallArg. cbn [tail].
  induction Hsc as [|x l (t & Ht & Hk) _ IH]; simpl.
  - rewrite (bind_run _ _ _ _ _ (getNode_run _ _ _ Ha)).
    destruct (decide (gtOper ta = GT_CALL)) as [->|Hc]; [done|].
    by destruct (gtOper ta).
  - rewrite (bind_run _ _ _ _ _ (getNode_run _ _ _ Ht)).
    by destruct Hk as [-> | ->].
Qed.

(** Whatever the stack, an answer of the search is a call node: either an
    ancestor below the top of the stack, or the operand of a no-op
    ancestor; and the search changes nothing. *)
Theorem isNodeCallArg_answers_a_call parentStack s r s' :
  isNodeCallArg parentStack s = Ok (r, s') ->
  s' = s
  /\ forall c, r = Some c ->
       operOf s c = Some GT_CALL
       /\ (c ∈ tail parentStack
           \/ exists x t, x ∈ tail parentStack /\ nodes s !! x = Some t
                          /\ gtOper t = GT_NOP /\ gtOp1 t = Some c).
Proof.
  unfold isNodeCallArg. intros H.
  split; [by eapply isNodeCallArg_loop_state|].
  revert H. generalize (tail parentStack) as l.
  induction l as [|x l IH]; simpl; intros H c ->; [done|].
  apply bind_inv in H as (t & s1 & H1 & H). apply getNode_inv in H1 as [-> Ht].
  assert (isNodeCallArg_loop l s = Ok (Some c, s') ->
          operOf s c = Some GT_CALL
          /\ (c ∈ x :: l
              \/ exists y ty, y ∈ x :: l /\ nodes s !! y = Some ty
                              /\ gtOper ty = GT_NOP /\ gtOp1 ty = Some c)) as Hrec.
  { intros Hl. destruct (IH Hl c eq_refl) as [Hc [Hin|(y & ty & Hy & Hr)]].
    - split; [done|]. left. by apply list_elem_of_further.
    - split; [done|]. right. exists y, ty. split; [by apply list_elem_of_further|done]. }
  destruct (gtOper t) eqn:Hop; try done; try (by apply Hrec).
  - apply bind_inv in H as (op1 & s1 & H1 & H). apply deref_inv in H1 as [Hop1 ->].
    apply bind_inv in H as (t1 & s1 & H1 & H). apply getNode_inv in H1 as [-> Ht1].
    destruct (decide (gtOper t1 = GT_CALL)) as [Hc|Hc]; [|by apply Hrec].
    injection H as <- <-. split.
    + unfold operOf. by rewrite Ht1, <- Hc.
    + right. exists x, t. split; [apply list_elem_of_here|done].
  - injection H as <- <-. split.
    + unfold operOf. by rewrite Ht, <- Hop.
    + left. apply list_elem_of_here.
Qed.

(** ** Assignments: the cases besides the indirect store *)

(** The store made from an assignment into a local names the same local:
    the assignment node is updated in place (nothing is allocated, every
    other node, the blocks and the variable table are as before) and
    takes the variable number, the SSA number and the type of the location
    node, and the value as its operand; for a local field it also takes the
    field offset and the field sequence.  Its links are not touched. *)
Theorem store_lcl_names_the_local s assignment location value locationOp a v :
  nodes s !! assignment = Some a -> gtOper a = GT_ASG ->
  nodes s !! location = Some v -> gtOper v = locationOp ->
  isReadKind locationOp = true ->
  exists st,
    RewriteAssignmentIntoStoreLclCore assignment location value locationOp s
    = Ok (tt, set_nodes (<[assignment := st]> (nodes s)) s)
    /\ gtLclNum (gtLcl st) = gtLclNum (gtLcl v)
    /\ gtSsaNum (gtLcl st) = gtSsaNum (gtLcl v)
    /\ gtType st = gtType v
    /\ gtOp1 st = value
    /\ (if decide (locationOp = GT_LCL_FLD)
        then gtLclOffs (gtLcl st) = gtLclOffs (gtLcl v)
             /\ gtFieldSeq (gtLcl st) = gtFieldSeq (gtLcl v)
        else True)
    /\ gtPrev st = gtPrev a /\ gtNext st = gtNext a.
Proof.
  intros Ha Hoa Hv Hov Hk.
  assert (Hne : assignment <> location).
  { intros ->. rewrite Ha in Hv. injection Hv as ->.
    rewrite Hoa in Hov. subst. discriminate. }
  unfold RewriteAssignmentIntoStoreLclCore, copyFlags, SetOper, setFlags, setType, when.
  destruct locationOp; try discriminate; simpl liftRes;
    [ rewrite bool_decide_eq_false_2 by discriminate
    | rewrite bool_decide_eq_true_2 by reflexivity ];
    (eexists; split;
     [ erewrite (bind_run _ _ s _ s eq_refl); repeat step;
       erewrite modNode_run by lookup_tac; norm;
       rewrite ?list_insert_insert_eq; reflexivity
     | norm; repeat split ]).
Qed.

Lemma StoreLclCore_run s assignment location value locationOp a v :
  nodes s !! assignment = Some a -> gtOper a = GT_ASG ->
  nodes s !! location = Some v -> gtOper v = locationOp ->
  isReadKind locationOp = true ->
  exists st,
    RewriteAssignmentIntoStoreLclCore assignment location value locationOp s
    = Ok (tt, set_nodes (<[assignment := st]> (nodes s)) s)
    /\ storeForm locationOp = Ok (gtOper st)
    /\ gtOp1 st = value
    /\ gtLclNum (gtLcl st) = gtLclNum (gtLcl v)
    /\ gtPrev st = gtPrev a /\ gtNext st = gtNext a.
Proof.
  intros Ha Hoa Hv Hov Hk.
  assert (Hne : assignment <> location).
  { intros ->. rewrite Ha in Hv. injection Hv as ->.
    rewrite Hoa in Hov. subst. discriminate. }
  unfold RewriteAssignmentIntoStoreLclCore, copyFlags, SetOper, setFlags, setType, when.
  destruct locationOp; try discriminate; simpl liftRes;
    [ rewrite bool_decide_eq_false_2 by discriminate
    | rewrite bool_decide_eq_true_2 by reflexivity ];
    (eexists; split;
     [ erewrite (bind_run _ _ s _ s eq_refl); repeat step;
       erewrite modNode_run by lookup_tac; norm;
       rewrite ?list_insert_insert_eq; reflexivity
     | norm; repeat split ]).
Qed.

(** The vector-initialization step before the assignment rules does
    nothing when the location is not of a vector type or the assignment is
    not an initializing block operation. *)
Lemma SIMDInit_skip_plain s assignment location value loc :
  nodes s !! location = Some loc ->
  varTypeIsSIMD (gtType loc) && OperIsInitBlkOp s assignment = false ->
  RewriteAssignment_SIMDInit assignment location value s = Ok (value, s).
Proof.
  intros Hloc Hno. unfold RewriteAssignment_SIMDInit.
  destruct FEATURE_SIMD; [|reflexivity]. cbn [negb].
  rewrite (bind_run _ _ _ _ _ (getNode_run _ _ _ Hloc)).
  unfold query at 1. rewrite (bind_run _ _ s _ s eq_refl).
  by rewrite Hno.
Qed.

(** A use whose slot is not in node [m] is not affected by an update of
    [m]. *)
Lemma Use_Def_insert_other s m t' use n :
  (forall e, m_edge use = Some e -> edgeOwner e <> m) ->
  Use_Def use s = Ok (n, s) ->
  Use_Def use (set_nodes (<[m := t']> (nodes s)) s)
  = Ok (n, set_nodes (<[m := t']> (nodes s)) s).
Proof.
  intros Hm Hdef. apply Use_Def_inv in Hdef as [_ Hdef]. unfold Use_Def.
  destruct (m_edge use) as [e|]; [|by rewrite Hdef].
  destruct Hdef as (o & Ho & Hn).
  assert (readEdge e (set_nodes (<[m := t']> (nodes s)) s)
          = Ok (edgeGet e o, set_nodes (<[m := t']> (nodes s)) s)) as Hr.
  { apply readEdge_run. simpl. rewrite list_lookup_insert_ne; [done|].
    intros E. by apply (Hm e). }
  rewrite (bind_run _ _ _ _ _ Hr). by rewrite Hn.
Qed.

(** An assignment into a local variable or a local field, [x = v]: the
    assignment node itself becomes the store to that local, with [v] as
    its operand, and stays where it was; no node is allocated; the
    location node leaves the linear order.  Every node but the assignment
    is as before, up to the links of the linear order. *)
Theorem assignment_to_local_becomes_store s use assignment a location loc l1 l2 l3 :
  LinearOrder s (l1 ++ location :: l2 ++ assignment :: l3) ->
  Use_Def use s = Ok (assignment, s) ->
  (forall e, m_edge use = Some e -> edgeOwner e <> assignment) ->
  nodes s !! assignment = Some a -> gtOper a = GT_ASG -> gtOp1 a = Some location ->
  nodes s !! location = Some loc -> isReadKind (gtOper loc) = true ->
  varTypeIsSIMD (gtType loc) && OperIsInitBlkOp s assignment = false ->
  exists s' st,
    RewriteAssignment use s = Ok (use, s')
    /\ nodes s' !! assignment = Some st
    /\ storeForm (gtOper loc) = Ok (gtOper st)
    /\ gtOp1 st = gtOp2 a
    /\ gtLclNum (gtLcl st) = gtLclNum (gtLcl loc)
    /\ length (nodes s') = length (nodes s)
    /\ LinearOrder s' (l1 ++ l2 ++ assignment :: l3)
    /\ Use_Def use s' = Ok (assignment, s')
    /\ (forall x t, x <> assignment -> nodes s !! x = Some t ->
          exists t', nodes s' !! x = Some t' /\ unlinked t' = unlinked t).
Proof.
  intros Hlo Hdef Hown Ha Hoa Hop1 Hloc Hk Hsimd.
  destruct (StoreLclCore_run s assignment location (gtOp2 a) (gtOper loc) a loc
              Ha Hoa Hloc eq_refl Hk) as (st & Hrun & Hform & Hv & Hnum & Hp & Hn).
  set (s1 := set_nodes (<[assignment := st]> (nodes s)) s) in *.
  assert (LinearOrder s1 (l1 ++ location :: l2 ++ assignment :: l3)) as Hlo1
    by by eapply LinearOrder_insert.
  destruct (Range_Remove_spec _ _ _ _ Hlo1) as (s2 & Hrun2 & Hlo2 & Hst2 & Hsr2 & _).
  assert (nodes s1 !! assignment = Some st) as Hst1
    by (simpl; by eapply lookup_set_same).
  destruct (sameTrees_lookup _ _ _ _ Hst2 Hst1) as (st2 & Hst2' & Hu2).
  exists s2, st2. split.
  { unfold RewriteAssignment.
    rewrite (bind_run _ _ _ _ _ Hdef).
    rewrite (bind_run _ _ _ _ _ (getNode_run _ _ _ Ha)).
    rewrite Hop1. cbn [deref]. rewrite mret_bind.
    rewrite (bind_run _ _ _ _ _ (getNode_run _ _ _ Hloc)).
    rewrite (bind_run _ _ _ _ _ (SIMDInit_skip_plain _ _ _ _ _ Hloc Hsimd)).
    destruct (gtOper loc); try discriminate Hk;
      rewrite (bind_run _ _ _ _ _ Hrun), (bind_run _ _ _ _ _ Hrun2); reflexivity. }
  split; [done|].
  split; [by rewrite (unlinked_oper _ _ Hu2)|].
  split; [by rewrite (unlinked_op1 _ _ Hu2)|].
  split; [by rewrite (unlinked_lcl _ _ Hu2)|].
  split; [rewrite (sameTrees_length _ _ Hst2); simpl; by rewrite length_insert|].
  split; [done|].
  split.
  { eapply treesKept_Use_Def; [by apply sameTrees_kept|].
    by apply Use_Def_insert_other. }
  intros x t Hx Ht.
  assert (nodes s1 !! x = Some t) as Ht1
    by (simpl; by rewrite list_lookup_insert_ne by done).
  destruct (sameTrees_lookup _ _ _ _ Hst2 Ht1) as (t2 & Ht2 & Hut). by exists t2.
Qed.

(** An assignment to a class variable is rewritten without allocating and
    without touching the linear order: the variable node becomes its
    address form, of type byref, and the assignment node itself becomes
    the store-indirect over that address and the value; the operands,
    flags and links of both nodes, and every other node, stay as they
    were. *)
Theorem assignment_to_class_variable_in_place s use assignment a location loc :
  Use_Def use s = Ok (assignment, s) ->
  nodes s !! assignment = Some a -> gtOper a = GT_ASG -> gtOp1 a = Some location ->
  nodes s !! location = Some loc -> gtOper loc = GT_CLS_VAR ->
  exists s',
    RewriteAssignment use s = Ok (use, s')
    /\ s' = set_nodes
              (<[assignment := set_gtOper GT_STOREIND a]>
                 (<[location := set_gtType TYP_BYREF (set_gtOper GT_CLS_VAR_ADDR loc)]>
                    (nodes s))) s
    /\ (forall l, LinearOrder s l -> LinearOrder s' l)
    /\ Use_Def use s' = Ok (assignment, s').
Proof.
  intros Hdef Ha Hoa Hop1 Hloc Hk.
  assert (Hne : assignment <> location).
  { intros ->. rewrite Ha in Hloc. injection Hloc as ->. congruence. }
  eexists. split; [|split; [reflexivity|]].
  { unfold RewriteAssignment.
    rewrite (bind_run _ _ _ _ _ Hdef).
    rewrite (bind_run _ _ _ _ _ (getNode_run _ _ _ Ha)).
    rewrite Hop1. cbn [deref]. rewrite mret_bind.
    rewrite (bind_run _ _ _ _ _ (getNode_run _ _ _ Hloc)).
    erewrite bind_run; [|eapply SIMDInit_skip; [eassumption|congruence]].
    rewrite Hk. unfold SetOper, setType.
    repeat step. reflexivity. }
  set (s1 := set_nodes
               (<[location := set_gtType TYP_BYREF (set_gtOper GT_CLS_VAR_ADDR loc)]>
                  (nodes s)) s).
  assert (nodes s1 !! assignment = Some a) as Ha1
    by (simpl; by rewrite list_lookup_insert_ne by done).
  split.
  - intros l Hl.
    apply (LinearOrder_insert s1 assignment a (set_gtOper GT_STOREIND a) l Ha1
             eq_refl eq_refl).
    by apply (LinearOrder_insert s location loc
                (set_gtType TYP_BYREF (set_gtOper GT_CLS_VAR_ADDR loc)) l Hloc
                eq_refl eq_refl).
  - apply (Use_Def_insert s1 assignment a (set_gtOper GT_STOREIND a) use assignment Ha1);
      [by intros []|].
    apply (Use_Def_insert s location loc
             (set_gtType TYP_BYREF (set_gtOper GT_CLS_VAR_ADDR loc)) use assignment Hloc);
      [by intros []|done].
Qed.

(** Redirecting a use from [old] to an existing node [new], with what it
    leaves alone: the linear order, the operators, types and links of all
    nodes, the operand slots of every node but the consumer, and the flags
    but for the late-argument marker that [new] may inherit from [old]. *)
Lemma Use_Redirect_frame s use old new :
  Use_Def use s = Ok (old, s) ->
  is_Some (nodes s !! m_user use) -> is_Some (nodes s !! old) ->
  is_Some (nodes s !! new) ->
  argFixable s use old ->
  exists use' s',
    Use_Redirect use new s = Ok (use', s')
    /\ (forall l, LinearOrder s l -> LinearOrder s' l)
    /\ Use_Def use' s' = Ok (new, s')
    /\ length (nodes s') = length (nodes s)
    /\ (forall x t, nodes s !! x = Some t ->
          exists t', nodes s' !! x = Some t'
            /\ gtOper t' = gtOper t /\ gtType t' = gtType t
            /\ (gtFlags t' = gtFlags t
                \/ (x = new /\ gtFlags t' = Z.lor (gtFlags t) GTF_LATE_ARG
                    /\ hasFlag (flagsOf s old) GTF_LATE_ARG = true))
            /\ ((forall e, m_edge use = Some e -> x <> edgeOwner e) ->
                gtOp1 t' = gtOp1 t /\ gtOp2 t' = gtOp2 t)).
Proof.
  intros Hdef Huser Hold Hnew Hfix.
  destruct (Use_Redirect_ok use new s old Hdef Huser Hold Hnew Hfix)
    as (use' & s1 & Hrun1).
  exists use', s1. split; [exact Hrun1|].
  pose proof (Use_Redirect_inv _ _ _ _ _ Hrun1) as Hinv.
  pose proof Hdef as Hdef0. apply Use_Def_inv in Hdef0 as [_ Hdef0].
  destruct (m_edge use) as [e|] eqn:He.
  - destruct Hinv as (-> & o & oldv & Ho & Holdv & Hsw).
    destruct Hdef0 as (o' & Ho' & Hold'). rewrite Ho in Ho'. injection Ho' as <-.
    specialize (Hsw old (eq_trans (eq_sym Holdv) Hold')).
    split; [intros l Hl; by eapply LinearOrder_slotWritten|].
    destruct Hsw as (Hlen & _ & _ & (ow & How & Hget) & Hn).
    split.
    { unfold Use_Def. rewrite He.
      rewrite (bind_run _ _ _ _ _ (readEdge_run _ _ _ How)). by rewrite Hget. }
    split; [done|].
    intros x t Ht. destruct (Hn _ _ Ht) as (t' & Ht' & Ho1 & Hty1 & _ & _ & Hf & Hops).
    exists t'. do 4 (split; [done|]). intros Hx. apply Hops. by apply Hx.
  - destruct Hinv as [-> ->]. split; [done|]. split; [done|]. split; [done|].
    intros x t Ht. exists t. do 3 (split; [done|]). split; [by left|done].
Qed.

(** [Use::ReplaceWith], given what bringing the replacement to the place of
    the replaced node does to the linear order ([s1] is the state after that
    first half): the linear order is that of [s1], and the nodes are as
    [Use_Redirect_frame] says. *)
Lemma Use_ReplaceWith_frame s s1 use old new :
  Use_Def use s = Ok (old, s) ->
  Use_Splice old new s = Ok (tt, s1) -> sameTrees s s1 ->
  is_Some (nodes s !! m_user use) -> is_Some (nodes s !! old) ->
  is_Some (nodes s !! new) ->
  argFixable s use old ->
  exists use' s',
    Use_ReplaceWith use new s = Ok (use', s')
    /\ (forall l, LinearOrder s1 l -> LinearOrder s' l)
    /\ Use_Def use' s' = Ok (new, s')
    /\ length (nodes s') = length (nodes s)
    /\ (forall x t, nodes s !! x = Some t ->
          exists t', nodes s' !! x = Some t'
            /\ gtOper t' = gtOper t /\ gtType t' = gtType t
            /\ (gtFlags t' = gtFlags t
                \/ (x = new /\ gtFlags t' = Z.lor (gtFlags t) GTF_LATE_ARG
                    /\ hasFlag (flagsOf s old) GTF_LATE_ARG = true))
            /\ ((forall e, m_edge use = Some e -> x <> edgeOwner e) ->
                gtOp1 t' = gtOp1 t /\ gtOp2 t' = gtOp2 t)).
Proof.
  intros Hdef Hsp Hst Huser Hold Hnew Hfix.
  pose proof (sameTrees_kept _ _ Hst) as Hk.
  destruct (Use_Redirect_frame s1 use old new)
    as (use' & s2 & Hrun2 & Hlo2 & Hdef2 & Hlen2 & Hk2).
  { by eapply treesKept_Use_Def. }
  { destruct Huser as [u Hu]. destruct (Hk _ _ Hu) as (u' & Hu' & _). eauto. }
  { destruct Hold as [u Hu]. destruct (Hk _ _ Hu) as (u' & Hu' & _). eauto. }
  { destruct Hnew as [u Hu]. destruct (Hk _ _ Hu) as (u' & Hu' & _). eauto. }
  { by eapply treesKept_argFixable. }
  exists use', s2. split.
  { unfold Use_ReplaceWith. rewrite (bind_run _ _ _ _ _ Hdef).
    by rewrite (bind_run _ _ _ _ _ Hsp). }
  split; [done|]. split; [done|].
  split; [by rewrite Hlen2, (sameTrees_length _ _ Hst)|].
  intros x t Ht. destruct (Hk _ _ Ht) as (t1 & Ht1 & Hu1).
  destruct (Hk2 _ _ Ht1) as (t2 & Ht2 & Ho2 & Hty2 & Hf2 & Hops2).
  exists t2. split; [done|].
  rewrite Ho2, Hty2, (unlinked_oper _ _ Hu1), (unlinked_type _ _ Hu1).
  do 2 (split; [done|]). split.
  - rewrite <- (unlinked_flags _ _ Hu1).
    rewrite <- (treesKept_flagsOf _ _ _ Hk Hold). tauto.
  - intros Hx. destruct (Hops2 Hx) as [-> ->].
    by rewrite (unlinked_op1 _ _ Hu1), (unlinked_op2 _ _ Hu1).
Qed.

(** An assignment to a block location (a plain block, a typed object or a
    dynamically sized block): the location node itself becomes the store of
    the matching flavour, with the value as its data operand; it loses the
    don't-CSE bit and takes from the assignment the side-effect, the
    reverse-operands, the volatile, unaligned and init bits and the
    don't-CSE bit; the use is redirected to it and the assignment node
    leaves the linear order.  The store takes the place of the assignment
    in the linear order, after the nodes that stood between the location
    and the assignment. *)
Theorem assignment_to_block_becomes_store s use assignment a location loc l1 l2 l3 :
  LinearOrder s (l1 ++ location :: l2 ++ assignment :: l3) ->
  Use_Def use s = Ok (assignment, s) ->
  is_Some (nodes s !! m_user use) -> argFixable s use assignment ->
  (forall e, m_edge use = Some e -> edgeOwner e <> location) ->
  nodes s !! assignment = Some a -> gtOper a = GT_ASG -> gtOp1 a = Some location ->
  nodes s !! location = Some loc ->
  gtOper loc = GT_BLK \/ gtOper loc = GT_OBJ \/ gtOper loc = GT_DYN_BLK ->
  exists use' s' st,
    RewriteAssignment use s = Ok (use', s')
    /\ nodes s' !! location = Some st
    /\ gtOper st = match gtOper loc with
                   | GT_BLK => GT_STORE_BLK
                   | GT_OBJ => GT_STORE_OBJ
                   | _ => GT_STORE_DYN_BLK
                   end
    /\ gtOp1 st = gtOp1 loc /\ gtOp2 st = gtOp2 a
    /\ (let f := Z.lor (Z.land (gtFlags loc) (Z.lnot GTF_DONT_CSE))
                   (Z.land (gtFlags a)
                      (Z.lor GTF_ALL_EFFECT (Z.lor GTF_REVERSE_OPS (Z.lor GTF_BLK_VOLATILE
                         (Z.lor GTF_BLK_UNALIGNED (Z.lor GTF_BLK_INIT GTF_DONT_CSE)))))) in
        gtFlags st = f \/ gtFlags st = Z.lor f GTF_LATE_ARG)
    /\ LinearOrder s' (l1 ++ l2 ++ location :: l3)
    /\ Use_Def use' s' = Ok (location, s')
    /\ length (nodes s') = length (nodes s).
Proof.
  intros Hlo Hdef Huser Hfix Hown Ha Hoa Hop1 Hloc Hk.
  assert (Hne : location <> assignment).
  { intros ->. rewrite Ha in Hloc. injection Hloc as ->.
    destruct Hk as [?|[?|?]]; congruence. }
  set (k := match gtOper loc with
            | GT_BLK => GT_STORE_BLK
            | GT_OBJ => GT_STORE_OBJ
            | _ => GT_STORE_DYN_BLK
            end).
  set (f := Z.lor (Z.land (gtFlags loc) (Z.lnot GTF_DONT_CSE))
              (Z.land (gtFlags a)
                 (Z.lor GTF_ALL_EFFECT (Z.lor GTF_REVERSE_OPS (Z.lor GTF_BLK_VOLATILE
                    (Z.lor GTF_BLK_UNALIGNED (Z.lor GTF_BLK_INIT GTF_DONT_CSE))))))).
  set (st0 := set_gtOp2 (gtOp2 a) (set_gtFlags f (set_gtOper k loc))).
  set (s1 := set_nodes (<[location := st0]> (nodes s)) s).
  assert (LinearOrder s1 (l1 ++ location :: l2 ++ assignment :: l3)) as Hlo1
    by by apply (LinearOrder_insert s location loc st0).
  assert (Use_Def use s1 = Ok (assignment, s1)) as Hdef1
    by by apply Use_Def_insert_other.
  assert (nodes s1 !! assignment = Some a) as Ha1
    by (simpl; by rewrite list_lookup_insert_ne by done).
  assert (nodes s1 !! location = Some st0) as Hst1
    by (simpl; by eapply lookup_set_same).
  assert (is_Some (nodes s1 !! m_user use)) as Huser1.
  { destruct Huser as [u Hu]. simpl.
    destruct (decide (m_user use = location)) as [->|Hx].
    - erewrite lookup_set_same by done. by eexists.
    - rewrite list_lookup_insert_ne by done. by eexists. }
  assert (argFixable s1 use assignment) as Hfix1.
  { apply (argFixable_insert s location loc st0); try done.
    subst st0 k. simpl. destruct Hk as [E|[E|E]]; rewrite E; discriminate. }
  destruct (Use_Splice_spec _ _ _ _ _ _ Hlo1) as (s1' & Hsp & Hlo1' & Hst1' & _).
  destruct (Use_ReplaceWith_frame s1 s1' use assignment location Hdef1 Hsp Hst1' Huser1
              (ex_intro _ _ Ha1) (ex_intro _ _ Hst1) Hfix1)
    as (use' & s2 & Hrun2 & Hlo2 & Hdef2 & Hlen2 & Hk2).
  assert (LinearOrder s2 ((l1 ++ l2 ++ [location]) ++ assignment :: l3)) as Hlo2'
    by (pose proof (Hlo2 _ Hlo1') as Hlo2''; relist Hlo2'').
  destruct (Range_Remove_spec _ _ _ _ Hlo2') as (s3 & Hrun3 & Hlo3 & Hst3 & Hsr3 & _).
  destruct (Hk2 _ _ Hst1) as (st2 & Hst2 & Ho2 & _ & Hf2 & Hops2).
  destruct (sameTrees_lookup _ _ _ _ Hst3 Hst2) as (st3 & Hst3' & Hu3).
  exists use', s3, st3. split.
  { unfold RewriteAssignment.
    rewrite (bind_run _ _ _ _ _ Hdef).
    rewrite (bind_run _ _ _ _ _ (getNode_run _ _ _ Ha)).
    rewrite Hop1. cbn [deref]. rewrite mret_bind.
    rewrite (bind_run _ _ _ _ _ (getNode_run _ _ _ Hloc)).
    erewrite bind_run; [|eapply SIMDInit_skip; [eassumption|]].
    2:{ destruct Hk as [E|[E|E]]; rewrite E; discriminate. }
    assert ((loc0 ← getNode location ;
             storeOper ← match gtOper loc0 with
                         | GT_BLK => mret GT_STORE_BLK
                         | GT_OBJ => mret GT_STORE_OBJ
                         | GT_DYN_BLK => mret GT_STORE_DYN_BLK
                         | _ => abort Unreached
                         end ;
             SetOper location storeOper ;;
             setFlags location (fun f => Z.land f (Z.lnot GTF_DONT_CSE)) ;;
             a0 ← getNode assignment ;
             setFlags location (fun f =>
               Z.lor f (Z.land (gtFlags a0)
                          (Z.lor GTF_ALL_EFFECT (Z.lor GTF_REVERSE_OPS (Z.lor GTF_BLK_VOLATILE
                             (Z.lor GTF_BLK_UNALIGNED (Z.lor GTF_BLK_INIT GTF_DONT_CSE))))))) ;;
             modNode location (set_gtOp2 (gtOp2 a)) ;;
             use' ← Use_ReplaceWith use location ;
             Range_Remove assignment ;;
             mret use') s = Ok (use', s3)) as Hbody.
    { rewrite (bind_run _ _ _ _ _ (getNode_run _ _ _ Hloc)).
      assert (match gtOper loc with
              | GT_BLK => mret GT_STORE_BLK
              | GT_OBJ => mret GT_STORE_OBJ
              | GT_DYN_BLK => mret GT_STORE_DYN_BLK
              | _ => abort Unreached
              end = (mret k : M genTreeOps)) as ->.
      { subst k. by destruct Hk as [E|[E|E]]; rewrite E. }
      rewrite mret_bind. unfold SetOper, setFlags.
      repeat step. rewrite set_gtFlags_twice.
      fold f. fold st0. fold s1.
      rewrite (bind_run _ _ _ _ _ Hrun2), (bind_run _ _ _ _ _ Hrun3). reflexivity. }
    destruct Hk as [E|[E|E]]; rewrite E; exact Hbody. }
  split; [done|].
  split; [by rewrite (unlinked_oper _ _ Hu3), Ho2|].
  destruct (Hops2 (fun e He => not_eq_sym (Hown e He))) as [H1 H2].
  split; [by rewrite (unlinked_op1 _ _ Hu3), H1|].
  split; [by rewrite (unlinked_op2 _ _ Hu3), H2|].
  split; [|split; [relist Hlo3|split]].
  - cbv zeta. fold f. rewrite (unlinked_flags _ _ Hu3).
    destruct Hf2 as [->|(_ & -> & _)]; [by left|by right].
  - eapply treesKept_Use_Def; [by apply sameTrees_kept|done].
  - rewrite (sameTrees_length _ _ Hst3), Hlen2. simpl. by rewrite length_insert.
Qed.

(** ** The per-node rewrite: scaffolding, wrappers, plain nodes *)

Lemma last_snoc_app (l1 l : list NodeId) x : last (l1 ++ l ++ [x]) = Some x.
Proof. by rewrite app_assoc, last_snoc. Qed.

(** The loop at the head of [RewriteNode]: the run [lists] of non-aggregate
    list nodes that stands right before [n] in the linear order is taken
    out, one node at a time from the nearest; the loop stops at the first
    node that is not such a list node (or at the head of the range). *)
Lemma removePrecedingLists_run lists : forall s l1 n l2 fuel,
  LinearOrder s (l1 ++ lists ++ n :: l2) ->
  plainLists s lists -> stopsLists s l1 ->
  length lists < fuel ->
  exists s',
    removePrecedingLists fuel n s = Ok (tt, s')
    /\ LinearOrder s' (l1 ++ n :: l2)
    /\ sameTrees s s' /\ sameRest s s'
    /\ (lists = [] -> s' = s).
Proof.
  unfold plainLists, stopsLists.
  induction lists as [|x l' IH] using rev_ind; intros s l1 n l2 fuel Hlo Hl Hstop Hfuel.
  - simpl in Hlo. destruct fuel as [|fuel]; [simpl in Hfuel; lia|].
    destruct (LinearOrder_split _ _ _ _ Hlo) as (_ & _ & _ & _ & _ & Hs1 & _ & (t & Ht & Hp & _) & _).
    exists s. split; [|split; [done|split; [apply sameTrees_refl|split; [apply sameRest_refl|done]]]].
    simpl. rewrite (bind_run _ _ _ _ _ (getNode_run _ _ _ Ht)). rewrite Hp.
    destruct (last l1) as [p|] eqn:Hlast; [|done].
    assert (p ∈ l1) as Hin.
    { destruct (snoc_or_nil l1) as [->|(l0 & y & ->)]; [done|].
      rewrite last_snoc in Hlast. injection Hlast as ->.
      apply elem_of_app. right. apply list_elem_of_here. }
    destruct (segment_exists _ _ _ _ _ Hs1 Hin) as [tp Htp].
    rewrite (bind_run _ _ _ _ _ (getNode_run _ _ _ Htp)).
    destruct (bool_decide (gtOper tp = GT_LIST)) eqn:Hb; [|done].
    apply bool_decide_eq_true in Hb. by rewrite (Hstop p tp eq_refl Htp Hb).
  - destruct fuel as [|fuel]; [lia|]. rewrite length_app in Hfuel. simpl in Hfuel.
    apply Forall_app in Hl as [Hl' Hx]. apply Forall_singleton in Hx as (tx & Htx & Hox & Hax).
    assert (LinearOrder s ((l1 ++ l' ++ [x]) ++ n :: l2)) as Hlo'
      by by rewrite <- !app_assoc in *.
    destruct (LinearOrder_split _ _ _ _ Hlo') as (_ & _ & _ & _ & _ & _ & _ & (t & Ht & Hp & _) & _).
    rewrite last_snoc_app in Hp.
    assert (LinearOrder s ((l1 ++ l') ++ x :: n :: l2)) as Hlo''.
    { rewrite <- !app_assoc in Hlo. simpl in Hlo. by rewrite <- app_assoc. }
    destruct (Range_Remove_spec _ _ _ _ Hlo'') as (s1 & Hrun1 & Hlo1 & Hst1 & Hsr1 & _).
    rewrite <- app_assoc in Hlo1.
    destruct (IH s1 l1 n l2 fuel Hlo1) as (s2 & Hrun2 & Hlo2 & Hst2 & Hsr2 & _).
    { eapply Forall_impl; [exact Hl'|]. intros y (ty & Hty & Hoy & Hay).
      destruct (sameTrees_lookup _ _ _ _ Hst1 Hty) as (ty' & Hty' & Hu).
      exists ty'. split; [done|]. rewrite (unlinked_oper _ _ Hu).
      unfold IsAggregate. by rewrite (unlinked_flags _ _ Hu). }
    { intros p tp Hlast Htp Hop.
      destruct (sameTrees_lookup_inv _ _ _ _ Hst1 Htp) as (tp0 & Htp0 & Hu).
      unfold IsAggregate. rewrite (unlinked_flags _ _ Hu).
      apply (Hstop p tp0 Hlast Htp0). by rewrite <- (unlinked_oper _ _ Hu). }
    { lia. }
    exists s2. split; [|split; [done|split; [|split]]].
    + simpl. rewrite (bind_run _ _ _ _ _ (getNode_run _ _ _ Ht)). rewrite Hp.
      rewrite (bind_run _ _ _ _ _ (getNode_run _ _ _ Htx)).
      rewrite bool_decide_eq_true_2 by done. rewrite Hax. cbn [negb andb].
      by rewrite (bind_run _ _ _ _ _ Hrun1).
    + by eapply sameTrees_trans.
    + by eapply sameRest_trans.
    + intros E. by destruct l'.
Qed.

(** The head of [RewriteNode], up to the point where the kind of the node
    is looked at. *)
Lemma RewriteNode_head s useEdge n t l1 lists l2 :
  readEdge useEdge s = Ok (Some n, s) -> nodes s !! n = Some t ->
  LinearOrder s (l1 ++ lists ++ n :: l2) ->
  plainLists s lists -> stopsLists s l1 ->
  exists s1 t1,
    LinearOrder s1 (l1 ++ n :: l2)
    /\ sameTrees s s1 /\ sameRest s s1
    /\ nodes s1 !! n = Some t1 /\ unlinked t1 = unlinked t
    /\ (lists = [] -> s1 = s)
    /\ forall parentStack,
         RewriteNode useEdge parentStack s
         = (if decide (gtOper t1 = GT_LIST) then
              when (negb (IsAggregate t1)) (Range_Remove n)
            else
              use' ← RewriteNode_dispatch (useFor useEdge parentStack n) n (gtOper t1) ;
              t' ← getNode n ;
              when (Use_IsDummyUse use' && OperIsLocalRead (gtOper t'))
                (lvaDecRefCnts n ;; Range_Remove n)) s1.
Proof.
  intros Hread Ht Hlo Hl Hstop.
  assert (length lists < S (length (nodes s))) as Hfuel.
  { pose proof (LinearOrder_length _ _ Hlo) as H.
    rewrite !length_app in H. simpl in H. lia. }
  destruct (removePrecedingLists_run lists s l1 n l2 _ Hlo Hl Hstop Hfuel)
    as (s1 & Hrun & Hlo1 & Hst & Hsr & Hnil).
  destruct (sameTrees_lookup _ _ _ _ Hst Ht) as (t1 & Ht1 & Hu).
  exists s1, t1. do 6 (split; [done|]). intros parentStack.
  unfold RewriteNode. rewrite (bind_run _ _ _ _ _ Hread). cbn [deref].
  rewrite mret_bind. rewrite (bind_run (query nodes) _ s (nodes s) s eq_refl).
  rewrite (bind_run _ _ _ _ _ Hrun).
  by rewrite (bind_run _ _ _ _ _ (getNode_run _ _ _ Ht1)).
Qed.

(** A list node that the walk visits: the non-aggregate list nodes right
    before it leave the linear order, and so does the node itself unless
    it is an aggregate; no rewrite rule is applied, and every node is as
    before up to the links of the linear order. *)
Theorem list_node_leaves_the_order s useEdge parentStack n t l1 lists l2 :
  readEdge useEdge s = Ok (Some n, s) -> nodes s !! n = Some t ->
  gtOper t = GT_LIST ->
  LinearOrder s (l1 ++ lists ++ n :: l2) ->
  plainLists s lists -> stopsLists s l1 ->
  exists s',
    RewriteNode useEdge parentStack s = Ok (tt, s')
    /\ LinearOrder s' (if IsAggregate t then l1 ++ n :: l2 else l1 ++ l2)
    /\ sameTrees s s' /\ sameRest s s'.
Proof.
  intros Hread Ht Hop Hlo Hl Hstop.
  destruct (RewriteNode_head s useEdge n t l1 lists l2 Hread Ht Hlo Hl Hstop)
    as (s1 & t1 & Hlo1 & Hst & Hsr & Ht1 & Hu & _ & Hrun).
  rewrite Hrun. rewrite (unlinked_oper _ _ Hu), Hop.
  destruct (decide (GT_LIST = GT_LIST)); [|done].
  unfold IsAggregate. rewrite (unlinked_flags _ _ Hu).
  destruct (hasFlag (gtFlags t) GTF_LIST_AGGREGATE); cbn [negb when].
  - by exists s1.
  - destruct (Range_Remove_spec _ _ _ _ Hlo1) as (s2 & Hrun2 & Hlo2 & Hst2 & Hsr2 & _).
    exists s2. split; [done|]. split; [done|].
    split; [by eapply sameTrees_trans|by eapply sameRest_trans].
Qed.

Lemma dispatch_noRule use n oper s :
  hasNoRule oper = true -> RewriteNode_dispatch use n oper s = Ok (use, s).
Proof. by destruct oper. Qed.

(** A node of a kind without a rewrite rule (or a no-op without operand)
    that is consumed, or is not a local read, is left alone by the walk:
    only the non-aggregate list nodes right before it leave the linear
    order, and when there are none the state does not change at all. *)
Theorem plain_node_is_left_alone s useEdge parentStack n t l1 lists l2 :
  readEdge useEdge s = Ok (Some n, s) -> nodes s !! n = Some t ->
  hasNoRule (gtOper t) = true \/ (gtOper t = GT_NOP /\ gtOp1 t = None) ->
  Use_IsDummyUse (useFor useEdge parentStack n) = false
  \/ OperIsLocalRead (gtOper t) = false ->
  LinearOrder s (l1 ++ lists ++ n :: l2) ->
  plainLists s lists -> stopsLists s l1 ->
  exists s',
    RewriteNode useEdge parentStack s = Ok (tt, s')
    /\ LinearOrder s' (l1 ++ n :: l2)
    /\ sameTrees s s' /\ sameRest s s'
    /\ (lists = [] -> s' = s).
Proof.
  intros Hread Ht Hk Hd Hlo Hl Hstop.
  destruct (RewriteNode_head s useEdge n t l1 lists l2 Hread Ht Hlo Hl Hstop)
    as (s1 & t1 & Hlo1 & Hst & Hsr & Ht1 & Hu & Hnil & Hrun).
  exists s1. split; [|done].
  rewrite Hrun. rewrite (unlinked_oper _ _ Hu).
  destruct (decide (gtOper t = GT_LIST)) as [E|_].
  { destruct Hk as [Hk|[Hk _]]; rewrite E in Hk; discriminate. }
  assert (RewriteNode_dispatch (useFor useEdge parentStack n) n (gtOper t) s1
          = Ok (useFor useEdge parentStack n, s1)) as Hdisp.
  { destruct Hk as [Hk|[Hk Hop1]]; [by apply dispatch_noRule|].
    rewrite Hk. cbn [RewriteNode_dispatch].
    rewrite (bind_run _ _ _ _ _ (getNode_run _ _ _ Ht1)).
    by rewrite (unlinked_op1 _ _ Hu), Hop1. }
  rewrite (bind_run _ _ _ _ _ Hdisp).
  rewrite (bind_run _ _ _ _ _ (getNode_run _ _ _ Ht1)).
  rewrite (unlinked_oper _ _ Hu).
  by destruct Hd as [-> | ->]; rewrite ?andb_false_r.
Qed.

Lemma useFor_dummy useEdge parentStack n :
  length parentStack < 2 -> useFor useEdge parentStack n = GetDummyUse n.
Proof. destruct parentStack as [|x [|y r]]; simpl; [done|done|lia]. Qed.

(** A local read that nothing consumes (the root of a statement, so that
    the stack holds no consumer) is pruned at the end of its visit: the
    reference count of its local goes down by one and the node leaves the
    linear order, together with the non-aggregate list nodes right before
    it.  The nodes themselves are as before up to their links. *)
Theorem unused_local_read_is_pruned s useEdge parentStack n t d l1 lists l2 :
  readEdge useEdge s = Ok (Some n, s) -> nodes s !! n = Some t ->
  gtOper t = GT_LCL_VAR \/ gtOper t = GT_REG_VAR \/ gtOper t = GT_PHI_ARG ->
  length parentStack < 2 ->
  lvaTable s !! gtLclNum (gtLcl t) = Some d ->
  LinearOrder s (l1 ++ lists ++ n :: l2) ->
  plainLists s lists -> stopsLists s l1 ->
  exists s',
    RewriteNode useEdge parentStack s = Ok (tt, s')
    /\ LinearOrder s' (l1 ++ l2)
    /\ sameTrees s s'
    /\ lvaTable s'
       = <[gtLclNum (gtLcl t) :=
             {| lvType := lvType d; lvExactSize := lvExactSize d;
                lvRefCnt := pred (lvRefCnt d);
                lvPromotedIndependent := lvPromotedIndependent d |}]> (lvaTable s)
    /\ m_block s' = m_block s.
Proof.
  intros Hread Ht Hk Hstack Hd Hlo Hl Hstop.
  destruct (RewriteNode_head s useEdge n t l1 lists l2 Hread Ht Hlo Hl Hstop)
    as (s1 & t1 & Hlo1 & Hst & (Htab & Hmb & _) & Ht1 & Hu & _ & Hrun).
  set (tab := <[gtLclNum (gtLcl t) :=
                  {| lvType := lvType d; lvExactSize := lvExactSize d;
                     lvRefCnt := pred (lvRefCnt d);
                     lvPromotedIndependent := lvPromotedIndependent d |}]> (lvaTable s)).
  assert (LinearOrder (set_lvaTable tab s1) (l1 ++ n :: l2)) as Hlo2.
  { eapply LinearOrder_links; [exact Hlo1| |done|done]. intros x tx Hx. by exists tx. }
  destruct (Range_Remove_spec _ _ _ _ Hlo2) as (s3 & Hrun3 & Hlo3 & Hst3 & (Htab3 & Hmb3 & _) & _).
  exists s3. split; [|split; [done|split; [|split]]].
  - rewrite Hrun, (useFor_dummy _ _ _ Hstack). rewrite (unlinked_oper _ _ Hu).
    assert (hasNoRule (gtOper t) = true /\ gtOper t <> GT_LIST
            /\ OperIsLocalRead (gtOper t) = true) as (Hno & Hnl & Hlr).
    { destruct Hk as [E|[E|E]]; rewrite E; done. }
    destruct (decide (gtOper t = GT_LIST)); [done|].
    rewrite (bind_run _ _ _ _ _ (dispatch_noRule _ _ _ _ Hno)).
    rewrite (bind_run _ _ _ _ _ (getNode_run _ _ _ Ht1)).
    rewrite (unlinked_oper _ _ Hu), Hlr.
    change (Use_IsDummyUse (GetDummyUse n)) with true. unfold when, andb.
    unfold lvaDecRefCnts. rewrite bind_assoc.
    rewrite (bind_run _ _ _ _ _ (getNode_run _ _ _ Ht1)).
    assert (decRefCnt (gtLclNum (gtLcl t1)) s1 = Ok (tt, set_lvaTable tab s1)) as Hdec.
    { unfold decRefCnt. rewrite (unlinked_lcl _ _ Hu), Htab, Hd. done. }
    by rewrite (bind_run _ _ _ _ _ Hdec).
  - eapply sameTrees_trans; [exact Hst|]. exact Hst3.
  - by rewrite Htab3.
  - by rewrite Hmb3.
Qed.

(** An argument placeholder that the walk visits leaves the linear order,
    together with the non-aggregate list nodes right before it; nothing
    else changes. *)
Theorem argument_placeholder_leaves_the_order s useEdge parentStack n t l1 lists l2 :
  readEdge useEdge s = Ok (Some n, s) -> nodes s !! n = Some t ->
  gtOper t = GT_ARGPLACE ->
  LinearOrder s (l1 ++ lists ++ n :: l2) ->
  plainLists s lists -> stopsLists s l1 ->
  exists s',
    RewriteNode useEdge parentStack s = Ok (tt, s')
    /\ LinearOrder s' (l1 ++ l2)
    /\ sameTrees s s' /\ sameRest s s'.
Proof.
  intros Hread Ht Hop Hlo Hl Hstop.
  destruct (RewriteNode_head s useEdge n t l1 lists l2 Hread Ht Hlo Hl Hstop)
    as (s1 & t1 & Hlo1 & Hst & Hsr & Ht1 & Hu & _ & Hrun).
  destruct (Range_Remove_spec _ _ _ _ Hlo1) as (s2 & Hrun2 & Hlo2 & Hst2 & Hsr2 & _).
  destruct (sameTrees_lookup _ _ _ _ Hst2 Ht1) as (t2 & Ht2 & Hu2).
  exists s2. split; [|split; [done|split]].
  - rewrite Hrun, (unlinked_oper _ _ Hu), Hop.
    destruct (decide (GT_ARGPLACE = GT_LIST)); [done|].
    cbn [RewriteNode_dispatch]. rewrite !bind_assoc.
    rewrite (bind_run _ _ _ _ _ Hrun2). rewrite mret_bind.
    rewrite (bind_run _ _ _ _ _ (getNode_run _ _ _ Ht2)).
    rewrite (unlinked_oper _ _ Hu2), (unlinked_oper _ _ Hu), Hop.
    by rewrite andb_false_r.
  - by eapply sameTrees_trans.
  - by eapply sameRest_trans.
Qed.

Lemma Use_ReplaceWith_edge use new s use' s' :
  Use_ReplaceWith use new s = Ok (use', s') -> m_edge use' = m_edge use.
Proof.
  unfold Use_ReplaceWith. intros H.
  apply bind_inv in H as (old & s1 & _ & H).
  apply bind_inv in H as ([] & s2 & _ & H).
  apply Use_Redirect_inv in H.
  destruct (m_edge use) eqn:E.
  - destruct H as (-> & _). done.
  - by destruct H as (_ & ->).
Qed.

Lemma useFor_Def s useEdge parentStack n :
  readEdge useEdge s = Ok (Some n, s) ->
  Use_Def (useFor useEdge parentStack n) s = Ok (n, s).
Proof.
  intros Hread. destruct parentStack as [|x [|y r]]; simpl; try done.
  unfold Use_Def. cbn [m_edge]. by rewrite (bind_run _ _ _ _ _ Hread).
Qed.

Lemma useFor_edge useEdge parentStack n :
  2 <= length parentStack -> m_edge (useFor useEdge parentStack n) = Some useEdge.
Proof. destruct parentStack as [|x [|y r]]; simpl; [lia|lia|done]. Qed.

(** A box wrapper, or a no-op that wraps an operand, is passed through:
    the consumer's slot takes the operand, the wrapper leaves the linear
    order (with the non-aggregate list nodes right before it) and the
    operand takes its place.  Nothing is allocated; nodes keep their
    operators and types, and their flags, but for the operand, which gains
    the late-argument marker when the wrapper was a late argument of a
    call. *)
Theorem wrapper_is_replaced_by_its_operand s useEdge parentStack n t op1 l1 l1' lists l2 :
  readEdge useEdge s = Ok (Some n, s) -> nodes s !! n = Some t ->
  gtOper t = GT_BOX \/ gtOper t = GT_NOP ->
  gtOp1 t = Some op1 ->
  is_Some (nodes s !! m_user (useFor useEdge parentStack n)) ->
  argFixable s (useFor useEdge parentStack n) n ->
  LinearOrder s ((l1 ++ op1 :: l1') ++ lists ++ n :: l2) ->
  plainLists s lists -> stopsLists s (l1 ++ op1 :: l1') ->
  exists s',
    RewriteNode useEdge parentStack s = Ok (tt, s')
    /\ LinearOrder s' (l1 ++ l1' ++ op1 :: l2)
    /\ (2 <= length parentStack -> readEdge useEdge s' = Ok (Some op1, s'))
    /\ length (nodes s') = length (nodes s)
    /\ (forall x tx, nodes s !! x = Some tx ->
          exists t', nodes s' !! x = Some t'
            /\ gtOper t' = gtOper tx /\ gtType t' = gtType tx
            /\ (gtFlags t' = gtFlags tx
                \/ (x = op1 /\ gtFlags t' = Z.lor (gtFlags tx) GTF_LATE_ARG
                    /\ hasFlag (flagsOf s n) GTF_LATE_ARG = true))).
Proof.
  intros Hread Ht Hk Hop1 Huser Hfix Hlo Hl Hstop.
  destruct (RewriteNode_head s useEdge n t _ lists l2 Hread Ht Hlo Hl Hstop)
    as (s1 & t1 & Hlo1 & Hst & Hsr & Ht1 & Hu & _ & Hrun).
  set (use := useFor useEdge parentStack n) in *.
  pose proof (sameTrees_kept _ _ Hst) as Hkept.
  assert (is_Some (nodes s !! op1)) as Hnew.
  { eapply LinearOrder_exists; [exact Hlo|].
    rewrite !elem_of_app, elem_of_cons. tauto. }
  assert (Use_Def use s1 = Ok (n, s1)) as Hdef1.
  { eapply treesKept_Use_Def; [exact Hkept|]. by apply useFor_Def. }
  assert (is_Some (nodes s1 !! m_user use)) as Huser1.
  { destruct Huser as [u Hu']. destruct (Hkept _ _ Hu') as (u1 & Hu1 & _). by eexists. }
  assert (is_Some (nodes s1 !! op1)) as Hnew1.
  { destruct Hnew as [o Ho]. destruct (Hkept _ _ Ho) as (o1 & Ho1 & _). by eexists. }
  assert (argFixable s1 use n) as Hfix1
    by (eapply treesKept_argFixable; [exact Hkept|done|by eexists|done]).
  assert (LinearOrder s1 (l1 ++ op1 :: l1' ++ n :: l2)) as Hlo1' by relist Hlo1.
  destruct (Use_Splice_spec _ _ _ _ _ _ Hlo1') as (s1' & Hsp & Hlo1'' & Hst1' & _).
  destruct (Use_ReplaceWith_frame s1 s1' use n op1 Hdef1 Hsp Hst1' Huser1
              (ex_intro _ _ Ht1) Hnew1 Hfix1)
    as (use' & s2' & Hrun2' & Hlo2' & Hdef2' & Hlen2' & Hk2').
  assert (LinearOrder s2' ((l1 ++ l1' ++ [op1]) ++ n :: l2)) as Hlo2''
    by (pose proof (Hlo2' _ Hlo1'') as Hx; relist Hx).
  destruct (Range_Remove_spec _ _ _ _ Hlo2'') as (s2 & Hrun3 & Hlo2 & Hst2 & _).
  assert ((use' ← Use_ReplaceWith use op1 ; Range_Remove n ;; mret use') s1
          = Ok (use', s2)) as Hrun2.
  { by rewrite (bind_run _ _ _ _ _ Hrun2'), (bind_run _ _ _ _ _ Hrun3). }
  assert (Use_Def use' s2 = Ok (op1, s2)) as Hdef2
    by (eapply treesKept_Use_Def; [by apply sameTrees_kept|done]).
  assert (length (nodes s2) = length (nodes s1)) as Hlen2
    by (by rewrite (sameTrees_length _ _ Hst2)).
  assert (forall x tx, nodes s1 !! x = Some tx ->
            exists t', nodes s2 !! x = Some t'
              /\ gtOper t' = gtOper tx /\ gtType t' = gtType tx
              /\ (gtFlags t' = gtFlags tx
                  \/ (x = op1 /\ gtFlags t' = Z.lor (gtFlags tx) GTF_LATE_ARG
                      /\ hasFlag (flagsOf s1 n) GTF_LATE_ARG = true))) as Hk2.
  { intros x tx Hx. destruct (Hk2' _ _ Hx) as (tx1 & Hx1 & Hox & Htx & Hfx & _).
    destruct (sameTrees_lookup _ _ _ _ Hst2 Hx1) as (tx2 & Hx2 & Hux).
    exists tx2. split; [done|].
    by rewrite (unlinked_oper _ _ Hux), (unlinked_type _ _ Hux), (unlinked_flags _ _ Hux). }
  assert (m_edge use' = m_edge use) as Hedge by (by eapply Use_ReplaceWith_edge).
  destruct (Hk2 _ _ Ht1) as (t2 & Ht2 & Ho2 & _).
  exists s2. split; [|split; [relist Hlo2|split; [|split]]].
  - rewrite Hrun, (unlinked_oper _ _ Hu).
    destruct (decide (gtOper t = GT_LIST)) as [E|_];
      [destruct Hk as [Hk|Hk]; rewrite E in Hk; discriminate|].
    fold use.
    assert (RewriteNode_dispatch use n (gtOper t) s1 = Ok (use', s2)) as Hdisp.
    { destruct Hk as [E|E]; rewrite E; cbn [RewriteNode_dispatch];
        rewrite (bind_run _ _ _ _ _ (getNode_run _ _ _ Ht1));
        rewrite (unlinked_op1 _ _ Hu), Hop1; cbn [deref]; rewrite ?mret_bind;
        exact Hrun2. }
    rewrite (bind_run _ _ _ _ _ Hdisp).
    rewrite (bind_run _ _ _ _ _ (getNode_run _ _ _ Ht2)).
    rewrite Ho2, (unlinked_oper _ _ Hu).
    by destruct Hk as [-> | ->]; rewrite andb_false_r.
  - intros Hps. apply Use_Def_inv in Hdef2 as [_ Hdef2].
    rewrite Hedge in Hdef2. unfold use in Hdef2.
    rewrite (useFor_edge _ _ _ Hps) in Hdef2.
    destruct Hdef2 as (o & Ho & Hget).
    rewrite (readEdge_run _ _ _ Ho). by rewrite Hget.
  - by rewrite Hlen2, (sameTrees_length _ _ Hst).
  - intros x tx Hx. destruct (Hkept _ _ Hx) as (tx1 & Hx1 & Hux).
    destruct (Hk2 _ _ Hx1) as (tx2 & Hx2 & Hox & Htx & Hfx).
    exists tx2. split; [done|].
    rewrite Hox, Htx, (unlinked_oper _ _ Hux), (unlinked_type _ _ Hux),
      <- (unlinked_flags _ _ Hux).
    rewrite <- (treesKept_flagsOf _ _ _ Hkept (ex_intro _ _ Ht)). tauto.
Qed.

(** ** Vector-typed locals and indirections *)

Lemma set_nodes_id s n t :
  nodes s !! n = Some t -> set_nodes (<[n := t]> (nodes s)) s = s.
Proof. intros H. rewrite list_insert_id by done. by destruct s. Qed.

(** [FixupIfSIMDLocal] on a node that names a vector-typed local, with the
    vector feature on.  A local-field store becomes a store to the whole
    variable; a local-field read that covers the whole variable (no field
    of its own, offset zero, pointer-sized) becomes a read of the whole
    variable; both lose the use-assign bit and take the vector type of the
    size of the variable rounded up to the pointer size.  Any other
    local-field read is left exactly as it is, and a node of another
    kind is only retyped.  Only the node itself changes, and running the
    fixup a second time changes nothing. *)
Theorem FixupIfSIMDLocal_retypes_vector_locals s n t d :
  FEATURE_SIMD = true -> featureSIMD = true ->
  nodes s !! n = Some t ->
  lvaTable s !! gtLclNum (gtLcl t) = Some d -> varTypeIsSIMD (lvType d) = true ->
  let simdType := getSIMDTypeForSize (roundUp (lvExactSize d) TARGET_POINTER_SIZE) in
  let whole :=
    bool_decide (gtFieldSeq (gtLcl t) = FieldSeqNotAField)
    && bool_decide (gtLclOffs (gtLcl t) = 0)
    && bool_decide (gtType t = TYP_I_IMPL)
    && bool_decide (lvExactSize d = TARGET_POINTER_SIZE) in
  let retyped k :=
    set_gtType simdType
      (set_gtFlags (Z.land (gtFlags t) (Z.lnot GTF_VAR_USEASG)) (set_gtOper k t)) in
  let t' :=
    match gtOper t with
    | GT_LCL_FLD => if whole then retyped GT_LCL_VAR else t
    | GT_STORE_LCL_FLD => retyped GT_STORE_LCL_VAR
    | _ => set_gtType simdType t
    end in
  let s' := set_nodes (<[n := t']> (nodes s)) s in
  FixupIfSIMDLocal n s = Ok (tt, s')
  /\ FixupIfSIMDLocal n s' = Ok (tt, s').
Proof.
  intros HF Hf Ht Hd Hsimd simdType whole retyped t' s'.
  assert (forall s0 t0,
            nodes s0 !! n = Some t0 -> lvaTable s0 = lvaTable s ->
            gtLcl t0 = gtLcl t ->
            FixupIfSIMDLocal n s0
            = match gtOper t0 with
              | GT_LCL_FLD =>
                  if bool_decide (gtFieldSeq (gtLcl t0) = FieldSeqNotAField)
                     && bool_decide (gtLclOffs (gtLcl t0) = 0)
                     && bool_decide (gtType t0 = TYP_I_IMPL)
                     && bool_decide (lvExactSize d = TARGET_POINTER_SIZE)
                  then
                    Ok (tt, set_nodes
                              (<[n := set_gtType simdType
                                        (set_gtFlags (Z.land (gtFlags t0) (Z.lnot GTF_VAR_USEASG))
                                           (set_gtOper GT_LCL_VAR t0))]> (nodes s0)) s0)
                  else Ok (tt, s0)
              | GT_STORE_LCL_FLD =>
                  Ok (tt, set_nodes
                            (<[n := set_gtType simdType
                                      (set_gtFlags (Z.land (gtFlags t0) (Z.lnot GTF_VAR_USEASG))
                                         (set_gtOper GT_STORE_LCL_VAR t0))]> (nodes s0)) s0)
              | _ => Ok (tt, set_nodes (<[n := set_gtType simdType t0]> (nodes s0)) s0)
              end) as Hrun.
  { intros s0 t0 Ht0 Htab Hlcl. unfold FixupIfSIMDLocal. rewrite HF, Hf. cbn [negb].
    rewrite (bind_run _ _ _ _ _ (getNode_run _ _ _ Ht0)).
    rewrite (bind_run (query lvaTable) _ s0 (lvaTable s0) s0 eq_refl).
    rewrite Htab, Hlcl, Hd, Hsimd. cbn [negb]. fold simdType.
    unfold SetOper, setFlags, setType.
    destruct (gtOper t0);
      try (by rewrite (modNode_run _ _ _ _ Ht0)).
    - match goal with |- context [if ?c then _ else _] => destruct c end; [|done].
      repeat step.
      erewrite modNode_run by lookup_tac. norm. by rewrite ?list_insert_insert_eq.
    - repeat step.
      erewrite modNode_run by lookup_tac. norm. by rewrite ?list_insert_insert_eq. }
  split.
  - rewrite (Hrun s t Ht eq_refl eq_refl). subst s' t' whole retyped.
    destruct (gtOper t); try done.
    match goal with |- context [if ?c then _ else _] => destruct c end; [done|].
    by rewrite set_nodes_id.
  - assert (nodes s' !! n = Some t') as Ht' by (simpl; by eapply lookup_set_same).
    assert (gtLcl t' = gtLcl t) as Hl.
    { subst t' whole retyped. destruct (gtOper t); try done.
      by match goal with |- context [if ?c then _ else _] => destruct c end. }
    rewrite (Hrun s' t' Ht' eq_refl Hl).
    subst s' t' whole retyped. simpl.
    destruct (gtOper t) eqn:Hop; simpl; rewrite ?Hop, ?list_insert_insert_eq; try done.
    destruct (bool_decide (gtFieldSeq (gtLcl t) = FieldSeqNotAField)
              && bool_decide (gtLclOffs (gtLcl t) = 0)
              && bool_decide (gtType t = TYP_I_IMPL)
              && bool_decide (lvExactSize d = TARGET_POINTER_SIZE)) eqn:Hw; simpl.
    + done.
    + rewrite Hop, Hw. by rewrite ?list_insert_insert_eq, !list_insert_id.
Qed.

(** A vector-typed indirection over the address of a vector-typed local
    collapses to a read of that local: the indirection leaves the linear
    order, the address node becomes the load form of its kind with the
    vector type of the indirection, and the use is redirected to it. *)
Theorem simd_indirection_of_local_collapses s use tree t addr a l1 l2 keepBlk :
  FEATURE_SIMD = true -> featureSIMD = true ->
  LinearOrder s (l1 ++ tree :: l2) ->
  Use_Def use s = Ok (tree, s) ->
  is_Some (nodes s !! m_user use) -> argFixable s use tree ->
  nodes s !! tree = Some t ->
  OperIsIndir (gtOper t) = true -> varTypeIsSIMD (gtType t) = true ->
  gtOp1 t = Some addr -> nodes s !! addr = Some a ->
  OperIsLocalAddr (gtOper a) = true -> isAddrOfSIMDType s addr = true ->
  exists use' s' a',
    RewriteSIMDOperand use keepBlk s = Ok (use', s')
    /\ nodes s' !! addr = Some a'
    /\ loadForm (gtOper a) = Ok (gtOper a') /\ gtType a' = gtType t
    /\ LinearOrder s' (l1 ++ l2)
    /\ Use_Def use' s' = Ok (addr, s')
    /\ length (nodes s') = length (nodes s).
Proof.
  intros HF Hf Hlo Hdef Huser Hfix Ht Hind Hty Hop1 Ha Hla Hsa.
  assert (addr <> tree) as Hne.
  { intros ->. rewrite Ht in Ha. injection Ha as ->.
    by destruct (gtOper a). }
  destruct (Range_Remove_spec _ _ _ _ Hlo) as (s1 & Hrun1 & Hlo1 & Hst1 & Hsr1 & _).
  pose proof (sameTrees_kept _ _ Hst1) as Hkept.
  destruct (Hkept _ _ Ha) as (a1 & Ha1 & Hua).
  destruct (Hkept _ _ Ht) as (t1 & Ht1 & Hut).
  assert (exists k, loadForm (gtOper a) = Ok k /\ k <> GT_CALL) as (k & Hk & Hkc).
  { destruct (gtOper a); try discriminate Hla; eexists; split; done. }
  set (a2 := set_gtType (gtType t) (set_gtOper k a1)).
  set (s2 := set_nodes (<[addr := a2]> (nodes s1)) s1).
  assert (LinearOrder s2 (l1 ++ l2)) as Hlo2
    by by apply (LinearOrder_insert s1 addr a1 a2).
  assert (Use_Def use s2 = Ok (tree, s2)) as Hdef2.
  { apply (Use_Def_insert s1 addr a1 a2); [done|by intros []|].
    by eapply treesKept_Use_Def. }
  assert (is_Some (nodes s2 !! m_user use)) as Huser2.
  { destruct Huser as [u Hu]. destruct (Hkept _ _ Hu) as (u1 & Hu1 & _). simpl.
    destruct (decide (m_user use = addr)) as [->|Hx].
    - erewrite lookup_set_same by done. by eexists.
    - rewrite list_lookup_insert_ne by done. by eexists. }
  assert (nodes s2 !! tree = Some t1) as Ht2
    by (simpl; by rewrite list_lookup_insert_ne by done).
  assert (nodes s2 !! addr = Some a2) as Ha2 by (simpl; by eapply lookup_set_same).
  assert (argFixable s2 use tree) as Hfix2.
  { apply (argFixable_insert s1 addr a1 a2); try done.
    eapply treesKept_argFixable; [exact Hkept|done|by eexists|done]. }
  destruct (Range_Remove_unlinks _ _ _ _ _ Hlo Hrun1) as [(t1' & Ht1' & Hp1 & Hn1) Hhead].
  rewrite Ht1 in Ht1'. injection Ht1' as <-.
  assert (Use_Splice tree addr s2 = Ok (tt, s2)) as Hsp.
  { destruct Hlo2 as (_ & _ & Hr2). by eapply Use_Splice_gone. }
  destruct (Use_ReplaceWith_frame s2 s2 use tree addr Hdef2 Hsp (sameTrees_refl _) Huser2
              (ex_intro _ _ Ht2) (ex_intro _ _ Ha2) Hfix2)
    as (use' & s3 & Hrun3 & Hlo3 & Hdef3 & Hlen3 & Hk3).
  destruct (Hk3 _ _ Ha2) as (a3 & Ha3 & Ho3 & Hty3 & _).
  exists use', s3, a3. split.
  { unfold RewriteSIMDOperand. rewrite HF, Hf. cbn [negb].
    rewrite (bind_run _ _ _ _ _ Hdef).
    rewrite (bind_run _ _ _ _ _ (getNode_run _ _ _ Ht)).
    rewrite Hind, Hty, Hop1. cbn [negb deref]. rewrite mret_bind.
    rewrite (bind_run _ _ _ _ _ (getNode_run _ _ _ Ha)).
    rewrite (bind_run (query _) _ s (isAddrOfSIMDType s addr) s eq_refl).
    rewrite Hla, Hsa. cbn [andb].
    rewrite (bind_run _ _ _ _ _ Hrun1).
    rewrite (bind_run _ _ _ _ _ (getNode_run _ _ _ Ha1)).
    rewrite (unlinked_oper _ _ Hua), Hk.
    rewrite (bind_run (liftRes (Ok k)) _ s1 k s1 eq_refl).
    unfold SetOper, setType. repeat step. fold a2. fold s2. exact Hrun3. }
  split; [done|]. split; [by rewrite Ho3|]. split; [by rewrite Hty3|].
  split; [by apply Hlo3|]. split; [done|].
  rewrite Hlen3. simpl. by rewrite length_insert, (sameTrees_length _ _ Hst1).
Qed.

(** Where the indirection is not over a vector-typed local: with the
    vector feature off, or for a node that is not a vector-typed
    indirection, [RewriteSIMDOperand] does nothing; a vector-typed
    indirection over anything else is made a plain indirection in place,
    keeping its type, unless the caller asked to keep the block. *)
Theorem simd_indirection_is_coerced_in_place s use tree t keepBlk :
  Use_Def use s = Ok (tree, s) -> nodes s !! tree = Some t ->
  (FEATURE_SIMD && featureSIMD && OperIsIndir (gtOper t) && varTypeIsSIMD (gtType t)
   = false ->
   RewriteSIMDOperand use keepBlk s = Ok (use, s))
  /\ (forall addr a,
        FEATURE_SIMD && featureSIMD && OperIsIndir (gtOper t) && varTypeIsSIMD (gtType t)
        = true ->
        gtOp1 t = Some addr -> nodes s !! addr = Some a ->
        OperIsLocalAddr (gtOper a) && isAddrOfSIMDType s addr = false ->
        RewriteSIMDOperand use keepBlk s
        = Ok (use, if keepBlk then s
                   else set_nodes (<[tree := set_gtOper GT_IND t]> (nodes s)) s)).
Proof.
  intros Hdef Ht. split.
  - intros Hno. unfold RewriteSIMDOperand.
    destruct FEATURE_SIMD; [|done]. destruct featureSIMD; [|done]. cbn [negb].
    rewrite (bind_run _ _ _ _ _ Hdef).
    rewrite (bind_run _ _ _ _ _ (getNode_run _ _ _ Ht)).
    destruct (OperIsIndir (gtOper t)); [|done].
    destruct (varTypeIsSIMD (gtType t)); [discriminate|done].
  - intros addr a Hyes Hop1 Ha Hno. unfold RewriteSIMDOperand.
    destruct FEATURE_SIMD; [|done]. destruct featureSIMD; [|done]. cbn [negb].
    rewrite (bind_run _ _ _ _ _ Hdef).
    rewrite (bind_run _ _ _ _ _ (getNode_run _ _ _ Ht)).
    destruct (OperIsIndir (gtOper t)); [|done].
    destruct (varTypeIsSIMD (gtType t)); [|done]. cbn [negb].
    rewrite Hop1. cbn [deref]. rewrite mret_bind.
    rewrite (bind_run _ _ _ _ _ (getNode_run _ _ _ Ha)).
    rewrite (bind_run (query _) _ s (isAddrOfSIMDType s addr) s eq_refl).
    rewrite Hno. destruct keepBlk; [done|]. cbn [negb].
    unfold SetOper, setType. repeat step. reflexivity.
Qed.

(** ** The phase driver *)

Lemma forBlocks_empty k : forall i s,
  (forall b, i <= b < i + k ->
     exists bb, fgBBs s !! b = Some bb /\ bbTreeList bb = None) ->
  exists s',
    forBlocks (seq i k) s = Ok (tt, s')
    /\ nodes s' = nodes s /\ lvaTable s' = lvaTable s
    /\ compRationalIRForm s' = compRationalIRForm s
    /\ length (fgBBs s') = length (fgBBs s)
    /\ (forall b, i <= b < i + k ->
          fgBBs s' !! b
          = Some {| bbTreeList := None; bbLastNode := None; bbIsLIR := true |})
    /\ (forall b, ~ (i <= b < i + k) -> fgBBs s' !! b = fgBBs s !! b).
Proof.
  induction k as [|k IH]; intros i s Hempty.
  { exists s. simpl. repeat split; try done. intros b Hb. lia. }
  destruct (Hempty i ltac:(lia)) as (bb & Hbb & Hnone).
  set (s1 := set_fgBBs (<[i := {| bbTreeList := None; bbLastNode := None;
                                  bbIsLIR := true |}]> (fgBBs s))
               (set_m_block (Some i) s)).
  assert (rationalizeBlock i s = Ok (tt, s1)) as Hrun.
  { unfold rationalizeBlock, modify, getBlock, MakeLIR, modBlock, mbind, M_bind. simpl.
    rewrite Hbb. simpl. rewrite Hnone. simpl. by rewrite Hbb. }
  destruct (IH (S i) s1) as (s2 & Hrun2 & Hn & Hl & Hc & Hlen & Hin & Hout).
  { intros b Hb. destruct (Hempty b ltac:(lia)) as (bb' & Hbb' & Hnone').
    exists bb'. split; [|done]. simpl. rewrite list_lookup_insert_ne by lia. done. }
  exists s2. split; [|split; [done|split; [done|split; [done|split; [|split]]]]].
  - cbn [seq forBlocks]. by rewrite (bind_run _ _ _ _ _ Hrun).
  - rewrite Hlen. simpl. by rewrite length_insert.
  - intros b Hb. destruct (decide (b = i)) as [->|Hne].
    + rewrite Hout by lia. simpl. apply list_lookup_insert_eq.
      by eapply lookup_lt_Some.
    + apply Hin. lia.
  - intros b Hb. rewrite Hout by lia. simpl.
    rewrite list_lookup_insert_ne by lia. done.
Qed.

(** A method whose blocks hold no statements: the phase returns, every
    block ends as an empty range in linear form, the nodes and the
    variable table are untouched, and the method is marked as being in
    linear form. *)
Theorem DoPhase_on_blocks_without_statements s :
  Forall (fun bb => bbTreeList bb = None) (fgBBs s) ->
  exists s',
    DoPhase s = Ok (tt, s')
    /\ fgBBs s'
       = replicate (length (fgBBs s))
           {| bbTreeList := None; bbLastNode := None; bbIsLIR := true |}
    /\ nodes s' = nodes s /\ lvaTable s' = lvaTable s
    /\ compRationalIRForm s' = true.
Proof.
  intros Hall.
  destruct (forBlocks_empty (length (fgBBs s)) 0 (set_m_block None s))
    as (s1 & Hrun & Hn & Hl & _ & Hlen & Hin & _).
  { intros b Hb. simpl. destruct (lookup_lt_is_Some_2 (fgBBs s) b ltac:(lia)) as [bb Hbb].
    exists bb. split; [done|]. rewrite Forall_forall in Hall.
    apply Hall. by eapply list_elem_of_lookup_2. }
  exists (set_compRationalIRForm true s1). split; [|split; [|done]].
  - unfold DoPhase, modify. rewrite ?bind_assoc.
    rewrite (bind_run _ _ s tt (set_m_block None s) eq_refl).
    rewrite (bind_run (query fgBBs) _ (set_m_block None s) (fgBBs s)
               (set_m_block None s) eq_refl).
    by rewrite (bind_run _ _ _ _ _ Hrun).
  - simpl. apply list_eq. intros b. simpl in Hlen.
    destruct (decide (b < length (fgBBs s))) as [Hb|Hb].
    + rewrite Hin by lia. symmetry. by apply lookup_replicate_2.
    + rewrite (lookup_ge_None_2 (fgBBs s1)) by lia.
      symmetry. apply lookup_ge_None_2. rewrite length_replicate. lia.
Qed.

(** ** What the whole phase preserves

    A relation between the states before and after that every primitive
    update respects is respected by every function of the phase. *)

Section Preserved.
Variable R : Compiler -> Compiler -> Prop.
Hypothesis R_refl : forall s, R s s.
Hypothesis R_trans : forall s1 s2 s3, R s1 s2 -> R s2 s3 -> R s1 s3.
Hypothesis R_modNode : forall n f, Pres R (modNode n f).
Hypothesis R_allocNode : forall t, Pres R (allocNode t).
Hypothesis R_decRefCnt : forall lclNum, Pres R (decRefCnt lclNum).
Hypothesis R_modBlock : forall f,
  (forall bb, bbIsLIR bb = true -> bbIsLIR (f bb) = true) -> Pres R (modBlock f).

#[local] Hint Resolve R_refl R_trans R_modNode R_allocNode R_decRefCnt : pres.

Lemma PresR_SetOper n k : Pres R (SetOper n k).
Proof using All. apply R_modNode. Qed.
Lemma PresR_setType n k : Pres R (setType n k).
Proof using All. apply R_modNode. Qed.
Lemma PresR_setFlags n f : Pres R (setFlags n f).
Proof using All. apply R_modNode. Qed.
Lemma PresR_setPrev n p : Pres R (setPrev n p).
Proof using All. apply R_modNode. Qed.
Lemma PresR_setNext n p : Pres R (setNext n p).
Proof using All. apply R_modNode. Qed.
Lemma PresR_writeEdge e v : Pres R (writeEdge e v).
Proof using All. apply R_modNode. Qed.
Lemma PresR_setArgEntryNode c i n : Pres R (setArgEntryNode c i n).
Proof using All. apply R_modNode. Qed.
Lemma PresR_setFirstNode n : Pres R (setFirstNode n).
Proof using All. by apply R_modBlock. Qed.
Lemma PresR_setLastNode n : Pres R (setLastNode n).
Proof using All. by apply R_modBlock. Qed.
Lemma PresR_MakeLIR f l : Pres R (MakeLIR f l).
Proof using All. by apply R_modBlock. Qed.

#[local] Hint Resolve PresR_SetOper PresR_setType PresR_setFlags PresR_setPrev
  PresR_setNext PresR_writeEdge PresR_setArgEntryNode PresR_setFirstNode
  PresR_setLastNode PresR_MakeLIR : pres.

Lemma PresR_readEdge e : Pres R (readEdge e).
Proof using All. unfold readEdge. pres_auto. Qed.
Lemma PresR_FirstNode : Pres R FirstNode.
Proof using All. by apply Pres_FirstNode. Qed.
Lemma PresR_LastNode : Pres R LastNode.
Proof using All. by apply Pres_LastNode. Qed.
Lemma PresR_Use_Def use : Pres R (Use_Def use).
Proof using All. unfold Use_Def. pose proof PresR_readEdge. pres_auto. Qed.
Lemma PresR_copyFlags dst src mask : Pres R (copyFlags dst src mask).
Proof using All. unfold copyFlags. pres_auto. Qed.
Lemma PresR_effectsOf p : Pres R (effectsOf p).
Proof using All. unfold effectsOf. pres_auto. Qed.

#[local] Hint Resolve PresR_readEdge PresR_FirstNode PresR_LastNode PresR_Use_Def
  PresR_copyFlags PresR_effectsOf : pres.

Lemma PresR_newOperNode oper type op1 op2 extra :
  Pres R (newOperNode oper type op1 op2 extra).
Proof using All. unfold newOperNode. pres_auto. Qed.

Lemma PresR_Range_Remove n : Pres R (Range_Remove n).
Proof using All. unfold Range_Remove. pres_auto. Qed.
Lemma PresR_FinishInsertBefore ip f l : Pres R (FinishInsertBefore ip f l).
Proof using All. unfold FinishInsertBefore. pres_auto. Qed.
Lemma PresR_FinishInsertAfter ip f l : Pres R (FinishInsertAfter ip f l).
Proof using All. unfold FinishInsertAfter. pres_auto. Qed.

#[local] Hint Resolve PresR_newOperNode PresR_Range_Remove PresR_FinishInsertBefore
  PresR_FinishInsertAfter : pres.

Lemma PresR_Range_InsertBefore ip n : Pres R (Range_InsertBefore ip n).
Proof using All. apply PresR_FinishInsertBefore. Qed.
Lemma PresR_Range_InsertBefore2 ip n1 n2 : Pres R (Range_InsertBefore2 ip n1 n2).
Proof using All. unfold Range_InsertBefore2. pres_auto. Qed.
Lemma PresR_Range_InsertAfter ip n : Pres R (Range_InsertAfter ip n).
Proof using All. apply PresR_FinishInsertAfter. Qed.

Lemma PresR_Range_GetTreeRange root : Pres R (Range_GetTreeRange root).
Proof using All. intros s a s' H. apply Range_GetTreeRange_state in H as ->. apply R_refl. Qed.

Lemma PresR_lvaDecRefCnts n : Pres R (lvaDecRefCnts n).
Proof using All. unfold lvaDecRefCnts. pres_auto. Qed.

#[local] Hint Resolve PresR_Range_InsertBefore PresR_Range_InsertBefore2
  PresR_Range_InsertAfter PresR_Range_GetTreeRange PresR_lvaDecRefCnts : pres.

Lemma PresR_decRefCntsInRange fuel : forall cur last,
  Pres R (decRefCntsInRange fuel cur last).
Proof using All.
  induction fuel as [|fuel IH]; intros cur last; simpl; [apply Pres_abort|]. pres_auto.
Qed.

Lemma PresR_Range_Delete r : Pres R (Range_Delete r).
Proof using All. unfold Range_Delete. pose proof PresR_decRefCntsInRange. pres_auto. Qed.

Lemma PresR_isNodeCallArg stack : Pres R (isNodeCallArg stack).
Proof using All.
  intros s a s' H. unfold isNodeCallArg in H.
  apply isNodeCallArg_loop_state in H as ->. apply R_refl.
Qed.

Lemma PresR_gtArgEntryByNode c n : Pres R (gtArgEntryByNode c n).
Proof using All. unfold gtArgEntryByNode. pres_auto. Qed.

#[local] Hint Resolve PresR_Range_Delete PresR_isNodeCallArg PresR_gtArgEntryByNode : pres.

Lemma PresR_fgFixupArgTabEntryPtr c o n : Pres R (fgFixupArgTabEntryPtr c o n).
Proof using All. unfold fgFixupArgTabEntryPtr. pres_auto. Qed.

#[local] Hint Resolve PresR_fgFixupArgTabEntryPtr : pres.

Lemma PresR_fgFixupIfCallArg stack o n : Pres R (fgFixupIfCallArg stack o n).
Proof using All. unfold fgFixupIfCallArg. pres_auto. Qed.

Lemma PresR_isLinked n : Pres R (isLinked n).
Proof using All. unfold isLinked. pres_auto. Qed.

#[local] Hint Resolve PresR_isLinked : pres.

Lemma PresR_Use_Splice old new : Pres R (Use_Splice old new).
Proof using All. unfold Use_Splice, when. pres_auto. Qed.

Lemma PresR_Use_Redirect use n : Pres R (Use_Redirect use n).
Proof using All. unfold Use_Redirect. pres_auto. Qed.

#[local] Hint Resolve PresR_Use_Splice PresR_Use_Redirect : pres.

Lemma PresR_Use_ReplaceWith use n : Pres R (Use_ReplaceWith use n).
Proof using All. unfold Use_ReplaceWith. pres_auto. Qed.

#[local] Hint Resolve PresR_fgFixupIfCallArg PresR_Use_ReplaceWith : pres.

Lemma PresR_RewriteSIMDOperand use keepBlk : Pres R (RewriteSIMDOperand use keepBlk).
Proof using All. unfold RewriteSIMDOperand. pres_auto. Qed.

Lemma PresR_FixupIfSIMDLocal n : Pres R (FixupIfSIMDLocal n).
Proof using All. unfold FixupIfSIMDLocal. pres_auto. Qed.

Lemma PresR_StoreLclCore a l v k : Pres R (RewriteAssignmentIntoStoreLclCore a l v k).
Proof using All. unfold RewriteAssignmentIntoStoreLclCore. pres_auto. Qed.

Lemma PresR_SIMDInit a l v : Pres R (RewriteAssignment_SIMDInit a l v).
Proof using All. unfold RewriteAssignment_SIMDInit. pres_auto. Qed.

#[local] Hint Resolve PresR_RewriteSIMDOperand PresR_FixupIfSIMDLocal PresR_StoreLclCore
  PresR_SIMDInit : pres.

Lemma PresR_RewriteAssignment use : Pres R (RewriteAssignment use).
Proof using All. unfold RewriteAssignment. pres_auto. Qed.

Lemma PresR_RewriteAddress use : Pres R (RewriteAddress use).
Proof using All. unfold RewriteAddress. pres_auto. Qed.

Lemma PresR_removePrecedingLists fuel n : Pres R (removePrecedingLists fuel n).
Proof using All. induction fuel as [|fuel IH]; simpl; [apply Pres_abort|]. pres_auto. Qed.

Lemma PresR_RewriteComma use n : Pres R (RewriteComma use n).
Proof using All. unfold RewriteComma. pres_auto. Qed.

Lemma PresR_RewriteClsVar use n : Pres R (RewriteClsVar use n).
Proof using All. unfold RewriteClsVar. pres_auto. Qed.

Lemma PresR_RewriteBlkObj use n : Pres R (RewriteBlkObj use n).
Proof using All. unfold RewriteBlkObj. pres_auto. Qed.

Lemma PresR_RewriteSIMDNode use n : Pres R (RewriteSIMDNode use n).
Proof using All. unfold RewriteSIMDNode. pres_auto. Qed.

#[local] Hint Resolve PresR_RewriteAssignment PresR_RewriteAddress
  PresR_removePrecedingLists PresR_RewriteComma PresR_RewriteClsVar PresR_RewriteBlkObj
  PresR_RewriteSIMDNode : pres.

Lemma PresR_RewriteNode_dispatch use n oper : Pres R (RewriteNode_dispatch use n oper).
Proof using All. unfold RewriteNode_dispatch. pres_auto. Qed.

#[local] Hint Resolve PresR_RewriteNode_dispatch : pres.

Lemma PresR_RewriteNode e stack : Pres R (RewriteNode e stack).
Proof using All. unfold RewriteNode. pres_auto. Qed.

Lemma PresR_linkSeq seq : forall prev, Pres R (linkSeq prev seq).
Proof using All. induction seq as [|n rest IH]; intros prev; simpl; pres_auto. Qed.

Lemma PresR_propagateCallFlags call ancestors : Pres R (propagateCallFlags call ancestors).
Proof using All. induction ancestors as [|n rest IH]; simpl; pres_auto. Qed.

Lemma PresR_fgGetFirstNode n : Pres R (fgGetFirstNode n).
Proof using All. unfold fgGetFirstNode. pres_auto. Qed.

Lemma PresR_gtNewCallNode h ty args : Pres R (gtNewCallNode h ty args).
Proof using All. unfold gtNewCallNode. pres_auto. Qed.

Lemma PresR_fgMorphArgs call : Pres R (fgMorphArgs call).
Proof using All. unfold fgMorphArgs. pres_auto. Qed.

Lemma PresR_fgSetTreeSeq tree prev : Pres R (fgSetTreeSeq tree prev).
Proof using All. unfold fgSetTreeSeq. pose proof PresR_linkSeq. pres_auto. Qed.

#[local] Hint Resolve PresR_RewriteNode PresR_propagateCallFlags PresR_fgGetFirstNode
  PresR_gtNewCallNode PresR_fgMorphArgs PresR_fgSetTreeSeq : pres.

Lemma PresR_RewriteNodeAsCall use stack root h args :
  Pres R (RewriteNodeAsCall use stack root h args).
Proof using All. unfold RewriteNodeAsCall. pres_auto. Qed.

Lemma PresR_RewriteIntrinsicAsUserCall use stack root :
  Pres R (RewriteIntrinsicAsUserCall use stack root).
Proof using All.
  unfold RewriteIntrinsicAsUserCall, gtNewArgList1, gtNewArgList2.
  pose proof PresR_RewriteNodeAsCall. pres_auto.
Qed.

Lemma PresR_prepassVisitor root e stack : Pres R (prepassVisitor root e stack).
Proof using All. unfold prepassVisitor. pose proof PresR_RewriteIntrinsicAsUserCall. pres_auto. Qed.

Lemma PresR_rewriteVisitor e stack : Pres R (rewriteVisitor e stack).
Proof using All. unfold rewriteVisitor. pres_auto. Qed.

Lemma PresR_forEdges f es :
  (forall e st, Pres R (f e st)) -> forall st, Pres R (forEdges f es st).
Proof using All. intros Hf. induction es as [|e es IH]; intros st; simpl; pres_auto. Qed.

Lemma PresR_fgWalkTreePostRec visitor fuel :
  (forall e st, Pres R (visitor e st)) ->
  forall e st, Pres R (fgWalkTreePostRec fuel visitor e st).
Proof using All.
  intros Hv. induction fuel as [|fuel IH]; intros e st; simpl; [apply Pres_abort|].
  pres_auto. apply PresR_forEdges. pres_auto.
Qed.

Lemma PresR_fgWalkTreePost e visitor :
  (forall e st, Pres R (visitor e st)) -> Pres R (fgWalkTreePost e visitor).
Proof using All.
  intros Hv. unfold fgWalkTreePost. pose proof (PresR_fgWalkTreePostRec visitor).
  pres_auto.
Qed.

Lemma PresR_linkStatements fuel : forall stmt last,
  Pres R (linkStatements fuel stmt last).
Proof using All.
  pose proof PresR_fgWalkTreePost. pose proof PresR_prepassVisitor.
  induction fuel as [|fuel IH]; intros stmt last; simpl; pres_auto.
Qed.

Lemma PresR_rewriteStatements fuel : forall stmt, Pres R (rewriteStatements fuel stmt).
Proof using All.
  pose proof PresR_fgWalkTreePost. pose proof PresR_rewriteVisitor.
  induction fuel as [|fuel IH]; intros stmt; simpl; pres_auto.
Qed.

Hypothesis R_set_m_block : forall b, Pres R (modify (set_m_block b)).
Lemma PresR_rationalizeBlock b : Pres R (rationalizeBlock b).
Proof using All.
  unfold rationalizeBlock.
  pose proof PresR_linkStatements. pose proof PresR_rewriteStatements. pres_auto.
Qed.

Lemma PresR_forBlocks bs : Pres R (forBlocks bs).
Proof using All.
  pose proof PresR_rationalizeBlock. induction bs as [|b bs IH]; simpl; pres_auto.
Qed.

Hypothesis R_set_flag : forall v, Pres R (modify (set_compRationalIRForm v)).

Lemma PresR_DoPhase : Pres R DoPhase.
Proof using All. unfold DoPhase. pose proof PresR_forBlocks. pres_auto. Qed.

End Preserved.

(** ** Blocks and variables across the phase *)

Lemma blocksKept_refl s : blocksKept s s.
Proof. split; [done|]. split; [done|]. intros b bb Hb. by exists bb. Qed.

Lemma blocksKept_trans s1 s2 s3 : blocksKept s1 s2 -> blocksKept s2 s3 -> blocksKept s1 s3.
Proof.
  intros (Hm1 & Hl1 & H1) (Hm2 & Hl2 & H2).
  split; [congruence|]. split; [congruence|].
  intros b bb Hb. destruct (H1 _ _ Hb) as (bb1 & Hb1 & Hlir1 & Heq1).
  destruct (H2 _ _ Hb1) as (bb2 & Hb2 & Hlir2 & Heq2).
  exists bb2. split; [done|]. split; [tauto|].
  intros Hne. rewrite Heq2, Heq1; [done|done|congruence].
Qed.

Lemma blocksKept_same s s' :
  fgBBs s' = fgBBs s -> m_block s' = m_block s -> blocksKept s s'.
Proof.
  intros Hb Hm. split; [done|]. split; [by rewrite Hb|].
  intros b bb Hbb. exists bb. by rewrite Hb.
Qed.

Lemma modBlock_inv f s u s' :
  modBlock f s = Ok (u, s') ->
  exists b bb, m_block s = Some b /\ fgBBs s !! b = Some bb
               /\ s' = set_fgBBs (<[b := f bb]> (fgBBs s)) s.
Proof.
  unfold modBlock. destruct (m_block s) as [b|]; [|done].
  destruct (fgBBs s !! b) as [bb|] eqn:Hbb; [|done].
  intros [= <- <-]. by exists b, bb.
Qed.

Lemma Pres_blocks_modNode n f : Pres blocksKept (modNode n f).
Proof.
  intros s a s' H. apply modNode_inv in H as (t & _ & ->). by apply blocksKept_same.
Qed.

Lemma Pres_blocks_allocNode t : Pres blocksKept (allocNode t).
Proof. intros s a s' [= <- <-]. by apply blocksKept_same. Qed.

Lemma Pres_blocks_decRefCnt lclNum : Pres blocksKept (decRefCnt lclNum).
Proof.
  intros s a s' H. unfold decRefCnt in H. destruct (lvaTable s !! lclNum); [|done].
  injection H as <- <-. by apply blocksKept_same.
Qed.

Lemma Pres_blocks_modBlock f :
  (forall bb, bbIsLIR bb = true -> bbIsLIR (f bb) = true) -> Pres blocksKept (modBlock f).
Proof.
  intros Hf s a s' H. apply modBlock_inv in H as (b & bb & Hm & Hbb & ->).
  split; [done|]. split; [simpl; by rewrite length_insert|].
  intros b' bb' Hb'. simpl. destruct (decide (b' = b)) as [->|Hne].
  - rewrite Hbb in Hb'. injection Hb' as <-. exists (f bb).
    split; [apply list_lookup_insert_eq; by eapply lookup_lt_Some|].
    split; [apply Hf|]. intros Hx. by rewrite Hm in Hx.
  - exists bb'. by rewrite list_lookup_insert_ne by done.
Qed.

Lemma varsKept_refl s : varsKept s s.
Proof. split; [done|]. intros i d Hd. exists d. repeat split; try done. Qed.

Lemma varsKept_trans s1 s2 s3 : varsKept s1 s2 -> varsKept s2 s3 -> varsKept s1 s3.
Proof.
  intros (Hl1 & H1) (Hl2 & H2). split; [congruence|].
  intros i d Hd. destruct (H1 _ _ Hd) as (d1 & Hd1 & Ht1 & Hs1 & Hp1 & Hr1).
  destruct (H2 _ _ Hd1) as (d2 & Hd2 & Ht2 & Hs2 & Hp2 & Hr2).
  exists d2. split; [done|]. repeat split; try congruence. lia.
Qed.

Lemma varsKept_same s s' : lvaTable s' = lvaTable s -> varsKept s s'.
Proof. intros H. unfold varsKept. rewrite H. apply varsKept_refl. Qed.

Lemma Pres_vars_modNode n f : Pres varsKept (modNode n f).
Proof.
  intros s a s' H. apply modNode_inv in H as (t & _ & ->). by apply varsKept_same.
Qed.

Lemma Pres_vars_allocNode t : Pres varsKept (allocNode t).
Proof. intros s a s' [= <- <-]. by apply varsKept_same. Qed.

Lemma Pres_vars_modBlock f : Pres varsKept (modBlock f).
Proof.
  intros s a s' H. apply modBlock_inv in H as (b & bb & _ & _ & ->).
  by apply varsKept_same.
Qed.

Lemma Pres_vars_decRefCnt lclNum : Pres varsKept (decRefCnt lclNum).
Proof.
  intros s a s' H. unfold decRefCnt in H.
  destruct (lvaTable s !! lclNum) as [d|] eqn:Hd; [|done].
  injection H as <- <-. split; [simpl; by rewrite length_insert|].
  intros i d0 Hd0. simpl. destruct (decide (i = lclNum)) as [->|Hne].
  - rewrite Hd in Hd0. injection Hd0 as <-. eexists.
    split; [apply list_lookup_insert_eq; by eapply lookup_lt_Some|].
    simpl. repeat split; try done. lia.
  - exists d0. rewrite list_lookup_insert_ne by done. repeat split; try done.
Qed.

Lemma Pres_vars_modify f : (forall s, lvaTable (f s) = lvaTable s) -> Pres varsKept (modify f).
Proof. intros Hf s a s' [= <- <-]. by apply varsKept_same. Qed.

(** Whatever node [RewriteNode] visits and whatever rule it applies, it
    works within the current block and never gives a variable more
    references: the current block stays the current block, no block is
    added or dropped, the other blocks are untouched, a block in linear
    form stays in linear form; the variable table keeps its variables
    with their types and sizes, and no reference count goes up; the mark
    of the method being in linear form is not touched. *)
Theorem RewriteNode_stays_in_its_block useEdge parentStack s s' :
  RewriteNode useEdge parentStack s = Ok (tt, s') ->
  blocksKept s s' /\ varsKept s s'
  /\ compRationalIRForm s' = compRationalIRForm s.
Proof.
  intros H. split; [|split].
  - revert H. apply PresR_RewriteNode;
      eauto using blocksKept_refl, blocksKept_trans, Pres_blocks_modNode,
        Pres_blocks_allocNode, Pres_blocks_decRefCnt, Pres_blocks_modBlock.
  - revert H. apply PresR_RewriteNode;
      eauto using varsKept_refl, varsKept_trans, Pres_vars_modNode,
        Pres_vars_allocNode, Pres_vars_decRefCnt, Pres_vars_modBlock.
  - revert H.
    apply (PresR_RewriteNode (fun s s' => compRationalIRForm s' = compRationalIRForm s));
      try done.
    + intros s1 s2 s3 H1 H2. congruence.
    + intros n f s1 a s2 H. by apply modNode_inv in H as (t & _ & ->).
    + by intros t s1 a s2 [= <- <-].
    + intros l s1 a s2 H. unfold decRefCnt in H. destruct (lvaTable s1 !! l); [|done].
      by injection H as <- <-.
    + intros f _ s1 a s2 H. by apply modBlock_inv in H as (b & bb & _ & _ & ->).
Qed.

Lemma rationalizeBlock_blocks b s s' :
  rationalizeBlock b s = Ok (tt, s') ->
  length (fgBBs s') = length (fgBBs s)
  /\ (exists bb, fgBBs s' !! b = Some bb /\ bbIsLIR bb = true)
  /\ (forall b', b' <> b -> fgBBs s' !! b' = fgBBs s !! b').
Proof.
  assert (forall {A} (m : M A), Pres blocksKept m ->
            forall s0 a s1, m s0 = Ok (a, s1) -> blocksKept s0 s1) as Huse by auto.
  assert (forall fuel stmt last, Pres blocksKept (linkStatements fuel stmt last)) as Hlink.
  { intros. apply PresR_linkStatements;
      eauto using blocksKept_refl, blocksKept_trans, Pres_blocks_modNode,
        Pres_blocks_allocNode, Pres_blocks_decRefCnt, Pres_blocks_modBlock. }
  assert (forall fuel stmt, Pres blocksKept (rewriteStatements fuel stmt)) as Hrw.
  { intros. apply PresR_rewriteStatements;
      eauto using blocksKept_refl, blocksKept_trans, Pres_blocks_modNode,
        Pres_blocks_allocNode, Pres_blocks_decRefCnt, Pres_blocks_modBlock. }
  unfold rationalizeBlock. intros H.
  apply bind_inv in H as ([] & s0 & H0 & H). injection H0 as <-.
  apply bind_inv in H as (block & s1 & H1 & H).
  pose proof (Pres_getBlock eq (fun s => eq_refl) _ _ _ H1) as H1'. subst s1. clear H1.
  assert (forall s1 s2 f l,
            blocksKept (set_m_block (Some b) s) s1 ->
            MakeLIR f l s1 = Ok (tt, s2) ->
            length (fgBBs s2) = length (fgBBs s)
            /\ (exists bb, fgBBs s2 !! b = Some bb /\ bbIsLIR bb = true)
            /\ (forall b', b' <> b -> fgBBs s2 !! b' = fgBBs s !! b')
            /\ m_block s2 = Some b) as Hmk.
  { intros s1 s2 f l (Hm & Hl & Hk) Hrun. simpl in *.
    apply modBlock_inv in Hrun as (b0 & bb0 & Hm0 & Hbb0 & ->).
    rewrite Hm in Hm0. injection Hm0 as <-. simpl.
    split; [by rewrite length_insert|]. split; [|split; [|done]].
    - eexists. split; [apply list_lookup_insert_eq; by eapply lookup_lt_Some|done].
    - intros b' Hne. rewrite list_lookup_insert_ne by done.
      destruct (fgBBs s !! b') as [bb'|] eqn:Hb'.
      + destruct (Hk _ _ Hb') as (bb1 & Hb1 & _ & Heq). rewrite Hb1, Heq; [done|congruence].
      + apply lookup_ge_None. rewrite Hl. by apply lookup_ge_None. }
  destruct (bbTreeList block) as [firstStatement|].
  - apply bind_inv in H as (fs & s1 & H1 & H). apply getNode_inv in H1 as [-> _].
    apply bind_inv in H as (ns & s1 & H1 & H). injection H1 as <- <-.
    apply bind_inv in H as ([] & s1 & H1 & H). apply Huse in H1; [|apply Hlink].
    apply bind_inv in H as (fs' & s2 & H2 & H). apply getNode_inv in H2 as [-> _].
    apply bind_inv in H as (lst & s2 & H2 & H). apply deref_inv in H2 as [_ ->].
    apply bind_inv in H as (ls & s2 & H2 & H). apply getNode_inv in H2 as [-> _].
    apply bind_inv in H as ([] & s2 & H2 & H).

    destruct (Hmk _ _ _ _ H1 H2) as (Hl2 & (bb2 & Hbb2 & Hlir2) & Ho2 & Hm2).
    apply bind_inv in H as (ns' & s3 & H3 & H). injection H3 as <- <-.
    apply Huse in H; [|apply Hrw]. destruct H as (Hm3 & Hl3 & Hk3).
    split; [congruence|]. split.
    + destruct (Hk3 _ _ Hbb2) as (bb3 & Hbb3 & Hlir3 & _). exists bb3. split; [done|tauto].
    + intros b' Hne. rewrite <- (Ho2 b' Hne).
      destruct (fgBBs s2 !! b') as [bb'|] eqn:Hb'.
      * destruct (Hk3 _ _ Hb') as (bb1 & Hb1 & _ & Heq). rewrite Hb1, Heq; [done|congruence].
      * apply lookup_ge_None. rewrite Hl3. by apply lookup_ge_None.
  - destruct (Hmk _ _ _ _ (blocksKept_refl _) H) as (Hl2 & Hb2 & Ho2 & _). done.
Qed.

Lemma forBlocks_blocks k : forall i s s',
  forBlocks (seq i k) s = Ok (tt, s') ->
  length (fgBBs s') = length (fgBBs s)
  /\ (forall b, i <= b < i + k -> exists bb, fgBBs s' !! b = Some bb /\ bbIsLIR bb = true)
  /\ (forall b, ~ (i <= b < i + k) -> fgBBs s' !! b = fgBBs s !! b)
  /\ compRationalIRForm s' = compRationalIRForm s.
Proof.
  induction k as [|k IH]; intros i s s' H.
  { injection H as <-. repeat split; try done. intros b Hb. lia. }
  cbn [seq forBlocks] in H. apply bind_inv in H as ([] & s1 & H1 & H).
  assert (compRationalIRForm s1 = compRationalIRForm s) as Hflag.
  { revert H1.
    apply (PresR_rationalizeBlock (fun s s' => compRationalIRForm s' = compRationalIRForm s));
      try done.
    - intros x1 x2 x3 E1 E2. congruence.
    - intros n f x1 a x2 Hx. by apply modNode_inv in Hx as (t & _ & ->).
    - by intros t x1 a x2 [= <- <-].
    - intros l x1 a x2 Hx. unfold decRefCnt in Hx. destruct (lvaTable x1 !! l); [|done].
      by injection Hx as <- <-.
    - intros f _ x1 a x2 Hx. by apply modBlock_inv in Hx as (b & bb & _ & _ & ->).
    - by intros b x1 a x2 [= <- <-]. }
  apply rationalizeBlock_blocks in H1 as (Hl1 & (bb1 & Hbb1 & Hlir1) & Ho1).
  apply IH in H as (Hl2 & Hin2 & Hout2 & Hflag2).
  split; [congruence|]. split; [|split; [|congruence]].
  - intros b Hb. destruct (decide (b = i)) as [->|Hne].
    + exists bb1. rewrite Hout2 by lia. done.
    + apply Hin2. lia.
  - intros b Hb. rewrite Hout2 by lia. apply Ho1. lia.
Qed.

(** Whenever the phase returns, every block of the method is in linear
    form, the method has the blocks it had, and it is marked as being in
    linear form. *)
Theorem DoPhase_establishes_linear_form s s' :
  DoPhase s = Ok (tt, s') ->
  compRationalIRForm s' = true
  /\ length (fgBBs s') = length (fgBBs s)
  /\ Forall (fun bb => bbIsLIR bb = true) (fgBBs s').
Proof.
  unfold DoPhase. intros H.
  apply bind_inv in H as ([] & s0 & H0 & H). injection H0 as <-.
  apply bind_inv in H as (bbs & s1 & H1 & H). injection H1 as <- <-.
  apply bind_inv in H as ([] & s1 & H1 & H). injection H as <-.
  apply forBlocks_blocks in H1 as (Hl & Hin & _ & _). simpl in *.
  split; [done|]. split; [done|].
  apply Forall_lookup. intros b bb Hbb.
  destruct (Hin b) as (bb' & Hbb' & Hlir).
  { apply lookup_lt_Some in Hbb. lia. }
  rewrite Hbb in Hbb'. by injection Hbb' as <-.
Qed.

(** Whenever the phase returns, the variable table has the variables it
    had, each with its type, size and promotion class, and no reference
    count is higher than before: the phase only ever drops references. *)
Theorem DoPhase_only_drops_references s s' :
  DoPhase s = Ok (tt, s') -> varsKept s s'.
Proof.
  apply PresR_DoPhase;
    eauto using varsKept_refl, varsKept_trans, Pres_vars_modNode,
      Pres_vars_allocNode, Pres_vars_decRefCnt, Pres_vars_modBlock, Pres_vars_modify.
Qed.

(** ** The vector-initialization step of the assignment rule *)

(** Linking a detached node [k] between [iv] and its successor [loc] by
    hand is the insertion of [k] before [loc]. *)
Lemma splice_before_is_insert s iv k loc tiv tk tloc :
  nodes s !! iv = Some tiv -> nodes s !! k = Some tk -> nodes s !! loc = Some tloc ->
  iv <> k -> iv <> loc -> k <> loc -> gtPrev tloc = Some iv ->
  (setNext iv (Some k) ;; setPrev k (Some iv) ;; setNext k (Some loc) ;;
   setPrev loc (Some k)) s
  = Range_InsertBefore (Some loc) k s.
Proof.
  intros Hiv Hk Hloc H1 H2 H3 Hp.
  unfold Range_InsertBefore, FinishInsertBefore, setNext, setPrev.
  rewrite (bind_run _ _ _ _ _ (getNode_run _ _ _ Hloc)). rewrite Hp.
  repeat step.
  erewrite (modNode_run _ loc) by lookup_tac.
  symmetry. repeat step. erewrite (modNode_run _ loc) by lookup_tac.
  norm. do 3 f_equal. apply list_eq. intros i.
  destruct (decide (i = loc)) as [->|Hl]; [by lookup_tac|].
  destruct (decide (i = k)) as [->|Hkk]; [by lookup_tac|].
  destruct (decide (i = iv)) as [->|Hi]; by lookup_tac.
Qed.

(** The vector-initialization step, where it applies: the location is a
    vector-typed local variable with a known element type, the assignment
    is an initializing block operation, and the value node stands right
    before the location node in the linear order.  A new vector-init node
    over the value is allocated, with the type of the location, the
    element type of the local and the side-effect flags of the value; it
    becomes the second operand of the assignment and is linked between the
    value and the location. *)
Theorem simd_init_wraps_the_value s assignment a location loc initVal iv l1 l2 :
  FEATURE_SIMD = true ->
  LinearOrder s (l1 ++ initVal :: location :: l2) ->
  nodes s !! assignment = Some a -> gtOp2 a = Some initVal ->
  nodes s !! location = Some loc -> gtOper loc = GT_LCL_VAR ->
  varTypeIsSIMD (gtType loc) = true -> OperIsInitBlkOp s assignment = true ->
  getBaseTypeOfSIMDLocal s location <> TYP_UNKNOWN ->
  nodes s !! initVal = Some iv ->
  exists s' simd a',
    RewriteAssignment_SIMDInit assignment location (gtOp2 a) s
    = Ok (Some (length (nodes s)), s')
    /\ length (nodes s') = S (length (nodes s))
    /\ nodes s' !! length (nodes s) = Some simd
    /\ gtOper simd = GT_SIMD /\ gtType simd = gtType loc
    /\ gtOp1 simd = Some initVal /\ gtOp2 simd = None
    /\ gtSIMD simd = {| gtSIMDIntrinsicID := SIMDIntrinsicInit;
                        gtSIMDBaseType := getBaseTypeOfSIMDLocal s location;
                        gtSIMDSize := genTypeSize (gtType loc) |}
    /\ gtFlags simd = Z.land (gtFlags iv) GTF_ALL_EFFECT
    /\ nodes s' !! assignment = Some a'
    /\ gtOp2 a' = Some (length (nodes s)) /\ gtOp1 a' = gtOp1 a /\ gtOper a' = gtOper a
    /\ LinearOrder s' (l1 ++ initVal :: length (nodes s) :: location :: l2).
Proof.
  intros HF Hlo Ha Hop2 Hloc Hk Hsimd Hinit Hbase Hiv.
  set (k := length (nodes s)).
  set (simd0 := set_gtSIMD_of {| gtSIMDIntrinsicID := SIMDIntrinsicInit;
                                 gtSIMDBaseType := getBaseTypeOfSIMDLocal s location;
                                 gtSIMDSize := genTypeSize (gtType loc) |}
                  (set_gtFlags (Z.lor (Z.land (gtFlags iv) GTF_ALL_EFFECT) 0)
                     (newNode GT_SIMD (gtType loc) (Some initVal) None))).
  set (s0 := set_nodes (nodes s ++ [simd0]) s).
  set (s1 := set_nodes (<[assignment := set_gtOp2 (Some k) a]> (nodes s0)) s0).
  assert (nodes s0 !! assignment = Some a) as Ha0 by by apply lookup_snoc_old.
  assert (assignment <> k) as Hak.
  { apply lookup_lt_Some in Ha. unfold k. lia. }
  assert (LinearOrder s1 ((l1 ++ [initVal]) ++ location :: l2)) as Hlo1.
  { rewrite <- app_assoc. apply (LinearOrder_insert s0 assignment a); try done.
    by apply treesKept_LinearOrder. }
  assert (nodes s1 !! k = Some simd0) as Hk1.
  { simpl. rewrite list_lookup_insert_ne by done. apply lookup_snoc_new. }
  assert (k ∉ (l1 ++ [initVal]) ++ location :: l2) as Hfresh.
  { intros Hin. rewrite <- app_assoc in Hin.
    destruct (LinearOrder_exists _ _ _ Hlo Hin) as [t Ht].
    apply lookup_lt_Some in Ht. unfold k in Ht. lia. }
  destruct (Range_InsertBefore_spec _ _ _ _ _ _ Hlo1 Hfresh Hk1)
    as (s2 & Hrun2 & Hlo2 & Hst2 & Hsr2).
  destruct (LinearOrder_split _ _ _ _ Hlo1)
    as (_ & _ & Hn1 & _ & _ & _ & _ & (tloc & Htloc & Hp & _) & _).
  rewrite last_snoc in Hp.
  assert (exists tiv, nodes s1 !! initVal = Some tiv) as [tiv Htiv].
  { apply (LinearOrder_exists _ _ _ Hlo1). rewrite elem_of_app, elem_of_app.
    left. right. apply list_elem_of_here. }
  assert (initVal <> k /\ initVal <> location /\ k <> location) as (Hn_ik & Hn_il & Hn_kl).
  { repeat split; intros E.
    - apply Hfresh. rewrite <- E, elem_of_app, elem_of_app. left. right. apply list_elem_of_here.
    - apply Hn1. rewrite <- E, elem_of_app. right. apply list_elem_of_here.
    - apply Hfresh. rewrite E, elem_of_app. right. apply list_elem_of_here. }
  pose proof (splice_before_is_insert s1 initVal k location tiv simd0 tloc
                Htiv Hk1 Htloc Hn_ik Hn_il Hn_kl Hp) as Hsplice.
  rewrite Hrun2 in Hsplice.
  assert (nodes s1 !! assignment = Some (set_gtOp2 (Some k) a)) as Ha1
    by (simpl; by eapply lookup_set_same).
  destruct (sameTrees_lookup _ _ _ _ Hst2 Hk1) as (simd & Hsimd2 & Hus).
  destruct (sameTrees_lookup _ _ _ _ Hst2 Ha1) as (a' & Ha2 & Hua).
  exists s2, simd, a'. split.
  { unfold RewriteAssignment_SIMDInit. rewrite HF. cbn [negb].
    rewrite (bind_run _ _ _ _ _ (getNode_run _ _ _ Hloc)).
    rewrite (bind_run (query _) _ s (OperIsInitBlkOp s assignment) s eq_refl).
    rewrite Hsimd, Hinit. cbn [andb].
    destruct (decide (gtOper loc = GT_LCL_VAR)); [|done].
    rewrite (bind_run _ _ _ _ _ (getNode_run _ _ _ Ha)).
    rewrite (bind_run (query _) _ s (getBaseTypeOfSIMDLocal s location) s eq_refl).
    destruct (decide (getBaseTypeOfSIMDLocal s location <> TYP_UNKNOWN)); [|done].
    rewrite Hop2.
    assert (newOperNode GT_SIMD (gtType loc) (Some initVal) None
              (set_gtSIMD_of {| gtSIMDIntrinsicID := SIMDIntrinsicInit;
                                gtSIMDBaseType := getBaseTypeOfSIMDLocal s location;
                                gtSIMDSize := genTypeSize (gtType loc) |}) s
            = Ok (k, s0)) as Hnew.
    { unfold newOperNode. rewrite (bind_run _ _ _ _ _ (effectsOf_run _ _ _ Hiv)).
      unfold effectsOf at 1. rewrite mret_bind. reflexivity. }
    rewrite (bind_run _ _ _ _ _ Hnew).
    rewrite (bind_run _ _ _ _ _ (modNode_run _ _ _ _ Ha0)). fold s1.
    cbn [deref]. rewrite mret_bind.
    assert (forall (m1 m2 m3 m4 : M unit) (r : option NodeId) x,
              (m1 ;; m2 ;; m3 ;; m4) x = Ok (tt, s2) ->
              (m1 ;; m2 ;; m3 ;; m4 ;; mret r) x = Ok (r, s2)) as Hseq.
    { intros m1 m2 m3 m4 r x Hx.
      apply bind_inv in Hx as (a1 & x1 & Hx1 & Hx). rewrite (bind_run _ _ _ _ _ Hx1).
      apply bind_inv in Hx as (a2 & x2 & Hx2 & Hx). rewrite (bind_run _ _ _ _ _ Hx2).
      apply bind_inv in Hx as (a3 & x3 & Hx3 & Hx). rewrite (bind_run _ _ _ _ _ Hx3).
      by rewrite (bind_run _ _ _ _ _ Hx). }
    by apply Hseq. }
  split; [rewrite (sameTrees_length _ _ Hst2); simpl;
          rewrite length_insert, length_app; simpl; lia|].
  split; [done|].
  split; [by rewrite (unlinked_oper _ _ Hus)|].
  split; [by rewrite (unlinked_type _ _ Hus)|].
  split; [by rewrite (unlinked_op1 _ _ Hus)|].
  split; [by rewrite (unlinked_op2 _ _ Hus)|].
  split; [exact (f_equal gtSIMD Hus)|].
  split; [rewrite (unlinked_flags _ _ Hus); simpl; apply Z.lor_0_r|].
  split; [done|].
  split; [by rewrite (unlinked_op2 _ _ Hua)|].
  split; [by rewrite (unlinked_op1 _ _ Hua)|].
  split; [by rewrite (unlinked_oper _ _ Hua)|].
  by rewrite <- app_assoc in Hlo2.
Qed.

(** ** Reading a class variable *)

(** [InsertAfter] puts a node that is not in the list right after the
    insertion point. *)
Lemma Range_InsertAfter_spec s l1 ip l2 n tn :
  LinearOrder s (l1 ++ ip :: l2) ->
  n ∉ l1 ++ ip :: l2 -> nodes s !! n = Some tn ->
  exists s',
    Range_InsertAfter (Some ip) n s = Ok (tt, s')
    /\ LinearOrder s' (l1 ++ ip :: n :: l2)
    /\ sameTrees s s' /\ sameRest s s'.
Proof.
  intros Hlo Hn Htn.
  destruct (LinearOrder_split _ _ _ _ Hlo)
    as (Hnd1 & Hnd2 & Hip1 & Hip2 & Hdisj & Hs1 & Hs2 & (t & Ht & Hp & Hnx) & Hr).
  assert ((n ∉ l1) /\ n <> ip /\ (n ∉ l2)) as (Hn1 & Hnip & Hn2).
  { rewrite elem_of_app, elem_of_cons in Hn. tauto. }
  unfold Range_InsertAfter, FinishInsertAfter.
  rewrite (bind_run _ _ _ _ _ (getNode_run _ _ _ Ht)). rewrite Hnx.
  rewrite (bind_run _ _ _ _ _ (setNext_run _ _ _ _ Htn)).
  set (s0 := set_nodes (<[n := set_gtNext (head l2) tn]> (nodes s)) s).
  assert (segment (nodes s0) (Some ip) l2 None) as Hs2_0 by by apply segment_insert_other.
  assert (rangeIs s0 (orElse (head l1) (Some ip)) (orElse (last l2) (Some ip))) as Hr0 by done.
  destruct (relink_succ s0 l2 (Some ip) (Some n) _ Hnd2 Hs2_0 Hr0)
    as (s1 & Hrun1 & Hs2' & Hr1 & Hfr1 & Hst1 & Hsr1).
  rewrite (bind_run _ _ _ _ _ Hrun1).
  assert (nodes s1 !! n = Some (set_gtNext (head l2) tn)) as Hn_1.
  { rewrite Hfr1 by done. simpl. by eapply lookup_set_same. }
  assert (nodes s1 !! ip = Some t) as Hip_1.
  { rewrite Hfr1 by done. simpl. by rewrite list_lookup_insert_ne. }
  rewrite (bind_run _ _ _ _ _ (setPrev_run _ _ _ _ Hn_1)).
  erewrite setNext_run by (simpl; rewrite list_lookup_insert_ne by done; exact Hip_1).
  eexists. split; [reflexivity|]. simpl.
  split; [|split].
  - split; [|split].
    + apply NoDup_app. split; [done|]. split.
      * intros x Hx1 Hx. apply elem_of_cons in Hx as [->|Hx]; [done|].
        apply elem_of_cons in Hx as [->|Hx]; [done|]. by eapply Hdisj.
      * apply NoDup_cons. split.
        -- rewrite elem_of_cons. intros [?|?]; congruence || done.
        -- apply NoDup_cons. split; done.
    + apply segment_app. split.
      * simpl. apply segment_insert_other; [done|]. apply segment_insert_other; [done|].
        eapply segment_frame; [|exact Hs1]. intros x Hx. rewrite Hfr1.
        -- simpl. apply list_lookup_insert_ne. intros <-. done.
        -- intros Hx2. by eapply Hdisj.
      * rewrite orElse_None_r. simpl. split.
        -- exists (set_gtNext (Some n) t). split.
           { apply list_lookup_insert_eq. rewrite length_insert. by eapply lookup_lt_Some. }
           done.
        -- split.
           ++ exists (set_gtPrev (Some ip) (set_gtNext (head l2) tn)). split.
              { rewrite list_lookup_insert_ne by done. by eapply lookup_set_same. }
              split; [done|]. simpl. by destruct l2.
           ++ apply segment_insert_other; [done|]. by apply segment_insert_other.
    + rewrite head_app_orElse, last_app_orElse. simpl head.
      assert (last (ip :: n :: l2) = orElse (last l2) (Some n)) as ->.
      { rewrite last_cons_cons, last_cons. by destruct (last l2). }
      assert (orElse (orElse (last l2) (Some n)) (last l1) = orElse (last l2) (Some n)) as ->.
      { by destruct (last l2). }
      exact Hr1.
  - assert (sameTrees s s0) as Hst0 by (by apply (sameTrees_insert s n tn)).
    eapply sameTrees_trans; [exact Hst0|]. eapply sameTrees_trans; [exact Hst1|].
    eapply sameTrees_trans.
    { by apply (sameTrees_insert s1 n (set_gtNext (head l2) tn)
                  (set_gtPrev (Some ip) (set_gtNext (head l2) tn)) Hn_1). }
    apply (sameTrees_insert
             (set_nodes (<[n := set_gtPrev (Some ip) (set_gtNext (head l2) tn)]> (nodes s1)) s1)
             ip t (set_gtNext (Some n) t)); [|done].
    simpl. rewrite list_lookup_insert_ne by done. exact Hip_1.
  - eapply sameRest_trans; [|exact Hsr1]. done.
Qed.

Lemma argFixable_insert_flags s m t t' use old :
  nodes s !! m = Some t -> gtFlags t' = gtFlags t ->
  gtCall t' = gtCall t -> (gtOper t' = GT_CALL -> gtOper t = GT_CALL) ->
  argFixable s use old ->
  argFixable (set_nodes (<[m := t']> (nodes s)) s) use old.
Proof.
  intros Hm Hfl Hcall Hoper Hfix. unfold argFixable in *.
  destruct (m_edge use); [|done]. intros u Hu Hc. simpl in Hu.
  assert (flagsOf (set_nodes (<[m := t']> (nodes s)) s) old = flagsOf s old) as ->.
  { unfold flagsOf. simpl. destruct (decide (old = m)) as [->|Hne].
    - erewrite lookup_set_same by done. rewrite Hm. simpl. exact Hfl.
    - by rewrite list_lookup_insert_ne by done. }
  destruct (decide (m_user use = m)) as [Heq|Hnm].
  - rewrite Heq in Hu. erewrite lookup_set_same in Hu by done. injection Hu as <-.
    rewrite Hcall. apply Hfix; [by rewrite Heq|by apply Hoper].
  - rewrite list_lookup_insert_ne in Hu by done. by apply Hfix.
Qed.

(** On xarch targets a class variable that is read (not the destination of
    an assignment) becomes a dereference of its address: the variable node
    turns into its address form, of type byref; a new indirection of the
    type the variable had is allocated over it, linked right after it in
    the linear order, and put in the consumer's slot.  A class variable
    that is the destination of an assignment is left to the assignment
    rule: nothing changes. *)
Theorem class_variable_read_is_wrapped s use n t u l1 l2 :
  TARGET_XARCH = true ->
  LinearOrder s (l1 ++ n :: l2) ->
  Use_Def use s = Ok (n, s) -> nodes s !! m_user use = Some u ->
  argFixable s use n ->
  nodes s !! n = Some t -> gtOper t = GT_CLS_VAR ->
  if bool_decide (gtOper u = GT_ASG) && bool_decide (gtOp1 u = Some n)
  then RewriteNode_dispatch use n GT_CLS_VAR s = Ok (use, s)
  else exists use' s' ind n',
    RewriteNode_dispatch use n GT_CLS_VAR s = Ok (use', s')
    /\ length (nodes s') = S (length (nodes s))
    /\ nodes s' !! length (nodes s) = Some ind
    /\ gtOper ind = GT_IND /\ gtType ind = gtType t /\ gtOp1 ind = Some n
    /\ nodes s' !! n = Some n'
    /\ gtOper n' = GT_CLS_VAR_ADDR /\ gtType n' = TYP_BYREF
    /\ LinearOrder s' (l1 ++ n :: length (nodes s) :: l2)
    /\ Use_Def use' s' = Ok (length (nodes s), s').
Proof.
  intros HX Hlo Hdef Hu Hfix Ht Hop.
  cbn [RewriteNode_dispatch]. rewrite HX. unfold RewriteClsVar, Use_User.
  rewrite (bind_run _ _ _ _ _ (getNode_run _ _ _ Hu)).
  destruct (bool_decide (gtOper u = GT_ASG) && bool_decide (gtOp1 u = Some n)); [done|].
  cbn [negb].
  set (k := length (nodes s)).
  set (ind0 := set_gtFlags (Z.lor (Z.land (gtFlags t) GTF_ALL_EFFECT) 0)
                 (newNode GT_IND (gtType t) (Some n) None)).
  set (n1 := set_gtType TYP_BYREF (set_gtOper GT_CLS_VAR_ADDR t)).
  set (s0 := set_nodes (nodes s ++ [ind0]) s).
  set (s1 := set_nodes (<[n := n1]> (nodes s0)) s0).
  assert (n <> k) as Hnk. { apply lookup_lt_Some in Ht. unfold k. lia. }
  assert (nodes s0 !! n = Some t) as Ht0 by by apply lookup_snoc_old.
  assert (LinearOrder s1 (l1 ++ n :: l2)) as Hlo1.
  { apply (LinearOrder_insert s0 n t n1); try done. by apply treesKept_LinearOrder. }
  assert (nodes s1 !! k = Some ind0) as Hk1.
  { simpl. rewrite list_lookup_insert_ne by done. apply lookup_snoc_new. }
  assert (nodes s1 !! n = Some n1) as Hn1 by (simpl; by eapply lookup_set_same).
  assert (k ∉ l1 ++ n :: l2) as Hfresh.
  { intros Hin. destruct (LinearOrder_exists _ _ _ Hlo Hin) as [tx Hx].
    apply lookup_lt_Some in Hx. unfold k in Hx. lia. }
  destruct (Range_InsertAfter_spec _ _ _ _ _ _ Hlo1 Hfresh Hk1)
    as (s2 & Hrun2 & Hlo2 & Hst2 & Hsr2).
  pose proof (sameTrees_kept _ _ Hst2) as Hkept2.
  assert (Use_Def use s1 = Ok (n, s1)) as Hdef1.
  { apply (Use_Def_insert s0 n t n1); [done|by intros []|].
    eapply treesKept_Use_Def; [apply treesKept_snoc|done]. }
  assert (Use_Def use s2 = Ok (n, s2)) as Hdef2 by by eapply treesKept_Use_Def.
  assert (is_Some (nodes s0 !! m_user use)) as Hu0 by (eexists; by apply lookup_snoc_old).
  assert (is_Some (nodes s1 !! m_user use)) as Hu1.
  { simpl. destruct (decide (m_user use = n)) as [->|Hx].
    - erewrite lookup_set_same by done. by eexists.
    - by rewrite list_lookup_insert_ne by done. }
  assert (is_Some (nodes s2 !! m_user use)) as Hu2.
  { destruct Hu1 as [u1 Hu1]. destruct (Hkept2 _ _ Hu1) as (u2 & Hu2 & _). by eexists. }
  assert (argFixable s1 use n) as Hfix1.
  { apply (argFixable_insert_flags s0 n t n1); try done.
    eapply treesKept_argFixable; [apply treesKept_snoc|by eexists|by eexists|done]. }
  assert (argFixable s2 use n) as Hfix2.
  { eapply treesKept_argFixable; [exact Hkept2|done|by eexists|done]. }
  destruct (Hkept2 _ _ Hk1) as (ind2 & Hind2 & Hui).
  destruct (Hkept2 _ _ Hn1) as (n2 & Hn2 & Hun).
  assert (Use_Splice n k s2 = Ok (tt, s2)) as Hsp.
  { destruct (LinearOrder_next _ _ _ _ _ Hlo2) as (n2' & Hn2' & Hnext).
    eapply Use_Splice_here; [exact Hn2'|]. by right; right. }
  destruct (Use_ReplaceWith_frame s2 s2 use n k Hdef2 Hsp (sameTrees_refl _) Hu2
              (ex_intro _ _ Hn2) (ex_intro _ _ Hind2) Hfix2)
    as (use' & s3 & Hrun3 & Hlo3 & Hdef3 & Hlen3 & Hk3).
  destruct (Hk3 _ _ Hind2) as (ind3 & Hind3 & Hoi & Hti & _ & Hopsi).
  destruct (Hk3 _ _ Hn2) as (n3 & Hn3 & Hon & Htn & _).
  exists use', s3, ind3, n3. split.
  { rewrite (bind_run _ _ _ _ _ (getNode_run _ _ _ Ht)).
    assert (newOperNode GT_IND (gtType t) (Some n) None id s = Ok (k, s0)) as Hnew.
    { unfold newOperNode. rewrite (bind_run _ _ _ _ _ (effectsOf_run _ _ _ Ht)).
      unfold effectsOf at 1. rewrite mret_bind. reflexivity. }
    rewrite (bind_run _ _ _ _ _ Hnew).
    unfold SetOper, setType.
    rewrite (bind_run _ _ _ _ _ (modNode_run _ _ _ _ Ht0)).
    erewrite bind_run by (apply modNode_run; simpl; by eapply lookup_set_same).
    norm. rewrite list_insert_insert_eq.
    by rewrite (bind_run _ _ _ _ _ Hrun2). }
  split; [rewrite Hlen3, (sameTrees_length _ _ Hst2); simpl;
          rewrite length_insert, length_app; simpl; lia|].
  split; [done|].
  split; [by rewrite Hoi, (unlinked_oper _ _ Hui)|].
  split; [by rewrite Hti, (unlinked_type _ _ Hui)|].
  split.
  { destruct Hopsi as [H1 _].
    - intros e He Hx. apply Use_Def_inv in Hdef as [_ Hdef]. rewrite He in Hdef.
      destruct Hdef as (o & Ho & _). apply lookup_lt_Some in Ho.
      rewrite <- Hx in Ho. unfold k in Ho. lia.
    - by rewrite H1, (unlinked_op1 _ _ Hui). }
  split; [done|].
  split; [by rewrite Hon, (unlinked_oper _ _ Hun)|].
  split; [by rewrite Htn, (unlinked_type _ _ Hun)|].
  split; [by apply Hlo3|done].
Qed.

(** ** More computed checks *)

Lemma plainListsb_sound s lists : plainListsb s lists = true -> plainLists s lists.
Proof.
  unfold plainListsb, plainLists. intros H. rewrite forallb_forall in H.
  apply Forall_forall. intros x Hx. apply list_elem_of_In in Hx. specialize (H x Hx).
  destruct (nodes s !! x) as [t|]; [|done]. exists t. split; [done|].
  apply andb_true_iff in H as [H1 H2]. apply bool_decide_eq_true in H1.
  by apply negb_true_iff in H2.
Qed.

Lemma stopsListsb_sound s l : stopsListsb s l = true -> stopsLists s l.
Proof.
  unfold stopsListsb, stopsLists. intros H p tp Hl Hp Hop.
  rewrite Hl, Hp in H. rewrite bool_decide_eq_true_2 in H by done. done.
Qed.

(** ** Block operands and vector nodes *)

Lemma simd_type_not_struct ty : varTypeIsSIMD ty = true -> bool_decide (ty = TYP_STRUCT) = false.
Proof. by destruct ty. Qed.

Lemma blk_is_indir k : k = GT_BLK \/ k = GT_OBJ -> OperIsIndir k = true.
Proof. by intros [-> | ->]. Qed.

(** The direct run of [RewriteSIMDOperand] on a vector-typed indirection
    whose address is not the address of a vector-typed local. *)
Lemma RewriteSIMDOperand_in_place s use tree t addr a keepBlk :
  FEATURE_SIMD = true -> featureSIMD = true ->
  Use_Def use s = Ok (tree, s) -> nodes s !! tree = Some t ->
  OperIsIndir (gtOper t) = true -> varTypeIsSIMD (gtType t) = true ->
  gtOp1 t = Some addr -> nodes s !! addr = Some a ->
  OperIsLocalAddr (gtOper a) && isAddrOfSIMDType s addr = false ->
  RewriteSIMDOperand use keepBlk s
  = Ok (use, if keepBlk then s
             else set_nodes (<[tree := set_gtOper GT_IND t]> (nodes s)) s).
Proof.
  intros HF Hf Hdef Ht Hind Hty Hop1 Ha Hno. unfold RewriteSIMDOperand.
  rewrite HF, Hf. cbn [negb].
  rewrite (bind_run _ _ _ _ _ Hdef).
  rewrite (bind_run _ _ _ _ _ (getNode_run _ _ _ Ht)).
  rewrite Hind, Hty. cbn [negb].
  rewrite Hop1. cbn [deref]. rewrite mret_bind.
  rewrite (bind_run _ _ _ _ _ (getNode_run _ _ _ Ha)).
  rewrite (bind_run (query _) _ s (isAddrOfSIMDType s addr) s eq_refl).
  rewrite Hno. destruct keepBlk; [done|]. cbn [negb].
  unfold SetOper, setType. repeat step. reflexivity.
Qed.

(** A vector-typed block or object node whose address is not the address
    of a vector-typed local.  Read as a value (anywhere but as the
    destination of an assignment) it becomes a plain indirection of the
    same type, in place.  As the destination of an assignment it stays a
    block when the assignment is an initialization; otherwise, when its
    address is not known to point at a vector, the source decides: a local
    or a vector node makes it an indirection, an indirection makes it one
    exactly when the source address points at a vector, and a source of any
    other kind is a fatal abort.  A destination whose address points at a
    vector becomes an indirection. *)
Theorem vector_block_kept_only_as_destination s use n t p addr a :
  FEATURE_SIMD = true -> featureSIMD = true ->
  Use_Def use s = Ok (n, s) -> nodes s !! n = Some t ->
  gtOper t = GT_BLK \/ gtOper t = GT_OBJ ->
  varTypeIsSIMD (gtType t) = true ->
  nodes s !! m_user use = Some p ->
  gtOp1 t = Some addr -> nodes s !! addr = Some a ->
  OperIsLocalAddr (gtOper a) && isAddrOfSIMDType s addr = false ->
  let isDest := bool_decide (gtOper p = GT_ASG) && bool_decide (gtOp1 p = Some n) in
  let coerced := set_nodes (<[n := set_gtOper GT_IND t]> (nodes s)) s in
  (isDest = false -> RewriteNode_dispatch use n (gtOper t) s = Ok (use, coerced))
  /\ (isDest = true -> OperIsInitBlkOp s (m_user use) = true ->
      RewriteNode_dispatch use n (gtOper t) s = Ok (use, s))
  /\ (isDest = true -> OperIsInitBlkOp s (m_user use) = false ->
      isAddrOfSIMDType s addr = true ->
      RewriteNode_dispatch use n (gtOper t) s = Ok (use, coerced))
  /\ (isDest = true -> OperIsInitBlkOp s (m_user use) = false ->
      isAddrOfSIMDType s addr = false ->
      forall src d, gtOp2 p = Some src -> nodes s !! src = Some d ->
        RewriteNode_dispatch use n (gtOper t) s
        = if OperIsLocal (gtOper d) || bool_decide (gtOper d = GT_SIMD)
          then Ok (use, coerced)
          else if OperIsIndir (gtOper d) then
            match gtOp1 d with
            | Some srcAddr => Ok (use, if isAddrOfSIMDType s srcAddr then coerced else s)
            | None => Err NullDeref
            end
          else Err NoWayAssert).
Proof.
  intros HF Hf Hdef Ht Hk Hty Hp Hop1 Ha Hno isDest coerced.
  pose proof (blk_is_indir _ Hk) as Hind.
  pose proof (simd_type_not_struct _ Hty) as Hns.
  assert (RewriteNode_dispatch use n (gtOper t) s = RewriteBlkObj use n s) as ->.
  { destruct Hk as [-> | ->]; cbn [RewriteNode_dispatch]; by rewrite HF. }
  assert (forall keepBlk,
            RewriteSIMDOperand use keepBlk s = Ok (use, if keepBlk then s else coerced))
    as Hrun by (intros keepBlk; by eapply RewriteSIMDOperand_in_place).
  unfold RewriteBlkObj, Use_User.
  rewrite (bind_run _ _ _ _ _ (getNode_run _ _ _ Hp)).
  rewrite (bind_run _ _ _ _ _ (getNode_run _ _ _ Ht)).
  fold isDest. rewrite Hns. cbn [orb].
  split; [|split; [|split]].
  - intros ->. rewrite mret_bind. apply Hrun.
  - intros -> Hinit.
    rewrite bind_assoc.
    rewrite (bind_run (query _) _ s (OperIsInitBlkOp s (m_user use)) s eq_refl).
    rewrite Hinit. rewrite mret_bind. apply Hrun.
  - intros -> Hinit Hsa.
    rewrite bind_assoc.
    rewrite (bind_run (query _) _ s (OperIsInitBlkOp s (m_user use)) s eq_refl).
    rewrite Hinit, Hop1. cbn [deref]. rewrite !bind_assoc, mret_bind.
    rewrite bind_assoc.
    rewrite (bind_run (query _) _ s (isAddrOfSIMDType s addr) s eq_refl).
    rewrite Hsa. cbn [negb]. rewrite mret_bind. apply Hrun.
  - intros -> Hinit Hsa src d Hsrc Hd.
    rewrite bind_assoc.
    rewrite (bind_run (query _) _ s (OperIsInitBlkOp s (m_user use)) s eq_refl).
    rewrite Hinit, Hop1. cbn [deref]. rewrite !bind_assoc, mret_bind.
    rewrite bind_assoc.
    rewrite (bind_run (query _) _ s (isAddrOfSIMDType s addr) s eq_refl).
    rewrite Hsa. cbn [negb]. rewrite Hsrc. cbn [deref].
    rewrite !bind_assoc, mret_bind. rewrite bind_assoc.
    rewrite (bind_run _ _ _ _ _ (getNode_run _ _ _ Hd)).
    destruct (OperIsLocal (gtOper d)); cbn [negb andb orb];
      [rewrite mret_bind; apply Hrun|].
    destruct (bool_decide (gtOper d = GT_SIMD)); cbn [negb andb orb];
      [rewrite mret_bind; apply Hrun|].
    destruct (OperIsIndir (gtOper d)); cbn [negb]; [|done].
    destruct (gtOp1 d) as [srcAddr|]; cbn [deref]; [|done].
    rewrite !bind_assoc, mret_bind. rewrite bind_assoc.
    rewrite (bind_run (query _) _ s (isAddrOfSIMDType s srcAddr) s eq_refl).
    rewrite mret_bind. rewrite Hrun. by destruct (isAddrOfSIMDType s srcAddr).
Qed.

Lemma set_gtType_id t : set_gtType (gtType t) t = t.
Proof. by destruct t. Qed.

Lemma setType_when_run c x ty s tx :
  nodes s !! x = Some tx ->
  when c (setType x ty) s
  = Ok (tt, set_nodes (<[x := set_gtType (if c then ty else gtType tx) tx]> (nodes s)) s).
Proof.
  intros Hx. destruct c; simpl.
  - by apply modNode_run.
  - by rewrite set_gtType_id, set_nodes_id.
Qed.

Lemma retype_struct_operand_run op ty s :
  (forall x, op = Some x -> is_Some (nodes s !! x)) ->
  exists ns',
    match op with
    | Some x =>
        o ← getNode x ;
        when (bool_decide (gtType o = TYP_STRUCT)) (setType x ty)
    | None => mret tt
    end s = Ok (tt, set_nodes ns' s)
    /\ length ns' = length (nodes s)
    /\ forall i ti, nodes s !! i = Some ti ->
         ns' !! i
         = Some (set_gtType
                   (if bool_decide (op = Some i) && bool_decide (gtType ti = TYP_STRUCT)
                    then ty else gtType ti) ti).
Proof.
  intros Hex. destruct op as [x|].
  - destruct (Hex x eq_refl) as [o Ho].
    eexists. split; [|split].
    + rewrite (bind_run _ _ _ _ _ (getNode_run _ _ _ Ho)).
      by apply setType_when_run.
    + by rewrite length_insert.
    + intros i ti Hi. destruct (decide (i = x)) as [->|Hne].
      * rewrite Ho in Hi. injection Hi as <-.
        rewrite (bool_decide_eq_true_2 (Some x = Some x)) by done. cbn [andb].
        by eapply lookup_set_same.
      * rewrite list_lookup_insert_ne by done.
        rewrite (bool_decide_eq_false_2 (Some x = Some i)) by congruence. cbn [andb].
        by rewrite set_gtType_id.
  - exists (nodes s). split; [|split; [done|]].
    + unfold mret. by destruct s.
    + intros i ti Hi.
      rewrite (bool_decide_eq_false_2 (None = Some i)) by done. cbn [andb].
      by rewrite set_gtType_id.
Qed.

(** The rule for a vector node other than an array initialization, with
    the vector feature on: the nodes are only retyped.  The vector node
    itself becomes an 8-byte vector when it was typed as a native integer
    of pointer size; each operand typed as a plain struct takes the
    vector type of the node's size; every other node, and every other
    field of every node, stays as it is. *)
Theorem simd_node_retypes_struct_operands s use n t :
  FEATURE_SIMD = true -> featureSIMD = true ->
  nodes s !! n = Some t ->
  gtSIMDIntrinsicID (gtSIMD t) <> SIMDIntrinsicInitArray ->
  gtOp1 t <> Some n -> gtOp2 t <> Some n ->
  (forall op, gtOp1 t = Some op \/ gtOp2 t = Some op -> is_Some (nodes s !! op)) ->
  let simdType := getSIMDTypeForSize (gtSIMDSize (gtSIMD t)) in
  let newType i ti :=
    if decide (i = n) then
      if bool_decide (gtType t = TYP_I_IMPL)
         && bool_decide (gtSIMDSize (gtSIMD t) = TARGET_POINTER_SIZE)
      then TYP_SIMD8 else gtType ti
    else if (bool_decide (gtOp1 t = Some i) || bool_decide (gtOp2 t = Some i))
            && bool_decide (gtType ti = TYP_STRUCT)
    then simdType else gtType ti in
  exists ns',
    RewriteNode_dispatch use n GT_SIMD s = Ok (use, set_nodes ns' s)
    /\ length ns' = length (nodes s)
    /\ forall i ti, nodes s !! i = Some ti ->
         ns' !! i = Some (set_gtType (newType i ti) ti).
Proof.
  intros HF Hf Ht Hid Hn1 Hn2 Hops simdType newType.
  cbn [RewriteNode_dispatch]. rewrite HF. unfold RewriteSIMDNode. rewrite Hf. cbn [negb].
  rewrite (bind_run _ _ _ _ _ (getNode_run _ _ _ Ht)).
  rewrite (bind_run _ _ _ _ _ (setType_when_run _ _ _ _ _ Ht)).
  destruct (decide (gtSIMDIntrinsicID (gtSIMD t) = SIMDIntrinsicInitArray)); [done|].
  set (tyn := if bool_decide (gtType t = TYP_I_IMPL)
                 && bool_decide (gtSIMDSize (gtSIMD t) = TARGET_POINTER_SIZE)
              then TYP_SIMD8 else gtType t).
  set (s1 := set_nodes (<[n := set_gtType tyn t]> (nodes s)) s).
  fold simdType.
  destruct (retype_struct_operand_run (gtOp1 t) simdType s1)
    as (ns2 & Hrun2 & Hlen2 & Hpt2).
  { intros x Hx. destruct (Hops x (or_introl Hx)) as [tx Htx]. simpl.
    destruct (decide (x = n)) as [->|Hne]; [by rewrite Hx in Hn1|].
    rewrite list_lookup_insert_ne by done. by eexists. }
  rewrite (bind_run _ _ _ _ _ Hrun2).
  assert (nodes s1 !! n = Some (set_gtType tyn t)) as Hn_1
    by (simpl; by eapply lookup_set_same).
  pose proof (Hpt2 _ _ Hn_1) as Hn_2.
  rewrite (bool_decide_eq_false_2 _ Hn1) in Hn_2. cbn [andb] in Hn_2.
  rewrite set_gtType_id in Hn_2.
  erewrite bind_run by (apply getNode_run; exact Hn_2).
  cbn [gtOp2 set_gtType].
  destruct (retype_struct_operand_run (gtOp2 t) simdType (set_nodes ns2 s1))
    as (ns3 & Hrun3 & Hlen3 & Hpt3).
  { intros x Hx. destruct (Hops x (or_intror Hx)) as [tx Htx]. simpl.
    apply lookup_lt_is_Some. rewrite Hlen2. simpl. rewrite length_insert.
    by eapply lookup_lt_Some. }
  rewrite (bind_run _ _ _ _ _ Hrun3).
  exists ns3. split; [reflexivity|]. split.
  { rewrite Hlen3. simpl. rewrite Hlen2. simpl. by rewrite length_insert. }
  intros i ti Hi. subst newType. cbn beta.
  destruct (decide (i = n)) as [->|Hne].
  - rewrite Ht in Hi. injection Hi as <-.
    rewrite (Hpt3 _ _ Hn_2).
    rewrite (bool_decide_eq_false_2 _ Hn2). cbn [andb].
    by rewrite set_gtType_id.
  - assert (nodes s1 !! i = Some ti) as Hi1
      by (simpl; by rewrite list_lookup_insert_ne by done).
    pose proof (Hpt2 _ _ Hi1) as Hi2.
    rewrite (Hpt3 _ _ Hi2). f_equal.
    destruct (bool_decide (gtOp1 t = Some i)), (bool_decide (gtOp2 t = Some i)),
      (bool_decide (gtType ti = TYP_STRUCT)) eqn:Hst; cbn [andb orb gtType set_gtType];
      rewrite ?Hst; try reflexivity.
    by destruct (bool_decide (simdType = TYP_STRUCT)).
Qed.

(** ** Array initialization of a vector *)

(** [InsertBefore] with two nodes chains them and puts both in front of
    the insertion point. *)
Lemma Range_InsertBefore2_spec s l1 ip l2 n1 n2 t1 t2 :
  LinearOrder s (l1 ++ ip :: l2) ->
  n1 ∉ l1 ++ ip :: l2 -> n2 ∉ l1 ++ ip :: l2 -> n1 <> n2 ->
  nodes s !! n1 = Some t1 -> nodes s !! n2 = Some t2 ->
  exists s',
    Range_InsertBefore2 (Some ip) n1 n2 s = Ok (tt, s')
    /\ LinearOrder s' (l1 ++ n1 :: n2 :: ip :: l2)
    /\ sameTrees s s' /\ sameRest s s'.
Proof.
  intros Hlo Hn1 Hn2 Hne Ht1 Ht2.
  destruct (LinearOrder_split _ _ _ _ Hlo)
    as (Hnd1 & Hnd2 & Hip1 & Hip2 & Hdisj & Hs1 & Hs2 & (t & Ht & Hp & Hnx) & Hr).
  assert ((n1 ∉ l1) /\ n1 <> ip /\ (n1 ∉ l2)) as (Hn11 & Hn1ip & Hn12).
  { rewrite elem_of_app, elem_of_cons in Hn1. naive_solver. }
  assert ((n2 ∉ l1) /\ n2 <> ip /\ (n2 ∉ l2)) as (Hn21 & Hn2ip & Hn22).
  { rewrite elem_of_app, elem_of_cons in Hn2. naive_solver. }
  unfold Range_InsertBefore2, FinishInsertBefore.
  rewrite (bind_run _ _ _ _ _ (setNext_run _ _ _ _ Ht1)).
  erewrite bind_run
    by (apply setPrev_run; simpl; rewrite list_lookup_insert_ne by done; exact Ht2).
  erewrite bind_run
    by (apply getNode_run; simpl; rewrite !list_lookup_insert_ne by done; exact Ht).
  rewrite Hp.
  erewrite bind_run
    by (apply setPrev_run; simpl; rewrite list_lookup_insert_ne by done;
        by eapply lookup_set_same).
  set (u1 := set_gtPrev (last l1) (set_gtNext (Some n2) t1)).
  set (u2 := set_gtPrev (Some n1) t2).
  simpl. rewrite (list_insert_insert_ne _ n1 n2) by done.
  rewrite list_insert_insert_eq.
  set (s0 := set_nodes (<[n2 := u2]> (<[n1 := u1]> (nodes s))) s).
  assert (segment (nodes s0) None l1 (Some ip)) as Hs1_0.
  { simpl. apply segment_insert_other; [done|]. by apply segment_insert_other. }
  assert (rangeIs s0 (orElse (head l1) (Some ip)) (orElse (last l2) (Some ip))) as Hr0 by done.
  destruct (relink_pred s0 l1 (Some ip) (Some n1) _ Hnd1 Hs1_0 Hr0)
    as (s1 & Hrun1 & Hs1' & Hr1 & Hfr1 & Hst1 & Hsr1).
  rewrite (bind_run _ _ _ _ _ Hrun1).
  assert (nodes s1 !! n1 = Some u1) as Hn1_1.
  { rewrite Hfr1 by done. simpl. rewrite list_lookup_insert_ne by done.
    by eapply lookup_set_same. }
  assert (nodes s1 !! n2 = Some u2) as Hn2_1.
  { rewrite Hfr1 by done. simpl. apply list_lookup_insert_eq. rewrite length_insert.
    by eapply lookup_lt_Some. }
  assert (nodes s1 !! ip = Some t) as Hip_1.
  { rewrite Hfr1 by done. simpl. by rewrite !list_lookup_insert_ne. }
  rewrite (bind_run _ _ _ _ _ (setNext_run _ _ _ _ Hn2_1)).
  erewrite setPrev_run by (simpl; rewrite list_lookup_insert_ne by done; exact Hip_1).
  eexists. split; [reflexivity|]. simpl.
  split; [|split].
  - change (l1 ++ n1 :: n2 :: ip :: l2) with (l1 ++ [n1; n2] ++ ip :: l2).
    split; [|split].
    + apply NoDup_app. split; [done|]. split.
      * intros x Hx1 Hx. apply elem_of_cons in Hx as [->|Hx]; [done|].
        apply elem_of_cons in Hx as [->|Hx]; [done|].
        apply elem_of_cons in Hx as [->|Hx]; [done|]. by eapply Hdisj.
      * apply NoDup_cons. split.
        { rewrite !elem_of_cons. intros [?|[?|?]]; congruence || done. }
        apply NoDup_cons. split.
        { rewrite elem_of_cons. intros [?|?]; congruence || done. }
        apply NoDup_cons. split; [done|done].
    + apply segment_app. split.
      * simpl. apply segment_insert_other; [done|]. by apply segment_insert_other.
      * rewrite orElse_None_r. simpl. split.
        -- exists u1. split; [|done]. by rewrite !list_lookup_insert_ne by done.
        -- split.
           ++ exists (set_gtNext (Some ip) u2). split; [|done].
              rewrite list_lookup_insert_ne by done. by eapply lookup_set_same.
           ++ split.
              ** exists (set_gtPrev (Some n2) t). split.
                 { apply list_lookup_insert_eq. rewrite length_insert.
                   by eapply lookup_lt_Some. }
                 split; [done|]. simpl. by rewrite Hnx, next_of_tail, orElse_None_r.
              ** apply segment_insert_other; [done|]. apply segment_insert_other; [done|].
                 eapply segment_frame; [|exact Hs2]. intros x Hx. rewrite Hfr1.
                 --- simpl. rewrite !list_lookup_insert_ne; [done| |]; intros <-; done.
                 --- intros Hx1. by eapply Hdisj.
    + rewrite head_app_orElse, last_app_orElse. simpl head.
      assert (last ([n1; n2] ++ ip :: l2) = orElse (last l2) (Some ip)) as ->.
      { change ([n1; n2] ++ ip :: l2) with (n1 :: n2 :: ip :: l2).
        rewrite !last_cons_cons, last_cons. by destruct (last l2). }
      assert (orElse (orElse (last l2) (Some ip)) (last l1) = orElse (last l2) (Some ip)) as ->.
      { by destruct (last l2). }
      exact Hr1.
  - assert (sameTrees s s0) as Hst0.
    { eapply sameTrees_trans; [by apply (sameTrees_insert s n1 t1 u1)|].
      apply (sameTrees_insert (set_nodes (<[n1 := u1]> (nodes s)) s) n2 t2 u2); [|done].
      simpl. by rewrite list_lookup_insert_ne. }
    eapply sameTrees_trans; [exact Hst0|]. eapply sameTrees_trans; [exact Hst1|].
    eapply sameTrees_trans.
    { by apply (sameTrees_insert s1 n2 u2 (set_gtNext (Some ip) u2) Hn2_1). }
    apply (sameTrees_insert
             (set_nodes (<[n2 := set_gtNext (Some ip) u2]> (nodes s1)) s1)
             ip t (set_gtPrev (Some n2) t)); [|done].
    simpl. rewrite list_lookup_insert_ne by done. exact Hip_1.
  - eapply sameRest_trans; [|exact Hsr1]. done.
Qed.

Lemma newOperNode_extra_ok oper type op1 op2 extra s :
  (forall o, op1 = Some o -> o < length (nodes s)) ->
  (forall o, op2 = Some o -> o < length (nodes s)) ->
  exists f,
    newOperNode oper type op1 op2 extra s
    = Ok (length (nodes s),
          set_nodes (nodes s ++ [extra (set_gtFlags f (newNode oper type op1 op2))]) s).
Proof.
  intros H1 H2. unfold newOperNode.
  destruct (effectsOf_ok _ _ H1) as [f1 Hf1]. destruct (effectsOf_ok _ _ H2) as [f2 Hf2].
  rewrite (bind_run _ _ _ _ _ Hf1), (bind_run _ _ _ _ _ Hf2). by eexists.
Qed.

Lemma Pres_kept_Redirect {A} (f : GenTree -> A) use new :
  (forall e v t, f (edgeSet e v t) = f t) ->
  (forall t v, f (set_gtFlags v t) = f t) ->
  (forall t v, f (set_gtCall (set_fgArgInfo v (gtCall t)) t) = f t) ->
  Pres (fieldKept f) (Use_Redirect use new).
Proof.
  intros He Hf Hc. unfold Use_Redirect, writeEdge, readEdge.
  assert (forall c old nw, Pres (fieldKept f) (fgFixupArgTabEntryPtr c old nw)) as Hfix
    by (intros; by apply Pres_kept_fixup).
  assert (forall e v, Pres (fieldKept f) (modNode (edgeOwner e) (edgeSet e v))) as Hm
    by (intros; by apply Pres_kept_modNode).
  pres_auto.
Qed.

(** The rule for a vector node that initializes a vector from an array,
    with the vector feature on: the node is replaced by an explicit load.
    Two nodes are allocated: an address computation over the operands of
    the vector node, scaled by the size of the element type and offset to
    the first array element, and an indirection over it of the vector type
    of the node's size.  They take the place of the vector node in the
    linear order, in this order, and the consumer is redirected to the
    indirection. *)
Theorem simd_array_init_becomes_load s use n t l1 l2 :
  FEATURE_SIMD = true -> featureSIMD = true ->
  LinearOrder s (l1 ++ n :: l2) ->
  Use_Def use s = Ok (n, s) ->
  is_Some (nodes s !! m_user use) -> argFixable s use n ->
  nodes s !! n = Some t ->
  gtSIMDIntrinsicID (gtSIMD t) = SIMDIntrinsicInitArray ->
  (forall op, gtOp1 t = Some op \/ gtOp2 t = Some op -> is_Some (nodes s !! op)) ->
  exists use' s' lea ind,
    RewriteNode_dispatch use n GT_SIMD s = Ok (use', s')
    /\ length (nodes s') = S (S (length (nodes s)))
    /\ nodes s' !! length (nodes s) = Some lea
    /\ gtOper lea = GT_LEA /\ gtType lea = TYP_BYREF
    /\ gtOp1 lea = gtOp1 t /\ gtOp2 lea = gtOp2 t
    /\ gtAddrMode lea = {| gtScale := genTypeSize (gtSIMDBaseType (gtSIMD t));
                           gtOffset := offsetof_u1Elems |}
    /\ nodes s' !! S (length (nodes s)) = Some ind
    /\ gtOper ind = GT_IND
    /\ gtType ind = getSIMDTypeForSize (gtSIMDSize (gtSIMD t))
    /\ gtOp1 ind = Some (length (nodes s))
    /\ LinearOrder s' (l1 ++ length (nodes s) :: S (length (nodes s)) :: l2)
    /\ Use_Def use' s' = Ok (S (length (nodes s)), s').
Proof.
  intros HF Hf Hlo Hdef Huser Hfix Ht Hid Hops.
  set (k := length (nodes s)).
  set (tyn := if bool_decide (gtType t = TYP_I_IMPL)
                 && bool_decide (gtSIMDSize (gtSIMD t) = TARGET_POINTER_SIZE)
              then TYP_SIMD8 else gtType t).
  set (t1 := set_gtType tyn t).
  set (s1 := set_nodes (<[n := t1]> (nodes s)) s).
  assert (length (nodes s1) = k) as Hlen1 by (simpl; by rewrite length_insert).
  destruct (newOperNode_extra_ok GT_LEA TYP_BYREF (gtOp1 t) (gtOp2 t)
              (set_gtAddrMode_of {| gtScale := genTypeSize (gtSIMDBaseType (gtSIMD t));
                                    gtOffset := offsetof_u1Elems |}) s1)
    as (f1 & Hnew1).
  { intros o Ho. rewrite Hlen1. destruct (Hops o (or_introl Ho)) as [to Hto].
    by eapply lookup_lt_Some. }
  { intros o Ho. rewrite Hlen1. destruct (Hops o (or_intror Ho)) as [to Hto].
    by eapply lookup_lt_Some. }
  rewrite Hlen1 in Hnew1.
  set (lea0 := set_gtAddrMode_of _ _) in Hnew1.
  set (s2 := set_nodes (nodes s1 ++ [lea0]) s1) in Hnew1.
  assert (length (nodes s2) = S k) as Hlen2
    by (simpl; rewrite length_app, length_insert; simpl; unfold k; lia).
  destruct (newOperNode_extra_ok GT_IND (getSIMDTypeForSize (gtSIMDSize (gtSIMD t)))
              (Some k) None id s2) as (f2 & Hnew2).
  { intros o [= <-]. rewrite Hlen2. lia. }
  { done. }
  rewrite Hlen2 in Hnew2. unfold id in Hnew2.
  set (ind0 := set_gtFlags f2 _) in Hnew2.
  set (s3 := set_nodes (nodes s2 ++ [ind0]) s2) in Hnew2.
  assert (n < k) as Hnk by (by eapply lookup_lt_Some).
  assert (nodes s3 !! k = Some lea0) as Hk3.
  { simpl. apply lookup_snoc_old. rewrite <- Hlen1. apply lookup_snoc_new. }
  assert (nodes s3 !! S k = Some ind0) as HSk3.
  { simpl. rewrite <- Hlen2. apply lookup_snoc_new. }
  assert (nodes s1 !! n = Some t1) as Ht1 by (simpl; by eapply lookup_set_same).
  assert (Use_Def use s1 = Ok (n, s1)) as Hdef1
    by (apply (Use_Def_insert s n t t1); [done|by intros []|done]).
  assert (is_Some (nodes s1 !! m_user use)) as Huser1.
  { simpl. destruct (decide (m_user use = n)) as [->|Hx].
    - erewrite lookup_set_same by done. by eexists.
    - by rewrite list_lookup_insert_ne by done. }
  assert (argFixable s1 use n) as Hfix1
    by by apply (argFixable_insert_flags s n t t1).
  assert (treesKept s1 s3) as Hk13.
  { eapply treesKept_trans; [apply (treesKept_snoc s1 lea0)|apply (treesKept_snoc s2 ind0)]. }
  assert (LinearOrder s3 (l1 ++ n :: l2)) as Hlo3.
  { apply (treesKept_LinearOrder s2). apply (treesKept_LinearOrder s1).
    by apply (LinearOrder_insert s n t t1). }
  assert (forall x, x ∈ l1 ++ n :: l2 -> x < k) as Hbound.
  { intros x Hx. destruct (LinearOrder_exists _ _ _ Hlo Hx) as [tx Htx].
    by eapply lookup_lt_Some. }
  assert (k ∉ l1 ++ n :: l2) as Hfresh1 by (intros Hin; apply Hbound in Hin; lia).
  assert (S k ∉ l1 ++ n :: l2) as Hfresh2 by (intros Hin; apply Hbound in Hin; lia).
  destruct (Range_InsertBefore2_spec s3 l1 n l2 k (S k) lea0 ind0 Hlo3 Hfresh1 Hfresh2)
    as (s4 & Hrun4 & Hlo4 & Hst4 & Hsr4); [lia|done|done|].
  pose proof (sameTrees_kept _ _ Hst4) as Hk34.
  pose proof (treesKept_trans _ _ _ Hk13 Hk34) as Hk14.
  assert (Use_Def use s4 = Ok (n, s4)) as Hdef4 by by eapply treesKept_Use_Def.
  assert (is_Some (nodes s4 !! m_user use)) as Huser4.
  { destruct Huser1 as [u Hu]. destruct (Hk14 _ _ Hu) as (u4 & Hu4 & _). by eexists. }
  assert (argFixable s4 use n) as Hfix4.
  { eapply treesKept_argFixable; [exact Hk14|done|by eexists|done]. }
  destruct (Hk14 _ _ Ht1) as (t4 & Ht4 & Hut4).
  destruct (Hk34 _ _ Hk3) as (lea4 & Hlea4 & Hul4).
  destruct (Hk34 _ _ HSk3) as (ind4 & Hind4 & Hui4).
  assert (Use_Splice n (S k) s4 = Ok (tt, s4)) as Hsp.
  { assert (LinearOrder s4 ((l1 ++ [k]) ++ S k :: n :: l2)) as Hlo4' by relist Hlo4.
    destruct (LinearOrder_prev _ _ _ _ _ Hlo4') as (t4' & Ht4' & Hprev).
    eapply Use_Splice_here; [exact Ht4'|]. by right; left. }
  destruct (Use_ReplaceWith_frame s4 s4 use n (S k) Hdef4 Hsp (sameTrees_refl _) Huser4
              (ex_intro _ _ Ht4) (ex_intro _ _ Hind4) Hfix4)
    as (use' & s5 & Hrun5 & Hlo5 & Hdef5 & Hlen5 & Hfr5).
  assert (Use_Redirect use (S k) s4 = Ok (use', s5)) as Hred5.
  { revert Hrun5. unfold Use_ReplaceWith.
    by rewrite (bind_run _ _ _ _ _ Hdef4), (bind_run _ _ _ _ _ Hsp). }
  pose proof (Pres_kept_Redirect gtAddrMode use (S k)
                (fun e v x => ltac:(by destruct e)) (fun _ _ => eq_refl)
                (fun _ _ => eq_refl) _ _ _ Hred5) as Hmode5.
  specialize (Hlo5 _ Hlo4).
  change (l1 ++ k :: S k :: n :: l2) with (l1 ++ [k; S k] ++ n :: l2) in Hlo5.
  rewrite app_assoc in Hlo5.
  destruct (Range_Remove_spec _ _ _ _ Hlo5) as (s6 & Hrun6 & Hlo6 & Hst6 & Hsr6 & _).
  pose proof (sameTrees_kept _ _ Hst6) as Hk56.
  assert (forall e, m_edge use = Some e -> k <> edgeOwner e /\ S k <> edgeOwner e) as Hown.
  { intros e He. apply Use_Def_inv in Hdef as [_ Hd]. rewrite He in Hd.
    destruct Hd as (o & Ho & _). apply lookup_lt_Some in Ho. fold k in Ho. lia. }
  destruct (Hfr5 _ _ Hlea4) as (lea5 & Hlea5 & Hol5 & Htl5 & _ & Hopl5).
  destruct (Hfr5 _ _ Hind4) as (ind5 & Hind5 & Hoi5 & Hti5 & _ & Hopi5).
  destruct (Hmode5 _ _ Hlea4) as (lea5' & Hlea5' & Hml5).
  rewrite Hlea5 in Hlea5'. injection Hlea5' as <-.
  destruct Hopl5 as [Hl1 Hl2]; [intros e He; by apply Hown|].
  destruct Hopi5 as [Hi1 _]; [intros e He; by apply Hown|].
  destruct (Hk56 _ _ Hlea5) as (lea6 & Hlea6 & Hul6).
  destruct (Hk56 _ _ Hind5) as (ind6 & Hind6 & Hui6).
  exists use', s6, lea6, ind6. split.
  { cbn [RewriteNode_dispatch]. rewrite HF. unfold RewriteSIMDNode. rewrite Hf. cbn [negb].
    rewrite (bind_run _ _ _ _ _ (getNode_run _ _ _ Ht)).
    rewrite (bind_run _ _ _ _ _ (setType_when_run _ _ _ _ _ Ht)).
    destruct (decide (gtSIMDIntrinsicID (gtSIMD t) = SIMDIntrinsicInitArray)); [|done].
    fold tyn. fold t1. fold s1.
    rewrite (bind_run _ _ _ _ _ Hnew1).
    rewrite (bind_run _ _ _ _ _ Hnew2).
    rewrite (bind_run _ _ _ _ _ Hrun4).
    rewrite (bind_run _ _ _ _ _ Hrun5).
    by rewrite (bind_run _ _ _ _ _ Hrun6). }
  split.
  { rewrite (sameTrees_length _ _ Hst6), Hlen5, (sameTrees_length _ _ Hst4). simpl.
    rewrite !length_app, length_insert. simpl. unfold k. lia. }
  split; [exact Hlea6|].
  split; [by rewrite (unlinked_oper _ _ Hul6), Hol5, (unlinked_oper _ _ Hul4)|].
  split; [by rewrite (unlinked_type _ _ Hul6), Htl5, (unlinked_type _ _ Hul4)|].
  split; [by rewrite (unlinked_op1 _ _ Hul6), Hl1, (unlinked_op1 _ _ Hul4)|].
  split; [by rewrite (unlinked_op2 _ _ Hul6), Hl2, (unlinked_op2 _ _ Hul4)|].
  split.
  { rewrite (f_equal gtAddrMode Hul6 : gtAddrMode lea6 = gtAddrMode lea5), Hml5.
    by rewrite (f_equal gtAddrMode Hul4 : gtAddrMode lea4 = gtAddrMode lea0). }
  split; [exact Hind6|].
  split; [by rewrite (unlinked_oper _ _ Hui6), Hoi5, (unlinked_oper _ _ Hui4)|].
  split; [by rewrite (unlinked_type _ _ Hui6), Hti5, (unlinked_type _ _ Hui4)|].
  split; [by rewrite (unlinked_op1 _ _ Hui6), Hi1, (unlinked_op1 _ _ Hui4)|].
  split.
  { rewrite <- app_assoc in Hlo6. exact Hlo6. }
  by eapply treesKept_Use_Def.
Qed.

End Proofs.

(** ** The rules on the sample blocks *)

#[local] Existing Instance sample_flags.
#[local] Existing Instance sample_jit.

Lemma store_lcl_flags_witness :
  exists s' st,
    RewriteAssignmentIntoStoreLclCore 2 0 (Some 1) GT_LCL_VAR
      (asgBlock GT_LCL_VAR 0x40000000 0x21) = Ok (tt, s')
    /\ nodes s' !! 2 = Some st
    /\ gtOper st = GT_STORE_LCL_VAR
    /\ Z.land (gtFlags st) GTF_LIVENESS_MASK = 0x40000000%Z
    /\ Z.land (gtFlags st) GTF_REVERSE_OPS = 0%Z.
Proof.
  destruct (store_lcl_flags (asgBlock GT_LCL_VAR 0x40000000 0x21) 2 0 (Some 1)
              GT_LCL_VAR
              (mkNode GT_ASG TYP_INT 0x21 (Some 1) None (Some 0) (Some 1))
              (mkNode GT_LCL_VAR TYP_INT 0x40000000 None (Some 1) None None))
    as (s' & st & Hrun & Hst & Hform & Hlive & Hrev & _);
    [reflexivity|reflexivity|reflexivity|reflexivity|reflexivity|reflexivity|].
  exists s', st. split; [exact Hrun|]. split; [exact Hst|].
  split; [by injection Hform|]. split; [exact Hlive|exact Hrev].
Defined.

Lemma assignment_without_store_form_aborts_witness :
  exists e, RewriteAssignment (GetDummyUse 2) (asgBlock GT_CNS_INT 0 1) = Err e
            /\ isFatal e = true.
Proof.
  apply (assignment_without_store_form_aborts (GetDummyUse 2) (asgBlock GT_CNS_INT 0 1) 2
           (mkNode GT_ASG TYP_INT 1 (Some 1) None (Some 0) (Some 1)) 0
           (mkNode GT_CNS_INT TYP_INT 0 None (Some 1) None None));
    reflexivity.
Defined.

Lemma address_rewrite_witness :
  exists use' s' loc',
    RewriteAddress (GetDummyUse 1) (addrBlock GT_LCL_VAR) = Ok (use', s')
    /\ nodes s' !! 0 = Some loc'
    /\ gtOper loc' = GT_LCL_VAR_ADDR /\ gtType loc' = TYP_BYREF
    /\ LinearOrder s' [0].
Proof.
  destruct (address_rewrite (addrBlock GT_LCL_VAR) (GetDummyUse 1) 1
              (mkNode GT_ADDR TYP_BYREF 0 (Some 0) None (Some 0) None) 0
              (mkNode GT_LCL_VAR TYP_INT 0 None (Some 1) None None))
    as (Hlocal & _);
    [reflexivity|reflexivity|by eexists|exact I|reflexivity|reflexivity|reflexivity
    |reflexivity|].
  destruct (Hlocal GT_LCL_VAR_ADDR [] [] [])
    as (use' & s' & loc' & Hrun & Hl & Ho & Hty & _ & _ & Hlo);
    [reflexivity|apply LinearOrderb_sound; vm_compute; reflexivity|].
  by exists use', s', loc'.
Defined.

(** C7, last clause: the operand of the address-of node is a register
    variable, which is neither a plain local read, a class variable nor a
    dereference; the rewrite does not leave the tree alone, it aborts. *)
Lemma address_of_register_variable_counterexample :
  addrForm GT_REG_VAR = Err NoWayAssert
  /\ OperIsIndir GT_REG_VAR = false
  /\ RewriteAddress (GetDummyUse 1) (addrBlock GT_REG_VAR) = Err NoWayAssert.
Proof. vm_compute. repeat split. Qed.

Lemma arg_table_fixup_witness :
  exists s' c' tab',
    fgFixupArgTabEntryPtr 0 1 2 callBlock = Ok (tt, s')
    /\ nodes s' !! 0 = Some c'
    /\ fgArgInfo (gtCall c') = Some tab'
    /\ node <$> tab' = [2]
    /\ tableConsistent s' tab' [2].
Proof.
  unshelve epose proof
    (arg_table_fixup callBlock 0
       (set_gtCall {| gtCallObjp := None; gtCallArgs := None; gtCallLateArgs := None;
                      gtCallMethHnd := 5;
                      fgArgInfo := Some [ {| node := 1; argNum := 0 |} ] |}
          (mkNode GT_CALL TYP_INT 2 None None None None))
       [ {| node := 1; argNum := 0 |} ] [1] 0 1 2
       (mkNode GT_CNS_INT TYP_INT 0 None None None None)
       (mkNode GT_CNS_INT TYP_INT 0 None None None None) _ _ _ _ _ _ _) as H;
    [reflexivity|reflexivity|reflexivity|reflexivity
    |apply Forall2_cons_2; [right; reflexivity|by apply Forall2_nil]
    |apply NoDup_singleton
    |reflexivity|].
  destruct H as (s' & c' & tab' & Hrun & Hc & Htab & Hcase & Hcons).
  exists s', c', tab'. split; [exact Hrun|]. split; [exact Hc|]. split; [exact Htab|].
  split; [|exact Hcons]. simpl in Hcase. by destruct Hcase as (-> & _).
Defined.

Lemma indirect_store_rewrite_witness :
  exists use' s' st,
    RewriteAssignment (GetDummyUse 3) indirBlock = Ok (use', s')
    /\ nodes s' !! 5 = Some st
    /\ gtOper st = GT_STOREIND /\ gtOp1 st = Some 0 /\ gtOp2 st = Some 2
    /\ LinearOrder s' [0; 2; 5]
    /\ Use_Def use' s' = Ok (5, s').
Proof.
  destruct (indirect_store_rewrite indirBlock (GetDummyUse 3) 3
              (mkNode GT_ASG TYP_INT 1 (Some 2) None (Some 1) (Some 2)) 1
              (mkNode GT_IND TYP_INT 0x4000 (Some 0) (Some 2) (Some 0) None)
              0 2 [0] [2] [])
    as (use' & s' & st & Hrun & _ & Hst & Ho & H1 & H2 & _ & _ & _ & _ & Hlo & Hdef & _);
    [reflexivity|reflexivity|reflexivity|reflexivity|reflexivity|reflexivity
    |apply LinearOrderb_sound; vm_compute; reflexivity
    |reflexivity|by eexists|exact I
    |reflexivity|reflexivity|reflexivity|reflexivity|reflexivity|reflexivity
    |by eexists|by eexists|].
  by exists use', s', st.
Defined.

Lemma comma_rewrite_witness :
  exists use' s',
    RewriteNode_dispatch (GetDummyUse 2) 2 GT_COMMA commaLIR = Ok (use', s')
    /\ LinearOrder s' [].
Proof.
  destruct (comma_rewrite (GetDummyUse 2) 2 commaLIR
              (mkNode GT_COMMA TYP_INT 0 (Some 1) None (Some 0) (Some 1)) 0 1
              (mkNode GT_CNS_INT TYP_INT 0 None (Some 1) None None)
              (mkNode GT_CNS_INT TYP_INT 0 (Some 0) (Some 2) None None)
              [] [0] [1] [])
    as (use' & s' & Hrun & Hlo & _);
    [apply LinearOrderb_sound; vm_compute; reflexivity
    |reflexivity|reflexivity|reflexivity|reflexivity|reflexivity|reflexivity
    |apply (Postorder_node _ 0 [] []); [reflexivity|constructor]
    |apply (Postorder_node _ 1 [] []); [reflexivity|constructor]
    |apply operandsExistb_sound; vm_compute; reflexivity
    |apply validLocalsb_sound; vm_compute; reflexivity
    |reflexivity|by eexists|exact I|].
  by exists use', s'.
Defined.

(** C5, last consequence: with a valid IL offset on the statement, the
    phase turns the statement node into an IL-offset marker and puts it in
    the linear order; after the comma and its two effect-free operands are
    gone, the marker is still there, so the statement contributes one node
    to the sequence of the block.  Without an IL offset nothing is left. *)
Lemma statement_marker_remains_counterexample :
  blockOrder (stateAfter DoPhase (commaBlock (Some 3))) 0 = [3]
  /\ operOf (stateAfter DoPhase (commaBlock (Some 3))) 3 = Some GT_IL_OFFSET
  /\ blockOrder (stateAfter DoPhase (commaBlock None)) 0 = [].
Proof. vm_compute. repeat split. Qed.

(** C10, as stated, fails where a rule replaces a late argument of a call.
    The slot [EdgeOp1 2] holds the no-op wrapper 1, which carries the
    marker; its processing leaves the constant 0 in the slot, and the
    marker, which the constant did not carry, has been set on it
    (lines 148-151).  The wrapper itself still carries the marker. *)
Lemma late_marker_is_set_on_the_replacement_counterexample :
  readEdge (EdgeOp1 2) lateArgBlock = Ok (Some 1, lateArgBlock)
  /\ RewriteNode (EdgeOp1 2) [1; 3] lateArgBlock
     = Ok (tt, stateAfter (RewriteNode (EdgeOp1 2) [1; 3]) lateArgBlock)
  /\ readEdge (EdgeOp1 2) (stateAfter (RewriteNode (EdgeOp1 2) [1; 3]) lateArgBlock)
     = Ok (Some 0, stateAfter (RewriteNode (EdgeOp1 2) [1; 3]) lateArgBlock)
  /\ hasFlag (flagsOf lateArgBlock 0) GTF_LATE_ARG = false
  /\ hasFlag (flagsOf (stateAfter (RewriteNode (EdgeOp1 2) [1; 3]) lateArgBlock) 0)
       GTF_LATE_ARG = true.
Proof. vm_compute. repeat split. Qed.

Lemma late_arg_flag_unchanged_witness :
  hasFlag (flagsOf lateArgBlock 1) GTF_LATE_ARG = true
  /\ hasFlag (flagsOf (stateAfter (RewriteNode (EdgeOp1 2) [1; 3]) lateArgBlock) 1)
       GTF_LATE_ARG
     = hasFlag (flagsOf lateArgBlock 1) GTF_LATE_ARG.
Proof.
  split; [reflexivity|].
  destruct (late_arg_flag_unchanged (EdgeOp1 2) [1; 3] lateArgBlock
              (stateAfter (RewriteNode (EdgeOp1 2) [1; 3]) lateArgBlock) 1)
    as (_ & _ & H); [reflexivity|reflexivity|reflexivity|reflexivity|reflexivity|].
  exact H.
Defined.

(** C6, on a statement whose intrinsic is the operand of a no-op wrapper:
    the rewrite of the intrinsic into a user call does not return.  The
    call is written into the slot of the wrapper (line 251) before the
    argument table is looked at (line 281); [isNodeCallArg] then finds the
    wrapper over a call and answers that call, the new one, as the call
    whose argument the intrinsic is (lines 43-46); the intrinsic has no
    entry in the table of the new call, which lists its operands, and the
    update of the table aborts.  No ancestor is flagged and the stack is not
    updated; the phase aborts with it. *)
Theorem intrinsic_under_nop_aborts :
  readEdge (EdgeOp1 3) intrinsicUnderNop = Ok (Some 2, intrinsicUnderNop)
  /\ operOf intrinsicUnderNop 2 = Some GT_INTRINSIC
  /\ operOf intrinsicUnderNop 3 = Some GT_NOP
  /\ RewriteIntrinsicAsUserCall (EdgeOp1 3) [2; 3] 4 intrinsicUnderNop = Err NoWayAssert
  /\ DoPhase intrinsicUnderNop = Err NoWayAssert.
Proof. vm_compute. repeat split. Qed.

Lemma intrinsic_as_user_call_witness :
  exists s' call,
    RewriteIntrinsicAsUserCall (EdgeOp1 3) [2; 3] 4 intrinsicBlock = Ok ([call; 3], s')
    /\ readEdge (EdgeOp1 3) s' = Ok (Some call, s')
    /\ (exists c, nodes s' !! call = Some c /\ gtOper c = GT_CALL
          /\ fgArgInfo (gtCall c)
             = Some [ {| node := 0; argNum := 0 |}; {| node := 1; argNum := 1 |} ])
    /\ flagsOf s' 3 = Z.lor (Z.lor (flagsOf intrinsicBlock 3) GTF_CALL)
                            (Z.land (flagsOf s' call) GTF_ALL_EFFECT).
Proof.
  destruct (intrinsic_as_user_call (EdgeOp1 3) 4 2 [3] intrinsicBlock
              {| gtOper := GT_INTRINSIC; gtType := TYP_INT; gtFlags := 0;
                 gtPrev := Some 1; gtNext := Some 3; gtOp1 := Some 0; gtOp2 := Some 1;
                 gtDynamicSize := None; gtLcl := noLcl; gtStmt := noStmt;
                 gtCall := noCall;
                 gtIntrinsic := {| gtIntrinsicId := 1; gtMethodHandle := 7 |};
                 gtSIMD := noSIMD; gtAddrMode := noAddrMode |})
    as (s' & call & argNodes & Hrun & _ & Hslot & (c & Hc & Ho & _ & _ & Htab) & Hfl & _);
    [reflexivity|reflexivity|reflexivity|reflexivity|reflexivity
    |intros o [[= <-]|[= <-]]; by eexists
    |apply linksExistb_sound; vm_compute; reflexivity
    |by eexists
    |apply ancestorsOkb_sound; vm_compute; reflexivity
    |intros c u Hc _; vm_compute in Hc; discriminate Hc|].
  exists s', call. split; [exact Hrun|]. split; [exact Hslot|].
  split; [exists c; split; [exact Hc|split; [exact Ho|exact Htab]]|].
  apply Hfl. apply list_elem_of_here.
Defined.

(** ** The further properties on the sample blocks *)

Lemma copyFlags_copies_masked_bits_witness :
  exists f,
    copyFlags 1 0 0x1F (asgBlock GT_LCL_VAR 0x3 0)
    = Ok (tt, set_nodes
                (<[1 := set_gtFlags f
                          (mkNode GT_CNS_INT TYP_INT 0 (Some 0) (Some 2) None None)]>
                   (nodes (asgBlock GT_LCL_VAR 0x3 0)))
                (asgBlock GT_LCL_VAR 0x3 0))
    /\ Z.land f 0x1F = 3%Z.
Proof.
  destruct (copyFlags_copies_masked_bits (asgBlock GT_LCL_VAR 0x3 0) 1 0 0x1F
              (mkNode GT_CNS_INT TYP_INT 0 (Some 0) (Some 2) None None)
              (mkNode GT_LCL_VAR TYP_INT 0x3 None (Some 1) None None))
    as (f & Hrun & _ & Hm); [reflexivity|reflexivity|].
  exists f. split; [exact Hrun|exact Hm].
Defined.

Lemma isNodeCallArg_looks_past_scaffolding_witness :
  isNodeCallArg [1; 2; 0] callListBlock = Ok (Some 0, callListBlock).
Proof.
  apply (isNodeCallArg_looks_past_scaffolding callListBlock 1 [2] 0 []
           (set_gtCall {| gtCallObjp := None; gtCallArgs := Some 2; gtCallLateArgs := None;
                          gtCallMethHnd := 5;
                          fgArgInfo := Some [ {| node := 1; argNum := 0 |} ] |}
              (mkNode GT_CALL TYP_INT 2 None None None None))).
  - apply Forall_singleton. eexists. split; [reflexivity|]. left. reflexivity.
  - reflexivity.
  - discriminate.
  - discriminate.
  - discriminate.
Defined.

Lemma isNodeCallArg_answers_a_call_witness :
  operOf callListBlock 0 = Some GT_CALL.
Proof.
  destruct (isNodeCallArg_answers_a_call [1; 2; 0] callListBlock (Some 0) callListBlock
              eq_refl) as [_ H].
  exact (proj1 (H 0 eq_refl)).
Defined.

Lemma store_lcl_names_the_local_witness :
  exists st,
    RewriteAssignmentIntoStoreLclCore 2 0 (Some 1) GT_LCL_VAR (asgBlock GT_LCL_VAR 0 1)
    = Ok (tt, set_nodes (<[2 := st]> (nodes (asgBlock GT_LCL_VAR 0 1)))
                (asgBlock GT_LCL_VAR 0 1))
    /\ gtLclNum (gtLcl st) = 0 /\ gtType st = TYP_INT /\ gtOp1 st = Some 1.
Proof.
  destruct (store_lcl_names_the_local (asgBlock GT_LCL_VAR 0 1) 2 0 (Some 1) GT_LCL_VAR
              (mkNode GT_ASG TYP_INT 1 (Some 1) None (Some 0) (Some 1))
              (mkNode GT_LCL_VAR TYP_INT 0 None (Some 1) None None))
    as (st & Hrun & Hnum & _ & Hty & Hop & _);
    [reflexivity|reflexivity|reflexivity|reflexivity|reflexivity|].
  exists st. split; [exact Hrun|]. split; [exact Hnum|]. split; [exact Hty|exact Hop].
Defined.

Lemma assignment_to_local_becomes_store_witness :
  exists s' st,
    RewriteAssignment (GetDummyUse 2) (asgBlock GT_LCL_VAR 0 1) = Ok (GetDummyUse 2, s')
    /\ nodes s' !! 2 = Some st
    /\ gtOper st = GT_STORE_LCL_VAR /\ gtOp1 st = Some 1
    /\ LinearOrder s' [1; 2].
Proof.
  destruct (assignment_to_local_becomes_store (asgBlock GT_LCL_VAR 0 1) (GetDummyUse 2) 2
              (mkNode GT_ASG TYP_INT 1 (Some 1) None (Some 0) (Some 1)) 0
              (mkNode GT_LCL_VAR TYP_INT 0 None (Some 1) None None) [] [1] [])
    as (s' & st & Hrun & Hst & Hform & Hop & _ & _ & Hlo & _);
    [apply LinearOrderb_sound; vm_compute; reflexivity
    |reflexivity|intros e He; discriminate He
    |reflexivity|reflexivity|reflexivity|reflexivity|reflexivity|reflexivity|].
  exists s', st. split; [exact Hrun|]. split; [exact Hst|].
  split; [by injection Hform|]. split; [exact Hop|exact Hlo].
Defined.

Lemma assignment_to_class_variable_in_place_witness :
  exists s',
    RewriteAssignment (GetDummyUse 2) (asgBlock GT_CLS_VAR 0 1) = Ok (GetDummyUse 2, s')
    /\ operOf s' 0 = Some GT_CLS_VAR_ADDR /\ operOf s' 2 = Some GT_STOREIND
    /\ LinearOrder s' [0; 1; 2].
Proof.
  destruct (assignment_to_class_variable_in_place (asgBlock GT_CLS_VAR 0 1) (GetDummyUse 2) 2
              (mkNode GT_ASG TYP_INT 1 (Some 1) None (Some 0) (Some 1)) 0
              (mkNode GT_CLS_VAR TYP_INT 0 None (Some 1) None None))
    as (s' & Hrun & Hs' & Hlo & _);
    [reflexivity|reflexivity|reflexivity|reflexivity|reflexivity|reflexivity|].
  exists s'. split; [exact Hrun|].
  split; [by rewrite Hs'|]. split; [by rewrite Hs'|].
  apply Hlo. apply LinearOrderb_sound. vm_compute. reflexivity.
Defined.

Lemma assignment_to_block_becomes_store_witness :
  exists use' s' st,
    RewriteAssignment (GetDummyUse 3) blkStoreLIR = Ok (use', s')
    /\ nodes s' !! 1 = Some st
    /\ gtOper st = GT_STORE_BLK /\ gtOp1 st = Some 0 /\ gtOp2 st = Some 2
    /\ LinearOrder s' [0; 2; 1].
Proof.
  destruct (assignment_to_block_becomes_store blkStoreLIR (GetDummyUse 3) 3
              (mkNode GT_ASG TYP_STRUCT 1 (Some 2) None (Some 1) (Some 2)) 1
              (mkNode GT_BLK TYP_STRUCT 0 (Some 0) (Some 2) (Some 0) None) [0] [2] [])
    as (use' & s' & st & Hrun & Hst & Ho & H1 & H2 & _ & Hlo & _);
    [apply LinearOrderb_sound; vm_compute; reflexivity
    |reflexivity|by eexists|exact I|intros e He; discriminate He
    |reflexivity|reflexivity|reflexivity|reflexivity|left; reflexivity|].
  exists use', s', st. split; [exact Hrun|]. split; [exact Hst|].
  split; [exact Ho|]. split; [exact H1|]. split; [exact H2|exact Hlo].
Defined.

Lemma list_node_leaves_the_order_witness :
  exists s',
    RewriteNode (EdgeStmtExpr 2) [1] (listThenLeaf GT_LIST) = Ok (tt, s')
    /\ LinearOrder s' [].
Proof.
  destruct (list_node_leaves_the_order (listThenLeaf GT_LIST) (EdgeStmtExpr 2) [1] 1
              (mkNode GT_LIST TYP_INT 0 (Some 0) None None None) [] [0] [])
    as (s' & Hrun & Hlo & _);
    [reflexivity|reflexivity|reflexivity
    |apply LinearOrderb_sound; vm_compute; reflexivity
    |apply plainListsb_sound; vm_compute; reflexivity
    |apply stopsListsb_sound; vm_compute; reflexivity|].
  exists s'. split; [exact Hrun|exact Hlo].
Defined.

Lemma plain_node_is_left_alone_witness :
  exists s',
    RewriteNode (EdgeStmtExpr 2) [1] (listThenLeaf GT_CNS_INT) = Ok (tt, s')
    /\ LinearOrder s' [1].
Proof.
  destruct (plain_node_is_left_alone (listThenLeaf GT_CNS_INT) (EdgeStmtExpr 2) [1] 1
              (mkNode GT_CNS_INT TYP_INT 0 (Some 0) None None None) [] [0] [])
    as (s' & Hrun & Hlo & _);
    [reflexivity|reflexivity|left; reflexivity|right; reflexivity
    |apply LinearOrderb_sound; vm_compute; reflexivity
    |apply plainListsb_sound; vm_compute; reflexivity
    |apply stopsListsb_sound; vm_compute; reflexivity|].
  exists s'. split; [exact Hrun|exact Hlo].
Defined.

Lemma unused_local_read_is_pruned_witness :
  exists s',
    RewriteNode (EdgeStmtExpr 2) [1] (listThenLeaf GT_LCL_VAR) = Ok (tt, s')
    /\ LinearOrder s' []
    /\ lvRefCnt <$> lvaTable s' = [1].
Proof.
  destruct (unused_local_read_is_pruned (listThenLeaf GT_LCL_VAR) (EdgeStmtExpr 2) [1] 1
              (mkNode GT_LCL_VAR TYP_INT 0 (Some 0) None None None)
              {| lvType := TYP_INT; lvExactSize := 4; lvRefCnt := 2;
                 lvPromotedIndependent := false |} [] [0] [])
    as (s' & Hrun & Hlo & _ & Htab & _);
    [reflexivity|reflexivity|left; reflexivity|simpl; lia|reflexivity
    |apply LinearOrderb_sound; vm_compute; reflexivity
    |apply plainListsb_sound; vm_compute; reflexivity
    |apply stopsListsb_sound; vm_compute; reflexivity|].
  exists s'. split; [exact Hrun|]. split; [exact Hlo|]. by rewrite Htab.
Defined.

Lemma argument_placeholder_leaves_the_order_witness :
  exists s',
    RewriteNode (EdgeStmtExpr 2) [1] (listThenLeaf GT_ARGPLACE) = Ok (tt, s')
    /\ LinearOrder s' [].
Proof.
  destruct (argument_placeholder_leaves_the_order (listThenLeaf GT_ARGPLACE)
              (EdgeStmtExpr 2) [1] 1
              (mkNode GT_ARGPLACE TYP_INT 0 (Some 0) None None None) [] [0] [])
    as (s' & Hrun & Hlo & _);
    [reflexivity|reflexivity|reflexivity
    |apply LinearOrderb_sound; vm_compute; reflexivity
    |apply plainListsb_sound; vm_compute; reflexivity
    |apply stopsListsb_sound; vm_compute; reflexivity|].
  exists s'. split; [exact Hrun|exact Hlo].
Defined.

Lemma wrapper_is_replaced_by_its_operand_witness :
  exists s',
    RewriteNode (EdgeOp1 2) [1; 2] boxUnderNeg = Ok (tt, s')
    /\ LinearOrder s' [0; 2]
    /\ readEdge (EdgeOp1 2) s' = Ok (Some 0, s').
Proof.
  destruct (wrapper_is_replaced_by_its_operand boxUnderNeg (EdgeOp1 2) [1; 2] 1
              (mkNode GT_BOX TYP_INT 0 (Some 0) (Some 2) (Some 0) None) 0 [] [] [] [2])
    as (s' & Hrun & Hlo & Hslot & _);
    [reflexivity|reflexivity|left; reflexivity|reflexivity|by eexists
    |intros u Hu Hc; injection Hu as <-; discriminate Hc
    |apply LinearOrderb_sound; vm_compute; reflexivity
    |apply plainListsb_sound; vm_compute; reflexivity
    |apply stopsListsb_sound; vm_compute; reflexivity|].
  exists s'. split; [exact Hrun|]. split; [exact Hlo|]. apply Hslot. simpl. lia.
Defined.

Lemma FixupIfSIMDLocal_retypes_vector_locals_witness :
  exists s',
    FixupIfSIMDLocal (JE := sample_simd) 0 (simdLeaf GT_STORE_LCL_FLD TYP_LONG)
    = Ok (tt, s')
    /\ operOf s' 0 = Some GT_STORE_LCL_VAR
    /\ gtType <$> nodes s' !! 0 = Some TYP_SIMD16
    /\ flagsOf s' 0 = 0%Z.
Proof.
  pose proof (FixupIfSIMDLocal_retypes_vector_locals (JE := sample_simd)
                (simdLeaf GT_STORE_LCL_FLD TYP_LONG) 0
                (mkNode GT_STORE_LCL_FLD TYP_LONG 0x40000000 None None None None)
                {| lvType := TYP_SIMD16; lvExactSize := 16; lvRefCnt := 2;
                   lvPromotedIndependent := false |}
                eq_refl eq_refl eq_refl eq_refl eq_refl) as H.
  cbv zeta in H. destruct H as [Hrun _].
  eexists. split; [exact Hrun|]. split; [reflexivity|]. split; reflexivity.
Defined.

Lemma simd_indirection_of_local_collapses_witness :
  exists use' s' a',
    RewriteSIMDOperand (JE := simd_env) (GetDummyUse 1) false
      (unaryBlock GT_LCL_VAR_ADDR TYP_BYREF GT_IND TYP_SIMD16) = Ok (use', s')
    /\ nodes s' !! 0 = Some a'
    /\ gtOper a' = GT_LCL_VAR /\ gtType a' = TYP_SIMD16
    /\ LinearOrder s' [0].
Proof.
  destruct (simd_indirection_of_local_collapses (JE := simd_env)
              (unaryBlock GT_LCL_VAR_ADDR TYP_BYREF GT_IND TYP_SIMD16) (GetDummyUse 1) 1
              (mkNode GT_IND TYP_SIMD16 0 (Some 0) None (Some 0) None) 0
              (mkNode GT_LCL_VAR_ADDR TYP_BYREF 0 None (Some 1) None None) [0] [] false)
    as (use' & s' & a' & Hrun & Ha & Hform & Hty & Hlo & _);
    [reflexivity|reflexivity
    |apply LinearOrderb_sound; vm_compute; reflexivity
    |reflexivity|by eexists|exact I
    |reflexivity|reflexivity|reflexivity|reflexivity|reflexivity|reflexivity|reflexivity|].
  exists use', s', a'. split; [exact Hrun|]. split; [exact Ha|].
  split; [by injection Hform|]. split; [exact Hty|exact Hlo].
Defined.

Lemma simd_indirection_is_coerced_in_place_witness :
  RewriteSIMDOperand (JE := sample_simd) (GetDummyUse 1) false
    (unaryBlock GT_LCL_VAR TYP_BYREF GT_OBJ TYP_SIMD16)
  = Ok (GetDummyUse 1,
        set_nodes
          (<[1 := set_gtOper GT_IND (mkNode GT_OBJ TYP_SIMD16 0 (Some 0) None (Some 0) None)]>
             (nodes (unaryBlock GT_LCL_VAR TYP_BYREF GT_OBJ TYP_SIMD16)))
          (unaryBlock GT_LCL_VAR TYP_BYREF GT_OBJ TYP_SIMD16)).
Proof.
  destruct (simd_indirection_is_coerced_in_place (JE := sample_simd)
              (unaryBlock GT_LCL_VAR TYP_BYREF GT_OBJ TYP_SIMD16) (GetDummyUse 1) 1
              (mkNode GT_OBJ TYP_SIMD16 0 (Some 0) None (Some 0) None) false
              eq_refl eq_refl) as [_ H].
  apply (H 0 (mkNode GT_LCL_VAR TYP_BYREF 0 None (Some 1) None None));
    reflexivity.
Defined.

Lemma DoPhase_on_blocks_without_statements_witness :
  exists s',
    DoPhase emptyBlocks = Ok (tt, s')
    /\ fgBBs s' = [ {| bbTreeList := None; bbLastNode := None; bbIsLIR := true |};
                    {| bbTreeList := None; bbLastNode := None; bbIsLIR := true |} ]
    /\ compRationalIRForm s' = true.
Proof.
  destruct (DoPhase_on_blocks_without_statements emptyBlocks)
    as (s' & Hrun & Hbb & _ & _ & Hflag);
    [repeat constructor|].
  exists s'. split; [exact Hrun|]. split; [exact Hbb|exact Hflag].
Defined.

Lemma RewriteNode_stays_in_its_block_witness :
  m_block (stateAfter (RewriteNode (EdgeStmtExpr 4) [3]) indirBlock) = m_block indirBlock
  /\ length (fgBBs (stateAfter (RewriteNode (EdgeStmtExpr 4) [3]) indirBlock)) = 1.
Proof.
  destruct (RewriteNode_stays_in_its_block (EdgeStmtExpr 4) [3] indirBlock
              (stateAfter (RewriteNode (EdgeStmtExpr 4) [3]) indirBlock))
    as ((Hm & Hl & _) & _); [vm_compute; reflexivity|].
  split; [exact Hm|exact Hl].
Defined.

Lemma DoPhase_establishes_linear_form_witness :
  compRationalIRForm (stateAfter DoPhase (commaBlock (Some 3))) = true
  /\ Forall (fun bb => bbIsLIR bb = true) (fgBBs (stateAfter DoPhase (commaBlock (Some 3)))).
Proof.
  destruct (DoPhase_establishes_linear_form (commaBlock (Some 3))
              (stateAfter DoPhase (commaBlock (Some 3))))
    as (Hflag & _ & Hlir); [vm_compute; reflexivity|].
  split; [exact Hflag|exact Hlir].
Defined.

Lemma DoPhase_only_drops_references_witness :
  varsKept unusedRead (stateAfter DoPhase unusedRead)
  /\ lvRefCnt <$> lvaTable (stateAfter DoPhase unusedRead) !! 0 = Some 1.
Proof.
  split; [|vm_compute; reflexivity].
  apply (DoPhase_only_drops_references unusedRead (stateAfter DoPhase unusedRead)).
  vm_compute; reflexivity.
Defined.

Lemma simd_init_wraps_the_value_witness :
  exists s' w,
    RewriteAssignment_SIMDInit (JE := simd_env) 2 1 (Some 0)
      (mkSIMD (revAsgNodes GT_LCL_VAR TYP_SIMD16) (Some 0) (Some 2))
    = Ok (Some 4, s')
    /\ nodes s' !! 4 = Some w /\ gtOper w = GT_SIMD /\ gtOp1 w = Some 0
    /\ LinearOrder s' [0; 4; 1; 2].
Proof.
  destruct (simd_init_wraps_the_value (JE := simd_env)
              (mkSIMD (revAsgNodes GT_LCL_VAR TYP_SIMD16) (Some 0) (Some 2)) 2
              (mkNode GT_ASG TYP_SIMD16 0x21 (Some 1) None (Some 1) (Some 0)) 1
              (mkNode GT_LCL_VAR TYP_SIMD16 0 (Some 0) (Some 2) None None) 0
              (mkNode GT_CNS_INT TYP_INT 0 None (Some 1) None None) [] [2])
    as (s' & w & a' & Hrun & _ & Hw & Hk & _ & Hop & _ & _ & _ & _ & _ & _ & _ & Hlo);
    [reflexivity
    |apply LinearOrderb_sound; vm_compute; reflexivity
    |reflexivity|reflexivity|reflexivity|reflexivity|reflexivity|reflexivity
    |discriminate|reflexivity|].
  exists s', w. split; [exact Hrun|]. split; [exact Hw|].
  split; [exact Hk|]. split; [exact Hop|exact Hlo].
Defined.

Lemma class_variable_read_is_wrapped_witness :
  exists use' s' ind,
    RewriteNode_dispatch (JE := sample_xarch) {| m_edge := Some (EdgeOp1 1); m_user := 1 |}
      0 GT_CLS_VAR (unaryBlock GT_CLS_VAR TYP_INT GT_NEG TYP_INT) = Ok (use', s')
    /\ nodes s' !! 3 = Some ind /\ gtOper ind = GT_IND /\ gtOp1 ind = Some 0
    /\ LinearOrder s' [0; 3; 1]
    /\ Use_Def use' s' = Ok (3, s').
Proof.
  pose proof (class_variable_read_is_wrapped (JE := sample_xarch)
                (unaryBlock GT_CLS_VAR TYP_INT GT_NEG TYP_INT)
                {| m_edge := Some (EdgeOp1 1); m_user := 1 |} 0
                (mkNode GT_CLS_VAR TYP_INT 0 None (Some 1) None None)
                (mkNode GT_NEG TYP_INT 0 (Some 0) None (Some 0) None) [] [1]) as H.
  destruct H as (use' & s' & ind & n' & Hrun & _ & Hind & Hk & _ & Hop & _ & _ & _ & Hlo & Hdef);
    [reflexivity
    |apply LinearOrderb_sound; vm_compute; reflexivity
    |reflexivity|reflexivity
    |intros u Hu Hc; injection Hu as <-; discriminate
    |reflexivity|reflexivity|].
  exists use', s', ind. split; [exact Hrun|]. split; [exact Hind|].
  split; [exact Hk|]. split; [exact Hop|]. split; [exact Hlo|exact Hdef].
Defined.

Lemma vector_block_kept_only_as_destination_witness :
  RewriteNode_dispatch (JE := sample_simd) (GetDummyUse 1) 1 GT_OBJ
    (unaryBlock GT_LCL_VAR TYP_BYREF GT_OBJ TYP_SIMD16)
  = Ok (GetDummyUse 1,
        set_nodes
          (<[1 := set_gtOper GT_IND (mkNode GT_OBJ TYP_SIMD16 0 (Some 0) None (Some 0) None)]>
             (nodes (unaryBlock GT_LCL_VAR TYP_BYREF GT_OBJ TYP_SIMD16)))
          (unaryBlock GT_LCL_VAR TYP_BYREF GT_OBJ TYP_SIMD16)).
Proof.
  pose proof (vector_block_kept_only_as_destination (JE := sample_simd)
                (unaryBlock GT_LCL_VAR TYP_BYREF GT_OBJ TYP_SIMD16) (GetDummyUse 1) 1
                (mkNode GT_OBJ TYP_SIMD16 0 (Some 0) None (Some 0) None)
                (mkNode GT_OBJ TYP_SIMD16 0 (Some 0) None (Some 0) None) 0
                (mkNode GT_LCL_VAR TYP_BYREF 0 None (Some 1) None None)
                eq_refl eq_refl eq_refl eq_refl (or_intror eq_refl) eq_refl eq_refl
                eq_refl eq_refl eq_refl) as H.
  cbv zeta in H. destruct H as [H _]. apply H. reflexivity.
Defined.

Lemma simd_node_retypes_struct_operands_witness :
  exists ns',
    RewriteNode_dispatch (JE := sample_simd) (GetDummyUse 1) 1 GT_SIMD
      (simdOver (SIMDIntrinsicOther 3) TYP_STRUCT)
    = Ok (GetDummyUse 1, set_nodes ns' (simdOver (SIMDIntrinsicOther 3) TYP_STRUCT))
    /\ gtType <$> ns' !! 0 = Some TYP_SIMD16
    /\ gtType <$> ns' !! 1 = Some TYP_SIMD16.
Proof.
  pose proof (simd_node_retypes_struct_operands (JE := sample_simd)
                (simdOver (SIMDIntrinsicOther 3) TYP_STRUCT) (GetDummyUse 1) 1
                (set_gtSIMD_of {| gtSIMDIntrinsicID := SIMDIntrinsicOther 3;
                                  gtSIMDBaseType := TYP_FLOAT; gtSIMDSize := 16 |}
                   (mkNode GT_SIMD TYP_SIMD16 0 (Some 0) None (Some 0) None))
                eq_refl eq_refl eq_refl) as H.
  cbv zeta in H.
  destruct H as (ns' & Hrun & _ & Hpt);
    [discriminate|discriminate|discriminate
    |intros op [[= <-]|[=]]; by eexists|].
  exists ns'. split; [exact Hrun|].
  split.
  - by rewrite (Hpt 0 _ eq_refl).
  - by rewrite (Hpt 1 _ eq_refl).
Defined.

Lemma simd_array_init_becomes_load_witness :
  exists use' s' lea ind,
    RewriteNode_dispatch (JE := sample_simd) (GetDummyUse 1) 1 GT_SIMD
      (simdOver SIMDIntrinsicInitArray TYP_BYREF) = Ok (use', s')
    /\ nodes s' !! 3 = Some lea /\ gtOper lea = GT_LEA /\ gtOp1 lea = Some 0
    /\ nodes s' !! 4 = Some ind /\ gtOper ind = GT_IND /\ gtType ind = TYP_SIMD16
    /\ gtOp1 ind = Some 3
    /\ LinearOrder s' [0; 3; 4].
Proof.
  destruct (simd_array_init_becomes_load (JE := sample_simd)
              (simdOver SIMDIntrinsicInitArray TYP_BYREF) (GetDummyUse 1) 1
              (set_gtSIMD_of {| gtSIMDIntrinsicID := SIMDIntrinsicInitArray;
                                gtSIMDBaseType := TYP_FLOAT; gtSIMDSize := 16 |}
                 (mkNode GT_SIMD TYP_SIMD16 0 (Some 0) None (Some 0) None))
              [0] [])
    as (use' & s' & lea & ind & Hrun & _ & Hlea & Hol & _ & Hl1 & _ & _
        & Hind & Hoi & Hti & Hi1 & Hlo & _);
    [reflexivity|reflexivity
    |apply LinearOrderb_sound; vm_compute; reflexivity
    |reflexivity|by eexists|exact I|reflexivity|reflexivity
    |intros op [[= <-]|[=]]; by eexists|].
  exists use', s', lea, ind. split; [exact Hrun|]. split; [exact Hlea|].
  split; [exact Hol|]. split; [exact Hl1|]. split; [exact Hind|].
  split; [exact Hoi|]. split; [exact Hti|]. split; [exact Hi1|exact Hlo].
Defined.
